(** * za-utils: the expiring containers [ExpiringMap] and [ExpiringSet]

    A shallow embedding of [src/expiring-map.ts], [src/expiring-set.ts] and
    of [toSync] from [src/async.ts], together with the two runtime
    facilities they rest on: the built-in ordered [Map] and the timer
    facility ([setTimeout] / [clearTimeout]).  After the containers come
    [delay] and [delayUntil] of [src/async.ts], the [Mutex] of
    [src/mutex.ts] that waits with [delayUntil], and [setdefault] and
    [setdefault2] of [src/map.ts].

    Conventions of the embedding.
    - A JavaScript number that holds a time (a [Date.now()] timestamp or a
      duration in milliseconds) is an integer of [Z]; [undefined] is [None].
    - A container method runs to completion at one instant: every
      [Date.now()] read inside one call yields the same [now].
    - User callbacks are calls into user code.  The user code owns a state
      of type [U] that a callback may read and update, it is handed a
      read-only view of the container, and it completes in one of four
      ways ([CbOutcome]).  A callback that calls back into the container
      to mutate it is outside the model.
    - An [async] method is modelled by the state it leaves and by how the
      promise it returns settles ([Settled]); [expireAll] is also followed
      in time, while promises of its callbacks are pending ([Timed]).
    - The two-level map of [setdefault2] holds references to its inner
      maps, which live in a heap, so that one inner map can stand under
      several first keys. *)

From Stdlib Require Import ZArith List Bool Arith Lia.
Import ListNotations.

Set Implicit Arguments.

Local Open Scope Z_scope.

(** ** Completions of user callbacks and of promises *)

(** How a call [cb(...)] of a user callback of type
    [(...) => void | Promise<void>] ends: it returns, it throws, or it
    returns a promise that is later fulfilled or rejected. *)
Inductive CbOutcome (Err : Type) : Type :=
| Returns
| Throws (e : Err)
| Resolves
| Rejects (e : Err).
Arguments Returns {Err}.
Arguments Throws {Err} e.
Arguments Resolves {Err}.
Arguments Rejects {Err} e.

(** How a promise settles. *)
Inductive Settled (Err A : Type) : Type :=
| Fulfilled (a : A)
| Rejected (e : Err).
Arguments Fulfilled {Err A} a.
Arguments Rejected {Err A} e.

(** [await cb(...)] inside an [async] function: a synchronous throw and a
    rejected promise both reject the enclosing promise. *)
Definition await {Err : Type} (o : CbOutcome Err) : Settled Err unit :=
  match o with
  | Returns | Resolves => Fulfilled tt
  | Throws e | Rejects e => Rejected e
  end.

(** [await Promise.all(ps)]: fulfilled when every member is fulfilled;
    otherwise rejected with the reason of the member that rejects first in
    time.  Settlement times are not part of the model, so a rejection
    carries every candidate reason, in the order of [ps]. *)
Inductive AllSettled (Err : Type) : Type :=
| AllFulfilled
| AllRejected (reasons : list Err).
Arguments AllFulfilled {Err}.
Arguments AllRejected {Err} reasons.

Definition rejections {Err A : Type} (ps : list (Settled Err A)) : list Err :=
  flat_map (fun p => match p with Fulfilled _ => [] | Rejected e => [e] end) ps.

Definition Promise_all {Err A : Type} (ps : list (Settled Err A)) : AllSettled Err :=
  match rejections ps with
  | [] => AllFulfilled
  | es => AllRejected es
  end.

(** ** Promises in time

    [Settled] says how a promise settles, not when.  Where the moment
    matters, a promise that an [async] method hands back is told apart by
    what the method awaits.  It is [Done] when the method awaits nothing
    that is still running: it called no user code, or the callback has
    returned a value that is no promise, or the callback has thrown; a
    promise that is rejected because the callback threw is rejected by the
    time the method hands it back.  It [Waits] when the callback returned a
    promise, which the method awaits: it stays pending until that promise
    settles, and when that happens is up to the user code.  Either way [r]
    is how the promise settles in the end. *)
Inductive Timed (Err A : Type) : Type :=
| Done (r : Settled Err A)
| Waits (r : Settled Err A).
Arguments Done {Err A} r.
Arguments Waits {Err A} r.

Definition eventually {Err A : Type} (p : Timed Err A) : Settled Err A :=
  match p with
  | Done r | Waits r => r
  end.

(** The positions in [ps] of the promises that wait, counted from [i]. *)
Fixpoint waiting_from {Err A : Type} (i : nat) (ps : list (Timed Err A)) :
  list nat :=
  match ps with
  | [] => []
  | Done _ :: ps' => waiting_from (S i) ps'
  | Waits _ :: ps' => i :: waiting_from (S i) ps'
  end.

Definition waiting {Err A : Type} (ps : list (Timed Err A)) : list nat :=
  waiting_from O ps.

(** The reason of the first member that was rejected because its callback
    threw.  The reactions of [Promise.all] to the members that are
    rejected when it is called run first, in the order of [ps]. *)
Fixpoint first_thrown {Err A : Type} (ps : list (Timed Err A)) : option Err :=
  match ps with
  | [] => None
  | Done (Rejected e) :: _ => Some e
  | _ :: ps' => first_thrown ps'
  end.

(** The reason of the first waiting member to be rejected, when the
    waiting members at the positions [settled] have settled, in that
    order. *)
Fixpoint first_rejected {Err A : Type} (ps : list (Timed Err A))
         (settled : list nat) : option Err :=
  match settled with
  | [] => None
  | i :: settled' =>
      match nth_error ps i with
      | Some (Waits (Rejected e)) => Some e
      | _ => first_rejected ps settled'
      end
  end.

(** [await Promise.all(ps)] in time.  [settled] lists the waiting members
    that have settled so far, by position in [ps] and in the order in
    which they settled.  The promise of [Promise.all] is rejected by the
    first rejection it learns of, whatever the other members are doing;
    it is fulfilled once every member is; until then it is pending
    ([None]). *)
Definition Promise_all_by {Err A : Type} (ps : list (Timed Err A))
           (settled : list nat) : option (Settled Err unit) :=
  match first_thrown ps with
  | Some e => Some (Rejected e)
  | None =>
      match first_rejected ps settled with
      | Some e => Some (Rejected e)
      | None =>
          if forallb (fun i => existsb (Nat.eqb i) settled) (waiting ps)
          then Some (Fulfilled tt)
          else None
      end
  end.

(** ** Completions of synchronous methods

    A synchronous method returns a value or throws.  The methods of the
    containers call into the built-in [Map] and the timer facility, which
    do not throw; what can throw in them is taking a property of
    [undefined], a [TypeError]. *)
Inductive Sync (A : Type) : Type :=
| Returned (a : A)
| TypeError.
Arguments Returned {A} a.
Arguments TypeError {A}.

(** ** The built-in [Map]

    ECMA-262 keeps the entries of a [Map] in a list, [[MapData]], in
    insertion order.  [delete] empties the slot of the entry and leaves the
    slot in place, [set] overwrites the value of a present key where it
    stands and appends an absent one, and an iterator is an index into the
    list, so that it stays meaningful while the map is mutated. *)
Module JsMap.
Section JsMap.
Variables K E : Type.
Variable K_eq_dec : forall x y : K, {x = y} + {x <> y}.

Definition MapData : Type := list (option (K * E)).

Fixpoint get (key : K) (d : MapData) : option E :=
  match d with
  | [] => None
  | Some (k, e) :: d' => if K_eq_dec k key then Some e else get key d'
  | None :: d' => get key d'
  end.

Fixpoint has (key : K) (d : MapData) : bool :=
  match d with
  | [] => false
  | Some (k, _) :: d' => if K_eq_dec k key then true else has key d'
  | None :: d' => has key d'
  end.

(** [delete] returns whether the key was found and the new data. *)
Fixpoint delete (key : K) (d : MapData) : bool * MapData :=
  match d with
  | [] => (false, [])
  | Some (k, e) :: d' =>
      if K_eq_dec k key then (true, None :: d')
      else let (b, d'') := delete key d' in (b, Some (k, e) :: d'')
  | None :: d' => let (b, d'') := delete key d' in (b, None :: d'')
  end.

Fixpoint set (key : K) (e : E) (d : MapData) : MapData :=
  match d with
  | [] => [Some (key, e)]
  | Some (k, e0) :: d' =>
      if K_eq_dec k key then Some (k, e) :: d'
      else Some (k, e0) :: set key e d'
  | None :: d' => None :: set key e d'
  end.

(** The live entries, in iteration order. *)
Fixpoint entries (d : MapData) : list (K * E) :=
  match d with
  | [] => []
  | Some p :: d' => p :: entries d'
  | None :: d' => entries d'
  end.

Definition keys (d : MapData) : list K := map fst (entries d).

Definition size (d : MapData) : nat := length (entries d).

(** One step of a map iterator standing at index [i]: skip the emptied
    slots, yield the first live entry and stand behind it. *)
Fixpoint first_live (d : MapData) (i : nat) : option (nat * (K * E)) :=
  match d with
  | [] => None
  | None :: d' => first_live d' (S i)
  | Some p :: _ => Some (S i, p)
  end.

Definition next (i : nat) (d : MapData) : option (nat * (K * E)) :=
  first_live (skipn i d) i.

(** [for (const [k, e] of map) body]: the loop over a live iterator of
    the map held in a state of type [S].  Each turn re-reads the map, so
    the body may mutate it.  [fuel] bounds the number of turns. *)
Fixpoint for_of {S : Type} (data : S -> MapData) (body : K * E -> S -> S)
         (fuel : nat) (i : nat) (s : S) : S :=
  match fuel with
  | O => s
  | Datatypes.S fuel' =>
      match next i (data s) with
      | None => s
      | Some (j, p) => for_of data body fuel' j (body p s)
      end
  end.

(** Removing the first occurrence of a key from a list of keys. *)
Fixpoint remove_key (key : K) (l : list K) : list K :=
  match l with
  | [] => []
  | k :: l' => if K_eq_dec k key then l' else k :: remove_key key l'
  end.

End JsMap.
End JsMap.

(** ** The runtime: clock, timer facility, user state

    [setTimeout] arms a single-shot timer and returns its handle;
    [clearTimeout] disarms it, and does nothing for [undefined] or for a
    handle that is not pending.  A pending timer may fire once the clock
    has reached [due] (no earlier; how much later is up to the event
    loop).  [Task] is what the armed function closes over.

    Node keeps the delay handed to [setTimeout] when it lies between 1 and
    [TIMEOUT_MAX] = 2^31 - 1 milliseconds and takes any other delay for
    1 millisecond ([timer_delay]). *)
Definition TimerId : Type := nat.

Definition TIMEOUT_MAX : Z := 2147483647.

Definition timer_delay (ms : Z) : Z :=
  if (ms <? 1) || (TIMEOUT_MAX <? ms) then 1 else ms.

Section Runtime.
Variables Task U Err : Type.

Record Timeout : Type := { due : Z; task : Task }.

Record Runtime : Type := {
  now : Z;                                (* Date.now() *)
  timers : list (TimerId * Timeout);      (* pending timers *)
  next_timer : TimerId;                   (* next fresh handle *)
  user : U;                               (* state of the user code *)
  unhandled : list Err                    (* unhandled rejections so far *)
}.

Definition with_timers (ts : list (TimerId * Timeout)) (r : Runtime) : Runtime :=
  {| now := now r; timers := ts; next_timer := next_timer r;
     user := user r; unhandled := unhandled r |}.

Definition with_user (u : U) (r : Runtime) : Runtime :=
  {| now := now r; timers := timers r; next_timer := next_timer r;
     user := u; unhandled := unhandled r |}.

Definition with_unhandled (es : list Err) (r : Runtime) : Runtime :=
  {| now := now r; timers := timers r; next_timer := next_timer r;
     user := user r; unhandled := es |}.

Definition setTimeout (t : Task) (ms : Z) (r : Runtime) : TimerId * Runtime :=
  (next_timer r,
   {| now := now r;
      timers := timers r ++
                [(next_timer r, {| due := now r + timer_delay ms; task := t |})];
      next_timer := S (next_timer r);
      user := user r; unhandled := unhandled r |}).

Definition is_timer (id : TimerId) (p : TimerId * Timeout) : bool :=
  Nat.eqb (fst p) id.

Definition cancel (id : TimerId) (ts : list (TimerId * Timeout)) :
  list (TimerId * Timeout) :=
  filter (fun p => negb (is_timer id p)) ts.

Definition clearTimeout (t : option TimerId) (r : Runtime) : Runtime :=
  match t with
  | Some id => with_timers (cancel id (timers r)) r
  | None => r
  end.

Definition pending (id : TimerId) (r : Runtime) : option Timeout :=
  option_map snd (find (is_timer id) (timers r)).

(** The clock moves on by [d] milliseconds. *)
Definition advance (d : Z) (r : Runtime) : Runtime :=
  {| now := now r + Z.max 0 d; timers := timers r; next_timer := next_timer r;
     user := user r; unhandled := unhandled r |}.

Definition ErrorCallback : Type := Err -> U -> U * option Err.
End Runtime.

Arguments Build_Timeout {Task} due task.
Arguments with_timers {Task U Err} ts r.
Arguments with_user {Task U Err} u r.
Arguments with_unhandled {Task U Err} es r.
Arguments setTimeout {Task U Err} t ms r.
Arguments cancel {Task} id ts.
Arguments clearTimeout {Task U Err} t r.
Arguments pending {Task U Err} id r.
Arguments advance {Task U Err} d r.

(** ** [toSync] (src/async.ts)

    [toSync(asyncFunc, errorCallback)] is the function
    [(...args) => { asyncFunc(...args).catch(handler) }] where [handler]
    passes the rejection to [errorCallback] when that is a function.  An
    error callback is [(error: unknown) => void]: it returns ([None]) or
    throws ([Some e]); when it throws, the promise made by [.catch] is
    rejected and nobody handles it.  [W] is the state the asynchronous
    function runs on. *)
Section ToSync.
Variables W U Err : Type.
Variable get_user : W -> U.
Variable set_user : U -> W -> W.
Variable add_unhandled : Err -> W -> W.

Definition toSync (asyncFunc : W -> W * Settled Err unit)
           (errorCallback : option (ErrorCallback U Err)) : W -> W :=
  fun w =>
    let (w1, r) := asyncFunc w in
    match r with
    | Fulfilled _ => w1
    | Rejected error =>
        match errorCallback with
        | Some cb =>
            let (u, thrown) := cb error (get_user w1) in
            match thrown with
            | None => set_user u w1
            | Some e => add_unhandled e (set_user u w1)
            end
        | None => w1
        end
    end.
End ToSync.

(** ** The invariant that ties entries to timers

    Stated once for both containers.  [E] is the entry record, [Task] what
    a timer closes over; [timer_of] and [expiry_of] read an entry,
    [closure key e] is the task that the timer of entry [e] under [key]
    closes over, and [owner] is the key a task will delete. *)
Module Store.
Section Store.
Variables K E Task : Type.
Variable timer_of : E -> option TimerId.
Variable expiry_of : E -> option Z.
Variable closure : K -> E -> Task.
Variable owner : Task -> K.

(** An entry with an expiry holds the handle of a pending timer that
    closes over the entry; an entry without one holds no handle.  The
    timer is due at the expiry only when the delay it was armed with was
    one that [setTimeout] keeps, so [due] is not tied to the expiry
    here. *)
Definition armed (ts : list (TimerId * Timeout Task)) (key : K) (e : E) : Prop :=
  match timer_of e with
  | Some id =>
      exists d at_, expiry_of e = Some d /\
                    In (id, {| due := at_; task := closure key e |}) ts
  | None => expiry_of e = None
  end.

Record wf (d : JsMap.MapData K E) (ts : list (TimerId * Timeout Task))
       (next : TimerId) : Prop := {
  (* a key is live in at most one slot *)
  wf_keys : NoDup (JsMap.keys d);
  (* handles of pending timers are distinct and were handed out *)
  wf_ids : NoDup (List.map fst ts);
  wf_fresh : forall id t, In (id, t) ts -> (id < next)%nat;
  (* every live entry is armed as it says *)
  wf_armed : forall key e, In (key, e) (JsMap.entries d) -> armed ts key e;
  (* every pending timer belongs to the live entry of its key *)
  wf_owned : forall id t, In (id, t) ts ->
      exists e, In (owner (task t), e) (JsMap.entries d) /\ timer_of e = Some id
}.
End Store.
End Store.

(** ** ExpiringMap (src/expiring-map.ts) *)
Module ExpiringMap.
Section ExpiringMap.
Variables K V U Err : Type.
Variable K_eq_dec : forall x y : K, {x = y} + {x <> y}.

(** What a callback can see of the container it is handed: the
    key/value pairs in iteration order. *)
Definition View : Type := list (K * V).

(** [MapExpiryCallback<K, V>]: called as [cb(key, value, map)]. *)
Definition MapExpiryCallback : Type := K -> V -> View -> U -> U * CbOutcome Err.

(** [MapForEachCallback<K, V>]: called as [cb(value, key, map)]. *)
Definition MapForEachCallback : Type := V -> K -> View -> U -> U * CbOutcome Err.

Record ExpiringMapOptions : Type := {
  defaultExpiryMs : option Z;
  defaultExpiryCallback : option MapExpiryCallback;
  expireErrorCallback : option (ErrorCallback U Err)
}.

(** The record stored under a key in [#map]. *)
Record Entry : Type := {
  expiry : option Z;
  timer : option TimerId;
  expiryCallback : option MapExpiryCallback;
  value : V
}.

(** What the function armed by [set] closes over: [key], [value], the
    resolved [expiryCallback] and the error callback given to [toSync]. *)
Record TimerTask : Type := {
  task_key : K;
  task_value : V;
  task_callback : option MapExpiryCallback;
  task_errorCallback : option (ErrorCallback U Err)
}.

Record World : Type := {
  rt : Runtime TimerTask U Err;
  options : option ExpiringMapOptions;          (* #options *)
  map : JsMap.MapData K Entry                   (* #map *)
}.

Definition with_rt (r : Runtime TimerTask U Err) (w : World) : World :=
  {| rt := r; options := options w; map := map w |}.

Definition with_map (d : JsMap.MapData K Entry) (w : World) : World :=
  {| rt := rt w; options := options w; map := d |}.

(** [this.#options?.field] *)
Definition option_of {A : Type} (field : ExpiringMapOptions -> option A)
           (w : World) : option A :=
  match options w with
  | Some o => field o
  | None => None
  end.

(** [new ExpiringMap(options)] in a runtime [r]. *)
Definition constructor (r : Runtime TimerTask U Err)
           (o : option ExpiringMapOptions) : World :=
  {| rt := r; options := o; map := [] |}.

Definition delete (key : K) (w : World) : bool * World :=
  let w1 := with_rt (clearTimeout
                       (match JsMap.get K_eq_dec key (map w) with
                        | Some entry => timer entry
                        | None => None
                        end) (rt w)) w in
  let (found, d) := JsMap.delete K_eq_dec key (map w1) in
  (found, with_map d w1).

Definition keys (w : World) : list K := JsMap.keys (map w).

(** [for (const key of this.keys()) this.delete(key)] over the live
    iterator; no turn adds a slot, so one turn per slot is enough. *)
Definition clear_fuel (fuel : nat) (w : World) : World :=
  JsMap.for_of map (fun p s => snd (delete (fst p) s)) fuel 0 w.

Definition clear (w : World) : World := clear_fuel (length (map w)) w.

Definition entries (w : World) : list (K * V) :=
  List.map (fun p => (fst p, value (snd p))) (JsMap.entries (map w)).

Definition values (w : World) : list V := List.map snd (entries w).

(** [[Symbol.iterator]()] *)
Definition iterator (w : World) : list (K * V) := entries w.

Definition get (key : K) (w : World) : option V :=
  option_map value (JsMap.get K_eq_dec key (map w)).

Definition has (key : K) (w : World) : bool := JsMap.has K_eq_dec key (map w).

Definition getExpiry (key : K) (w : World) : option Z :=
  match JsMap.get K_eq_dec key (map w) with
  | Some entry => expiry entry
  | None => None
  end.

Definition size (w : World) : nat := JsMap.size (map w).

(** The loop of [forEach].  A callback that throws leaves the loop, with
    [promises] as it stands, and rejects the promise of [forEach]; every
    other completion is pushed on [promises] ([Promise.all] takes a
    non-promise as fulfilled). *)
Fixpoint forEach_loop (callbackfn : MapForEachCallback) (this : View)
         (es : list (K * V)) (u : U) (promises : list (Settled Err unit)) :
  U * (Err * list (Settled Err unit) + list (Settled Err unit)) :=
  match es with
  | [] => (u, inr promises)
  | (k, v) :: es' =>
      let (u', o) := callbackfn v k this u in
      match o with
      | Throws e => (u', inl (e, promises))
      | Returns | Resolves =>
          forEach_loop callbackfn this es' u' (promises ++ [Fulfilled tt])
      | Rejects e =>
          forEach_loop callbackfn this es' u' (promises ++ [Rejected e])
      end
  end.

(** When the loop is left by a throw, [Promise.all] is not reached and
    the promises pushed so far are dropped with no handler: the
    rejections among them are unhandled. *)
Definition forEach (callbackfn : MapForEachCallback) (w : World) :
  World * AllSettled Err :=
  match forEach_loop callbackfn (entries w) (entries w) (user (rt w)) [] with
  | (u, inl (e, promises)) =>
      (with_rt (with_unhandled (unhandled (rt w) ++ rejections promises)
                               (with_user u (rt w))) w,
       AllRejected [e])
  | (u, inr promises) => (with_rt (with_user u (rt w)) w, Promise_all promises)
  end.

(** [a ??= b] *)
Definition nullish {A : Type} (a b : option A) : option A :=
  match a with
  | Some _ => a
  | None => b
  end.

Definition set (key : K) (value : V) (expiryMs : option Z)
           (expiryCallback : option MapExpiryCallback) (w : World) : World :=
  let w1 := snd (delete key w) in
  let expiryMs := nullish expiryMs (option_of defaultExpiryMs w1) in
  let expiryCallback := nullish expiryCallback (option_of defaultExpiryCallback w1) in
  match expiryMs with
  | Some ms =>
      let expiry := now (rt w1) + ms in
      let (timer, r) :=
        setTimeout {| task_key := key; task_value := value;
                      task_callback := expiryCallback;
                      task_errorCallback := option_of expireErrorCallback w1 |}
                   ms (rt w1) in
      with_map (JsMap.set K_eq_dec key
                  {| timer := Some timer; expiry := Some expiry;
                     expiryCallback := expiryCallback; value := value |}
                  (map w1)) (with_rt r w1)
  | None =>
      with_map (JsMap.set K_eq_dec key
                  {| timer := None; expiry := None;
                     expiryCallback := expiryCallback; value := value |}
                  (map w1)) w1
  end.

(** The entry object is mutated where it stands in [#map]: its slot
    keeps its place.  The [None] branch under [has] stands for the
    non-null assertion [get(key)!] and is never taken. *)
Definition clearExpiry (key : K) (w : World) : bool * World :=
  if JsMap.has K_eq_dec key (map w) then
    match JsMap.get K_eq_dec key (map w) with
    | Some entry =>
        let w1 := with_rt (clearTimeout (timer entry) (rt w)) w in
        (true,
         with_map (JsMap.set K_eq_dec key
                     {| expiry := None; timer := None;
                        expiryCallback := expiryCallback entry;
                        value := value entry |} (map w1)) w1)
    | None => (false, w)
    end
  else (false, w).

Definition setExpiry (key : K) (msFromNow : Z) (w : World) : bool * World :=
  if JsMap.has K_eq_dec key (map w) then
    match JsMap.get K_eq_dec key (map w) with
    | Some entry =>
        (true, set key (value entry) (Some msFromNow) (expiryCallback entry) w)
    | None => (false, w)
    end
  else (false, w).

Definition setMinimumExpiry (key : K) (minimumMsFromNow : Z) (w : World) :
  bool * World :=
  match getExpiry key w with
  | Some oldExpiry =>
      let targetExpiry := now (rt w) + minimumMsFromNow in
      if targetExpiry >? oldExpiry then setExpiry key minimumMsFromNow w
      else (true, w)
  | None => (false, w)
  end.

(** Calling an expiry callback on the container as it stands and
    awaiting it. *)
Definition call_expiryCallback (cb : MapExpiryCallback) (key : K) (v : V)
           (w : World) : World * Settled Err unit :=
  let (u, o) := cb key v (entries w) (user (rt w)) in
  (with_rt (with_user u (rt w)) w, await o).

Definition expire (key : K) (w : World) : World * Settled Err bool :=
  match JsMap.get K_eq_dec key (map w) with
  | Some entry =>
      let w1 := snd (delete key w) in
      match expiryCallback entry with
      | Some cb =>
          let (w2, r) := call_expiryCallback cb key (value entry) w1 in
          match r with
          | Fulfilled _ => (w2, Fulfilled true)
          | Rejected e => (w2, Rejected e)
          end
      | None => (w1, Fulfilled true)
      end
  | None => (w, Fulfilled false)
  end.

(** [for (const key of this.keys()) expiries.push(this.expire(key))]:
    [expire] is [async], so each call runs up to its [await] inside the
    turn and hands back its promise.  [expireAll] gives what its promise
    comes to once every promise of a callback has settled, with
    [AllRejected] listing the reasons it can be rejected with;
    [expireAll_by], further down, follows the promise in time. *)
Definition expireAll_fuel (fuel : nat) (w : World) :
  World * list (Settled Err bool) :=
  JsMap.for_of (fun s => map (fst s))
               (fun p s => let (w1, r) := expire (fst p) (fst s) in
                           (w1, snd s ++ [r]))
               fuel 0 (w, []).

Definition expireAll (w : World) : World * AllSettled Err :=
  let (w1, expiries) := expireAll_fuel (length (map w)) w in
  (w1, Promise_all expiries).

(** The [async] arrow function that [set] hands to [toSync]. *)
Definition timer_body (t : TimerTask) (w : World) : World * Settled Err unit :=
  let w1 := snd (delete (task_key t) w) in
  match task_callback t with
  | Some cb => call_expiryCallback cb (task_key t) (task_value t) w1
  | None => (w1, Fulfilled tt)
  end.

Definition add_unhandled (e : Err) (w : World) : World :=
  with_rt (with_unhandled (unhandled (rt w) ++ [e]) (rt w)) w.

(** The pending timer [id] fires: it leaves the pending set and the
    function that was armed, [toSync(async () => ..., errorCallback)], is
    called. *)
Definition fire (id : TimerId) (w : World) : option World :=
  match pending id (rt w) with
  | Some t =>
      Some (toSync (fun w => user (rt w))
                   (fun u w => with_rt (with_user u (rt w)) w)
                   add_unhandled
                   (timer_body (task t)) (task_errorCallback (task t))
                   (with_rt (with_timers (cancel id (timers (rt w))) (rt w)) w))
  | None => None
  end.

(** The event loop fires a timer no earlier than it is due. *)
Definition is_due (id : TimerId) (w : World) : bool :=
  match pending id (rt w) with
  | Some t => due t <=? now (rt w)
  | None => false
  end.

(** Time passes. *)
Definition tick (d : Z) (w : World) : World := with_rt (advance d (rt w)) w.

(** *** Well-formed states *)

Definition closure_of (o : option ExpiringMapOptions) (key : K) (e : Entry) :
  TimerTask :=
  {| task_key := key; task_value := value e;
     task_callback := expiryCallback e;
     task_errorCallback := match o with
                           | Some o => expireErrorCallback o
                           | None => None
                           end |}.

Record wf (w : World) : Prop := {
  wf_store : Store.wf timer expiry (closure_of (options w)) task_key
                      (map w) (timers (rt w)) (next_timer (rt w));
  (* a stored callback is the one given to [set] or else the default *)
  wf_default : forall key e, In (key, e) (JsMap.entries (map w)) ->
      expiryCallback e = None -> option_of defaultExpiryCallback w = None
}.

(** *** The interface as one type of calls

    [run] performs a call and says how it completes: a synchronous
    method returns or throws, an [async] one returns a promise that is
    fulfilled or rejected. *)
Inductive Call : Type :=
| CallSet (key : K) (value : V) (expiryMs : option Z)
          (expiryCallback : option MapExpiryCallback)
| CallGet (key : K)
| CallHas (key : K)
| CallDelete (key : K)
| CallClear
| CallGetExpiry (key : K)
| CallClearExpiry (key : K)
| CallSetExpiry (key : K) (msFromNow : Z)
| CallSetMinimumExpiry (key : K) (minimumMsFromNow : Z)
| CallSize
| CallEntries
| CallKeys
| CallValues
| CallIterator
| CallForEach (callbackfn : MapForEachCallback)
| CallExpire (key : K)
| CallExpireAll.

Inductive Completion : Type :=
| Normal
| Failure (reasons : list Err).

Definition completion_of_all (r : AllSettled Err) : Completion :=
  match r with
  | AllFulfilled => Normal
  | AllRejected es => Failure es
  end.

(** One call of a method: the state it leaves and how it completes.
    [clearExpiry], [setExpiry] and [setMinimumExpiry] are taken here on
    the path on which [get(key)!] finds the entry; [run_raw], further
    down, keeps the other path. *)
Definition run (c : Call) (w : World) : World * Completion :=
  match c with
  | CallSet key value expiryMs expiryCallback =>
      (set key value expiryMs expiryCallback w, Normal)
  | CallDelete key => (snd (delete key w), Normal)
  | CallClear => (clear w, Normal)
  | CallClearExpiry key => (snd (clearExpiry key w), Normal)
  | CallSetExpiry key ms => (snd (setExpiry key ms w), Normal)
  | CallSetMinimumExpiry key ms => (snd (setMinimumExpiry key ms w), Normal)
  | CallGet _ | CallHas _ | CallGetExpiry _ | CallSize
  | CallEntries | CallKeys | CallValues | CallIterator => (w, Normal)
  | CallForEach callbackfn =>
      let (w1, r) := forEach callbackfn w in (w1, completion_of_all r)
  | CallExpire key =>
      let (w1, r) := expire key w in
      (w1, match r with Fulfilled _ => Normal | Rejected e => Failure [e] end)
  | CallExpireAll =>
      let (w1, r) := expireAll w in (w1, completion_of_all r)
  end.

Definition may_call_back (c : Call) : bool :=
  match c with
  | CallForEach _ | CallExpire _ | CallExpireAll => true
  | _ => false
  end.

(** What can happen to a container: a call, a timer firing, time
    passing. *)
Inductive step : World -> World -> Prop :=
| step_call : forall c w, step w (fst (run c w))
| step_fire : forall id w w',
    is_due id w = true -> fire id w = Some w' -> step w w'
| step_tick : forall d w, step w (tick d w).

Inductive reachable : World -> Prop :=
| reachable_new : forall now0 u o,
    reachable (constructor {| now := now0; timers := []; next_timer := O;
                              user := u; unhandled := [] |} o)
| reachable_step : forall w w', reachable w -> step w w' -> reachable w'.

(** The order in which [set] leaves the keys [ks] inserted one after
    the other into a container whose keys are [acc]. *)
Definition insertion_order (ks : list K) (acc : list K) : list K :=
  fold_left (fun acc k => JsMap.remove_key K_eq_dec k acc ++ [k]) ks acc.

(** *** What forced expiry of several entries amounts to

    Specification, in the words of the spec: the entries [es] expire one
    after the other; each callback, if any, is called once with its key,
    its value and the container, from which the entry and those before
    it are gone.  Returns the user state and how each expiry settles. *)
Fixpoint expire_each (es : list (K * Entry)) (u : U) :
  U * list (Settled Err bool) :=
  match es with
  | [] => (u, [])
  | (key, entry) :: es' =>
      match expiryCallback entry with
      | Some cb =>
          let (u1, o) :=
            cb key (value entry)
               (List.map (fun p => (fst p, value (snd p))) es') u in
          let (u2, rs) := expire_each es' u1 in
          (u2, match await o with
               | Fulfilled _ => Fulfilled true
               | Rejected e => Rejected e
               end :: rs)
      | None =>
          let (u2, rs) := expire_each es' u in
          (u2, Fulfilled true :: rs)
      end
  end.

(** [for (const [key, value, ...] of contents) map.set(key, value, ...)] *)
Definition set_each
           (contents : list (K * V * option Z * option MapExpiryCallback))
           (w : World) : World :=
  fold_left (fun w c => match c with
                        | (key, value, expiryMs, expiryCallback) =>
                            set key value expiryMs expiryCallback w
                        end) contents w.

Definition key_of (c : K * V * option Z * option MapExpiryCallback) : K :=
  fst (fst (fst c)).

(** *** The synchronous methods with the failure they could have

    [this.#map.get(key)!] is [this.#map.get(key)] when the program runs:
    the non-null assertion is erased.  [clearExpiry] and [setExpiry] take
    properties of what it yields, under a test of [has(key)].  The
    definitions below keep the path on which it yields [undefined], which
    [clearExpiry] and [setExpiry] above fold into the result of an absent
    key. *)
Definition clearExpiry_raw (key : K) (w : World) : World * Sync bool :=
  if JsMap.has K_eq_dec key (map w) then
    match JsMap.get K_eq_dec key (map w) with
    | Some entry =>
        let w1 := with_rt (clearTimeout (timer entry) (rt w)) w in
        (with_map (JsMap.set K_eq_dec key
                     {| expiry := None; timer := None;
                        expiryCallback := expiryCallback entry;
                        value := value entry |} (map w1)) w1,
         Returned true)
    | None => (w, TypeError)
    end
  else (w, Returned false).

Definition setExpiry_raw (key : K) (msFromNow : Z) (w : World) :
  World * Sync bool :=
  if JsMap.has K_eq_dec key (map w) then
    match JsMap.get K_eq_dec key (map w) with
    | Some entry =>
        (set key (value entry) (Some msFromNow) (expiryCallback entry) w,
         Returned true)
    | None => (w, TypeError)
    end
  else (w, Returned false).

Definition setMinimumExpiry_raw (key : K) (minimumMsFromNow : Z) (w : World) :
  World * Sync bool :=
  match getExpiry key w with
  | Some oldExpiry =>
      let targetExpiry := now (rt w) + minimumMsFromNow in
      if targetExpiry >? oldExpiry then setExpiry_raw key minimumMsFromNow w
      else (w, Returned true)
  | None => (w, Returned false)
  end.

(** [run] with that failure told apart: the call throws, or it completes
    as [run] says. *)
Definition run_raw (c : Call) (w : World) : World * Sync Completion :=
  match c with
  | CallClearExpiry key =>
      let (w1, r) := clearExpiry_raw key w in
      (w1, match r with Returned _ => Returned Normal | TypeError => TypeError end)
  | CallSetExpiry key ms =>
      let (w1, r) := setExpiry_raw key ms w in
      (w1, match r with Returned _ => Returned Normal | TypeError => TypeError end)
  | CallSetMinimumExpiry key ms =>
      let (w1, r) := setMinimumExpiry_raw key ms w in
      (w1, match r with Returned _ => Returned Normal | TypeError => TypeError end)
  | _ => let (w1, r) := run c w in (w1, Returned r)
  end.

(** *** The calls that [forEach] makes of its callback

    One record per call [callbackfn(entry[1], entry[0], this)]: the
    arguments, the user state the call starts from, the user state it
    leaves and how it ends.  A call that throws is the last one. *)
Record ForEachCall : Type := {
  call_value : V;
  call_key : K;
  call_this : View;
  call_before : U;
  call_after : U;
  call_outcome : CbOutcome Err
}.

Fixpoint forEach_calls (callbackfn : MapForEachCallback) (this : View)
         (es : list (K * V)) (u : U) : list ForEachCall :=
  match es with
  | [] => []
  | (k, v) :: es' =>
      let (u', o) := callbackfn v k this u in
      {| call_value := v; call_key := k; call_this := this;
         call_before := u; call_after := u'; call_outcome := o |} ::
      match o with
      | Throws _ => []
      | Returns | Resolves | Rejects _ => forEach_calls callbackfn this es' u'
      end
  end.

(** What a call threw, for the first call of [calls] that threw. *)
Fixpoint thrown (calls : list ForEachCall) : option Err :=
  match calls with
  | [] => None
  | c :: calls' =>
      match call_outcome c with
      | Throws e => Some e
      | Returns | Resolves | Rejects _ => thrown calls'
      end
  end.

(** *** [expire] and [expireAll] in time

    [expire_start] is [expire] up to its [await]: it removes the entry,
    calls the callback and hands back the promise of [expire], told apart
    by whether it waits for a promise of the callback. *)
Definition expire_start (key : K) (w : World) : World * Timed Err bool :=
  match JsMap.get K_eq_dec key (map w) with
  | Some entry =>
      let w1 := snd (delete key w) in
      match expiryCallback entry with
      | Some cb =>
          let (u, o) := cb key (value entry) (entries w1) (user (rt w1)) in
          (with_rt (with_user u (rt w1)) w1,
           match o with
           | Returns => Done (Fulfilled true)
           | Throws e => Done (Rejected e)
           | Resolves => Waits (Fulfilled true)
           | Rejects e => Waits (Rejected e)
           end)
      | None => (w1, Done (Fulfilled true))
      end
  | None => (w, Done (Fulfilled false))
  end.

(** The loop of [expireAll]: every [expire] is started, none is
    awaited. *)
Definition expireAll_start_fuel (fuel : nat) (w : World) :
  World * list (Timed Err bool) :=
  JsMap.for_of (fun s => map (fst s))
               (fun p s => let (w1, r) := expire_start (fst p) (fst s) in
                           (w1, snd s ++ [r]))
               fuel 0 (w, []).

Definition expireAll_start (w : World) : World * list (Timed Err bool) :=
  expireAll_start_fuel (length (map w)) w.

(** The promise of [expireAll] once the promises awaited by the expiries
    at the positions [settled] have settled, in that order: [None] while
    it is pending. *)
Definition expireAll_by (settled : list nat) (w : World) :
  World * option (Settled Err unit) :=
  let (w1, expiries) := expireAll_start w in
  (w1, Promise_all_by expiries settled).

End ExpiringMap.

Arguments CallSet {K V U Err} key value expiryMs expiryCallback.
Arguments CallGet {K V U Err} key.
Arguments CallHas {K V U Err} key.
Arguments CallDelete {K V U Err} key.
Arguments CallClear {K V U Err}.
Arguments CallGetExpiry {K V U Err} key.
Arguments CallClearExpiry {K V U Err} key.
Arguments CallSetExpiry {K V U Err} key msFromNow.
Arguments CallSetMinimumExpiry {K V U Err} key minimumMsFromNow.
Arguments CallSize {K V U Err}.
Arguments CallEntries {K V U Err}.
Arguments CallKeys {K V U Err}.
Arguments CallValues {K V U Err}.
Arguments CallIterator {K V U Err}.
Arguments CallForEach {K V U Err} callbackfn.
Arguments CallExpire {K V U Err} key.
Arguments CallExpireAll {K V U Err}.
Arguments Normal {Err}.
Arguments Failure {Err} reasons.
End ExpiringMap.

(** ** ExpiringSet (src/expiring-set.ts) *)
Module ExpiringSet.
Section ExpiringSet.
Variables T U Err : Type.
Variable T_eq_dec : forall x y : T, {x = y} + {x <> y}.

(** What a callback can see of the set it is handed: the values in
    iteration order. *)
Definition View : Type := list T.

(** [SetExpiryCallback<T>]: called as [cb(value, set)]. *)
Definition SetExpiryCallback : Type := T -> View -> U -> U * CbOutcome Err.

(** [SetForEachCallback<T>]: called as [cb(value1, value2, set)]. *)
Definition SetForEachCallback : Type := T -> T -> View -> U -> U * CbOutcome Err.

Record ExpiringSetOptions : Type := {
  defaultExpiryMs : option Z;
  defaultExpiryCallback : option SetExpiryCallback;
  expireErrorCallback : option (ErrorCallback U Err)
}.

(** The record stored under a value in [#map]. *)
Record Entry : Type := {
  expiry : option Z;
  timer : option TimerId;
  expiryCallback : option SetExpiryCallback
}.

(** What the function armed by [add] closes over. *)
Record TimerTask : Type := {
  task_value : T;
  task_callback : option SetExpiryCallback;
  task_errorCallback : option (ErrorCallback U Err)
}.

Record World : Type := {
  rt : Runtime TimerTask U Err;
  options : option ExpiringSetOptions;          (* #options *)
  map : JsMap.MapData T Entry                   (* #map *)
}.

Definition with_rt (r : Runtime TimerTask U Err) (w : World) : World :=
  {| rt := r; options := options w; map := map w |}.

Definition with_map (d : JsMap.MapData T Entry) (w : World) : World :=
  {| rt := rt w; options := options w; map := d |}.

(** [this.#options?.field] *)
Definition option_of {A : Type} (field : ExpiringSetOptions -> option A)
           (w : World) : option A :=
  match options w with
  | Some o => field o
  | None => None
  end.

(** [new ExpiringSet(options)] in a runtime [r]. *)
Definition constructor (r : Runtime TimerTask U Err)
           (o : option ExpiringSetOptions) : World :=
  {| rt := r; options := o; map := [] |}.

Definition delete (value : T) (w : World) : bool * World :=
  let w1 := with_rt (clearTimeout
                       (match JsMap.get T_eq_dec value (map w) with
                        | Some entry => timer entry
                        | None => None
                        end) (rt w)) w in
  let (found, d) := JsMap.delete T_eq_dec value (map w1) in
  (found, with_map d w1).

(** [for (const key of this.#map.keys()) this.delete(key)] *)
Definition clear_fuel (fuel : nat) (w : World) : World :=
  JsMap.for_of map (fun p s => snd (delete (fst p) s)) fuel 0 w.

Definition clear (w : World) : World := clear_fuel (length (map w)) w.

Definition values (w : World) : list T := JsMap.keys (map w).

Definition keys (w : World) : list T := values w.

(** [[Symbol.iterator]()] *)
Definition iterator (w : World) : list T := values w.

Definition entries (w : World) : list (T * T) :=
  List.map (fun key => (key, key)) (JsMap.keys (map w)).

Definition has (value : T) (w : World) : bool := JsMap.has T_eq_dec value (map w).

Definition getExpiry (value : T) (w : World) : option Z :=
  match JsMap.get T_eq_dec value (map w) with
  | Some entry => expiry entry
  | None => None
  end.

Definition size (w : World) : nat := JsMap.size (map w).

(** The loop of [forEach]: [callbackfn(entry[1], entry[0], this)]. *)
Fixpoint forEach_loop (callbackfn : SetForEachCallback) (this : View)
         (es : list (T * T)) (u : U) (promises : list (Settled Err unit)) :
  U * (Err * list (Settled Err unit) + list (Settled Err unit)) :=
  match es with
  | [] => (u, inr promises)
  | (e0, e1) :: es' =>
      let (u', o) := callbackfn e1 e0 this u in
      match o with
      | Throws e => (u', inl (e, promises))
      | Returns | Resolves =>
          forEach_loop callbackfn this es' u' (promises ++ [Fulfilled tt])
      | Rejects e =>
          forEach_loop callbackfn this es' u' (promises ++ [Rejected e])
      end
  end.

(** As in the map, a throw drops the promises pushed so far. *)
Definition forEach (callbackfn : SetForEachCallback) (w : World) :
  World * AllSettled Err :=
  match forEach_loop callbackfn (values w) (entries w) (user (rt w)) [] with
  | (u, inl (e, promises)) =>
      (with_rt (with_unhandled (unhandled (rt w) ++ rejections promises)
                               (with_user u (rt w))) w,
       AllRejected [e])
  | (u, inr promises) => (with_rt (with_user u (rt w)) w, Promise_all promises)
  end.

(** [a ??= b] *)
Definition nullish {A : Type} (a b : option A) : option A :=
  match a with
  | Some _ => a
  | None => b
  end.

Definition add (value : T) (expiryMs : option Z)
           (expiryCallback : option SetExpiryCallback) (w : World) : World :=
  let w1 := snd (delete value w) in
  let expiryMs := nullish expiryMs (option_of defaultExpiryMs w1) in
  let expiryCallback := nullish expiryCallback (option_of defaultExpiryCallback w1) in
  match expiryMs with
  | Some ms =>
      let expiry := now (rt w1) + ms in
      let (timer, r) :=
        setTimeout {| task_value := value;
                      task_callback := expiryCallback;
                      task_errorCallback := option_of expireErrorCallback w1 |}
                   ms (rt w1) in
      with_map (JsMap.set T_eq_dec value
                  {| timer := Some timer; expiry := Some expiry;
                     expiryCallback := expiryCallback |}
                  (map w1)) (with_rt r w1)
  | None =>
      with_map (JsMap.set T_eq_dec value
                  {| timer := None; expiry := None;
                     expiryCallback := expiryCallback |}
                  (map w1)) w1
  end.

(** As in the map, the entry object is mutated where it stands. *)
Definition clearExpiry (value : T) (w : World) : bool * World :=
  if JsMap.has T_eq_dec value (map w) then
    match JsMap.get T_eq_dec value (map w) with
    | Some entry =>
        let w1 := with_rt (clearTimeout (timer entry) (rt w)) w in
        (true,
         with_map (JsMap.set T_eq_dec value
                     {| expiry := None; timer := None;
                        expiryCallback := expiryCallback entry |} (map w1)) w1)
    | None => (false, w)
    end
  else (false, w).

Definition setExpiry (value : T) (msFromNow : Z) (w : World) : bool * World :=
  if JsMap.has T_eq_dec value (map w) then
    match JsMap.get T_eq_dec value (map w) with
    | Some entry => (true, add value (Some msFromNow) (expiryCallback entry) w)
    | None => (false, w)
    end
  else (false, w).

Definition setMinimumExpiry (value : T) (minimumMsFromNow : Z) (w : World) :
  bool * World :=
  match getExpiry value w with
  | Some oldExpiry =>
      let targetExpiry := now (rt w) + minimumMsFromNow in
      if targetExpiry >? oldExpiry then setExpiry value minimumMsFromNow w
      else (true, w)
  | None => (false, w)
  end.

Definition call_expiryCallback (cb : SetExpiryCallback) (value : T)
           (w : World) : World * Settled Err unit :=
  let (u, o) := cb value (values w) (user (rt w)) in
  (with_rt (with_user u (rt w)) w, await o).

Definition expire (value : T) (w : World) : World * Settled Err bool :=
  match JsMap.get T_eq_dec value (map w) with
  | Some entry =>
      let w1 := snd (delete value w) in
      match expiryCallback entry with
      | Some cb =>
          let (w2, r) := call_expiryCallback cb value w1 in
          match r with
          | Fulfilled _ => (w2, Fulfilled true)
          | Rejected e => (w2, Rejected e)
          end
      | None => (w1, Fulfilled true)
      end
  | None => (w, Fulfilled false)
  end.

(** [for (const value of this.values()) expiries.push(this.expire(value))] *)
Definition expireAll_fuel (fuel : nat) (w : World) :
  World * list (Settled Err bool) :=
  JsMap.for_of (fun s => map (fst s))
               (fun p s => let (w1, r) := expire (fst p) (fst s) in
                           (w1, snd s ++ [r]))
               fuel 0 (w, []).

Definition expireAll (w : World) : World * AllSettled Err :=
  let (w1, expiries) := expireAll_fuel (length (map w)) w in
  (w1, Promise_all expiries).

(** The [async] arrow function that [add] hands to [toSync]. *)
Definition timer_body (t : TimerTask) (w : World) : World * Settled Err unit :=
  let w1 := snd (delete (task_value t) w) in
  match task_callback t with
  | Some cb => call_expiryCallback cb (task_value t) w1
  | None => (w1, Fulfilled tt)
  end.

Definition add_unhandled (e : Err) (w : World) : World :=
  with_rt (with_unhandled (unhandled (rt w) ++ [e]) (rt w)) w.

(** The pending timer [id] fires. *)
Definition fire (id : TimerId) (w : World) : option World :=
  match pending id (rt w) with
  | Some t =>
      Some (toSync (fun w => user (rt w))
                   (fun u w => with_rt (with_user u (rt w)) w)
                   add_unhandled
                   (timer_body (task t)) (task_errorCallback (task t))
                   (with_rt (with_timers (cancel id (timers (rt w))) (rt w)) w))
  | None => None
  end.

Definition is_due (id : TimerId) (w : World) : bool :=
  match pending id (rt w) with
  | Some t => due t <=? now (rt w)
  | None => false
  end.

Definition tick (d : Z) (w : World) : World := with_rt (advance d (rt w)) w.

(** *** Well-formed states *)

Definition closure_of (o : option ExpiringSetOptions) (value : T) (e : Entry) :
  TimerTask :=
  {| task_value := value;
     task_callback := expiryCallback e;
     task_errorCallback := match o with
                           | Some o => expireErrorCallback o
                           | None => None
                           end |}.

Record wf (w : World) : Prop := {
  wf_store : Store.wf timer expiry (closure_of (options w)) task_value
                      (map w) (timers (rt w)) (next_timer (rt w));
  wf_default : forall value e, In (value, e) (JsMap.entries (map w)) ->
      expiryCallback e = None -> option_of defaultExpiryCallback w = None
}.

(** *** The interface as one type of calls *)
Inductive Call : Type :=
| CallAdd (value : T) (expiryMs : option Z)
          (expiryCallback : option SetExpiryCallback)
| CallHas (value : T)
| CallDelete (value : T)
| CallClear
| CallGetExpiry (value : T)
| CallClearExpiry (value : T)
| CallSetExpiry (value : T) (msFromNow : Z)
| CallSetMinimumExpiry (value : T) (minimumMsFromNow : Z)
| CallSize
| CallEntries
| CallKeys
| CallValues
| CallIterator
| CallForEach (callbackfn : SetForEachCallback)
| CallExpire (value : T)
| CallExpireAll.

Inductive Completion : Type :=
| Normal
| Failure (reasons : list Err).

Definition completion_of_all (r : AllSettled Err) : Completion :=
  match r with
  | AllFulfilled => Normal
  | AllRejected es => Failure es
  end.

(** One call of a method: the state it leaves and how it completes.
    [clearExpiry], [setExpiry] and [setMinimumExpiry] are taken here on
    the path on which [get(key)!] finds the entry; [run_raw], further
    down, keeps the other path. *)
Definition run (c : Call) (w : World) : World * Completion :=
  match c with
  | CallAdd value expiryMs expiryCallback =>
      (add value expiryMs expiryCallback w, Normal)
  | CallDelete value => (snd (delete value w), Normal)
  | CallClear => (clear w, Normal)
  | CallClearExpiry value => (snd (clearExpiry value w), Normal)
  | CallSetExpiry value ms => (snd (setExpiry value ms w), Normal)
  | CallSetMinimumExpiry value ms => (snd (setMinimumExpiry value ms w), Normal)
  | CallHas _ | CallGetExpiry _ | CallSize
  | CallEntries | CallKeys | CallValues | CallIterator => (w, Normal)
  | CallForEach callbackfn =>
      let (w1, r) := forEach callbackfn w in (w1, completion_of_all r)
  | CallExpire value =>
      let (w1, r) := expire value w in
      (w1, match r with Fulfilled _ => Normal | Rejected e => Failure [e] end)
  | CallExpireAll =>
      let (w1, r) := expireAll w in (w1, completion_of_all r)
  end.

Definition may_call_back (c : Call) : bool :=
  match c with
  | CallForEach _ | CallExpire _ | CallExpireAll => true
  | _ => false
  end.

Inductive step : World -> World -> Prop :=
| step_call : forall c w, step w (fst (run c w))
| step_fire : forall id w w',
    is_due id w = true -> fire id w = Some w' -> step w w'
| step_tick : forall d w, step w (tick d w).

Inductive reachable : World -> Prop :=
| reachable_new : forall now0 u o,
    reachable (constructor {| now := now0; timers := []; next_timer := O;
                              user := u; unhandled := [] |} o)
| reachable_step : forall w w', reachable w -> step w w' -> reachable w'.

Definition insertion_order (vs : list T) (acc : list T) : list T :=
  fold_left (fun acc v => JsMap.remove_key T_eq_dec v acc ++ [v]) vs acc.

(** *** What forced expiry of several entries amounts to

    Specification, in the words of the spec: the entries [es] expire one
    after the other; each callback, if any, is called once with its value
    and the set, from which the entry and those before it are gone. *)
Fixpoint expire_each (es : list (T * Entry)) (u : U) :
  U * list (Settled Err bool) :=
  match es with
  | [] => (u, [])
  | (value, entry) :: es' =>
      match expiryCallback entry with
      | Some cb =>
          let (u1, o) := cb value (List.map fst es') u in
          let (u2, rs) := expire_each es' u1 in
          (u2, match await o with
               | Fulfilled _ => Fulfilled true
               | Rejected e => Rejected e
               end :: rs)
      | None =>
          let (u2, rs) := expire_each es' u in
          (u2, Fulfilled true :: rs)
      end
  end.

(** [for (const [value, ...] of contents) set.add(value, ...)] *)
Definition add_each
           (contents : list (T * option Z * option SetExpiryCallback))
           (w : World) : World :=
  fold_left (fun w c => match c with
                        | (value, expiryMs, expiryCallback) =>
                            add value expiryMs expiryCallback w
                        end) contents w.

Definition value_of (c : T * option Z * option SetExpiryCallback) : T :=
  fst (fst c).

(** *** The synchronous methods with the failure they could have

    As in the map: [this.#map.get(value)!] is [this.#map.get(value)] when
    the program runs, and the definitions below keep the path on which it
    yields [undefined]. *)
Definition clearExpiry_raw (value : T) (w : World) : World * Sync bool :=
  if JsMap.has T_eq_dec value (map w) then
    match JsMap.get T_eq_dec value (map w) with
    | Some entry =>
        let w1 := with_rt (clearTimeout (timer entry) (rt w)) w in
        (with_map (JsMap.set T_eq_dec value
                     {| expiry := None; timer := None;
                        expiryCallback := expiryCallback entry |} (map w1)) w1,
         Returned true)
    | None => (w, TypeError)
    end
  else (w, Returned false).

Definition setExpiry_raw (value : T) (msFromNow : Z) (w : World) :
  World * Sync bool :=
  if JsMap.has T_eq_dec value (map w) then
    match JsMap.get T_eq_dec value (map w) with
    | Some entry =>
        (add value (Some msFromNow) (expiryCallback entry) w, Returned true)
    | None => (w, TypeError)
    end
  else (w, Returned false).

Definition setMinimumExpiry_raw (value : T) (minimumMsFromNow : Z) (w : World) :
  World * Sync bool :=
  match getExpiry value w with
  | Some oldExpiry =>
      let targetExpiry := now (rt w) + minimumMsFromNow in
      if targetExpiry >? oldExpiry then setExpiry_raw value minimumMsFromNow w
      else (w, Returned true)
  | None => (w, Returned false)
  end.

Definition run_raw (c : Call) (w : World) : World * Sync Completion :=
  match c with
  | CallClearExpiry value =>
      let (w1, r) := clearExpiry_raw value w in
      (w1, match r with Returned _ => Returned Normal | TypeError => TypeError end)
  | CallSetExpiry value ms =>
      let (w1, r) := setExpiry_raw value ms w in
      (w1, match r with Returned _ => Returned Normal | TypeError => TypeError end)
  | CallSetMinimumExpiry value ms =>
      let (w1, r) := setMinimumExpiry_raw value ms w in
      (w1, match r with Returned _ => Returned Normal | TypeError => TypeError end)
  | _ => let (w1, r) := run c w in (w1, Returned r)
  end.

(** *** The calls that [forEach] makes of its callback

    One record per call [callbackfn(entry[1], entry[0], this)]. *)
Record ForEachCall : Type := {
  call_value1 : T;
  call_value2 : T;
  call_this : View;
  call_before : U;
  call_after : U;
  call_outcome : CbOutcome Err
}.

Fixpoint forEach_calls (callbackfn : SetForEachCallback) (this : View)
         (es : list (T * T)) (u : U) : list ForEachCall :=
  match es with
  | [] => []
  | (e0, e1) :: es' =>
      let (u', o) := callbackfn e1 e0 this u in
      {| call_value1 := e1; call_value2 := e0; call_this := this;
         call_before := u; call_after := u'; call_outcome := o |} ::
      match o with
      | Throws _ => []
      | Returns | Resolves | Rejects _ => forEach_calls callbackfn this es' u'
      end
  end.

Fixpoint thrown (calls : list ForEachCall) : option Err :=
  match calls with
  | [] => None
  | c :: calls' =>
      match call_outcome c with
      | Throws e => Some e
      | Returns | Resolves | Rejects _ => thrown calls'
      end
  end.

(** *** [expire] and [expireAll] in time *)
Definition expire_start (value : T) (w : World) : World * Timed Err bool :=
  match JsMap.get T_eq_dec value (map w) with
  | Some entry =>
      let w1 := snd (delete value w) in
      match expiryCallback entry with
      | Some cb =>
          let (u, o) := cb value (values w1) (user (rt w1)) in
          (with_rt (with_user u (rt w1)) w1,
           match o with
           | Returns => Done (Fulfilled true)
           | Throws e => Done (Rejected e)
           | Resolves => Waits (Fulfilled true)
           | Rejects e => Waits (Rejected e)
           end)
      | None => (w1, Done (Fulfilled true))
      end
  | None => (w, Done (Fulfilled false))
  end.

Definition expireAll_start_fuel (fuel : nat) (w : World) :
  World * list (Timed Err bool) :=
  JsMap.for_of (fun s => map (fst s))
               (fun p s => let (w1, r) := expire_start (fst p) (fst s) in
                           (w1, snd s ++ [r]))
               fuel 0 (w, []).

Definition expireAll_start (w : World) : World * list (Timed Err bool) :=
  expireAll_start_fuel (length (map w)) w.

Definition expireAll_by (settled : list nat) (w : World) :
  World * option (Settled Err unit) :=
  let (w1, expiries) := expireAll_start w in
  (w1, Promise_all_by expiries settled).

End ExpiringSet.

Arguments CallAdd {T U Err} value expiryMs expiryCallback.
Arguments CallHas {T U Err} value.
Arguments CallDelete {T U Err} value.
Arguments CallClear {T U Err}.
Arguments CallGetExpiry {T U Err} value.
Arguments CallClearExpiry {T U Err} value.
Arguments CallSetExpiry {T U Err} value msFromNow.
Arguments CallSetMinimumExpiry {T U Err} value minimumMsFromNow.
Arguments CallSize {T U Err}.
Arguments CallEntries {T U Err}.
Arguments CallKeys {T U Err}.
Arguments CallValues {T U Err}.
Arguments CallIterator {T U Err}.
Arguments CallForEach {T U Err} callbackfn.
Arguments CallExpire {T U Err} value.
Arguments CallExpireAll {T U Err}.
Arguments Normal {Err}.
Arguments Failure {Err} reasons.
End ExpiringSet.

(** ** Concrete containers, after the test suites

    Keys and values are integers; the user state is the list of keys whose
    expiry callback has run; an error is a number. *)
Module Examples.
Definition Log : Type := list Z.
Definition Error : Type := nat.

Definition MapWorld : Type := ExpiringMap.World Z Z Log Error.
Definition SetWorld : Type := ExpiringSet.World Z Log Error.

Definition start_map : Runtime (ExpiringMap.TimerTask Z Z Log Error) Log Error :=
  {| now := 1000; timers := []; next_timer := O; user := []; unhandled := [] |}.

Definition start_set : Runtime (ExpiringSet.TimerTask Z Log Error) Log Error :=
  {| now := 1000; timers := []; next_timer := O; user := []; unhandled := [] |}.

(** A callback that records its key and returns. *)
Definition record_key : ExpiringMap.MapExpiryCallback Z Z Log Error :=
  fun key _ _ log => (log ++ [key], Returns).

Definition record_value : ExpiringSet.SetExpiryCallback Z Log Error :=
  fun value _ log => (log ++ [value], Returns).

(** A callback that throws [7]. *)
Definition throw_seven : ExpiringMap.MapExpiryCallback Z Z Log Error :=
  fun _ _ _ log => (log, Throws 7%nat).

(** An [async] callback whose promise rejects with [7]. *)
Definition reject_seven : ExpiringMap.MapExpiryCallback Z Z Log Error :=
  fun _ _ _ log => (log, Rejects 7%nat).

(** An error callback that itself throws what it is given. *)
Definition rethrow : ErrorCallback Log Error :=
  fun error log => (log, Some error).

(** An error callback that records [-1] and returns. *)
Definition note_error : ErrorCallback Log Error :=
  fun _ log => (log ++ [-1], None).

Definition new_map : MapWorld := ExpiringMap.constructor start_map None.
Definition new_set : SetWorld := ExpiringSet.constructor start_set None.

(** The map of the test "expireAll": key 1 without expiry, key 2 with
    900 ms, key 4 with 7000 ms and a callback. *)
Definition three_map : MapWorld :=
  ExpiringMap.set Z.eq_dec 4 32 (Some 7000) (Some record_key)
    (ExpiringMap.set Z.eq_dec 2 90 (Some 900) None
       (ExpiringMap.set Z.eq_dec 1 1 None None new_map)).

Definition three_set : SetWorld :=
  ExpiringSet.add Z.eq_dec 4 (Some 7000) (Some record_value)
    (ExpiringSet.add Z.eq_dec 2 (Some 900) None
       (ExpiringSet.add Z.eq_dec 1 None None new_set)).

(** The keys 10, 20, 30 inserted in that order. *)
Definition contents : list (Z * Z * option Z * option (ExpiringMap.MapExpiryCallback Z Z Log Error)) :=
  [(10, 1, None, None); (20, 2, None, None); (30, 3, None, None)].

Definition set_contents : list (Z * option Z * option (ExpiringSet.SetExpiryCallback Z Log Error)) :=
  [(10, None, None); (20, None, None); (30, None, None)].

(** A map whose error callback throws, holding key 32 with an expiry
    of 50 ms and a callback that throws. *)
Definition rethrowing_map : MapWorld :=
  ExpiringMap.set Z.eq_dec 32 5 (Some 50) (Some throw_seven)
    (ExpiringMap.constructor start_map
       (Some {| ExpiringMap.defaultExpiryMs := None;
                ExpiringMap.defaultExpiryCallback := None;
                ExpiringMap.expireErrorCallback := Some rethrow |})).

(** The map of the test "set items with expiry and callbacks works":
    key 32 with an expiry of 50 ms and a callback. *)
Definition one_map : MapWorld :=
  ExpiringMap.set Z.eq_dec 32 5 (Some 50) (Some record_key) new_map.

(** A map whose error callback records the error, holding key 32 with an
    expiry of 50 ms and an [async] callback that rejects. *)
Definition noting_map : MapWorld :=
  ExpiringMap.set Z.eq_dec 32 5 (Some 50) (Some reject_seven)
    (ExpiringMap.constructor start_map
       (Some {| ExpiringMap.defaultExpiryMs := None;
                ExpiringMap.defaultExpiryCallback := None;
                ExpiringMap.expireErrorCallback := Some note_error |})).




(** A [forEach] callback that throws [7]. *)
Definition forEach_throw : ExpiringMap.MapForEachCallback Z Z Log Error :=
  fun _ _ _ log => (log, Throws 7%nat).

Definition set_forEach_throw : ExpiringSet.SetForEachCallback Z Log Error :=
  fun _ _ _ log => (log, Throws 7%nat).

(** A [forEach] callback that records its key and returns, and one that
    records its key and throws [7] at key 2. *)
Definition forEach_record : ExpiringMap.MapForEachCallback Z Z Log Error :=
  fun _ key _ log => (log ++ [key], Returns).

Definition forEach_throw_at_2 : ExpiringMap.MapForEachCallback Z Z Log Error :=
  fun _ key _ log => (log ++ [key], if key =? 2 then Throws 7%nat else Resolves).

(** A [forEach] callback that returns a promise rejected with [3] at
    key 1 and throws [7] at key 2. *)
Definition forEach_reject_then_throw : ExpiringMap.MapForEachCallback Z Z Log Error :=
  fun _ key _ log =>
    (log ++ [key], if key =? 2 then Throws 7%nat else Rejects 3%nat).

(** The container of the test "setMinExpiry": key 32 inserted without
    expiry, then given one of 500 ms; the clock reads 1000. *)
Definition timed_map : MapWorld :=
  snd (ExpiringMap.setExpiry Z.eq_dec 32 500
         (ExpiringMap.set Z.eq_dec 32 99 None None new_map)).

Definition timed_set : SetWorld :=
  snd (ExpiringSet.setExpiry Z.eq_dec 32 500
         (ExpiringSet.add Z.eq_dec 32 None None new_set)).
End Examples.

(** ** [delay] and [delayUntil] (src/async.ts)

    An [async] function that awaits a timer hands control to the event
    loop: the rest of the program runs, and the function resumes once its
    timer has fired.  The function is modelled on a world made of the
    clock and of the state of the program; what the rest of the program
    does while the function waits is a parameter, [others]: [others n] is
    run during the wait number [n] of the call.  A timer never fires
    before it is due, and [setTimeout] takes a delay below 1 or above
    2147483647 for 1 (Node's timers). *)
Module Async.

(** A number that is an integer or [Number.POSITIVE_INFINITY]. *)
Inductive Num : Type :=
| Finite (z : Z)
| Infinity.

(** [a + b] and [a <= b] for a finite [a]. *)
Definition num_add (a : Z) (b : Num) : Num :=
  match b with
  | Finite z => Finite (a + z)
  | Infinity => Infinity
  end.

Definition num_leb (a : Z) (b : Num) : bool :=
  match b with
  | Finite z => a <=? z
  | Infinity => true
  end.

(** The delay that [setTimeout(f, ms)] arms its timer with. *)
Definition timer_ms (ms : Z) : Z := timer_delay ms.

(** The options object of [delayUntil]; a field left out is [None]. *)
Record DelayUntilOptions : Type := {
  timeoutMs : option Num;
  checkIntervalMs : option Z;
  swallowExceptions : option bool
}.

(** [{}] *)
Definition no_options : DelayUntilOptions :=
  {| timeoutMs := None; checkIntervalMs := None; swallowExceptions := None |}.

(** A default parameter value: taken when the argument is [undefined]. *)
Definition or_default {A : Type} (a : option A) (d : A) : A :=
  match a with
  | Some x => x
  | None => d
  end.

Section Async.
Variables U Err : Type.

Record World : Type := {
  now : Z;                               (* Date.now() *)
  user : U                               (* state of the program *)
}.

Variable others : nat -> World -> World.

(** [await delay(ms)], the wait number [n]: the rest of the program
    runs, and the caller resumes no earlier than the timer is due. *)
Definition delay (n : nat) (ms : Z) (w : World) : World :=
  let w' := others n w in
  {| now := Z.max (now w') (now w + timer_ms ms); user := user w' |}.

(** What [delayUntil] rejects with: what [condition] threw, or
    [new Error("timeout")]. *)
Inductive DelayUntilError : Type :=
| ConditionError (e : Err)
| TimeoutError.

(** [condition: () => Promise<boolean>], called and awaited. *)
Definition Condition : Type := World -> World * Settled Err bool.

(** The [do ... while] loop of [delayUntil]; [fuel] bounds the number of
    turns and [n] counts the waits. *)
Fixpoint delayUntil_loop (condition : Condition) (timeoutTime : Num)
         (checkIntervalMs : Z) (swallowExceptions : bool)
         (fuel n : nat) (w : World) :
  option (World * Settled DelayUntilError unit) :=
  match fuel with
  | O => None
  | S fuel' =>
      let (w1, r) := condition w in
      let again (_ : unit) :=
        let w2 := delay n checkIntervalMs w1 in
        if num_leb (now w2) timeoutTime
        then delayUntil_loop condition timeoutTime checkIntervalMs
                             swallowExceptions fuel' (S n) w2
        else Some (w2, Rejected TimeoutError) in
      match r with
      | Fulfilled true => Some (w1, Fulfilled tt)
      | Fulfilled false => again tt
      | Rejected error =>
          if swallowExceptions then again tt
          else Some (w1, Rejected (ConditionError error))
      end
  end.

Definition delayUntil (condition : Condition) (o : DelayUntilOptions)
           (fuel : nat) (w : World) :
  option (World * Settled DelayUntilError unit) :=
  let timeoutMs := or_default (timeoutMs o) Infinity in
  let checkIntervalMs := or_default (checkIntervalMs o) 200 in
  let swallowExceptions := or_default (swallowExceptions o) false in
  let timeoutTime := num_add (now w) timeoutMs in
  delayUntil_loop condition timeoutTime checkIntervalMs swallowExceptions
                  fuel O w.

(** The state in which the check number [k] of a call is made, counting
    from 0, when the checks before it did not end the call: the state in
    which the wait after the check before ends. *)
Fixpoint check_state (condition : Condition) (checkIntervalMs : Z) (k : nat)
         (w : World) : World :=
  match k with
  | O => w
  | S k' =>
      delay k' checkIntervalMs
            (fst (condition (check_state condition checkIntervalMs k' w)))
  end.

End Async.

Arguments ConditionError {Err} e.
Arguments TimeoutError {Err}.
End Async.

(** ** Mutex (src/mutex.ts)

    The private field [#owned] and the rest of the program's state make
    up the state of the program.  [acquire] is [async]: it runs up to its
    first [await] inside the call, so that on a free mutex it takes the
    mutex before the call returns.  Between the check that finds the
    mutex free and the assignment that takes it, no other code of the
    program is run. *)
Module Mutex.
Section Mutex.
Variable O : Type.

Record State : Type := {
  owned : bool;                          (* #owned *)
  rest : O                               (* the rest of the program *)
}.

Definition World : Type := Async.World State.

Definition with_owned (b : bool) (w : World) : World :=
  {| Async.now := Async.now w;
     Async.user := {| owned := b; rest := rest (Async.user w) |} |}.

Definition is_owned (w : World) : bool := owned (Async.user w).

Variable others : nat -> World -> World.

(** [new Mutex()] *)
Definition constructor (now0 : Z) (o : O) : World :=
  {| Async.now := now0; Async.user := {| owned := false; rest := o |} |}.

(** [async () => !this.#owned] *)
Definition is_free : Async.Condition State unit :=
  fun w => (w, Fulfilled (negb (is_owned w))).

(** [acquire(timeoutMs)]: the world when the promise settles and the
    value it is fulfilled with; [None] when [fuel] turns of the wait do
    not settle it. *)
Definition acquire (timeoutMs : option Async.Num) (fuel : nat) (w : World) :
  option (World * bool) :=
  let timeoutMs := Async.or_default timeoutMs Async.Infinity in
  if is_owned w then
    match Async.delayUntil others is_free
            {| Async.timeoutMs := Some timeoutMs;
               Async.checkIntervalMs := None;
               Async.swallowExceptions := None |} fuel w with
    | Some (w1, Fulfilled _) => Some (with_owned true w1, true)
    | Some (w1, Rejected _) => Some (w1, false)
    | None => None
    end
  else Some (with_owned true w, true).

(** What [release] throws: [new Error("Unbalanced release")]. *)
Inductive ReleaseError : Type := UnbalancedRelease.

(** [release()]: the world it leaves, and the error it throws if any. *)
Definition release (w : World) : World * option ReleaseError :=
  if negb (is_owned w) then (w, Some UnbalancedRelease)
  else (with_owned false w, None).

End Mutex.
End Mutex.

(** ** [setdefault] and [setdefault2] (src/map.ts)

    The maps are built-in [Map]s.  A generator is a call into user code:
    it reads and updates the user state and returns a value or throws; a
    generator that mutates the map it is called for is outside the
    model. *)
Module MapUtil.

(** How a call ends: with a value, with an error thrown by the user
    code, or with the [TypeError] of a method call on [undefined]. *)
Inductive Outcome (Err A : Type) : Type :=
| Value (a : A)
| Thrown (e : Err)
| TypeError.
Arguments Value {Err A} a.
Arguments Thrown {Err A} e.
Arguments TypeError {Err A}.

Section Setdefault.
Variables K V U Err : Type.
Variable K_eq_dec : forall x y : K, {x = y} + {x <> y}.

(** [defaultValueGenerator: () => V] *)
Definition Generator : Type := U -> U * (Err + V).

(** The value returned is [singleLevelMap.get(key)!]: the non-null
    assertion is erased when the program runs, so what is returned is
    what [get] yields, [undefined] ([None]) included. *)
Definition setdefault (singleLevelMap : JsMap.MapData K V) (key : K)
           (defaultValueGenerator : Generator) (u : U) :
  U * JsMap.MapData K V * Outcome Err (option V) :=
  if negb (JsMap.has K_eq_dec key singleLevelMap) then
    match defaultValueGenerator u with
    | (u1, inr v) =>
        let m := JsMap.set K_eq_dec key v singleLevelMap in
        (u1, m, Value (JsMap.get K_eq_dec key m))
    | (u1, inl e) => (u1, singleLevelMap, Thrown e)
    end
  else (u, singleLevelMap, Value (JsMap.get K_eq_dec key singleLevelMap)).
End Setdefault.

Section Setdefault2.
Variables K1 K2 V U Err : Type.
Variable K1_eq_dec : forall x y : K1, {x = y} + {x <> y}.
Variable K2_eq_dec : forall x y : K2, {x = y} + {x <> y}.

(** A [Map] is an object.  The outer map holds references to its inner
    maps and the heap holds what each inner map contains, so that one
    inner map may stand under several first keys.  A reference is the
    index of the object in the heap. *)
Definition Ref : Type := nat.

Definition Heap : Type := list (JsMap.MapData K2 V).

(** [() => new Map()]: a generator that runs on the heap. *)
Definition new_Map : Generator Ref Heap Err :=
  fun h => (h ++ [[]], inr (length h)).

(** What the map behind a reference holds, and the heap after that map
    has been mutated into [d]. *)
Definition deref (r : Ref) (h : Heap) : JsMap.MapData K2 V := nth r h [].

Fixpoint assign (r : Ref) (d : JsMap.MapData K2 V) (h : Heap) : Heap :=
  match h, r with
  | [], _ => []
  | _ :: h', O => d :: h'
  | x :: h', S r' => x :: assign r' d h'
  end.

(** The second [setdefault] is given the object that
    [twoLevelMap.get(firstKey)!] yields and mutates it where it stands in
    the heap; the outer map is touched by the first [setdefault] only. *)
Definition setdefault2 (twoLevelMap : JsMap.MapData K1 Ref)
           (firstKey : K1) (secondKey : K2)
           (defaultValueGenerator : Generator V U Err) (h : Heap) (u : U) :
  U * Heap * JsMap.MapData K1 Ref * Outcome Err (option V) :=
  match setdefault K1_eq_dec twoLevelMap firstKey new_Map h with
  | (h1, m1, Thrown e) => (u, h1, m1, Thrown e)
  | (h1, m1, TypeError) => (u, h1, m1, TypeError)
  | (h1, m1, Value _) =>
      match JsMap.get K1_eq_dec firstKey m1 with
      | Some r =>
          match setdefault K2_eq_dec (deref r h1) secondKey
                           defaultValueGenerator u with
          | (u2, inner', res) => (u2, assign r inner' h1, m1, res)
          end
      | None => (u, h1, m1, TypeError)
      end
  end.

(** What [twoLevelMap.get(k)?.get(k2)] yields. *)
Definition get2 (m : JsMap.MapData K1 Ref) (h : Heap) (k : K1) (k2 : K2) :
  option V :=
  match JsMap.get K1_eq_dec k m with
  | Some r => JsMap.get K2_eq_dec k2 (deref r h)
  | None => None
  end.

(** Every reference held by the outer map is that of an object of the
    heap. *)
Definition refs_in (m : JsMap.MapData K1 Ref) (h : Heap) : Prop :=
  forall k r, JsMap.get K1_eq_dec k m = Some r -> (r < length h)%nat.
End Setdefault2.
End MapUtil.

(** ** Concrete programs for [delayUntil], the mutex and [setdefault],
    after the test suites *)
Module UtilExamples.

(** The program of the test "delayUntil waits for the signal": its state
    is the signal, which the rest of the program raises 30 ms into the
    first wait. *)
Definition start : Async.World bool :=
  {| Async.now := 1000; Async.user := false |}.

Definition raise_signal : nat -> Async.World bool -> Async.World bool :=
  fun _ w => {| Async.now := Async.now w + 30; Async.user := true |}.

(** A program that does nothing while the call waits. *)
Definition idle : nat -> Async.World bool -> Async.World bool :=
  fun _ w => w.

(** [async () => signal] *)
Definition signal : Async.Condition bool Examples.Error :=
  fun w => (w, Fulfilled (Async.user w)).

(** A condition that throws [7]. *)
Definition failing : Async.Condition bool Examples.Error :=
  fun w => (w, Rejected 7%nat).

(** [{ timeoutMs: 10 }] *)
Definition ten_ms : Async.DelayUntilOptions :=
  {| Async.timeoutMs := Some (Async.Finite 10);
     Async.checkIntervalMs := None;
     Async.swallowExceptions := None |}.

(** The mutex of the test "mutex functionality", free and held. *)
Definition free_mutex : Mutex.World unit := Mutex.constructor 1000 tt.

Definition held_mutex : Mutex.World unit := Mutex.with_owned true free_mutex.

(** A holder that keeps the mutex, and one that releases it 75 ms into
    the first wait. *)
Definition holder_keeps : nat -> Mutex.World unit -> Mutex.World unit :=
  fun _ w => w.

Definition holder_releases : nat -> Mutex.World unit -> Mutex.World unit :=
  fun _ w => Mutex.with_owned false
               {| Async.now := Async.now w + 75; Async.user := Async.user w |}.

(** Generators that count their calls in the user state: one returns
    [v], the other throws [7]. *)
Definition counting (v : Z) : MapUtil.Generator Z nat Examples.Error :=
  fun calls => (S calls, inr v).

Definition throwing : MapUtil.Generator Z nat Examples.Error :=
  fun calls => (S calls, inl 7%nat).

(** A map that holds 10 under key 1; a map of maps that holds 20 under
    the keys 1 and 2, with the heap its inner map lives in; and a map of
    maps that holds that one inner map under the first keys 1 and 8. *)
Definition one_key : JsMap.MapData Z Z := [Some (1, 10)].

Definition inner_maps : MapUtil.Heap Z Z := [[Some (2, 20)]].

Definition two_level : JsMap.MapData Z MapUtil.Ref := [Some (1, O)].

Definition shared_inner : JsMap.MapData Z MapUtil.Ref := [Some (1, O); Some (8, O)].
End UtilExamples.

(** * A fact about folds *)

Lemma fold_left_invariant (A S : Type) (P : S -> Prop) (f : S -> A -> S)
      (l : list A) (s : S) :
  P s -> (forall s x, P s -> P (f s x)) -> P (fold_left f l s).
Proof.
  intros Hs Hf. revert s Hs. induction l as [|x l IH]; simpl; auto.
Qed.

(** * Facts about the built-in [Map] *)
Module JsMapFacts.
Section JsMapFacts.
Variables K E : Type.
Variable K_eq_dec : forall x y : K, {x = y} + {x <> y}.

Abbreviation MapData := (JsMap.MapData K E).
Abbreviation get := (JsMap.get K_eq_dec).
Abbreviation has := (JsMap.has K_eq_dec).
Abbreviation delete := (JsMap.delete K_eq_dec).
Abbreviation set := (JsMap.set K_eq_dec).
Abbreviation remove_key := (JsMap.remove_key K_eq_dec).

Lemma has_get (key : K) (d : MapData) :
  has key d = match get key d with Some _ => true | None => false end.
Proof.
  induction d as [|[[k e]|] d IH]; simpl; auto.
  destruct (K_eq_dec k key); auto.
Qed.

Lemma has_true_get (key : K) (d : MapData) :
  has key d = true -> exists e, get key d = Some e.
Proof.
  rewrite has_get. destruct (get key d) as [e|]; [eauto | discriminate].
Qed.

Lemma get_has (key : K) (d : MapData) (e : E) :
  get key d = Some e -> has key d = true.
Proof. intros H. rewrite has_get, H. reflexivity. Qed.

Lemma has_false_get (key : K) (d : MapData) :
  has key d = false -> get key d = None.
Proof.
  rewrite has_get. destruct (get key d); [discriminate | reflexivity].
Qed.

Lemma get_In (key : K) (d : MapData) (e : E) :
  get key d = Some e -> In (key, e) (JsMap.entries d).
Proof.
  induction d as [|[[k e0]|] d IH]; simpl; intros H; try discriminate; auto.
  destruct (K_eq_dec k key); subst.
  - injection H as ->. now left.
  - right. auto.
Qed.

Lemma In_keys (k : K) (e : E) (d : MapData) :
  In (k, e) (JsMap.entries d) -> In k (JsMap.keys d).
Proof. intros H. unfold JsMap.keys. now apply (in_map fst) in H. Qed.

Lemma has_In_keys (key : K) (d : MapData) :
  has key d = true <-> In key (JsMap.keys d).
Proof.
  unfold JsMap.keys.
  induction d as [|[[k e]|] d IH]; simpl.
  - split; [discriminate | tauto].
  - destruct (K_eq_dec k key); subst.
    + split; auto.
    + rewrite IH. split; [tauto | intros [H|H]; [contradiction | exact H]].
  - exact IH.
Qed.

Lemma has_false_not_In (key : K) (d : MapData) :
  has key d = false <-> ~ In key (JsMap.keys d).
Proof.
  rewrite <- has_In_keys. destruct (has key d); split; congruence.
Qed.

Lemma In_get (key : K) (d : MapData) (e : E) :
  NoDup (JsMap.keys d) -> In (key, e) (JsMap.entries d) -> get key d = Some e.
Proof.
  unfold JsMap.keys.
  induction d as [|[[k e0]|] d IH]; simpl; intros ND H; try contradiction; auto.
  inversion ND as [|? ? Hk ND']; subst.
  destruct H as [H|H].
  - injection H as -> ->. destruct (K_eq_dec key key); congruence.
  - destruct (K_eq_dec k key); subst.
    + exfalso. apply Hk. now apply (in_map fst) in H.
    + auto.
Qed.

Lemma In_entries_unique (key : K) (d : MapData) (e1 e2 : E) :
  NoDup (JsMap.keys d) ->
  In (key, e1) (JsMap.entries d) -> In (key, e2) (JsMap.entries d) -> e1 = e2.
Proof.
  intros ND H1 H2. apply In_get in H1; auto. apply In_get in H2; auto. congruence.
Qed.

(** *** [remove_key] *)

Lemma remove_key_In (key x : K) (l : list K) :
  In x (remove_key key l) -> In x l.
Proof.
  induction l as [|k l IH]; simpl; auto.
  destruct (K_eq_dec k key); simpl; intuition.
Qed.

Lemma remove_key_NoDup (key : K) (l : list K) :
  NoDup l -> NoDup (remove_key key l).
Proof.
  induction 1 as [|k l Hk ND IH]; simpl; [constructor|].
  destruct (K_eq_dec k key); auto.
  constructor; auto. intros H. apply Hk. eapply remove_key_In; eauto.
Qed.

Lemma remove_key_not_In (key : K) (l : list K) :
  NoDup l -> ~ In key (remove_key key l).
Proof.
  induction 1 as [|k l Hk ND IH]; simpl; auto.
  destruct (K_eq_dec k key); subst; auto.
  simpl. intuition.
Qed.

Lemma remove_key_absent (key : K) (l : list K) :
  ~ In key l -> remove_key key l = l.
Proof.
  induction l as [|k l IH]; simpl; auto.
  intros H. destruct (K_eq_dec k key); subst.
  - exfalso. auto.
  - f_equal. auto.
Qed.

Lemma remove_key_In_other (key x : K) (l : list K) :
  x <> key -> In x l -> In x (remove_key key l).
Proof.
  intros Hx. induction l as [|k l IH]; simpl; auto.
  intros [Hk|H]; destruct (K_eq_dec k key); subst; simpl; auto; congruence.
Qed.

(** *** [delete] *)

Lemma delete_found (key : K) (d : MapData) :
  fst (delete key d) = has key d.
Proof.
  induction d as [|[[k e]|] d IH]; simpl; auto.
  - destruct (K_eq_dec k key); auto.
    destruct (delete key d); auto.
  - destruct (delete key d); auto.
Qed.

Lemma delete_length (key : K) (d : MapData) :
  length (snd (delete key d)) = length d.
Proof.
  induction d as [|[[k e]|] d IH]; simpl; auto.
  - destruct (K_eq_dec k key); simpl; auto.
    destruct (delete key d); simpl in *; auto.
  - destruct (delete key d); simpl in *; auto.
Qed.

Lemma delete_absent (key : K) (d : MapData) :
  has key d = false -> delete key d = (false, d).
Proof.
  induction d as [|[[k e]|] d IH]; simpl; auto.
  - destruct (K_eq_dec k key); [discriminate|].
    intros H. rewrite (IH H). reflexivity.
  - intros H. rewrite (IH H). reflexivity.
Qed.

Lemma keys_delete (key : K) (d : MapData) :
  JsMap.keys (snd (delete key d)) = remove_key key (JsMap.keys d).
Proof.
  unfold JsMap.keys.
  induction d as [|[[k e]|] d IH]; simpl; auto.
  - destruct (K_eq_dec k key); simpl; auto.
    destruct (delete key d); simpl in *. now f_equal.
  - destruct (delete key d); simpl in *. auto.
Qed.

Lemma entries_delete_subset (key k : K) (e : E) (d : MapData) :
  In (k, e) (JsMap.entries (snd (delete key d))) -> In (k, e) (JsMap.entries d).
Proof.
  induction d as [|[[k0 e0]|] d IH]; simpl; auto.
  - destruct (K_eq_dec k0 key); simpl; auto.
    destruct (delete key d); simpl in *. intuition.
  - destruct (delete key d); simpl in *. auto.
Qed.

Lemma entries_delete_other (key k : K) (e : E) (d : MapData) :
  k <> key -> In (k, e) (JsMap.entries d) ->
  In (k, e) (JsMap.entries (snd (delete key d))).
Proof.
  intros Hk.
  induction d as [|[[k0 e0]|] d IH]; simpl; auto.
  - destruct (K_eq_dec k0 key); simpl; subst.
    + intros [H|H]; [congruence | auto].
    + destruct (delete key d); simpl in *. intuition.
  - destruct (delete key d); simpl in *. auto.
Qed.

Lemma keys_delete_NoDup (key : K) (d : MapData) :
  NoDup (JsMap.keys d) -> NoDup (JsMap.keys (snd (delete key d))).
Proof. rewrite keys_delete. apply remove_key_NoDup. Qed.

Lemma has_delete (key : K) (d : MapData) :
  NoDup (JsMap.keys d) -> has key (snd (delete key d)) = false.
Proof.
  intros ND. apply has_false_not_In. rewrite keys_delete.
  now apply remove_key_not_In.
Qed.

Lemma entries_delete_In (key k : K) (e : E) (d : MapData) :
  NoDup (JsMap.keys d) ->
  (In (k, e) (JsMap.entries (snd (delete key d))) <->
   In (k, e) (JsMap.entries d) /\ k <> key).
Proof.
  intros ND. split.
  - intros H. split; [eapply entries_delete_subset; eauto|].
    intros ->. apply In_keys in H. rewrite keys_delete in H.
    now apply remove_key_not_In in H.
  - intros [H Hk]. now apply entries_delete_other.
Qed.

Lemma get_delete_other (key k : K) (d : MapData) :
  k <> key -> get k (snd (delete key d)) = get k d.
Proof.
  intros Hk.
  induction d as [|[[k0 e0]|] d IH]; simpl; auto.
  - destruct (K_eq_dec k0 key); simpl; subst.
    + destruct (K_eq_dec key k); congruence.
    + destruct (delete key d); simpl in *. now rewrite IH.
  - destruct (delete key d); simpl in *. auto.
Qed.

Lemma get_delete (key : K) (d : MapData) :
  NoDup (JsMap.keys d) -> get key (snd (delete key d)) = None.
Proof. intros ND. apply has_false_get. now apply has_delete. Qed.

(** Deleting the key of the first live slot empties that slot. *)
Lemma delete_first_live (key : K) (e : E) (n : nat) (rest : MapData) :
  delete key (repeat None n ++ Some (key, e) :: rest) =
  (true, repeat None (S n) ++ rest).
Proof.
  induction n as [|n IH]; simpl.
  - destruct (K_eq_dec key key); congruence.
  - rewrite IH. reflexivity.
Qed.


(** *** [set] *)

Lemma get_set (key : K) (e : E) (d : MapData) :
  get key (set key e d) = Some e.
Proof.
  induction d as [|[[k e0]|] d IH]; simpl.
  - destruct (K_eq_dec key key); congruence.
  - destruct (K_eq_dec k key) as [->|Hk]; simpl.
    + destruct (K_eq_dec key key); congruence.
    + destruct (K_eq_dec k key); congruence.
  - exact IH.
Qed.

Lemma get_set_other (key k : K) (e : E) (d : MapData) :
  k <> key -> get k (set key e d) = get k d.
Proof.
  intros Hk.
  induction d as [|[[k0 e0]|] d IH]; simpl.
  - destruct (K_eq_dec key k); congruence.
  - destruct (K_eq_dec k0 key) as [->|Hk0]; simpl.
    + destruct (K_eq_dec key k); congruence.
    + destruct (K_eq_dec k0 k); congruence.
  - exact IH.
Qed.

Lemma has_set (key : K) (e : E) (d : MapData) :
  has key (set key e d) = true.
Proof. rewrite has_get, get_set. reflexivity. Qed.

Lemma entries_set_absent (key : K) (e : E) (d : MapData) :
  has key d = false -> JsMap.entries (set key e d) = JsMap.entries d ++ [(key, e)].
Proof.
  induction d as [|[[k e0]|] d IH]; simpl; auto.
  destruct (K_eq_dec k key); [discriminate|].
  intros H. simpl. now rewrite IH.
Qed.

Lemma keys_set_absent (key : K) (e : E) (d : MapData) :
  has key d = false -> JsMap.keys (set key e d) = JsMap.keys d ++ [key].
Proof.
  intros H. unfold JsMap.keys. rewrite entries_set_absent by exact H.
  now rewrite map_app.
Qed.

Lemma keys_set_present (key : K) (e : E) (d : MapData) :
  has key d = true -> JsMap.keys (set key e d) = JsMap.keys d.
Proof.
  unfold JsMap.keys.
  induction d as [|[[k e0]|] d IH]; simpl; try discriminate; auto.
  destruct (K_eq_dec k key); subst; simpl; auto.
  intros H. now rewrite IH.
Qed.

Lemma keys_set_NoDup (key : K) (e : E) (d : MapData) :
  NoDup (JsMap.keys d) -> NoDup (JsMap.keys (set key e d)).
Proof.
  intros ND. destruct (has key d) eqn:H.
  - now rewrite keys_set_present.
  - rewrite keys_set_absent by exact H.
    apply NoDup_app; auto.
    + constructor; [intros [] | constructor].
    + intros x Hx [<-|[]]. apply has_false_not_In in H. contradiction.
Qed.

Lemma set_get_same (key : K) (e : E) (d : MapData) :
  get key d = Some e -> set key e d = d.
Proof.
  induction d as [|[[k e0]|] d IH]; simpl; try discriminate.
  - destruct (K_eq_dec k key); subst.
    + now intros [= ->].
    + intros H. now rewrite IH.
  - intros H. now rewrite IH.
Qed.

Lemma set_length_present (key : K) (e : E) (d : MapData) :
  has key d = true -> length (set key e d) = length d.
Proof.
  induction d as [|[[k e0]|] d IH]; simpl; try discriminate; auto.
  destruct (K_eq_dec k key); simpl; auto.
Qed.

Lemma entries_set_In (key k : K) (e e' : E) (d : MapData) :
  NoDup (JsMap.keys d) ->
  (In (k, e') (JsMap.entries (set key e d)) <->
   (k = key /\ e' = e) \/ (k <> key /\ In (k, e') (JsMap.entries d))).
Proof.
  intros ND.
  assert (ND' : NoDup (JsMap.keys (set key e d))) by now apply keys_set_NoDup.
  split.
  - intros H. apply In_get in H; auto.
    destruct (K_eq_dec k key) as [->|Hk].
    + rewrite get_set in H. left. split; congruence.
    + rewrite get_set_other in H by exact Hk. right. split; auto.
      now apply get_In.
  - intros [[-> ->]|[Hk H]]; apply get_In.
    + apply get_set.
    + rewrite get_set_other by exact Hk. now apply In_get.
Qed.

(** The values under the keys other than [key] keep their places when
    the entry of a present [key] is overwritten. *)
Lemma entries_set_present (key : K) (e : E) (d : MapData) :
  NoDup (JsMap.keys d) ->
  JsMap.entries (set key e d) =
  List.map (fun p => if K_eq_dec (fst p) key then (fst p, e) else p)
           (JsMap.entries d) ++
  (if has key d then [] else [(key, e)]).
Proof.
  unfold JsMap.keys.
  induction d as [|[[k e0]|] d IH]; simpl; intros ND; auto.
  inversion ND as [|? ? Hk ND']; subst.
  destruct (K_eq_dec k key) as [->|Hne]; simpl.
  - rewrite app_nil_r. f_equal.
    rewrite <- (map_id (JsMap.entries d)) at 1.
    apply map_ext_in. intros [k e1] Hin. simpl.
    destruct (K_eq_dec k key); subst; auto.
    exfalso. apply Hk. now apply (in_map fst) in Hin.
  - now rewrite IH.
Qed.

(** *** The live iterator *)

Lemma next_tombs (n : nat) (rest : MapData) :
  JsMap.next n (repeat None n ++ rest) = JsMap.first_live rest n.
Proof.
  unfold JsMap.next. f_equal.
  rewrite skipn_app, repeat_length, Nat.sub_diag, skipn_all2; simpl; auto.
  now rewrite repeat_length.
Qed.

Lemma next_tombs_end (n : nat) :
  JsMap.next n (repeat None n : MapData) = None.
Proof.
  pose proof (next_tombs n []) as H. now rewrite app_nil_r in H.
Qed.

Lemma repeat_None_S (n : nat) (rest : MapData) :
  repeat None n ++ None :: rest = repeat None (S n) ++ rest.
Proof.
  induction n as [|n IH]; simpl; auto. now rewrite IH.
Qed.


(** A loop whose body empties the slot it is handed, and touches no
    other slot, visits the live entries in order, one turn each, and
    leaves every slot empty; fuel beyond the slots left is not used. *)
Lemma for_of_drain (S : Type) (data : S -> MapData) (body : K * E -> S -> S) :
  (forall n k e rest s,
      data s = repeat None n ++ Some (k, e) :: rest ->
      data (body (k, e) s) = repeat None (Datatypes.S n) ++ rest) ->
  forall rest n s fuel,
    data s = repeat None n ++ rest ->
    (length rest <= fuel)%nat ->
    JsMap.for_of data body fuel n s =
      fold_left (fun s p => body p s) (JsMap.entries rest) s /\
    data (JsMap.for_of data body fuel n s) = repeat None (n + length rest).
Proof.
  intros Hbody.
  induction rest as [|[[k e]|] rest IH]; intros n s fuel Hd Hf.
  - simpl. rewrite app_nil_r in Hd. rewrite Nat.add_0_r.
    destruct fuel; simpl; auto.
    rewrite Hd, next_tombs_end. auto.
  - destruct fuel as [|fuel]; [simpl in Hf; lia|].
    simpl JsMap.for_of. rewrite Hd, next_tombs. simpl JsMap.first_live.
    simpl JsMap.entries. simpl fold_left.
    specialize (IH (Datatypes.S n) (body (k, e) s) fuel
                   (Hbody _ _ _ _ _ Hd)).
    simpl in Hf.
    destruct IH as [IH1 IH2]; [lia|].
    rewrite IH1. split; auto.
    rewrite IH1 in IH2. rewrite IH2. f_equal. simpl. lia.
  - rewrite repeat_None_S in Hd.
    simpl in Hf.
    destruct (IH (Datatypes.S n) s fuel Hd) as [IH1 IH2]; [lia|].
    assert (Hsame : JsMap.for_of data body fuel n s =
                    JsMap.for_of data body fuel (Datatypes.S n) s).
    { destruct fuel as [|fuel]; simpl; auto.
      rewrite Hd. rewrite next_tombs.
      rewrite <- repeat_None_S, next_tombs. reflexivity. }
    rewrite Hsame. simpl JsMap.entries. split; auto.
    rewrite IH2. f_equal. simpl. lia.
Qed.

End JsMapFacts.
End JsMapFacts.

(** * Facts about the timer facility *)
Section RuntimeFacts.
Variables Task U Err : Type.

Lemma In_cancel (id id' : TimerId) (t : Timeout Task)
      (ts : list (TimerId * Timeout Task)) :
  In (id', t) (cancel id ts) <-> In (id', t) ts /\ id' <> id.
Proof.
  unfold cancel, is_timer. rewrite filter_In. simpl.
  destruct (Nat.eqb_spec id' id); simpl; intuition congruence.
Qed.

Lemma cancel_ids_NoDup (id : TimerId) (ts : list (TimerId * Timeout Task)) :
  NoDup (List.map fst ts) -> NoDup (List.map fst (cancel id ts)).
Proof.
  induction ts as [|[i t] ts IH]; simpl; intros ND; auto.
  inversion ND as [|? ? Hi ND']; subst.
  unfold is_timer. simpl. destruct (Nat.eqb i id); simpl; auto.
  constructor; auto.
  intros H. apply Hi. apply in_map_iff in H as [[i' t'] [Hfst Hin]].
  simpl in Hfst. subst. apply In_cancel in Hin as [Hin _].
  now apply (in_map fst) in Hin.
Qed.

Lemma cancel_absent (id : TimerId) (ts : list (TimerId * Timeout Task)) :
  (forall t, ~ In (id, t) ts) -> cancel id ts = ts.
Proof.
  induction ts as [|[i t] ts IH]; simpl; intros H; auto.
  unfold is_timer. simpl. destruct (Nat.eqb_spec i id); simpl.
  - subst. exfalso. apply (H t). now left.
  - f_equal. apply IH. intros t' Hin. apply (H t'). now right.
Qed.

Lemma cancel_idem (id : TimerId) (ts : list (TimerId * Timeout Task)) :
  cancel id (cancel id ts) = cancel id ts.
Proof.
  apply cancel_absent. intros t H. apply In_cancel in H. tauto.
Qed.

Lemma timer_unique (id : TimerId) (t1 t2 : Timeout Task)
      (ts : list (TimerId * Timeout Task)) :
  NoDup (List.map fst ts) -> In (id, t1) ts -> In (id, t2) ts -> t1 = t2.
Proof.
  induction ts as [|[i t] ts IH]; simpl; intros ND H1 H2; [contradiction|].
  inversion ND as [|? ? Hi ND']; subst.
  destruct H1 as [H1|H1], H2 as [H2|H2].
  - congruence.
  - injection H1 as -> ->. exfalso. apply Hi. now apply (in_map fst) in H2.
  - injection H2 as -> ->. exfalso. apply Hi. now apply (in_map fst) in H1.
  - auto.
Qed.

Lemma pending_In (id : TimerId) (t : Timeout Task) (r : Runtime Task U Err) :
  pending id r = Some t -> In (id, t) (timers r).
Proof.
  unfold pending. destruct (find (is_timer id) (timers r)) as [[i t']|] eqn:F;
    simpl; [|discriminate].
  intros [= ->]. apply find_some in F as [Hin Hid].
  unfold is_timer in Hid. simpl in Hid. apply Nat.eqb_eq in Hid. now subst.
Qed.

Lemma In_pending (id : TimerId) (t : Timeout Task) (r : Runtime Task U Err) :
  NoDup (List.map fst (timers r)) -> In (id, t) (timers r) ->
  pending id r = Some t.
Proof.
  intros ND Hin. unfold pending.
  destruct (find (is_timer id) (timers r)) as [[i t']|] eqn:F; simpl.
  - apply find_some in F as [Hin' Hid].
    unfold is_timer in Hid. simpl in Hid. apply Nat.eqb_eq in Hid. subst.
    f_equal. eapply timer_unique; eauto.
  - exfalso. apply (find_none _ _ F) in Hin.
    unfold is_timer in Hin. simpl in Hin. now rewrite Nat.eqb_refl in Hin.
Qed.

Lemma await_fulfilled (o : CbOutcome Err) :
  await o = Fulfilled tt <-> (o = Returns \/ o = Resolves).
Proof. destruct o; simpl; intuition congruence. Qed.

Lemma await_rejected (o : CbOutcome Err) (e : Err) :
  await o = Rejected e <-> (o = Throws e \/ o = Rejects e).
Proof. destruct o; simpl; intuition congruence. Qed.

Lemma Promise_all_fulfilled (A : Type) (ps : list (Settled Err A)) :
  Promise_all ps = AllFulfilled <->
  (forall p, In p ps -> exists a, p = Fulfilled a).
Proof.
  unfold Promise_all.
  induction ps as [|[a|e] ps IH]; simpl.
  - split; [intros _ p [] | reflexivity].
  - unfold rejections in *. simpl. rewrite IH. split.
    + intros H p [<-|Hp]; eauto.
    + intros H p Hp. apply H. now right.
  - split; [discriminate|].
    intros H. destruct (H (Rejected e)) as [a Ha]; [now left | discriminate].
Qed.

Lemma Promise_all_rejected (A : Type) (ps : list (Settled Err A)) (es : list Err) :
  Promise_all ps = AllRejected es ->
  es <> [] /\ forall e, In e es <-> In (Rejected e) ps.
Proof.
  unfold Promise_all.
  assert (Hrej : forall e, In e (rejections ps) <-> In (Rejected e) ps).
  { intros e. unfold rejections. rewrite in_flat_map. split.
    - intros [[a|e'] [Hin He]]; simpl in He; [contradiction|].
      destruct He as [->|[]]. exact Hin.
    - intros Hin. exists (Rejected e). split; simpl; auto. }
  destruct (rejections ps) as [|e0 es0] eqn:R; [discriminate|].
  intros [= <-]. split; [discriminate | exact Hrej].
Qed.

(** The delays that [setTimeout] keeps, and what it makes of a delay
    above [TIMEOUT_MAX]. *)
Lemma timer_delay_kept (ms : Z) : 1 <= ms <= TIMEOUT_MAX -> timer_delay ms = ms.
Proof.
  unfold timer_delay. intros [L H].
  apply Z.ltb_ge in L. apply Z.ltb_ge in H. now rewrite L, H.
Qed.

Lemma timer_delay_above (ms : Z) : TIMEOUT_MAX < ms -> timer_delay ms = 1.
Proof.
  unfold timer_delay. intros H. apply Z.ltb_lt in H. rewrite H.
  now rewrite orb_true_r.
Qed.

Lemma timers_clearTimeout (t : option TimerId)
      (r : Runtime Task U Err) :
  timers (clearTimeout t r) =
  match t with Some id => cancel id (timers r) | None => timers r end.
Proof. destruct t; reflexivity. Qed.

Lemma next_timer_clearTimeout (t : option TimerId)
      (r : Runtime Task U Err) :
  next_timer (clearTimeout t r) = next_timer r.
Proof. destruct t; reflexivity. Qed.

Lemma user_clearTimeout (t : option TimerId)
      (r : Runtime Task U Err) :
  user (clearTimeout t r) = user r.
Proof. destruct t; reflexivity. Qed.

Lemma unhandled_clearTimeout (t : option TimerId)
      (r : Runtime Task U Err) :
  unhandled (clearTimeout t r) = unhandled r.
Proof. destruct t; reflexivity. Qed.

Lemma now_clearTimeout (t : option TimerId)
      (r : Runtime Task U Err) :
  now (clearTimeout t r) = now r.
Proof. destruct t; reflexivity. Qed.

End RuntimeFacts.

(** * The entry/timer invariant is kept by the moves of the containers *)
Module StoreFacts.
Section StoreFacts.
Variables K E Task : Type.
Variable K_eq_dec : forall x y : K, {x = y} + {x <> y}.
Variable timer_of : E -> option TimerId.
Variable expiry_of : E -> option Z.
Variable closure : K -> E -> Task.
Variable owner : Task -> K.
Hypothesis owner_closure : forall k e, owner (closure k e) = k.

Abbreviation wf := (Store.wf timer_of expiry_of closure owner).
Abbreviation armed := (Store.armed timer_of expiry_of closure).
Abbreviation get := (JsMap.get K_eq_dec).
Abbreviation has := (JsMap.has K_eq_dec).
Abbreviation delete := (JsMap.delete K_eq_dec).
Abbreviation set := (JsMap.set K_eq_dec).

Lemma store_wf_empty (next : TimerId) : wf [] [] next.
Proof.
  constructor; simpl; try constructor; intros; contradiction.
Qed.

Lemma store_armed_mono (ts ts' : list (TimerId * Timeout Task)) (key : K) (e : E) :
  (forall p, In p ts -> In p ts') -> armed ts key e -> armed ts' key e.
Proof.
  unfold Store.armed. intros Hsub. destruct (timer_of e); auto.
  intros [d [a [He Hin]]]. eauto.
Qed.

(** The timers left when the timer of the entry under [key] is
    cleared. *)
Lemma store_wf_delete (d : JsMap.MapData K E) (ts : list (TimerId * Timeout Task))
      (next : TimerId) (key : K) :
  wf d ts next ->
  wf (snd (delete key d))
     (match get key d with
      | Some e => match timer_of e with Some id => cancel id ts | None => ts end
      | None => ts
      end) next.
Proof.
  intros [Hk Hi Hf Ha Ho].
  destruct (get key d) as [e0|] eqn:G.
  - assert (Hin0 : In (key, e0) (JsMap.entries d)) by now apply JsMapFacts.get_In in G.
    destruct (timer_of e0) as [id|] eqn:T0.
    + constructor.
      * now apply JsMapFacts.keys_delete_NoDup.
      * now apply cancel_ids_NoDup.
      * intros id' t Hin. apply In_cancel in Hin as [Hin _]. eauto.
      * intros k e Hin. apply JsMapFacts.entries_delete_In in Hin as [Hin Hne]; auto.
        pose proof (Ha k e Hin) as Hke. unfold Store.armed in *.
        destruct (timer_of e) as [id'|]; auto.
        destruct Hke as [dd [a [He Hts]]]. exists dd, a. split; auto.
        apply In_cancel. split; auto. intros ->.
        pose proof (Ha key e0 Hin0) as H0. rewrite T0 in H0.
        destruct H0 as [d0 [a0 [_ Hts0]]].
        assert (Heq : {| due := a; task := closure k e |} =
                      {| due := a0; task := closure key e0 |})
          by (eapply timer_unique; eauto).
        apply (f_equal (fun t => owner (task t))) in Heq. simpl in Heq.
        rewrite !owner_closure in Heq. contradiction.
      * intros id' t Hin. apply In_cancel in Hin as [Hin Hne].
        destruct (Ho id' t Hin) as [e [Hine Te]].
        exists e. split; auto.
        apply JsMapFacts.entries_delete_In; auto. split; auto.
        intros Heq. rewrite Heq in Hine.
        assert (e = e0) by (eapply JsMapFacts.In_entries_unique; eauto).
        subst. congruence.
    + constructor; auto.
      * now apply JsMapFacts.keys_delete_NoDup.
      * intros k e Hin. apply JsMapFacts.entries_delete_subset in Hin. auto.
      * intros id' t Hin. destruct (Ho id' t Hin) as [e [Hine Te]].
        exists e. split; auto.
        apply JsMapFacts.entries_delete_In; auto. split; auto.
        intros Heq. rewrite Heq in Hine.
        assert (e = e0) by (eapply JsMapFacts.In_entries_unique; eauto).
        subst. congruence.
  - rewrite JsMapFacts.delete_absent.
    + simpl. now constructor.
    + rewrite JsMapFacts.has_get, G. reflexivity.
Qed.

(** After [delete], no pending timer is left for the key. *)
Lemma store_wf_absent_no_timer (d : JsMap.MapData K E)
      (ts : list (TimerId * Timeout Task)) (next : TimerId) (key : K) :
  wf d ts next -> has key d = false ->
  forall id t, In (id, t) ts -> owner (task t) <> key.
Proof.
  intros [Hk Hi Hf Ha Ho] Hhas id t Hin Heq.
  destruct (Ho id t Hin) as [e [Hine _]]. rewrite Heq in Hine.
  apply JsMapFacts.In_keys in Hine.
  apply JsMapFacts.has_false_not_In in Hhas. contradiction.
Qed.

Lemma store_wf_set_untimed (d : JsMap.MapData K E)
      (ts : list (TimerId * Timeout Task)) (next : TimerId) (key : K) (e : E) :
  wf d ts next -> has key d = false ->
  timer_of e = None -> expiry_of e = None ->
  wf (set key e d) ts next.
Proof.
  intros W Hhas Te Ee.
  pose proof (store_wf_absent_no_timer W Hhas) as Hnot.
  destruct W as [Hk Hi Hf Ha Ho].
  constructor; auto.
  - now apply JsMapFacts.keys_set_NoDup.
  - intros k e' Hin. apply JsMapFacts.entries_set_In in Hin; auto.
    destruct Hin as [[-> ->]|[Hne Hin]]; auto.
    unfold Store.armed. now rewrite Te.
  - intros id t Hin. destruct (Ho id t Hin) as [e' [Hine Te']].
    exists e'. split; auto.
    apply JsMapFacts.entries_set_In; auto. right. split; auto.
    eapply Hnot; eauto.
Qed.

Lemma store_wf_set_timed (d : JsMap.MapData K E)
      (ts : list (TimerId * Timeout Task)) (next : TimerId) (key : K) (e : E)
      (expiry at_ : Z) :
  wf d ts next -> has key d = false ->
  timer_of e = Some next -> expiry_of e = Some expiry ->
  wf (set key e d)
     (ts ++ [(next, {| due := at_; task := closure key e |})]) (S next).
Proof.
  intros W Hhas Te Ee.
  pose proof (store_wf_absent_no_timer W Hhas) as Hnot.
  destruct W as [Hk Hi Hf Ha Ho].
  constructor.
  - now apply JsMapFacts.keys_set_NoDup.
  - rewrite map_app. simpl. apply NoDup_app; auto.
    + constructor; [intros [] | constructor].
    + intros x Hx [<-|[]]. apply in_map_iff in Hx as [[i t] [<- Hin]].
      apply Hf in Hin. simpl in Hin. lia.
  - intros id t Hin. apply in_app_iff in Hin as [Hin|[[= <- <-]|[]]].
    + apply Hf in Hin. lia.
    + lia.
  - intros k e' Hin. apply JsMapFacts.entries_set_In in Hin; auto.
    destruct Hin as [[-> ->]|[Hne Hin]].
    + unfold Store.armed. rewrite Te. exists expiry, at_. split; auto.
      apply in_app_iff. right. now left.
    + eapply store_armed_mono; [|eauto]. intros p Hp. apply in_app_iff. now left.
  - intros id t Hin. apply in_app_iff in Hin as [Hin|[[= <- <-]|[]]].
    + destruct (Ho id t Hin) as [e' [Hine Te']].
      exists e'. split; auto.
      apply JsMapFacts.entries_set_In; auto. right. split; auto.
      eapply Hnot; eauto.
    + exists e. simpl. rewrite owner_closure. split; auto.
      apply JsMapFacts.entries_set_In; auto.
Qed.

(** The invariant looks at the live entries only, not at the slots. *)
Lemma store_wf_ext (d d' : JsMap.MapData K E) (ts : list (TimerId * Timeout Task))
      (next : TimerId) :
  wf d ts next -> NoDup (JsMap.keys d') ->
  (forall k e, In (k, e) (JsMap.entries d') <-> In (k, e) (JsMap.entries d)) ->
  wf d' ts next.
Proof.
  intros [Hk Hi Hf Ha Ho] ND Hext.
  constructor; auto.
  - intros k e Hin. apply Ha. now apply Hext.
  - intros id t Hin. destruct (Ho id t Hin) as [e [Hine Te]].
    exists e. split; auto. now apply Hext.
Qed.

(** Clearing the timer of a present entry and overwriting it, where it
    stands, with an entry that has no timer. *)
Lemma store_wf_disarm (d : JsMap.MapData K E) (ts : list (TimerId * Timeout Task))
      (next : TimerId) (key : K) (e0 e : E) :
  wf d ts next -> get key d = Some e0 ->
  timer_of e = None -> expiry_of e = None ->
  wf (set key e d)
     (match timer_of e0 with Some id => cancel id ts | None => ts end) next.
Proof.
  intros W G Te Ee.
  pose proof (store_wf_delete key W) as W1. rewrite G in W1.
  assert (ND : NoDup (JsMap.keys d)) by now destruct W.
  assert (Hhas : has key (snd (delete key d)) = false)
    by now apply JsMapFacts.has_delete.
  assert (W2 : wf (set key e (snd (delete key d)))
                  (match timer_of e0 with Some id => cancel id ts | None => ts end)
                  next)
    by (apply store_wf_set_untimed; auto).
  eapply store_wf_ext; [exact W2 | now apply JsMapFacts.keys_set_NoDup |].
  intros k e'.
  rewrite !JsMapFacts.entries_set_In;
    [| now apply JsMapFacts.keys_delete_NoDup | assumption].
  rewrite JsMapFacts.entries_delete_In by assumption. tauto.
Qed.

End StoreFacts.
End StoreFacts.

(** * ExpiringMap: how each method acts, and the invariant *)
Module ExpiringMapFacts.
Import ExpiringMap.
Section ExpiringMapFacts.
Variables K V U Err : Type.
Variable K_eq_dec : forall x y : K, {x = y} + {x <> y}.

Abbreviation World := (ExpiringMap.World K V U Err).
Abbreviation Entry := (ExpiringMap.Entry K V U Err).
Abbreviation delete := (ExpiringMap.delete K_eq_dec).
Abbreviation set := (ExpiringMap.set K_eq_dec).
Abbreviation get := (ExpiringMap.get K_eq_dec).
Abbreviation has := (ExpiringMap.has K_eq_dec).
Abbreviation getExpiry := (ExpiringMap.getExpiry K_eq_dec).
Abbreviation clear := (ExpiringMap.clear K_eq_dec).
Abbreviation clear_fuel := (ExpiringMap.clear_fuel K_eq_dec).
Abbreviation clearExpiry := (ExpiringMap.clearExpiry K_eq_dec).
Abbreviation setExpiry := (ExpiringMap.setExpiry K_eq_dec).
Abbreviation setMinimumExpiry := (ExpiringMap.setMinimumExpiry K_eq_dec).
Abbreviation expire := (ExpiringMap.expire K_eq_dec).
Abbreviation expireAll := (ExpiringMap.expireAll K_eq_dec).
Abbreviation expireAll_fuel := (ExpiringMap.expireAll_fuel K_eq_dec).
Abbreviation timer_body := (ExpiringMap.timer_body K_eq_dec).
Abbreviation fire := (ExpiringMap.fire K_eq_dec).
Abbreviation run := (ExpiringMap.run K_eq_dec).
Abbreviation wf := (@ExpiringMap.wf K V U Err).

(** The timer handle that [delete] hands to [clearTimeout]. *)
Abbreviation handle key w :=
  (match JsMap.get K_eq_dec key (map w) with
   | Some entry => timer entry
   | None => None
   end).

(** *** [delete] *)

Lemma emap_delete_eq (key : K) (w : World) :
  delete key w =
  (has key w,
   {| rt := clearTimeout (handle key w) (rt w);
      options := options w;
      map := snd (JsMap.delete K_eq_dec key (map w)) |}).
Proof.
  unfold ExpiringMap.delete, ExpiringMap.has. simpl.
  rewrite <- JsMapFacts.delete_found.
  destruct (JsMap.delete K_eq_dec key (map w)); reflexivity.
Qed.

Lemma emap_delete_absent (key : K) (w : World) :
  has key w = false -> delete key w = (false, w).
Proof.
  intros H. rewrite emap_delete_eq, H. unfold ExpiringMap.has in H.
  rewrite (JsMapFacts.has_false_get _ _ _ H).
  rewrite JsMapFacts.delete_absent by exact H.
  destruct w; reflexivity.
Qed.

Lemma emap_owner_closure (o : option (ExpiringMapOptions K V U Err)) (k : K) (e : Entry) :
  task_key (closure_of o k e) = k.
Proof. reflexivity. Qed.

(** The invariant does not look at the clock, the user state or the
    unhandled rejections. *)
Lemma emap_wf_same_store (w w' : World) :
  wf w -> map w' = map w -> options w' = options w ->
  timers (rt w') = timers (rt w) -> next_timer (rt w') = next_timer (rt w) ->
  wf w'.
Proof.
  intros [Ws Wd] Hm Ho Ht Hn.
  constructor.
  - rewrite Hm, Ho, Ht, Hn. exact Ws.
  - unfold option_of in *. rewrite Hm, Ho. exact Wd.
Qed.

Lemma emap_wf_constructor (now0 : Z) (u : U)
      (o : option (ExpiringMapOptions K V U Err)) :
  wf (constructor {| now := now0; timers := []; next_timer := O;
                     user := u; unhandled := [] |} o).
Proof.
  constructor; simpl.
  - apply StoreFacts.store_wf_empty.
  - intros key e [].
Qed.

Lemma emap_wf_delete (key : K) (w : World) : wf w -> wf (snd (delete key w)).
Proof.
  intros [Ws Wd]. rewrite emap_delete_eq. simpl.
  constructor; simpl.
  - rewrite timers_clearTimeout, next_timer_clearTimeout.
    pose proof (StoreFacts.store_wf_delete K_eq_dec (@emap_owner_closure (options w)) key Ws) as H.
    destruct (JsMap.get K_eq_dec key (map w)) as [e|]; auto.
  - intros k e Hin. apply JsMapFacts.entries_delete_subset in Hin.
    exact (Wd k e Hin).
Qed.

(** What [delete] leaves in place. *)
Lemma emap_delete_frame (key : K) (w : World) :
  options (snd (delete key w)) = options w /\
  now (rt (snd (delete key w))) = now (rt w) /\
  user (rt (snd (delete key w))) = user (rt w) /\
  unhandled (rt (snd (delete key w))) = unhandled (rt w) /\
  next_timer (rt (snd (delete key w))) = next_timer (rt w).
Proof.
  rewrite emap_delete_eq. simpl.
  rewrite now_clearTimeout, user_clearTimeout, unhandled_clearTimeout,
    next_timer_clearTimeout. auto.
Qed.

Lemma emap_has_delete (key : K) (w : World) :
  wf w -> has key (snd (delete key w)) = false.
Proof.
  intros [[Hk _ _ _ _] _]. rewrite emap_delete_eq. unfold ExpiringMap.has. simpl.
  now apply JsMapFacts.has_delete.
Qed.

(** *** [set] *)

Lemma emap_set_eq (key : K) (value : V) (expiryMs : option Z)
      (expiryCallback : option (MapExpiryCallback K V U Err)) (w : World) :
  let w1 := snd (delete key w) in
  let cb := nullish expiryCallback (option_of (@defaultExpiryCallback K V U Err) w) in
  set key value expiryMs expiryCallback w =
  match nullish expiryMs (option_of (@defaultExpiryMs K V U Err) w) with
  | Some ms =>
      {| rt := snd (setTimeout
                      {| task_key := key; task_value := value;
                         task_callback := cb;
                         task_errorCallback :=
                           option_of (@expireErrorCallback K V U Err) w |}
                      ms (rt w1));
         options := options w;
         map := JsMap.set K_eq_dec key
                  {| timer := Some (next_timer (rt w)); 
                     expiry := Some (now (rt w) + ms);
                     expiryCallback := cb; value := value |} (map w1) |}
  | None =>
      {| rt := rt w1; options := options w;
         map := JsMap.set K_eq_dec key
                  {| timer := None; expiry := None;
                     expiryCallback := cb; value := value |} (map w1) |}
  end.
Proof.
  intros w1 cb. unfold ExpiringMap.set. fold w1.
  destruct (emap_delete_frame key w) as (Ho & Hn & _ & _ & Hnt). fold w1 in Ho, Hn, Hnt.
  unfold option_of. rewrite Ho. fold cb.
  destruct (nullish expiryMs _) as [ms|]; unfold with_map, with_rt; simpl.
  - unfold cb, option_of. rewrite Hn, Hnt, Ho. reflexivity.
  - rewrite Ho. reflexivity.
Qed.

Lemma emap_wf_set (key : K) (value : V) (expiryMs : option Z)
      (expiryCallback : option (MapExpiryCallback K V U Err)) (w : World) :
  wf w -> wf (set key value expiryMs expiryCallback w).
Proof.
  intros W.
  pose proof (emap_wf_delete key W) as [Ws Wd].
  pose proof (emap_has_delete key W) as Hhas. unfold ExpiringMap.has in Hhas.
  destruct (emap_delete_frame key w) as (Ho & Hn & _ & _ & Hnt).
  rewrite emap_set_eq. cbv zeta.
  rewrite Ho in Ws.
  destruct (nullish expiryMs _) as [ms|]; constructor; simpl.
  - rewrite <- Hnt, <- Hn.
    apply (StoreFacts.store_wf_set_timed K_eq_dec (@emap_owner_closure (options w)) key
             {| timer := Some (next_timer (rt (snd (delete key w))));
                expiry := Some (now (rt (snd (delete key w))) + ms);
                expiryCallback :=
                  nullish expiryCallback
                          (option_of (@defaultExpiryCallback K V U Err) w);
                value := value |}
             (expiry := now (rt (snd (delete key w))) + ms)
             (now (rt (snd (delete key w))) + timer_delay ms) Ws Hhas);
      reflexivity.
  - intros k e Hin.
    apply JsMapFacts.entries_set_In in Hin; [|now destruct Ws].
    destruct Hin as [[-> ->]|[Hne Hin]]; simpl.
    + unfold option_of. simpl. destruct expiryCallback; simpl; [discriminate|auto].
    + intros He. pose proof (Wd k e Hin He) as H.
      unfold option_of in *. now rewrite Ho in H.
  - apply (StoreFacts.store_wf_set_untimed K_eq_dec key
             {| timer := None; expiry := None;
                expiryCallback :=
                  nullish expiryCallback
                          (option_of (@defaultExpiryCallback K V U Err) w);
                value := value |} Ws Hhas); reflexivity.
  - intros k e Hin.
    apply JsMapFacts.entries_set_In in Hin; [|now destruct Ws].
    destruct Hin as [[-> ->]|[Hne Hin]]; simpl.
    + unfold option_of. simpl. destruct expiryCallback; simpl; [discriminate|auto].
    + intros He. pose proof (Wd k e Hin He) as H.
      unfold option_of in *. now rewrite Ho in H.
Qed.

Lemma emap_get_set (key : K) (value : V) (expiryMs : option Z)
      (expiryCallback : option (MapExpiryCallback K V U Err)) (w : World) :
  get key (set key value expiryMs expiryCallback w) = Some value.
Proof.
  unfold ExpiringMap.get. rewrite emap_set_eq. cbv zeta.
  destruct (nullish expiryMs _); simpl; now rewrite JsMapFacts.get_set.
Qed.

Lemma emap_has_set (key : K) (value : V) (expiryMs : option Z)
      (expiryCallback : option (MapExpiryCallback K V U Err)) (w : World) :
  has key (set key value expiryMs expiryCallback w) = true.
Proof.
  unfold ExpiringMap.has. rewrite emap_set_eq. cbv zeta.
  destruct (nullish expiryMs _); simpl; now rewrite JsMapFacts.has_set.
Qed.

Lemma emap_getExpiry_set (key : K) (value : V) (expiryMs : option Z)
      (expiryCallback : option (MapExpiryCallback K V U Err)) (w : World) :
  getExpiry key (set key value expiryMs expiryCallback w) =
  option_map (fun ms => now (rt w) + ms)
             (nullish expiryMs (option_of (@defaultExpiryMs K V U Err) w)).
Proof.
  unfold ExpiringMap.getExpiry. rewrite emap_set_eq. cbv zeta.
  destruct (nullish expiryMs _); simpl; now rewrite JsMapFacts.get_set.
Qed.

Lemma emap_entry_set (key : K) (value : V) (expiryMs : option Z)
      (expiryCallback : option (MapExpiryCallback K V U Err)) (w : World) :
  exists e,
    JsMap.get K_eq_dec key (map (set key value expiryMs expiryCallback w)) = Some e /\
    ExpiringMap.value e = value /\
    ExpiringMap.expiryCallback e =
      nullish expiryCallback (option_of (@defaultExpiryCallback K V U Err) w).
Proof.
  rewrite emap_set_eq. cbv zeta.
  destruct (nullish expiryMs _); simpl; rewrite JsMapFacts.get_set; eauto.
Qed.

Lemma emap_map_set_other (key k : K) (value : V) (expiryMs : option Z)
      (expiryCallback : option (MapExpiryCallback K V U Err)) (w : World) :
  k <> key ->
  JsMap.get K_eq_dec k (map (set key value expiryMs expiryCallback w)) =
  JsMap.get K_eq_dec k (map w).
Proof.
  intros Hk. rewrite emap_set_eq. cbv zeta.
  destruct (nullish expiryMs _); simpl;
    rewrite JsMapFacts.get_set_other by exact Hk;
    rewrite emap_delete_eq; simpl; now apply JsMapFacts.get_delete_other.
Qed.

(** [set] leaves the user state and the clock alone: no callback runs. *)
Lemma emap_set_frame (key : K) (value : V) (expiryMs : option Z)
      (expiryCallback : option (MapExpiryCallback K V U Err)) (w : World) :
  options (set key value expiryMs expiryCallback w) = options w /\
  now (rt (set key value expiryMs expiryCallback w)) = now (rt w) /\
  user (rt (set key value expiryMs expiryCallback w)) = user (rt w) /\
  unhandled (rt (set key value expiryMs expiryCallback w)) = unhandled (rt w).
Proof.
  destruct (emap_delete_frame key w) as (Ho & Hn & Hu & Hh & Hnt).
  rewrite emap_set_eq. cbv zeta.
  destruct (nullish expiryMs _); simpl; auto.
Qed.

(** *** Iteration order *)

Lemma emap_keys_delete (key : K) (w : World) :
  keys (snd (delete key w)) = JsMap.remove_key K_eq_dec key (keys w).
Proof.
  rewrite emap_delete_eq. unfold keys. simpl. apply JsMapFacts.keys_delete.
Qed.

Lemma emap_keys_set (key : K) (value : V) (expiryMs : option Z)
      (expiryCallback : option (MapExpiryCallback K V U Err)) (w : World) :
  wf w ->
  keys (set key value expiryMs expiryCallback w) =
  JsMap.remove_key K_eq_dec key (keys w) ++ [key].
Proof.
  intros W. pose proof (emap_has_delete key W) as Hhas.
  unfold ExpiringMap.has in Hhas.
  rewrite <- emap_keys_delete. unfold keys. rewrite emap_set_eq. cbv zeta.
  destruct (nullish expiryMs _); simpl;
    now rewrite JsMapFacts.keys_set_absent.
Qed.

Lemma emap_keys_entries (w : World) : List.map fst (entries w) = keys w.
Proof.
  unfold entries, keys, JsMap.keys. rewrite map_map. reflexivity.
Qed.

Lemma emap_entries_length (w : World) : length (entries w) = size w.
Proof. unfold entries, size, JsMap.size. now rewrite length_map. Qed.

Lemma emap_has_keys (key : K) (w : World) : has key w = true <-> In key (keys w).
Proof. apply JsMapFacts.has_In_keys. Qed.

Lemma emap_get_entries (key : K) (v : V) (w : World) :
  wf w -> (get key w = Some v <-> In (key, v) (entries w)).
Proof.
  intros [[Hk _ _ _ _] _]. unfold ExpiringMap.get, entries. split.
  - destruct (JsMap.get K_eq_dec key (map w)) as [e|] eqn:G; simpl; [|discriminate].
    intros [= <-]. apply JsMapFacts.get_In in G.
    apply in_map_iff. exists (key, e). auto.
  - intros H. apply in_map_iff in H as [[k e] [[= -> <-] Hin]].
    apply JsMapFacts.In_get with (K_eq_dec := K_eq_dec) in Hin; auto.
    now rewrite Hin.
Qed.

(** *** [clearExpiry] *)

Lemma emap_clearExpiry_absent (key : K) (w : World) :
  has key w = false -> clearExpiry key w = (false, w).
Proof.
  unfold ExpiringMap.has, ExpiringMap.clearExpiry. now intros ->.
Qed.

Lemma emap_clearExpiry_present (key : K) (e : Entry) (w : World) :
  JsMap.get K_eq_dec key (map w) = Some e ->
  clearExpiry key w =
  (true,
   {| rt := clearTimeout (timer e) (rt w);
      options := options w;
      map := JsMap.set K_eq_dec key
               {| expiry := None; timer := None;
                  expiryCallback := expiryCallback e; value := value e |}
               (map w) |}).
Proof.
  intros G. unfold ExpiringMap.clearExpiry.
  rewrite (JsMapFacts.get_has _ _ _ G), G. reflexivity.
Qed.

Lemma emap_wf_clearExpiry (key : K) (w : World) :
  wf w -> wf (snd (clearExpiry key w)).
Proof.
  intros W. destruct (JsMap.get K_eq_dec key (map w)) as [e|] eqn:G.
  - rewrite emap_clearExpiry_present with (e := e) by exact G. destruct W as [Ws Wd].
    constructor; simpl.
    + rewrite timers_clearTimeout, next_timer_clearTimeout.
      pose proof (StoreFacts.store_wf_disarm K_eq_dec (@emap_owner_closure (options w)) key
                    {| expiry := None; timer := None;
                       expiryCallback := expiryCallback e; value := value e |}
                    Ws G eq_refl eq_refl) as H.
      destruct (timer e); exact H.
    + intros k e' Hin.
      apply JsMapFacts.entries_set_In in Hin; [|now destruct Ws].
      destruct Hin as [[-> ->]|[Hne Hin]]; simpl.
      * apply (Wd key e). now apply JsMapFacts.get_In in G.
      * apply (Wd k e' Hin).
  - rewrite emap_clearExpiry_absent; auto.
    unfold ExpiringMap.has. now rewrite JsMapFacts.has_get, G.
Qed.

(** Overwriting a present entry with one of the same value leaves what
    the iterators yield as it was. *)
Lemma emap_entries_overwrite (key : K) (e e' : Entry) (w : World) (r : Runtime _ U Err) :
  wf w -> JsMap.get K_eq_dec key (map w) = Some e -> value e' = value e ->
  entries {| rt := r; options := options w;
             map := JsMap.set K_eq_dec key e' (map w) |} = entries w.
Proof.
  intros [[Hk _ _ _ _] _] G Hv. unfold entries. simpl.
  rewrite JsMapFacts.entries_set_present by exact Hk.
  rewrite (JsMapFacts.get_has _ _ _ G), app_nil_r, map_map.
  apply map_ext_in. intros [k e1] Hin. simpl.
  destruct (K_eq_dec k key) as [->|]; simpl; auto.
  apply JsMapFacts.In_get with (K_eq_dec := K_eq_dec) in Hin; auto.
  congruence.
Qed.

(** *** [setExpiry] and [setMinimumExpiry] *)

Lemma emap_setExpiry_absent (key : K) (ms : Z) (w : World) :
  has key w = false -> setExpiry key ms w = (false, w).
Proof.
  unfold ExpiringMap.has, ExpiringMap.setExpiry. now intros ->.
Qed.

Lemma emap_setExpiry_present (key : K) (ms : Z) (e : Entry) (w : World) :
  JsMap.get K_eq_dec key (map w) = Some e ->
  setExpiry key ms w =
  (true, set key (value e) (Some ms) (expiryCallback e) w).
Proof.
  intros G. unfold ExpiringMap.setExpiry.
  rewrite (JsMapFacts.get_has _ _ _ G), G. reflexivity.
Qed.

Lemma emap_wf_setExpiry (key : K) (ms : Z) (w : World) :
  wf w -> wf (snd (setExpiry key ms w)).
Proof.
  intros W. destruct (JsMap.get K_eq_dec key (map w)) as [e|] eqn:G.
  - rewrite emap_setExpiry_present with (e := e) by exact G. now apply emap_wf_set.
  - rewrite emap_setExpiry_absent; auto.
    unfold ExpiringMap.has. now rewrite JsMapFacts.has_get, G.
Qed.

Lemma emap_getExpiry_None (key : K) (w : World) :
  getExpiry key w = None <->
  has key w = false \/
  exists e, JsMap.get K_eq_dec key (map w) = Some e /\ expiry e = None.
Proof.
  unfold ExpiringMap.getExpiry, ExpiringMap.has. rewrite JsMapFacts.has_get.
  destruct (JsMap.get K_eq_dec key (map w)) as [e|]; split; auto.
  - intros H. right. eauto.
  - intros [H|[e' [[= <-] H]]]; [discriminate | exact H].
Qed.

Lemma emap_getExpiry_Some (key : K) (old : Z) (w : World) :
  getExpiry key w = Some old <->
  exists e, JsMap.get K_eq_dec key (map w) = Some e /\ expiry e = Some old.
Proof.
  unfold ExpiringMap.getExpiry.
  destruct (JsMap.get K_eq_dec key (map w)) as [e|]; split.
  - eauto.
  - now intros [e' [[= <-] H]].
  - discriminate.
  - intros [e' [H _]]. discriminate.
Qed.

Lemma emap_setMinimumExpiry_eq (key : K) (m : Z) (w : World) :
  setMinimumExpiry key m w =
  match getExpiry key w with
  | None => (false, w)
  | Some old => if old <? now (rt w) + m then setExpiry key m w else (true, w)
  end.
Proof.
  unfold ExpiringMap.setMinimumExpiry.
  destruct (getExpiry key w) as [old|]; auto.
  now rewrite Z.gtb_ltb.
Qed.

Lemma emap_wf_setMinimumExpiry (key : K) (m : Z) (w : World) :
  wf w -> wf (snd (setMinimumExpiry key m w)).
Proof.
  intros W. rewrite emap_setMinimumExpiry_eq.
  destruct (getExpiry key w) as [old|]; auto.
  destruct (old <? now (rt w) + m); auto. now apply emap_wf_setExpiry.
Qed.

(** *** [expire] *)

Lemma emap_expire_absent (key : K) (w : World) :
  has key w = false -> expire key w = (w, Fulfilled false).
Proof.
  unfold ExpiringMap.has, ExpiringMap.expire. intros H.
  now rewrite (JsMapFacts.has_false_get _ _ _ H).
Qed.

Lemma emap_expire_present (key : K) (e : Entry) (w : World) :
  JsMap.get K_eq_dec key (map w) = Some e ->
  expire key w =
  let w1 := snd (delete key w) in
  match expiryCallback e with
  | Some cb =>
      let (u, o) := cb key (value e) (entries w1) (user (rt w)) in
      (with_rt (with_user u (rt w1)) w1,
       match o with
       | Returns | Resolves => Fulfilled true
       | Throws err | Rejects err => Rejected err
       end)
  | None => (w1, Fulfilled true)
  end.
Proof.
  intros G. unfold ExpiringMap.expire. rewrite G. cbv zeta.
  destruct (expiryCallback e) as [cb|]; auto.
  unfold call_expiryCallback.
  destruct (emap_delete_frame key w) as (_ & _ & Hu & _). rewrite Hu.
  destruct (cb key (value e) _ (user (rt w))) as [u [| |  |]]; reflexivity.
Qed.

Lemma emap_expire_map (key : K) (w : World) :
  map (fst (expire key w)) = snd (JsMap.delete K_eq_dec key (map w)).
Proof.
  destruct (JsMap.get K_eq_dec key (map w)) as [e|] eqn:G.
  - rewrite emap_expire_present with (e := e) by exact G. cbv zeta.
    destruct (expiryCallback e) as [cb|].
    + destruct (cb _ _ _ _) as [u o]. simpl. now rewrite emap_delete_eq.
    + simpl. now rewrite emap_delete_eq.
  - assert (H : JsMap.has K_eq_dec key (map w) = false)
      by now rewrite JsMapFacts.has_get, G.
    rewrite emap_expire_absent by exact H. simpl.
    now rewrite JsMapFacts.delete_absent.
Qed.

Lemma emap_wf_user (u : U) (w : World) : wf w -> wf (with_rt (with_user u (rt w)) w).
Proof. intros W. now apply emap_wf_same_store with (w := w). Qed.

Lemma emap_wf_expire (key : K) (w : World) : wf w -> wf (fst (expire key w)).
Proof.
  intros W. destruct (JsMap.get K_eq_dec key (map w)) as [e|] eqn:G.
  - rewrite emap_expire_present with (e := e) by exact G. cbv zeta.
    pose proof (emap_wf_delete key W) as W1.
    destruct (expiryCallback e) as [cb|]; auto.
    destruct (cb _ _ _ _) as [u o]. simpl. now apply emap_wf_user.
  - rewrite emap_expire_absent; auto.
    unfold ExpiringMap.has. now rewrite JsMapFacts.has_get, G.
Qed.

(** *** [clear] *)

Lemma emap_fold_left_keys (S : Type) (f : S -> K -> S) (es : list (K * Entry)) (s : S) :
  fold_left (fun s p => f s (fst p)) es s = fold_left f (List.map fst es) s.
Proof. revert s. induction es as [|p es IH]; simpl; auto. Qed.

Lemma emap_clear_drain (fuel : nat) (w : World) :
  (length (map w) <= fuel)%nat ->
  clear_fuel fuel w = fold_left (fun s key => snd (delete key s)) (keys w) w /\
  map (clear_fuel fuel w) = repeat None (length (map w)).
Proof.
  intros Hf. unfold ExpiringMap.clear_fuel, keys, JsMap.keys.
  rewrite <- emap_fold_left_keys.
  apply JsMapFacts.for_of_drain
    with (data := @map K V U Err) (body := fun p s => snd (delete (fst p) s))
         (n := O) (rest := map w); auto.
  intros n k e rest s Hs. simpl. rewrite emap_delete_eq. simpl.
  rewrite Hs, JsMapFacts.delete_first_live. reflexivity.
Qed.

(** [clear] is [delete] applied to every key, in order. *)
Lemma emap_clear_eq (w : World) :
  clear w = fold_left (fun s key => snd (delete key s)) (keys w) w.
Proof. unfold ExpiringMap.clear. now apply emap_clear_drain. Qed.

Lemma emap_clear_fuel_enough (fuel : nat) (w : World) :
  (length (map w) <= fuel)%nat -> clear_fuel fuel w = clear w.
Proof.
  intros Hf. rewrite emap_clear_eq. now apply emap_clear_drain.
Qed.

Lemma emap_clear_map (w : World) : map (clear w) = repeat None (length (map w)).
Proof. unfold ExpiringMap.clear. now apply emap_clear_drain. Qed.

Lemma emap_entries_tombs (n : nat) : JsMap.entries (repeat (@None (K * Entry)) n) = [].
Proof. induction n; simpl; auto. Qed.

Lemma emap_clear_empty (w : World) :
  size (clear w) = O /\ keys (clear w) = [] /\ entries (clear w) = [] /\
  forall key, has key (clear w) = false.
Proof.
  unfold size, JsMap.size, keys, JsMap.keys, entries, ExpiringMap.has.
  rewrite emap_clear_map, emap_entries_tombs. repeat split; auto.
  intros key. apply JsMapFacts.has_false_not_In.
  unfold JsMap.keys. rewrite emap_entries_tombs. intros [].
Qed.

Lemma emap_wf_clear (w : World) : wf w -> wf (clear w).
Proof.
  intros W. rewrite emap_clear_eq. apply fold_left_invariant; auto.
  intros s key Hs. now apply emap_wf_delete.
Qed.

Lemma emap_clear_frame (w : World) :
  options (clear w) = options w /\
  now (rt (clear w)) = now (rt w) /\
  user (rt (clear w)) = user (rt w) /\
  unhandled (rt (clear w)) = unhandled (rt w) /\
  next_timer (rt (clear w)) = next_timer (rt w).
Proof.
  rewrite emap_clear_eq.
  apply (fold_left_invariant
           (fun s => options s = options w /\ now (rt s) = now (rt w) /\
                     user (rt s) = user (rt w) /\
                     unhandled (rt s) = unhandled (rt w) /\
                     next_timer (rt s) = next_timer (rt w))); auto.
  intros s key (H1 & H2 & H3 & H4 & H5).
  destruct (emap_delete_frame key s) as (D1 & D2 & D3 & D4 & D5).
  repeat split; congruence.
Qed.

(** In a well-formed state without live entries no timer is pending. *)
Lemma emap_wf_empty_no_timers (w : World) :
  wf w -> JsMap.entries (map w) = [] -> timers (rt w) = [].
Proof.
  intros [[_ _ _ _ Ho] _] He.
  destruct (timers (rt w)) as [|[id t] ts]; auto.
  destruct (Ho id t) as [e [Hin _]]; [now left|].
  rewrite He in Hin. contradiction.
Qed.

Lemma emap_clear_timers (w : World) : wf w -> timers (rt (clear w)) = [].
Proof.
  intros W. apply emap_wf_empty_no_timers; [now apply emap_wf_clear|].
  rewrite emap_clear_map. apply emap_entries_tombs.
Qed.

(** *** [expireAll] *)

Abbreviation expire_turn :=
  (fun (s : World * list (Settled Err bool)) (key : K) =>
     let (w1, r) := expire key (fst s) in (w1, snd s ++ [r])).

Lemma emap_expireAll_drain (fuel : nat) (w : World) :
  (length (map w) <= fuel)%nat ->
  expireAll_fuel fuel w = fold_left expire_turn (keys w) (w, []) /\
  map (fst (expireAll_fuel fuel w)) = repeat None (length (map w)).
Proof.
  intros Hf. unfold ExpiringMap.expireAll_fuel, keys, JsMap.keys.
  rewrite <- emap_fold_left_keys.
  apply JsMapFacts.for_of_drain
    with (data := fun s : World * list (Settled Err bool) => map (fst s))
         (body := fun p s => let (w1, r) := expire (fst p) (fst s) in
                             (w1, snd s ++ [r]))
         (n := O) (rest := map w); auto.
  intros n k e rest [w0 acc] Hs. simpl in *.
  pose proof (emap_expire_map k w0) as H.
  destruct (expire k w0) as [w1 r]. simpl in *.
  rewrite H, Hs, JsMapFacts.delete_first_live. reflexivity.
Qed.

Lemma emap_expireAll_fuel_enough (fuel : nat) (w : World) :
  (length (map w) <= fuel)%nat ->
  expireAll_fuel fuel w = expireAll_fuel (length (map w)) w.
Proof.
  intros Hf.
  destruct (@emap_expireAll_drain fuel w Hf) as [-> _].
  destruct (@emap_expireAll_drain _ w (Nat.le_refl (length (map w)))) as [-> _].
  reflexivity.
Qed.

Lemma emap_expireAll_eq (w : World) :
  expireAll w =
  let (w1, expiries) := fold_left expire_turn (keys w) (w, []) in
  (w1, Promise_all expiries).
Proof.
  unfold ExpiringMap.expireAll.
  destruct (@emap_expireAll_drain _ w (Nat.le_refl (length (map w)))) as [-> _].
  reflexivity.
Qed.



Lemma emap_wf_expireAll (w : World) : wf w -> wf (fst (expireAll w)).
Proof.
  intros W. rewrite emap_expireAll_eq.
  assert (H : wf (fst (fold_left expire_turn (keys w) (w, [])))).
  { apply (fold_left_invariant (fun s => wf (fst s))); auto.
    intros [w0 acc] key Hs. simpl in *.
    pose proof (emap_wf_expire key Hs). now destruct (expire key w0). }
  now destruct (fold_left _ _ _).
Qed.




(** *** [forEach] *)

Lemma emap_forEach_loop_spec (f : MapForEachCallback K V U Err) (this : View K V)
      (es : list (K * V)) :
  forall (u : U) (acc : list (Settled Err unit)),
    match forEach_loop f this es u acc with
    | (_, inl (e, _)) =>
        exists k v u0, In (k, v) es /\ snd (f v k this u0) = Throws e
    | (_, inr ps) =>
        exists qs, ps = acc ++ qs /\ length qs = length es /\
          forall e, In (Rejected e) qs ->
            exists k v u0, In (k, v) es /\ snd (f v k this u0) = Rejects e
    end.
Proof.
  induction es as [|[k v] es IH]; intros u acc; simpl.
  - exists []. rewrite app_nil_r. repeat split; auto. intros e [].
  - destruct (f v k this u) as [u' o] eqn:F.
    assert (Ho : snd (f v k this u) = o) by now rewrite F.
    destruct o as [|e| |e].
    + specialize (IH u' (acc ++ [Fulfilled tt])).
      destruct (forEach_loop f this es u' _) as [u2 [[e ps0]|ps]].
      * destruct IH as (k0 & v0 & u0 & Hin & H). exists k0, v0, u0. auto.
      * destruct IH as (qs & -> & Hl & H).
        exists (Fulfilled tt :: qs). rewrite <- app_assoc. simpl.
        repeat split; auto. intros e [He|He]; [discriminate|].
        destruct (H e He) as (k0 & v0 & u0 & Hin & H0). exists k0, v0, u0. auto.
    + exists k, v, u. auto.
    + specialize (IH u' (acc ++ [Fulfilled tt])).
      destruct (forEach_loop f this es u' _) as [u2 [[e ps0]|ps]].
      * destruct IH as (k0 & v0 & u0 & Hin & H). exists k0, v0, u0. auto.
      * destruct IH as (qs & -> & Hl & H).
        exists (Fulfilled tt :: qs). rewrite <- app_assoc. simpl.
        repeat split; auto. intros e [He|He]; [discriminate|].
        destruct (H e He) as (k0 & v0 & u0 & Hin & H0). exists k0, v0, u0. auto.
    + specialize (IH u' (acc ++ [Rejected e])).
      destruct (forEach_loop f this es u' _) as [u2 [[e' ps0]|ps]].
      * destruct IH as (k0 & v0 & u0 & Hin & H). exists k0, v0, u0. auto.
      * destruct IH as (qs & -> & Hl & H).
        exists (Rejected e :: qs). rewrite <- app_assoc. simpl.
        repeat split; auto. intros e' [[= <-]|He].
        -- exists k, v, u. auto.
        -- destruct (H e' He) as (k0 & v0 & u0 & Hin & H0).
           exists k0, v0, u0. auto.
Qed.

(** A callback that never throws is called on every entry, in
    iteration order. *)
Lemma emap_forEach_loop_order (f : MapForEachCallback K V U Err) (this : View K V)
      (es : list (K * V)) :
  (forall v k u e, snd (f v k this u) <> Throws e) ->
  forall (u : U) (acc : list (Settled Err unit)),
    fst (forEach_loop f this es u acc) =
    fold_left (fun u p => fst (f (snd p) (fst p) this u)) es u.
Proof.
  intros Hf. induction es as [|[k v] es IH]; intros u acc; simpl; auto.
  pose proof (Hf v k u) as H.
  destruct (f v k this u) as [u' [|e| |e]]; simpl in *; auto.
  exfalso. now apply (H e).
Qed.

Lemma emap_forEach_world (f : MapForEachCallback K V U Err) (w : World) :
  exists u es,
    fst (forEach f w) = with_rt (with_unhandled es (with_user u (rt w))) w.
Proof.
  unfold forEach.
  destruct (forEach_loop f (entries w) (entries w) (user (rt w)) [])
    as [u [[e ps0]|ps]].
  - exists u, (unhandled (rt w) ++ rejections ps0). reflexivity.
  - exists u, (unhandled (rt w)). reflexivity.
Qed.

Lemma emap_wf_forEach (f : MapForEachCallback K V U Err) (w : World) :
  wf w -> wf (fst (forEach f w)).
Proof.
  intros W. destruct (emap_forEach_world f w) as (u & es & ->).
  now apply emap_wf_same_store with (w := w).
Qed.

Lemma emap_forEach_order (f : MapForEachCallback K V U Err) (w : World) :
  (forall v k u e, snd (f v k (entries w) u) <> Throws e) ->
  user (rt (fst (forEach f w))) =
  fold_left (fun u p => fst (f (snd p) (fst p) (entries w) u))
            (entries w) (user (rt w)).
Proof.
  intros Hf. unfold forEach.
  pose proof (@emap_forEach_loop_order f (entries w) (entries w) Hf (user (rt w)) []) as H.
  destruct (forEach_loop f (entries w) (entries w) (user (rt w)) [])
    as [u [[e ps0]|ps]]; simpl in *; auto.
Qed.

(** [forEach] rejects only with what a call of its callback threw or
    rejected with. *)
Lemma emap_forEach_rejected (f : MapForEachCallback K V U Err) (w : World)
      (es : list Err) :
  snd (forEach f w) = AllRejected es ->
  es <> [] /\
  forall e, In e es ->
    exists k v u, In (k, v) (entries w) /\
      (snd (f v k (entries w) u) = Throws e \/
       snd (f v k (entries w) u) = Rejects e).
Proof.
  unfold forEach.
  pose proof (@emap_forEach_loop_spec f (entries w) (entries w) (user (rt w)) []) as H.
  destruct (forEach_loop f (entries w) (entries w) (user (rt w)) [])
    as [u [[e ps0]|ps]]; simpl.
  - intros [= <-]. split; [discriminate|].
    intros e' [<-|[]]. destruct H as (k & v & u0 & Hin & H).
    exists k, v, u0. auto.
  - destruct H as (qs & -> & _ & H). simpl. intros Hall.
    apply Promise_all_rejected in Hall as [Hne Hall]. split; auto.
    intros e He. apply Hall in He.
    destruct (H e He) as (k & v & u0 & Hin & H0). exists k, v, u0. auto.
Qed.

Lemma emap_forEach_fulfilled (f : MapForEachCallback K V U Err) (w : World) :
  (forall v k u, In (k, v) (entries w) ->
      snd (f v k (entries w) u) = Returns \/
      snd (f v k (entries w) u) = Resolves) ->
  snd (forEach f w) = AllFulfilled.
Proof.
  intros Hf. destruct (snd (forEach f w)) as [|es] eqn:R; auto.
  apply emap_forEach_rejected in R as [Hne R].
  destruct es as [|e es]; [congruence|].
  destruct (R e) as (k & v & u & Hin & H); [now left|].
  destruct (Hf v k u Hin); destruct H; congruence.
Qed.

(** *** A timer fires *)

Lemma emap_delete_after_cancel (key : K) (e : Entry) (id : TimerId) (w : World) :
  JsMap.get K_eq_dec key (map w) = Some e -> timer e = Some id ->
  snd (delete key (with_rt (with_timers (cancel id (timers (rt w))) (rt w)) w)) =
  snd (delete key w).
Proof.
  intros G T. rewrite !emap_delete_eq. simpl. rewrite G, T. simpl.
  unfold with_timers. simpl. now rewrite cancel_idem.
Qed.

(** The pending timers of a well-formed state are those of its
    entries. *)
Lemma emap_wf_timer_entry (id : TimerId) (t : Timeout (TimerTask K V U Err)) (w : World) :
  wf w -> In (id, t) (timers (rt w)) ->
  exists e, JsMap.get K_eq_dec (task_key (task t)) (map w) = Some e /\
            timer e = Some id /\ (exists d, expiry e = Some d) /\
            task t = closure_of (options w) (task_key (task t)) e.
Proof.
  intros [[Hk Hi Hf Ha Ho] _] Hin.
  destruct (Ho id t Hin) as [e [Hine Te]].
  exists e. pose proof (Ha _ _ Hine) as Harm. unfold Store.armed in Harm.
  rewrite Te in Harm. destruct Harm as [d [a [Ee Hin']]].
  assert (Heq : t = {| due := a; task := closure_of (options w) (task_key (task t)) e |})
    by (eapply timer_unique; eauto).
  repeat split; auto.
  - apply JsMapFacts.In_get; auto.
  - now exists d.
  - rewrite Heq at 1. reflexivity.
Qed.

Lemma emap_wf_entry_timer (key : K) (e : Entry) (id : TimerId) (w : World) :
  wf w -> JsMap.get K_eq_dec key (map w) = Some e -> timer e = Some id ->
  exists d, expiry e = Some d /\
    exists at_,
      pending id (rt w) = Some {| due := at_; task := closure_of (options w) key e |}.
Proof.
  intros [[Hk Hi Hf Ha Ho] _] G T.
  pose proof (Ha _ _ (JsMapFacts.get_In _ _ _ G)) as Harm.
  unfold Store.armed in Harm. rewrite T in Harm.
  destruct Harm as [d [a [Ee Hin]]]. exists d. split; auto.
  exists a. now apply In_pending.
Qed.

(** What the firing of the timer of a live entry does. *)
Lemma emap_fire_entry (key : K) (e : Entry) (id : TimerId) (w : World) :
  wf w -> JsMap.get K_eq_dec key (map w) = Some e -> timer e = Some id ->
  fire id w =
  Some (let w1 := snd (delete key w) in
        match expiryCallback e with
        | None => w1
        | Some cb =>
            let (u, o) := cb key (value e) (entries w1) (user (rt w)) in
            match await o with
            | Fulfilled _ => with_rt (with_user u (rt w1)) w1
            | Rejected error =>
                match option_of (@expireErrorCallback K V U Err) w with
                | None => with_rt (with_user u (rt w1)) w1
                | Some errorCallback =>
                    let (u', thrown) := errorCallback error u in
                    match thrown with
                    | None => with_rt (with_user u' (rt w1)) w1
                    | Some e' =>
                        add_unhandled e' (with_rt (with_user u' (rt w1)) w1)
                    end
                end
            end
        end).
Proof.
  intros W G Htimer.
  destruct (@emap_wf_entry_timer key e id w W G Htimer) as [d [Ee [at_ P]]].
  unfold ExpiringMap.fire. rewrite P. simpl. f_equal.
  unfold toSync, ExpiringMap.timer_body. simpl.
  rewrite (@emap_delete_after_cancel key e id w G Htimer).
  destruct (emap_delete_frame key w) as (_ & _ & Hu & _).
  destruct (expiryCallback e) as [cb|]; auto.
  unfold call_expiryCallback. rewrite Hu.
  destruct (cb key (value e) _ (user (rt w))) as [u o].
  unfold option_of.
  destruct (await o) as [[]|error]; reflexivity.
Qed.

Lemma emap_wf_unhandled (es : list Err) (w : World) :
  wf w -> wf (with_rt (with_unhandled es (rt w)) w).
Proof. intros W. now apply emap_wf_same_store with (w := w). Qed.

Lemma emap_wf_fire (id : TimerId) (w w' : World) :
  wf w -> fire id w = Some w' -> wf w'.
Proof.
  intros W F.
  destruct (pending id (rt w)) as [t|] eqn:P;
    [|unfold ExpiringMap.fire in F; rewrite P in F; discriminate].
  apply pending_In in P.
  destruct (@emap_wf_timer_entry id t w W P) as (e & G & Htimer & _ & _).
  rewrite (@emap_fire_entry (task_key (task t)) e id w W G Htimer) in F.
  injection F as <-. cbv zeta.
  pose proof (emap_wf_delete (task_key (task t)) W) as W1.
  destruct (expiryCallback e) as [cb|]; auto.
  destruct (cb _ _ _ _) as [u o].
  destruct (await o) as [[]|error]; [now apply emap_wf_user|].
  destruct (option_of _ w) as [errorCallback|]; [|now apply emap_wf_user].
  destruct (errorCallback error u) as [u' [e'|]]; [|now apply emap_wf_user].
  unfold add_unhandled. apply emap_wf_unhandled. now apply emap_wf_user.
Qed.

(** *** Every reachable state is well-formed *)

Lemma emap_wf_tick (d : Z) (w : World) : wf w -> wf (tick d w).
Proof. intros W. now apply emap_wf_same_store with (w := w). Qed.

Lemma emap_wf_run (c : Call K V U Err) (w : World) : wf w -> wf (fst (run c w)).
Proof.
  intros W. destruct c; simpl; auto.
  - now apply emap_wf_set.
  - now apply emap_wf_delete.
  - now apply emap_wf_clear.
  - now apply emap_wf_clearExpiry.
  - now apply emap_wf_setExpiry.
  - now apply emap_wf_setMinimumExpiry.
  - pose proof (emap_wf_forEach callbackfn W). now destruct (forEach callbackfn w).
  - pose proof (emap_wf_expire key W). now destruct (expire key w).
  - pose proof (emap_wf_expireAll W). now destruct (expireAll w).
Qed.

Lemma emap_wf_step (w w' : World) : wf w -> step K_eq_dec w w' -> wf w'.
Proof.
  intros W S. destruct S as [c w|id w w' D F|d w].
  - now apply emap_wf_run.
  - eapply emap_wf_fire; eauto.
  - now apply emap_wf_tick.
Qed.

Lemma emap_reachable_wf (w : World) : reachable K_eq_dec w -> wf w.
Proof.
  induction 1 as [now0 u o|w w' _ IH S].
  - apply emap_wf_constructor.
  - eapply emap_wf_step; eauto.
Qed.

(** *** Consequences used by the claims *)

Lemma emap_delete_no_timer (key : K) (w : World) :
  wf w ->
  forall id t, In (id, t) (timers (rt (snd (delete key w)))) ->
               task_key (task t) <> key.
Proof.
  intros W id t Hin.
  pose proof (emap_wf_delete key W) as [Ws _].
  pose proof (emap_has_delete key W) as Hhas.
  eapply StoreFacts.store_wf_absent_no_timer with (K_eq_dec := K_eq_dec); eauto.
Qed.

Lemma emap_delete_timers (key : K) (w : World) :
  wf w ->
  forall id t, In (id, t) (timers (rt (snd (delete key w)))) <->
               In (id, t) (timers (rt w)) /\ task_key (task t) <> key.
Proof.
  intros W id t. split.
  - intros Hin. split; [|eapply emap_delete_no_timer; eauto].
    rewrite emap_delete_eq in Hin. simpl in Hin.
    rewrite timers_clearTimeout in Hin.
    destruct (handle key w); auto. now apply In_cancel in Hin.
  - intros [Hin Hne]. rewrite emap_delete_eq. simpl. rewrite timers_clearTimeout.
    destruct (JsMap.get K_eq_dec key (map w)) as [e|] eqn:G; auto.
    destruct (timer e) as [id0|] eqn:T; auto.
    apply In_cancel. split; auto. intros ->.
    destruct (@emap_wf_timer_entry id0 t w W Hin) as (e' & G' & T' & _).
    destruct (K_eq_dec (task_key (task t)) key) as [Heq|]; [contradiction|].
    destruct (@emap_wf_entry_timer key e id0 w W G T) as (d & _ & at_ & P).
    apply pending_In in P.
    assert (Heq : t = {| due := at_; task := closure_of (options w) key e |}).
    { destruct W as [[_ Hi _ _ _] _]. eapply timer_unique; eauto. }
    rewrite Heq in Hne. simpl in Hne. congruence.
Qed.

Lemma emap_clearExpiry_no_timer (key : K) (w : World) :
  wf w -> has key w = true ->
  forall id t, In (id, t) (timers (rt (snd (clearExpiry key w)))) ->
               task_key (task t) <> key.
Proof.
  intros W Hhas id t Hin Heq.
  pose proof (emap_wf_clearExpiry key W) as W'.
  destruct (@emap_wf_timer_entry id t _ W' Hin) as (e' & G' & T' & _).
  apply JsMapFacts.has_true_get in Hhas as [e G].
  rewrite emap_clearExpiry_present with (e := e) in G' by exact G.
  simpl in G'. rewrite Heq, JsMapFacts.get_set in G'.
  injection G' as <-. discriminate.
Qed.

Lemma emap_wf_set_each (contents : list (K * V * option Z * option (MapExpiryCallback K V U Err)))
      (w : World) :
  wf w -> wf (set_each K_eq_dec contents w).
Proof.
  intros W. unfold set_each. apply fold_left_invariant; auto.
  intros s [[[k v] ms] cb] Hs. now apply emap_wf_set.
Qed.

Lemma emap_keys_set_each (contents : list (K * V * option Z * option (MapExpiryCallback K V U Err))) :
  forall w : World,
    wf w ->
    keys (set_each K_eq_dec contents w) =
    insertion_order K_eq_dec (List.map (@key_of K V U Err) contents) (keys w).
Proof.
  unfold set_each, insertion_order.
  induction contents as [|[[[k v] ms] cb] contents IH]; intros w W; simpl; auto.
  rewrite IH by now apply emap_wf_set. now rewrite emap_keys_set.
Qed.

Lemma emap_wf_timed (key : K) (e : Entry) (w : World) :
  wf w -> JsMap.get K_eq_dec key (map w) = Some e ->
  (timer e = None <-> expiry e = None).
Proof.
  intros [[_ _ _ Ha _] _] G.
  pose proof (Ha _ _ (JsMapFacts.get_In _ _ _ G)) as Harm.
  unfold Store.armed in Harm.
  destruct (timer e); split; auto; try discriminate.
  destruct Harm as [d [a [-> _]]]. discriminate.
Qed.

(** [clearExpiry] on an entry without expiry changes nothing. *)
Lemma emap_clearExpiry_untimed (key : K) (e : Entry) (w : World) :
  wf w -> JsMap.get K_eq_dec key (map w) = Some e -> expiry e = None ->
  clearExpiry key w = (true, w).
Proof.
  intros W G Ee.
  assert (Te : timer e = None) by now apply (@emap_wf_timed key e w W G).
  rewrite emap_clearExpiry_present with (e := e) by exact G.
  rewrite Te. simpl.
  replace {| expiry := None; timer := None;
             expiryCallback := expiryCallback e; value := value e |} with e
    by (destruct e; simpl in *; congruence).
  rewrite JsMapFacts.set_get_same by exact G.
  destruct w; reflexivity.
Qed.

(** [set] with a time to live, given or default, leaves the key with an
    entry that holds the handle of a pending timer; the timer is due
    after the delay that [setTimeout] takes the time to live for, and it
    closes over the key, the value and the callback. *)
Lemma emap_set_timed (key : K) (value : V) (expiryMs : option Z)
      (expiryCallback : option (MapExpiryCallback K V U Err)) (ms : Z) (w : World) :
  wf w ->
  nullish expiryMs (option_of (@defaultExpiryMs K V U Err) w) = Some ms ->
  let w' := set key value expiryMs expiryCallback w in
  let cb := nullish expiryCallback (option_of (@defaultExpiryCallback K V U Err) w) in
  JsMap.get K_eq_dec key (map w') =
    Some {| expiry := Some (now (rt w) + ms);
            timer := Some (next_timer (rt w));
            expiryCallback := cb; value := value |} /\
  pending (next_timer (rt w)) (rt w') =
    Some {| due := now (rt w) + timer_delay ms;
            task := {| task_key := key; task_value := value;
                       task_callback := cb;
                       task_errorCallback :=
                         option_of (@expireErrorCallback K V U Err) w |} |}.
Proof.
  intros W Hms w' cb.
  assert (W' : wf w') by now apply emap_wf_set.
  assert (G : JsMap.get K_eq_dec key (map w') =
              Some {| expiry := Some (now (rt w) + ms);
                      timer := Some (next_timer (rt w));
                      expiryCallback := cb; value := value |}).
  { unfold w'. rewrite emap_set_eq. cbv zeta. rewrite Hms. simpl.
    apply JsMapFacts.get_set. }
  split; [exact G|].
  apply In_pending; [now destruct W' as [[_ Hi _ _ _] _]|].
  unfold w'. rewrite emap_set_eq. cbv zeta. rewrite Hms. simpl.
  apply in_app_iff. right. left.
  destruct (emap_delete_frame key w) as (_ & Hn & _ & _ & Hnt).
  rewrite Hn, Hnt. reflexivity.
Qed.

End ExpiringMapFacts.
End ExpiringMapFacts.
(** * ExpiringSet: how each method acts, and the invariant *)
Module ExpiringSetFacts.
Import ExpiringSet.
Section ExpiringSetFacts.
Variables T U Err : Type.
Variable T_eq_dec : forall x y : T, {x = y} + {x <> y}.

Abbreviation World := (ExpiringSet.World T U Err).
Abbreviation Entry := (ExpiringSet.Entry T U Err).
Abbreviation delete := (ExpiringSet.delete T_eq_dec).
Abbreviation add := (ExpiringSet.add T_eq_dec).
Abbreviation has := (ExpiringSet.has T_eq_dec).
Abbreviation getExpiry := (ExpiringSet.getExpiry T_eq_dec).
Abbreviation clear := (ExpiringSet.clear T_eq_dec).
Abbreviation clear_fuel := (ExpiringSet.clear_fuel T_eq_dec).
Abbreviation clearExpiry := (ExpiringSet.clearExpiry T_eq_dec).
Abbreviation setExpiry := (ExpiringSet.setExpiry T_eq_dec).
Abbreviation setMinimumExpiry := (ExpiringSet.setMinimumExpiry T_eq_dec).
Abbreviation expire := (ExpiringSet.expire T_eq_dec).
Abbreviation expireAll := (ExpiringSet.expireAll T_eq_dec).
Abbreviation expireAll_fuel := (ExpiringSet.expireAll_fuel T_eq_dec).
Abbreviation timer_body := (ExpiringSet.timer_body T_eq_dec).
Abbreviation fire := (ExpiringSet.fire T_eq_dec).
Abbreviation run := (ExpiringSet.run T_eq_dec).
Abbreviation wf := (@ExpiringSet.wf T U Err).

(** The timer handle that [delete] hands to [clearTimeout]. *)
Abbreviation handle key w :=
  (match JsMap.get T_eq_dec key (map w) with
   | Some entry => timer entry
   | None => None
   end).

(** *** [delete] *)

Lemma eset_delete_eq (key : T) (w : World) :
  delete key w =
  (has key w,
   {| rt := clearTimeout (handle key w) (rt w);
      options := options w;
      map := snd (JsMap.delete T_eq_dec key (map w)) |}).
Proof.
  unfold ExpiringSet.delete, ExpiringSet.has. simpl.
  rewrite <- JsMapFacts.delete_found.
  destruct (JsMap.delete T_eq_dec key (map w)); reflexivity.
Qed.

Lemma eset_delete_absent (key : T) (w : World) :
  has key w = false -> delete key w = (false, w).
Proof.
  intros H. rewrite eset_delete_eq, H. unfold ExpiringSet.has in H.
  rewrite (JsMapFacts.has_false_get _ _ _ H).
  rewrite JsMapFacts.delete_absent by exact H.
  destruct w; reflexivity.
Qed.

Lemma eset_owner_closure (o : option (ExpiringSetOptions T U Err)) (k : T) (e : Entry) :
  task_value (closure_of o k e) = k.
Proof. reflexivity. Qed.

(** The invariant does not look at the clock, the user state or the
    unhandled rejections. *)
Lemma eset_wf_same_store (w w' : World) :
  wf w -> map w' = map w -> options w' = options w ->
  timers (rt w') = timers (rt w) -> next_timer (rt w') = next_timer (rt w) ->
  wf w'.
Proof.
  intros [Ws Wd] Hm Ho Ht Hn.
  constructor.
  - rewrite Hm, Ho, Ht, Hn. exact Ws.
  - unfold option_of in *. rewrite Hm, Ho. exact Wd.
Qed.

Lemma eset_wf_constructor (now0 : Z) (u : U)
      (o : option (ExpiringSetOptions T U Err)) :
  wf (constructor {| now := now0; timers := []; next_timer := O;
                     user := u; unhandled := [] |} o).
Proof.
  constructor; simpl.
  - apply StoreFacts.store_wf_empty.
  - intros key e [].
Qed.

Lemma eset_wf_delete (key : T) (w : World) : wf w -> wf (snd (delete key w)).
Proof.
  intros [Ws Wd]. rewrite eset_delete_eq. simpl.
  constructor; simpl.
  - rewrite timers_clearTimeout, next_timer_clearTimeout.
    pose proof (StoreFacts.store_wf_delete T_eq_dec (@eset_owner_closure (options w)) key Ws) as H.
    destruct (JsMap.get T_eq_dec key (map w)) as [e|]; auto.
  - intros k e Hin. apply JsMapFacts.entries_delete_subset in Hin.
    exact (Wd k e Hin).
Qed.

(** What [delete] leaves in place. *)
Lemma eset_delete_frame (key : T) (w : World) :
  options (snd (delete key w)) = options w /\
  now (rt (snd (delete key w))) = now (rt w) /\
  user (rt (snd (delete key w))) = user (rt w) /\
  unhandled (rt (snd (delete key w))) = unhandled (rt w) /\
  next_timer (rt (snd (delete key w))) = next_timer (rt w).
Proof.
  rewrite eset_delete_eq. simpl.
  rewrite now_clearTimeout, user_clearTimeout, unhandled_clearTimeout,
    next_timer_clearTimeout. auto.
Qed.

Lemma eset_has_delete (key : T) (w : World) :
  wf w -> has key (snd (delete key w)) = false.
Proof.
  intros [[Hk _ _ _ _] _]. rewrite eset_delete_eq. unfold ExpiringSet.has. simpl.
  now apply JsMapFacts.has_delete.
Qed.

(** *** [set] *)

Lemma eset_add_eq (key : T) (expiryMs : option Z)
      (expiryCallback : option (SetExpiryCallback T U Err)) (w : World) :
  let w1 := snd (delete key w) in
  let cb := nullish expiryCallback (option_of (@defaultExpiryCallback T U Err) w) in
  add key expiryMs expiryCallback w =
  match nullish expiryMs (option_of (@defaultExpiryMs T U Err) w) with
  | Some ms =>
      {| rt := snd (setTimeout
                      {| task_value := key;
                         task_callback := cb;
                         task_errorCallback :=
                           option_of (@expireErrorCallback T U Err) w |}
                      ms (rt w1));
         options := options w;
         map := JsMap.set T_eq_dec key
                  {| timer := Some (next_timer (rt w)); 
                     expiry := Some (now (rt w) + ms);
                     expiryCallback := cb |} (map w1) |}
  | None =>
      {| rt := rt w1; options := options w;
         map := JsMap.set T_eq_dec key
                  {| timer := None; expiry := None;
                     expiryCallback := cb |} (map w1) |}
  end.
Proof.
  intros w1 cb. unfold ExpiringSet.add. fold w1.
  destruct (eset_delete_frame key w) as (Ho & Hn & _ & _ & Hnt). fold w1 in Ho, Hn, Hnt.
  unfold option_of. rewrite Ho. fold cb.
  destruct (nullish expiryMs _) as [ms|]; unfold with_map, with_rt; simpl.
  - unfold cb, option_of. rewrite Hn, Hnt, Ho. reflexivity.
  - rewrite Ho. reflexivity.
Qed.

Lemma eset_wf_add (key : T) (expiryMs : option Z)
      (expiryCallback : option (SetExpiryCallback T U Err)) (w : World) :
  wf w -> wf (add key expiryMs expiryCallback w).
Proof.
  intros W.
  pose proof (eset_wf_delete key W) as [Ws Wd].
  pose proof (eset_has_delete key W) as Hhas. unfold ExpiringSet.has in Hhas.
  destruct (eset_delete_frame key w) as (Ho & Hn & _ & _ & Hnt).
  rewrite eset_add_eq. cbv zeta.
  rewrite Ho in Ws.
  destruct (nullish expiryMs _) as [ms|]; constructor; simpl.
  - rewrite <- Hnt, <- Hn.
    apply (StoreFacts.store_wf_set_timed T_eq_dec (@eset_owner_closure (options w)) key
             {| timer := Some (next_timer (rt (snd (delete key w))));
                expiry := Some (now (rt (snd (delete key w))) + ms);
                expiryCallback :=
                  nullish expiryCallback
                          (option_of (@defaultExpiryCallback T U Err) w) |}
             (expiry := now (rt (snd (delete key w))) + ms)
             (now (rt (snd (delete key w))) + timer_delay ms) Ws Hhas);
      reflexivity.
  - intros k e Hin.
    apply JsMapFacts.entries_set_In in Hin; [|now destruct Ws].
    destruct Hin as [[-> ->]|[Hne Hin]]; simpl.
    + unfold option_of. simpl. destruct expiryCallback; simpl; [discriminate|auto].
    + intros He. pose proof (Wd k e Hin He) as H.
      unfold option_of in *. now rewrite Ho in H.
  - apply (StoreFacts.store_wf_set_untimed T_eq_dec key
             {| timer := None; expiry := None;
                expiryCallback :=
                  nullish expiryCallback
                          (option_of (@defaultExpiryCallback T U Err) w) |} Ws Hhas); reflexivity.
  - intros k e Hin.
    apply JsMapFacts.entries_set_In in Hin; [|now destruct Ws].
    destruct Hin as [[-> ->]|[Hne Hin]]; simpl.
    + unfold option_of. simpl. destruct expiryCallback; simpl; [discriminate|auto].
    + intros He. pose proof (Wd k e Hin He) as H.
      unfold option_of in *. now rewrite Ho in H.
Qed.


Lemma eset_has_add (key : T) (expiryMs : option Z)
      (expiryCallback : option (SetExpiryCallback T U Err)) (w : World) :
  has key (add key expiryMs expiryCallback w) = true.
Proof.
  unfold ExpiringSet.has. rewrite eset_add_eq. cbv zeta.
  destruct (nullish expiryMs _); simpl; now rewrite JsMapFacts.has_set.
Qed.

Lemma eset_getExpiry_add (key : T) (expiryMs : option Z)
      (expiryCallback : option (SetExpiryCallback T U Err)) (w : World) :
  getExpiry key (add key expiryMs expiryCallback w) =
  option_map (fun ms => now (rt w) + ms)
             (nullish expiryMs (option_of (@defaultExpiryMs T U Err) w)).
Proof.
  unfold ExpiringSet.getExpiry. rewrite eset_add_eq. cbv zeta.
  destruct (nullish expiryMs _); simpl; now rewrite JsMapFacts.get_set.
Qed.

Lemma eset_entry_add (key : T) (expiryMs : option Z)
      (expiryCallback : option (SetExpiryCallback T U Err)) (w : World) :
  exists e,
    JsMap.get T_eq_dec key (map (add key expiryMs expiryCallback w)) = Some e /\
    ExpiringSet.expiryCallback e =
      nullish expiryCallback (option_of (@defaultExpiryCallback T U Err) w).
Proof.
  rewrite eset_add_eq. cbv zeta.
  destruct (nullish expiryMs _); simpl; rewrite JsMapFacts.get_set; eauto.
Qed.

Lemma eset_map_add_other (key k : T) (expiryMs : option Z)
      (expiryCallback : option (SetExpiryCallback T U Err)) (w : World) :
  k <> key ->
  JsMap.get T_eq_dec k (map (add key expiryMs expiryCallback w)) =
  JsMap.get T_eq_dec k (map w).
Proof.
  intros Hk. rewrite eset_add_eq. cbv zeta.
  destruct (nullish expiryMs _); simpl;
    rewrite JsMapFacts.get_set_other by exact Hk;
    rewrite eset_delete_eq; simpl; now apply JsMapFacts.get_delete_other.
Qed.

(** [set] leaves the user state and the clock alone: no callback runs. *)
Lemma eset_add_frame (key : T) (expiryMs : option Z)
      (expiryCallback : option (SetExpiryCallback T U Err)) (w : World) :
  options (add key expiryMs expiryCallback w) = options w /\
  now (rt (add key expiryMs expiryCallback w)) = now (rt w) /\
  user (rt (add key expiryMs expiryCallback w)) = user (rt w) /\
  unhandled (rt (add key expiryMs expiryCallback w)) = unhandled (rt w).
Proof.
  destruct (eset_delete_frame key w) as (Ho & Hn & Hu & Hh & Hnt).
  rewrite eset_add_eq. cbv zeta.
  destruct (nullish expiryMs _); simpl; auto.
Qed.

(** *** Iteration order *)

Lemma eset_keys_delete (key : T) (w : World) :
  keys (snd (delete key w)) = JsMap.remove_key T_eq_dec key (keys w).
Proof.
  rewrite eset_delete_eq. unfold keys. simpl. apply JsMapFacts.keys_delete.
Qed.

Lemma eset_keys_add (key : T) (expiryMs : option Z)
      (expiryCallback : option (SetExpiryCallback T U Err)) (w : World) :
  wf w ->
  keys (add key expiryMs expiryCallback w) =
  JsMap.remove_key T_eq_dec key (keys w) ++ [key].
Proof.
  intros W. pose proof (eset_has_delete key W) as Hhas.
  unfold ExpiringSet.has in Hhas.
  rewrite <- eset_keys_delete. unfold keys, values. rewrite eset_add_eq. cbv zeta.
  destruct (nullish expiryMs _); simpl;
    now rewrite JsMapFacts.keys_set_absent.
Qed.

Lemma eset_keys_entries (w : World) : List.map fst (entries w) = keys w.
Proof.
  unfold entries, keys, values. rewrite map_map. simpl. apply map_id.
Qed.

Lemma eset_entries_values (w : World) :
  entries w = List.map (fun value => (value, value)) (values w).
Proof. reflexivity. Qed.

Lemma eset_entries_length (w : World) : length (entries w) = size w.
Proof.
  unfold entries, size, JsMap.size, JsMap.keys. now rewrite !length_map.
Qed.

Lemma eset_has_keys (key : T) (w : World) : has key w = true <-> In key (keys w).
Proof. apply JsMapFacts.has_In_keys. Qed.


(** *** [clearExpiry] *)

Lemma eset_clearExpiry_absent (key : T) (w : World) :
  has key w = false -> clearExpiry key w = (false, w).
Proof.
  unfold ExpiringSet.has, ExpiringSet.clearExpiry. now intros ->.
Qed.

Lemma eset_clearExpiry_present (key : T) (e : Entry) (w : World) :
  JsMap.get T_eq_dec key (map w) = Some e ->
  clearExpiry key w =
  (true,
   {| rt := clearTimeout (timer e) (rt w);
      options := options w;
      map := JsMap.set T_eq_dec key
               {| expiry := None; timer := None;
                  expiryCallback := expiryCallback e |}
               (map w) |}).
Proof.
  intros G. unfold ExpiringSet.clearExpiry.
  rewrite (JsMapFacts.get_has _ _ _ G), G. reflexivity.
Qed.

Lemma eset_wf_clearExpiry (key : T) (w : World) :
  wf w -> wf (snd (clearExpiry key w)).
Proof.
  intros W. destruct (JsMap.get T_eq_dec key (map w)) as [e|] eqn:G.
  - rewrite eset_clearExpiry_present with (e := e) by exact G. destruct W as [Ws Wd].
    constructor; simpl.
    + rewrite timers_clearTimeout, next_timer_clearTimeout.
      pose proof (StoreFacts.store_wf_disarm T_eq_dec (@eset_owner_closure (options w)) key
                    {| expiry := None; timer := None;
                       expiryCallback := expiryCallback e |}
                    Ws G eq_refl eq_refl) as H.
      destruct (timer e); exact H.
    + intros k e' Hin.
      apply JsMapFacts.entries_set_In in Hin; [|now destruct Ws].
      destruct Hin as [[-> ->]|[Hne Hin]]; simpl.
      * apply (Wd key e). now apply JsMapFacts.get_In in G.
      * apply (Wd k e' Hin).
  - rewrite eset_clearExpiry_absent; auto.
    unfold ExpiringSet.has. now rewrite JsMapFacts.has_get, G.
Qed.

(** Overwriting a present entry leaves what the iterators yield as it
    was. *)
Lemma eset_values_overwrite (key : T) (e e' : Entry) (w : World) (r : Runtime _ U Err) :
  JsMap.get T_eq_dec key (map w) = Some e ->
  values {| rt := r; options := options w;
            map := JsMap.set T_eq_dec key e' (map w) |} = values w.
Proof.
  intros G. unfold values. simpl.
  apply JsMapFacts.keys_set_present. eapply JsMapFacts.get_has; eauto.
Qed.

(** *** [setExpiry] and [setMinimumExpiry] *)

Lemma eset_setExpiry_absent (key : T) (ms : Z) (w : World) :
  has key w = false -> setExpiry key ms w = (false, w).
Proof.
  unfold ExpiringSet.has, ExpiringSet.setExpiry. now intros ->.
Qed.

Lemma eset_setExpiry_present (key : T) (ms : Z) (e : Entry) (w : World) :
  JsMap.get T_eq_dec key (map w) = Some e ->
  setExpiry key ms w =
  (true, add key (Some ms) (expiryCallback e) w).
Proof.
  intros G. unfold ExpiringSet.setExpiry.
  rewrite (JsMapFacts.get_has _ _ _ G), G. reflexivity.
Qed.

Lemma eset_wf_setExpiry (key : T) (ms : Z) (w : World) :
  wf w -> wf (snd (setExpiry key ms w)).
Proof.
  intros W. destruct (JsMap.get T_eq_dec key (map w)) as [e|] eqn:G.
  - rewrite eset_setExpiry_present with (e := e) by exact G. now apply eset_wf_add.
  - rewrite eset_setExpiry_absent; auto.
    unfold ExpiringSet.has. now rewrite JsMapFacts.has_get, G.
Qed.

Lemma eset_getExpiry_None (key : T) (w : World) :
  getExpiry key w = None <->
  has key w = false \/
  exists e, JsMap.get T_eq_dec key (map w) = Some e /\ expiry e = None.
Proof.
  unfold ExpiringSet.getExpiry, ExpiringSet.has. rewrite JsMapFacts.has_get.
  destruct (JsMap.get T_eq_dec key (map w)) as [e|]; split; auto.
  - intros H. right. eauto.
  - intros [H|[e' [[= <-] H]]]; [discriminate | exact H].
Qed.

Lemma eset_getExpiry_Some (key : T) (old : Z) (w : World) :
  getExpiry key w = Some old <->
  exists e, JsMap.get T_eq_dec key (map w) = Some e /\ expiry e = Some old.
Proof.
  unfold ExpiringSet.getExpiry.
  destruct (JsMap.get T_eq_dec key (map w)) as [e|]; split.
  - eauto.
  - now intros [e' [[= <-] H]].
  - discriminate.
  - intros [e' [H _]]. discriminate.
Qed.

Lemma eset_setMinimumExpiry_eq (key : T) (m : Z) (w : World) :
  setMinimumExpiry key m w =
  match getExpiry key w with
  | None => (false, w)
  | Some old => if old <? now (rt w) + m then setExpiry key m w else (true, w)
  end.
Proof.
  unfold ExpiringSet.setMinimumExpiry.
  destruct (getExpiry key w) as [old|]; auto.
  now rewrite Z.gtb_ltb.
Qed.

Lemma eset_wf_setMinimumExpiry (key : T) (m : Z) (w : World) :
  wf w -> wf (snd (setMinimumExpiry key m w)).
Proof.
  intros W. rewrite eset_setMinimumExpiry_eq.
  destruct (getExpiry key w) as [old|]; auto.
  destruct (old <? now (rt w) + m); auto. now apply eset_wf_setExpiry.
Qed.

(** *** [expire] *)

Lemma eset_expire_absent (key : T) (w : World) :
  has key w = false -> expire key w = (w, Fulfilled false).
Proof.
  unfold ExpiringSet.has, ExpiringSet.expire. intros H.
  now rewrite (JsMapFacts.has_false_get _ _ _ H).
Qed.

Lemma eset_expire_present (key : T) (e : Entry) (w : World) :
  JsMap.get T_eq_dec key (map w) = Some e ->
  expire key w =
  let w1 := snd (delete key w) in
  match expiryCallback e with
  | Some cb =>
      let (u, o) := cb key (values w1) (user (rt w)) in
      (with_rt (with_user u (rt w1)) w1,
       match o with
       | Returns | Resolves => Fulfilled true
       | Throws err | Rejects err => Rejected err
       end)
  | None => (w1, Fulfilled true)
  end.
Proof.
  intros G. unfold ExpiringSet.expire. rewrite G. cbv zeta.
  destruct (expiryCallback e) as [cb|]; auto.
  unfold call_expiryCallback.
  destruct (eset_delete_frame key w) as (_ & _ & Hu & _). rewrite Hu.
  destruct (cb key _ (user (rt w))) as [u [| |  |]]; reflexivity.
Qed.

Lemma eset_expire_map (key : T) (w : World) :
  map (fst (expire key w)) = snd (JsMap.delete T_eq_dec key (map w)).
Proof.
  destruct (JsMap.get T_eq_dec key (map w)) as [e|] eqn:G.
  - rewrite eset_expire_present with (e := e) by exact G. cbv zeta.
    destruct (expiryCallback e) as [cb|].
    + destruct (cb _ _ _) as [u o]. simpl. now rewrite eset_delete_eq.
    + simpl. now rewrite eset_delete_eq.
  - assert (H : JsMap.has T_eq_dec key (map w) = false)
      by now rewrite JsMapFacts.has_get, G.
    rewrite eset_expire_absent by exact H. simpl.
    now rewrite JsMapFacts.delete_absent.
Qed.

Lemma eset_wf_user (u : U) (w : World) : wf w -> wf (with_rt (with_user u (rt w)) w).
Proof. intros W. now apply eset_wf_same_store with (w := w). Qed.

Lemma eset_wf_expire (key : T) (w : World) : wf w -> wf (fst (expire key w)).
Proof.
  intros W. destruct (JsMap.get T_eq_dec key (map w)) as [e|] eqn:G.
  - rewrite eset_expire_present with (e := e) by exact G. cbv zeta.
    pose proof (eset_wf_delete key W) as W1.
    destruct (expiryCallback e) as [cb|]; auto.
    destruct (cb _ _ _) as [u o]. simpl. now apply eset_wf_user.
  - rewrite eset_expire_absent; auto.
    unfold ExpiringSet.has. now rewrite JsMapFacts.has_get, G.
Qed.

(** *** [clear] *)

Lemma eset_fold_left_keys (S : Type) (f : S -> T -> S) (es : list (T * Entry)) (s : S) :
  fold_left (fun s p => f s (fst p)) es s = fold_left f (List.map fst es) s.
Proof. revert s. induction es as [|p es IH]; simpl; auto. Qed.

Lemma eset_clear_drain (fuel : nat) (w : World) :
  (length (map w) <= fuel)%nat ->
  clear_fuel fuel w = fold_left (fun s key => snd (delete key s)) (keys w) w /\
  map (clear_fuel fuel w) = repeat None (length (map w)).
Proof.
  intros Hf. unfold ExpiringSet.clear_fuel, keys, values, JsMap.keys.
  rewrite <- eset_fold_left_keys.
  apply JsMapFacts.for_of_drain
    with (data := @map T U Err) (body := fun p s => snd (delete (fst p) s))
         (n := O) (rest := map w); auto.
  intros n k e rest s Hs. simpl. rewrite eset_delete_eq. simpl.
  rewrite Hs, JsMapFacts.delete_first_live. reflexivity.
Qed.

(** [clear] is [delete] applied to every key, in order. *)
Lemma eset_clear_eq (w : World) :
  clear w = fold_left (fun s key => snd (delete key s)) (keys w) w.
Proof. unfold ExpiringSet.clear. now apply eset_clear_drain. Qed.

Lemma eset_clear_fuel_enough (fuel : nat) (w : World) :
  (length (map w) <= fuel)%nat -> clear_fuel fuel w = clear w.
Proof.
  intros Hf. rewrite eset_clear_eq. now apply eset_clear_drain.
Qed.

Lemma eset_clear_map (w : World) : map (clear w) = repeat None (length (map w)).
Proof. unfold ExpiringSet.clear. now apply eset_clear_drain. Qed.

Lemma eset_entries_tombs (n : nat) : JsMap.entries (repeat (@None (T * Entry)) n) = [].
Proof. induction n; simpl; auto. Qed.

Lemma eset_clear_empty (w : World) :
  size (clear w) = O /\ keys (clear w) = [] /\ entries (clear w) = [] /\
  forall key, has key (clear w) = false.
Proof.
  unfold size, JsMap.size, keys, entries, values, JsMap.keys, ExpiringSet.has.
  rewrite eset_clear_map, eset_entries_tombs. repeat split; auto.
  intros key. apply JsMapFacts.has_false_not_In.
  unfold JsMap.keys. rewrite eset_entries_tombs. intros [].
Qed.

Lemma eset_wf_clear (w : World) : wf w -> wf (clear w).
Proof.
  intros W. rewrite eset_clear_eq. apply fold_left_invariant; auto.
  intros s key Hs. now apply eset_wf_delete.
Qed.

Lemma eset_clear_frame (w : World) :
  options (clear w) = options w /\
  now (rt (clear w)) = now (rt w) /\
  user (rt (clear w)) = user (rt w) /\
  unhandled (rt (clear w)) = unhandled (rt w) /\
  next_timer (rt (clear w)) = next_timer (rt w).
Proof.
  rewrite eset_clear_eq.
  apply (fold_left_invariant
           (fun s => options s = options w /\ now (rt s) = now (rt w) /\
                     user (rt s) = user (rt w) /\
                     unhandled (rt s) = unhandled (rt w) /\
                     next_timer (rt s) = next_timer (rt w))); auto.
  intros s key (H1 & H2 & H3 & H4 & H5).
  destruct (eset_delete_frame key s) as (D1 & D2 & D3 & D4 & D5).
  repeat split; congruence.
Qed.

(** In a well-formed state without live entries no timer is pending. *)
Lemma eset_wf_empty_no_timers (w : World) :
  wf w -> JsMap.entries (map w) = [] -> timers (rt w) = [].
Proof.
  intros [[_ _ _ _ Ho] _] He.
  destruct (timers (rt w)) as [|[id t] ts]; auto.
  destruct (Ho id t) as [e [Hin _]]; [now left|].
  rewrite He in Hin. contradiction.
Qed.

Lemma eset_clear_timers (w : World) : wf w -> timers (rt (clear w)) = [].
Proof.
  intros W. apply eset_wf_empty_no_timers; [now apply eset_wf_clear|].
  rewrite eset_clear_map. apply eset_entries_tombs.
Qed.

(** *** [expireAll] *)

Abbreviation expire_turn :=
  (fun (s : World * list (Settled Err bool)) (key : T) =>
     let (w1, r) := expire key (fst s) in (w1, snd s ++ [r])).

Lemma eset_expireAll_drain (fuel : nat) (w : World) :
  (length (map w) <= fuel)%nat ->
  expireAll_fuel fuel w = fold_left expire_turn (keys w) (w, []) /\
  map (fst (expireAll_fuel fuel w)) = repeat None (length (map w)).
Proof.
  intros Hf. unfold ExpiringSet.expireAll_fuel, keys, values, JsMap.keys.
  rewrite <- eset_fold_left_keys.
  apply JsMapFacts.for_of_drain
    with (data := fun s : World * list (Settled Err bool) => map (fst s))
         (body := fun p s => let (w1, r) := expire (fst p) (fst s) in
                             (w1, snd s ++ [r]))
         (n := O) (rest := map w); auto.
  intros n k e rest [w0 acc] Hs. simpl in *.
  pose proof (eset_expire_map k w0) as H.
  destruct (expire k w0) as [w1 r]. simpl in *.
  rewrite H, Hs, JsMapFacts.delete_first_live. reflexivity.
Qed.

Lemma eset_expireAll_fuel_enough (fuel : nat) (w : World) :
  (length (map w) <= fuel)%nat ->
  expireAll_fuel fuel w = expireAll_fuel (length (map w)) w.
Proof.
  intros Hf.
  destruct (@eset_expireAll_drain fuel w Hf) as [-> _].
  destruct (@eset_expireAll_drain _ w (Nat.le_refl (length (map w)))) as [-> _].
  reflexivity.
Qed.

Lemma eset_expireAll_eq (w : World) :
  expireAll w =
  let (w1, expiries) := fold_left expire_turn (keys w) (w, []) in
  (w1, Promise_all expiries).
Proof.
  unfold ExpiringSet.expireAll.
  destruct (@eset_expireAll_drain _ w (Nat.le_refl (length (map w)))) as [-> _].
  reflexivity.
Qed.



Lemma eset_wf_expireAll (w : World) : wf w -> wf (fst (expireAll w)).
Proof.
  intros W. rewrite eset_expireAll_eq.
  assert (H : wf (fst (fold_left expire_turn (keys w) (w, [])))).
  { apply (fold_left_invariant (fun s => wf (fst s))); auto.
    intros [w0 acc] key Hs. simpl in *.
    pose proof (eset_wf_expire key Hs). now destruct (expire key w0). }
  now destruct (fold_left _ _ _).
Qed.




(** *** [forEach] *)

Lemma eset_forEach_loop_spec (f : SetForEachCallback T U Err) (this : View T)
      (es : list (T * T)) :
  forall (u : U) (acc : list (Settled Err unit)),
    match forEach_loop f this es u acc with
    | (_, inl (e, _)) =>
        exists k v u0, In (k, v) es /\ snd (f v k this u0) = Throws e
    | (_, inr ps) =>
        exists qs, ps = acc ++ qs /\ length qs = length es /\
          forall e, In (Rejected e) qs ->
            exists k v u0, In (k, v) es /\ snd (f v k this u0) = Rejects e
    end.
Proof.
  induction es as [|[k v] es IH]; intros u acc; simpl.
  - exists []. rewrite app_nil_r. repeat split; auto. intros e [].
  - destruct (f v k this u) as [u' o] eqn:F.
    assert (Ho : snd (f v k this u) = o) by now rewrite F.
    destruct o as [|e| |e].
    + specialize (IH u' (acc ++ [Fulfilled tt])).
      destruct (forEach_loop f this es u' _) as [u2 [[e ps0]|ps]].
      * destruct IH as (k0 & v0 & u0 & Hin & H). exists k0, v0, u0. auto.
      * destruct IH as (qs & -> & Hl & H).
        exists (Fulfilled tt :: qs). rewrite <- app_assoc. simpl.
        repeat split; auto. intros e [He|He]; [discriminate|].
        destruct (H e He) as (k0 & v0 & u0 & Hin & H0). exists k0, v0, u0. auto.
    + exists k, v, u. auto.
    + specialize (IH u' (acc ++ [Fulfilled tt])).
      destruct (forEach_loop f this es u' _) as [u2 [[e ps0]|ps]].
      * destruct IH as (k0 & v0 & u0 & Hin & H). exists k0, v0, u0. auto.
      * destruct IH as (qs & -> & Hl & H).
        exists (Fulfilled tt :: qs). rewrite <- app_assoc. simpl.
        repeat split; auto. intros e [He|He]; [discriminate|].
        destruct (H e He) as (k0 & v0 & u0 & Hin & H0). exists k0, v0, u0. auto.
    + specialize (IH u' (acc ++ [Rejected e])).
      destruct (forEach_loop f this es u' _) as [u2 [[e' ps0]|ps]].
      * destruct IH as (k0 & v0 & u0 & Hin & H). exists k0, v0, u0. auto.
      * destruct IH as (qs & -> & Hl & H).
        exists (Rejected e :: qs). rewrite <- app_assoc. simpl.
        repeat split; auto. intros e' [[= <-]|He].
        -- exists k, v, u. auto.
        -- destruct (H e' He) as (k0 & v0 & u0 & Hin & H0).
           exists k0, v0, u0. auto.
Qed.

(** A callback that never throws is called on every entry, in
    iteration order. *)
Lemma eset_forEach_loop_order (f : SetForEachCallback T U Err) (this : View T)
      (es : list (T * T)) :
  (forall v k u e, snd (f v k this u) <> Throws e) ->
  forall (u : U) (acc : list (Settled Err unit)),
    fst (forEach_loop f this es u acc) =
    fold_left (fun u p => fst (f (snd p) (fst p) this u)) es u.
Proof.
  intros Hf. induction es as [|[k v] es IH]; intros u acc; simpl; auto.
  pose proof (Hf v k u) as H.
  destruct (f v k this u) as [u' [|e| |e]]; simpl in *; auto.
  exfalso. now apply (H e).
Qed.

Lemma eset_forEach_world (f : SetForEachCallback T U Err) (w : World) :
  exists u es,
    fst (forEach f w) = with_rt (with_unhandled es (with_user u (rt w))) w.
Proof.
  unfold forEach.
  destruct (forEach_loop f (values w) (entries w) (user (rt w)) [])
    as [u [[e ps0]|ps]].
  - exists u, (unhandled (rt w) ++ rejections ps0). reflexivity.
  - exists u, (unhandled (rt w)). reflexivity.
Qed.

Lemma eset_wf_forEach (f : SetForEachCallback T U Err) (w : World) :
  wf w -> wf (fst (forEach f w)).
Proof.
  intros W. destruct (eset_forEach_world f w) as (u & es & ->).
  now apply eset_wf_same_store with (w := w).
Qed.

Lemma eset_forEach_order (f : SetForEachCallback T U Err) (w : World) :
  (forall v k u e, snd (f v k (values w) u) <> Throws e) ->
  user (rt (fst (forEach f w))) =
  fold_left (fun u p => fst (f (snd p) (fst p) (values w) u))
            (entries w) (user (rt w)).
Proof.
  intros Hf. unfold forEach.
  pose proof (@eset_forEach_loop_order f (values w) (entries w) Hf (user (rt w)) []) as H.
  destruct (forEach_loop f (values w) (entries w) (user (rt w)) [])
    as [u [[e ps0]|ps]]; simpl in *; auto.
Qed.

(** [forEach] rejects only with what a call of its callback threw or
    rejected with. *)
Lemma eset_forEach_rejected (f : SetForEachCallback T U Err) (w : World)
      (es : list Err) :
  snd (forEach f w) = AllRejected es ->
  es <> [] /\
  forall e, In e es ->
    exists k v u, In (k, v) (entries w) /\
      (snd (f v k (values w) u) = Throws e \/
       snd (f v k (values w) u) = Rejects e).
Proof.
  unfold forEach.
  pose proof (@eset_forEach_loop_spec f (values w) (entries w) (user (rt w)) []) as H.
  destruct (forEach_loop f (values w) (entries w) (user (rt w)) [])
    as [u [[e ps0]|ps]]; simpl.
  - intros [= <-]. split; [discriminate|].
    intros e' [<-|[]]. destruct H as (k & v & u0 & Hin & H).
    exists k, v, u0. auto.
  - destruct H as (qs & -> & _ & H). simpl. intros Hall.
    apply Promise_all_rejected in Hall as [Hne Hall]. split; auto.
    intros e He. apply Hall in He.
    destruct (H e He) as (k & v & u0 & Hin & H0). exists k, v, u0. auto.
Qed.

Lemma eset_forEach_fulfilled (f : SetForEachCallback T U Err) (w : World) :
  (forall v k u, In (k, v) (entries w) ->
      snd (f v k (values w) u) = Returns \/
      snd (f v k (values w) u) = Resolves) ->
  snd (forEach f w) = AllFulfilled.
Proof.
  intros Hf. destruct (snd (forEach f w)) as [|es] eqn:R; auto.
  apply eset_forEach_rejected in R as [Hne R].
  destruct es as [|e es]; [congruence|].
  destruct (R e) as (k & v & u & Hin & H); [now left|].
  destruct (Hf v k u Hin); destruct H; congruence.
Qed.

(** *** A timer fires *)

Lemma eset_delete_after_cancel (key : T) (e : Entry) (id : TimerId) (w : World) :
  JsMap.get T_eq_dec key (map w) = Some e -> timer e = Some id ->
  snd (delete key (with_rt (with_timers (cancel id (timers (rt w))) (rt w)) w)) =
  snd (delete key w).
Proof.
  intros G Ht. rewrite !eset_delete_eq. simpl. rewrite G, Ht. simpl.
  unfold with_timers. simpl. now rewrite cancel_idem.
Qed.

(** The pending timers of a well-formed state are those of its
    entries. *)
Lemma eset_wf_timer_entry (id : TimerId) (t : Timeout (TimerTask T U Err)) (w : World) :
  wf w -> In (id, t) (timers (rt w)) ->
  exists e, JsMap.get T_eq_dec (task_value (task t)) (map w) = Some e /\
            timer e = Some id /\ (exists d, expiry e = Some d) /\
            task t = closure_of (options w) (task_value (task t)) e.
Proof.
  intros [[Hk Hi Hf Ha Ho] _] Hin.
  destruct (Ho id t Hin) as [e [Hine Te]].
  exists e. pose proof (Ha _ _ Hine) as Harm. unfold Store.armed in Harm.
  rewrite Te in Harm. destruct Harm as [d [a [Ee Hin']]].
  assert (Heq : t = {| due := a; task := closure_of (options w) (task_value (task t)) e |})
    by (eapply timer_unique; eauto).
  repeat split; auto.
  - apply JsMapFacts.In_get; auto.
  - now exists d.
  - rewrite Heq at 1. reflexivity.
Qed.

Lemma eset_wf_entry_timer (key : T) (e : Entry) (id : TimerId) (w : World) :
  wf w -> JsMap.get T_eq_dec key (map w) = Some e -> timer e = Some id ->
  exists d, expiry e = Some d /\
    exists at_,
      pending id (rt w) = Some {| due := at_; task := closure_of (options w) key e |}.
Proof.
  intros [[Hk Hi Hf Ha Ho] _] G Ht.
  pose proof (Ha _ _ (JsMapFacts.get_In _ _ _ G)) as Harm.
  unfold Store.armed in Harm. rewrite Ht in Harm.
  destruct Harm as [d [a [Ee Hin]]]. exists d. split; auto.
  exists a. now apply In_pending.
Qed.

(** What the firing of the timer of a live entry does. *)
Lemma eset_fire_entry (key : T) (e : Entry) (id : TimerId) (w : World) :
  wf w -> JsMap.get T_eq_dec key (map w) = Some e -> timer e = Some id ->
  fire id w =
  Some (let w1 := snd (delete key w) in
        match expiryCallback e with
        | None => w1
        | Some cb =>
            let (u, o) := cb key (values w1) (user (rt w)) in
            match await o with
            | Fulfilled _ => with_rt (with_user u (rt w1)) w1
            | Rejected error =>
                match option_of (@expireErrorCallback T U Err) w with
                | None => with_rt (with_user u (rt w1)) w1
                | Some errorCallback =>
                    let (u', thrown) := errorCallback error u in
                    match thrown with
                    | None => with_rt (with_user u' (rt w1)) w1
                    | Some e' =>
                        add_unhandled e' (with_rt (with_user u' (rt w1)) w1)
                    end
                end
            end
        end).
Proof.
  intros W G Htimer.
  destruct (@eset_wf_entry_timer key e id w W G Htimer) as [d [Ee [at_ P]]].
  unfold ExpiringSet.fire. rewrite P. simpl. f_equal.
  unfold toSync, ExpiringSet.timer_body. simpl.
  rewrite (@eset_delete_after_cancel key e id w G Htimer).
  destruct (eset_delete_frame key w) as (_ & _ & Hu & _).
  destruct (expiryCallback e) as [cb|]; auto.
  unfold call_expiryCallback. rewrite Hu.
  destruct (cb key _ (user (rt w))) as [u o].
  unfold option_of.
  destruct (await o) as [[]|error]; reflexivity.
Qed.

Lemma eset_wf_unhandled (es : list Err) (w : World) :
  wf w -> wf (with_rt (with_unhandled es (rt w)) w).
Proof. intros W. now apply eset_wf_same_store with (w := w). Qed.

Lemma eset_wf_fire (id : TimerId) (w w' : World) :
  wf w -> fire id w = Some w' -> wf w'.
Proof.
  intros W F.
  destruct (pending id (rt w)) as [t|] eqn:P;
    [|unfold ExpiringSet.fire in F; rewrite P in F; discriminate].
  apply pending_In in P.
  destruct (@eset_wf_timer_entry id t w W P) as (e & G & Htimer & _ & _).
  rewrite (@eset_fire_entry (task_value (task t)) e id w W G Htimer) in F.
  injection F as <-. cbv zeta.
  pose proof (eset_wf_delete (task_value (task t)) W) as W1.
  destruct (expiryCallback e) as [cb|]; auto.
  destruct (cb _ _ _) as [u o].
  destruct (await o) as [[]|error]; [now apply eset_wf_user|].
  destruct (option_of _ w) as [errorCallback|]; [|now apply eset_wf_user].
  destruct (errorCallback error u) as [u' [e'|]]; [|now apply eset_wf_user].
  unfold add_unhandled. apply eset_wf_unhandled. now apply eset_wf_user.
Qed.

(** *** Every reachable state is well-formed *)

Lemma eset_wf_tick (d : Z) (w : World) : wf w -> wf (tick d w).
Proof. intros W. now apply eset_wf_same_store with (w := w). Qed.

Lemma eset_wf_run (c : Call T U Err) (w : World) : wf w -> wf (fst (run c w)).
Proof.
  intros W. destruct c; simpl; auto.
  - now apply eset_wf_add.
  - now apply eset_wf_delete.
  - now apply eset_wf_clear.
  - now apply eset_wf_clearExpiry.
  - now apply eset_wf_setExpiry.
  - now apply eset_wf_setMinimumExpiry.
  - pose proof (eset_wf_forEach callbackfn W). now destruct (forEach callbackfn w).
  - pose proof (eset_wf_expire value W). now destruct (expire value w).
  - pose proof (eset_wf_expireAll W). now destruct (expireAll w).
Qed.

Lemma eset_wf_step (w w' : World) : wf w -> step T_eq_dec w w' -> wf w'.
Proof.
  intros W S. destruct S as [c w|id w w' D F|d w].
  - now apply eset_wf_run.
  - eapply eset_wf_fire; eauto.
  - now apply eset_wf_tick.
Qed.

Lemma eset_reachable_wf (w : World) : reachable T_eq_dec w -> wf w.
Proof.
  induction 1 as [now0 u o|w w' _ IH S].
  - apply eset_wf_constructor.
  - eapply eset_wf_step; eauto.
Qed.

(** *** Consequences used by the claims *)

Lemma eset_delete_no_timer (key : T) (w : World) :
  wf w ->
  forall id t, In (id, t) (timers (rt (snd (delete key w)))) ->
               task_value (task t) <> key.
Proof.
  intros W id t Hin.
  pose proof (eset_wf_delete key W) as [Ws _].
  pose proof (eset_has_delete key W) as Hhas.
  eapply StoreFacts.store_wf_absent_no_timer with (K_eq_dec := T_eq_dec); eauto.
Qed.

Lemma eset_delete_timers (key : T) (w : World) :
  wf w ->
  forall id t, In (id, t) (timers (rt (snd (delete key w)))) <->
               In (id, t) (timers (rt w)) /\ task_value (task t) <> key.
Proof.
  intros W id t. split.
  - intros Hin. split; [|eapply eset_delete_no_timer; eauto].
    rewrite eset_delete_eq in Hin. simpl in Hin.
    rewrite timers_clearTimeout in Hin.
    destruct (handle key w); auto. now apply In_cancel in Hin.
  - intros [Hin Hne]. rewrite eset_delete_eq. simpl. rewrite timers_clearTimeout.
    destruct (JsMap.get T_eq_dec key (map w)) as [e|] eqn:G; auto.
    destruct (timer e) as [id0|] eqn:Tm; auto.
    apply In_cancel. split; auto. intros ->.
    destruct (@eset_wf_timer_entry id0 t w W Hin) as (e' & G' & T' & _).
    destruct (T_eq_dec (task_value (task t)) key) as [Heq|]; [contradiction|].
    destruct (@eset_wf_entry_timer key e id0 w W G Tm) as (d & _ & at_ & P).
    apply pending_In in P.
    assert (Heq : t = {| due := at_; task := closure_of (options w) key e |}).
    { destruct W as [[_ Hi _ _ _] _]. eapply timer_unique; eauto. }
    rewrite Heq in Hne. simpl in Hne. congruence.
Qed.

Lemma eset_clearExpiry_no_timer (key : T) (w : World) :
  wf w -> has key w = true ->
  forall id t, In (id, t) (timers (rt (snd (clearExpiry key w)))) ->
               task_value (task t) <> key.
Proof.
  intros W Hhas id t Hin Heq.
  pose proof (eset_wf_clearExpiry key W) as W'.
  destruct (@eset_wf_timer_entry id t _ W' Hin) as (e' & G' & T' & _).
  apply JsMapFacts.has_true_get in Hhas as [e G].
  rewrite eset_clearExpiry_present with (e := e) in G' by exact G.
  simpl in G'. rewrite Heq, JsMapFacts.get_set in G'.
  injection G' as <-. discriminate.
Qed.

Lemma eset_wf_add_each (contents : list (T * option Z * option (SetExpiryCallback T U Err)))
      (w : World) :
  wf w -> wf (add_each T_eq_dec contents w).
Proof.
  intros W. unfold add_each. apply fold_left_invariant; auto.
  intros s [[v ms] cb] Hs. now apply eset_wf_add.
Qed.

Lemma eset_keys_add_each (contents : list (T * option Z * option (SetExpiryCallback T U Err))) :
  forall w : World,
    wf w ->
    keys (add_each T_eq_dec contents w) =
    insertion_order T_eq_dec (List.map (@value_of T U Err) contents) (keys w).
Proof.
  unfold add_each, insertion_order.
  induction contents as [|[[v ms] cb] contents IH]; intros w W; simpl; auto.
  rewrite IH by now apply eset_wf_add. now rewrite eset_keys_add.
Qed.

Lemma eset_wf_timed (key : T) (e : Entry) (w : World) :
  wf w -> JsMap.get T_eq_dec key (map w) = Some e ->
  (timer e = None <-> expiry e = None).
Proof.
  intros [[_ _ _ Ha _] _] G.
  pose proof (Ha _ _ (JsMapFacts.get_In _ _ _ G)) as Harm.
  unfold Store.armed in Harm.
  destruct (timer e); split; auto; try discriminate.
  destruct Harm as [d [a [-> _]]]. discriminate.
Qed.

(** [clearExpiry] on an entry without expiry changes nothing. *)
Lemma eset_clearExpiry_untimed (key : T) (e : Entry) (w : World) :
  wf w -> JsMap.get T_eq_dec key (map w) = Some e -> expiry e = None ->
  clearExpiry key w = (true, w).
Proof.
  intros W G Ee.
  assert (Te : timer e = None) by now apply (@eset_wf_timed key e w W G).
  rewrite eset_clearExpiry_present with (e := e) by exact G.
  rewrite Te. simpl.
  replace {| expiry := None; timer := None;
             expiryCallback := expiryCallback e |} with e
    by (destruct e; simpl in *; congruence).
  rewrite JsMapFacts.set_get_same by exact G.
  destruct w; reflexivity.
Qed.

End ExpiringSetFacts.
End ExpiringSetFacts.

(** * The synchronous methods do not throw; the calls of [forEach] *)

Lemma last_cons_default (A : Type) (x d : A) (l : list A) :
  last (x :: l) d = last l x.
Proof.
  revert x d. induction l as [|y l IH]; intros x d; [reflexivity|].
  change (last (x :: y :: l) d) with (last (y :: l) d).
  now rewrite !IH.
Qed.

Module ExpiringMapCalls.
Import ExpiringMap ExpiringMapFacts.
Section ExpiringMapCalls.
Variables K V U Err : Type.
Variable K_eq_dec : forall x y : K, {x = y} + {x <> y}.

Abbreviation World := (ExpiringMap.World K V U Err).
Abbreviation clearExpiry := (ExpiringMap.clearExpiry K_eq_dec).
Abbreviation setExpiry := (ExpiringMap.setExpiry K_eq_dec).
Abbreviation setMinimumExpiry := (ExpiringMap.setMinimumExpiry K_eq_dec).
Abbreviation clearExpiry_raw := (ExpiringMap.clearExpiry_raw K_eq_dec).
Abbreviation setExpiry_raw := (ExpiringMap.setExpiry_raw K_eq_dec).
Abbreviation setMinimumExpiry_raw := (ExpiringMap.setMinimumExpiry_raw K_eq_dec).
Abbreviation run := (ExpiringMap.run K_eq_dec).
Abbreviation run_raw := (ExpiringMap.run_raw K_eq_dec).

(** *** No synchronous method throws *)

Lemma emap_clearExpiry_raw_eq (key : K) (w : World) :
  clearExpiry_raw key w =
  (snd (clearExpiry key w), Returned (fst (clearExpiry key w))).
Proof.
  unfold ExpiringMap.clearExpiry_raw, ExpiringMap.clearExpiry.
  destruct (JsMap.has K_eq_dec key (map w)) eqn:H; [|reflexivity].
  apply JsMapFacts.has_true_get in H. destruct H as [e G]. now rewrite G.
Qed.

Lemma emap_setExpiry_raw_eq (key : K) (ms : Z) (w : World) :
  setExpiry_raw key ms w =
  (snd (setExpiry key ms w), Returned (fst (setExpiry key ms w))).
Proof.
  unfold ExpiringMap.setExpiry_raw, ExpiringMap.setExpiry.
  destruct (JsMap.has K_eq_dec key (map w)) eqn:H; [|reflexivity].
  apply JsMapFacts.has_true_get in H. destruct H as [e G]. now rewrite G.
Qed.

Lemma emap_setMinimumExpiry_raw_eq (key : K) (m : Z) (w : World) :
  setMinimumExpiry_raw key m w =
  (snd (setMinimumExpiry key m w), Returned (fst (setMinimumExpiry key m w))).
Proof.
  unfold ExpiringMap.setMinimumExpiry_raw, ExpiringMap.setMinimumExpiry.
  destruct (ExpiringMap.getExpiry K_eq_dec key w); [|reflexivity].
  cbv zeta. destruct (_ >? _); [|reflexivity].
  apply emap_setExpiry_raw_eq.
Qed.

Lemma emap_run_raw_normal (c : Call K V U Err) (w : World) :
  may_call_back c = false ->
  run_raw c w = (fst (run c w), Returned Normal).
Proof.
  destruct c; simpl; try discriminate; intros _; try reflexivity.
  - now rewrite emap_clearExpiry_raw_eq.
  - now rewrite emap_setExpiry_raw_eq.
  - now rewrite emap_setMinimumExpiry_raw_eq.
Qed.

(** A call that may call back completes as [run] says. *)
Lemma emap_run_raw_callback (c : Call K V U Err) (w : World) :
  may_call_back c = true ->
  run_raw c w = (fst (run c w), Returned (snd (run c w))).
Proof.
  destruct c; simpl; try discriminate; intros _.
  - now destruct (forEach callbackfn w).
  - now destruct (ExpiringMap.expire K_eq_dec key w) as [w1 [b|e]].
  - now destruct (ExpiringMap.expireAll K_eq_dec w).
Qed.

(** *** The calls of [forEach] *)

Abbreviation Calls := (list (ForEachCall K V U Err)).

(** The promise that a call adds to [promises]. *)
Abbreviation promise_of c := (await (call_outcome c)).

Lemma emap_forEach_loop_calls (f : MapForEachCallback K V U Err) (this : View K V)
      (es : list (K * V)) (u : U) (acc : list (Settled Err unit)) :
  forEach_loop f this es u acc =
  (last (List.map (@call_after K V U Err) (forEach_calls f this es u)) u,
   match thrown (forEach_calls f this es u) with
   | Some e =>
       inl (e, acc ++ List.map (fun c => promise_of c)
                               (removelast (forEach_calls f this es u)))
   | None => inr (acc ++ List.map (fun c => promise_of c) (forEach_calls f this es u))
   end).
Proof.
  revert u acc. induction es as [|[k v] es IH]; intros u acc.
  - simpl. now rewrite app_nil_r.
  - cbn [forEach_loop forEach_calls]. destruct (f v k this u) as [u' o].
    destruct o; cbn [thrown call_outcome];
      try (cbn [List.map call_after removelast]; now rewrite app_nil_r);
      rewrite IH; cbn [List.map call_after]; rewrite last_cons_default;
      (destruct (forEach_calls f this es u') as [|c cs] eqn:C;
       [cbn [thrown List.map]; now rewrite <- app_assoc|]);
      (destruct (thrown (c :: cs));
       [change (removelast (?x :: c :: cs)) with (x :: removelast (c :: cs))|];
       cbn [List.map call_outcome await]; now rewrite <- app_assoc).
Qed.

Lemma emap_forEach_calls_spec (f : MapForEachCallback K V U Err) (this : View K V)
      (es : list (K * V)) (u : U) (x : ForEachCall K V U Err) :
  In x (forEach_calls f this es u) ->
  f (call_value x) (call_key x) (call_this x) (call_before x) =
    (call_after x, call_outcome x) /\
  call_this x = this /\ In (call_key x, call_value x) es.
Proof.
  revert u. induction es as [|[k v] es IH]; intros u; [intros []|].
  cbn [forEach_calls]. destruct (f v k this u) as [u' o] eqn:F.
  intros [<-|Hin].
  - simpl. repeat split; auto.
  - assert (H : In x (forEach_calls f this es u')) by (destruct o; auto; destruct Hin).
    destruct (IH _ H) as (H1 & H2 & H3). repeat split; auto. now right.
Qed.

Lemma emap_forEach_calls_prefix (f : MapForEachCallback K V U Err) (this : View K V)
      (es : list (K * V)) (u : U) :
  List.map (fun x => (call_key x, call_value x)) (forEach_calls f this es u) =
  firstn (length (forEach_calls f this es u)) es.
Proof.
  revert u. induction es as [|[k v] es IH]; intros u; [reflexivity|].
  cbn [forEach_calls]. destruct (f v k this u) as [u' o].
  destruct o; simpl; f_equal; auto.
Qed.

Lemma emap_thrown_None (calls : Calls) :
  thrown calls = None <->
  forall x e, In x calls -> call_outcome x <> Throws e.
Proof.
  induction calls as [|c calls IH]; simpl.
  - split; [intros _ x e [] | reflexivity].
  - destruct (call_outcome c) eqn:O.
    + rewrite IH. split.
      * intros H x e [<-|Hin]; [congruence | now apply H].
      * intros H x e Hin. apply H. now right.
    + split; [discriminate|]. intros H. exfalso. apply (H c e); auto.
    + rewrite IH. split.
      * intros H x e [<-|Hin]; [congruence | now apply H].
      * intros H x e Hin. apply H. now right.
    + rewrite IH. split.
      * intros H x e' [<-|Hin]; [congruence | now apply H].
      * intros H x e' Hin. apply H. now right.
Qed.

Lemma emap_thrown_Some (calls : Calls) (e : Err) :
  thrown calls = Some e -> exists x, In x calls /\ call_outcome x = Throws e.
Proof.
  induction calls as [|c calls IH]; simpl; [discriminate|].
  destruct (call_outcome c) eqn:O; intros H.
  - destruct (IH H) as (x & Hx & Ho). exists x. auto.
  - injection H as <-. exists c. auto.
  - destruct (IH H) as (x & Hx & Ho). exists x. auto.
  - destruct (IH H) as (x & Hx & Ho). exists x. auto.
Qed.

Lemma emap_forEach_calls_complete (f : MapForEachCallback K V U Err) (this : View K V)
      (es : list (K * V)) (u : U) :
  thrown (forEach_calls f this es u) = None ->
  length (forEach_calls f this es u) = length es.
Proof.
  revert u. induction es as [|[k v] es IH]; intros u; [reflexivity|].
  cbn [forEach_calls]. destruct (f v k this u) as [u' o].
  destruct o; simpl; intros H; try discriminate; f_equal; auto.
Qed.

Lemma emap_forEach_calls_throw_last (f : MapForEachCallback K V U Err) (this : View K V)
      (es : list (K * V)) (u : U) (pre post : Calls) (x : ForEachCall K V U Err)
      (e : Err) :
  forEach_calls f this es u = pre ++ x :: post ->
  call_outcome x = Throws e -> post = [].
Proof.
  revert u pre. induction es as [|[k v] es IH]; intros u pre.
  - simpl. destruct pre; discriminate.
  - cbn [forEach_calls]. destruct (f v k this u) as [u' o].
    destruct pre as [|p pre]; simpl; intros E Ho.
    + injection E as <- E. simpl in Ho. subst o. now symmetry.
    + injection E as _ E.
      destruct o;
        [exact (IH _ _ E Ho) | destruct pre; discriminate
        |exact (IH _ _ E Ho) | exact (IH _ _ E Ho)].
Qed.

Lemma emap_forEach_calls_first (f : MapForEachCallback K V U Err) (this : View K V)
      (es : list (K * V)) (u : U) (post : Calls) (x : ForEachCall K V U Err) :
  forEach_calls f this es u = x :: post -> call_before x = u.
Proof.
  destruct es as [|[k v] es]; [discriminate|].
  cbn [forEach_calls]. destruct (f v k this u) as [u' o].
  now intros [= <- _].
Qed.

Lemma emap_forEach_calls_chain (f : MapForEachCallback K V U Err) (this : View K V)
      (es : list (K * V)) (u : U) (pre post : Calls) (x y : ForEachCall K V U Err) :
  forEach_calls f this es u = pre ++ x :: y :: post ->
  call_before y = call_after x.
Proof.
  revert u pre. induction es as [|[k v] es IH]; intros u pre.
  - simpl. destruct pre; discriminate.
  - cbn [forEach_calls]. destruct (f v k this u) as [u' o].
    destruct pre as [|p pre]; simpl; intros E.
    + injection E as <- E. simpl.
      destruct o; try discriminate;
        now apply emap_forEach_calls_first in E.
    + injection E as _ E.
      destruct o;
        [exact (IH _ _ E) | destruct pre; discriminate
        |exact (IH _ _ E) | exact (IH _ _ E)].
Qed.

(** [forEach] in terms of the calls it makes. *)
Lemma emap_forEach_by_calls (f : MapForEachCallback K V U Err) (w : World) :
  let calls := forEach_calls f (entries w) (entries w) (user (rt w)) in
  let u := last (List.map (@call_after K V U Err) calls) (user (rt w)) in
  forEach f w =
  match thrown calls with
  | Some e =>
      (with_rt (with_unhandled
                  (unhandled (rt w) ++
                   rejections (List.map (fun c => promise_of c) (removelast calls)))
                  (with_user u (rt w))) w,
       AllRejected [e])
  | None =>
      (with_rt (with_user u (rt w)) w,
       Promise_all (List.map (fun c => promise_of c) calls))
  end.
Proof.
  intros calls u. unfold forEach. rewrite emap_forEach_loop_calls. fold calls.
  now destruct (thrown calls).
Qed.

Lemma emap_forEach_user (f : MapForEachCallback K V U Err) (w : World) :
  user (rt (fst (forEach f w))) =
  last (List.map (@call_after K V U Err)
                 (forEach_calls f (entries w) (entries w) (user (rt w))))
       (user (rt w)).
Proof.
  rewrite emap_forEach_by_calls. cbv zeta. now destruct (thrown _).
Qed.

Lemma emap_forEach_unhandled (f : MapForEachCallback K V U Err) (w : World) :
  let calls := forEach_calls f (entries w) (entries w) (user (rt w)) in
  unhandled (rt (fst (forEach f w))) =
  unhandled (rt w) ++
  match thrown calls with
  | Some _ => rejections (List.map (fun c => promise_of c) (removelast calls))
  | None => []
  end.
Proof.
  intros calls. rewrite emap_forEach_by_calls. fold calls.
  destruct (thrown calls); cbn [fst]; [reflexivity|].
  now rewrite app_nil_r.
Qed.

Lemma emap_forEach_settles (f : MapForEachCallback K V U Err) (w : World) :
  let calls := forEach_calls f (entries w) (entries w) (user (rt w)) in
  (forall reasons,
      snd (forEach f w) = AllRejected reasons ->
      reasons <> [] /\
      forall e, In e reasons ->
        exists x, In x calls /\
                  (call_outcome x = Throws e \/ call_outcome x = Rejects e)) /\
  ((exists x e, In x calls /\
                (call_outcome x = Throws e \/ call_outcome x = Rejects e)) ->
   exists reasons, snd (forEach f w) = AllRejected reasons) /\
  (snd (forEach f w) = AllFulfilled <->
   forall x, In x calls -> call_outcome x = Returns \/ call_outcome x = Resolves).
Proof.
  intros calls.
  assert (Hsnd : snd (forEach f w) =
                 match thrown calls with
                 | Some e => AllRejected [e]
                 | None => Promise_all (List.map (fun c => promise_of c) calls)
                 end).
  { rewrite emap_forEach_by_calls. fold calls. now destruct (thrown calls). }
  rewrite Hsnd. clear Hsnd.
  assert (Hful : match thrown calls with
                 | Some e => AllRejected [e]
                 | None => Promise_all (List.map (fun c => promise_of c) calls)
                 end = AllFulfilled <->
                 forall x, In x calls ->
                           call_outcome x = Returns \/ call_outcome x = Resolves).
  { destruct (thrown calls) as [e|] eqn:T.
    - split; [discriminate|]. intros H.
      apply emap_thrown_Some in T. destruct T as (x & Hx & Ho).
      destruct (H x Hx); congruence.
    - rewrite Promise_all_fulfilled. split.
      + intros H x Hx. apply await_fulfilled.
        destruct (H (promise_of x)) as [[] Ha]; [|exact Ha].
        apply in_map_iff. now exists x.
      + intros H p Hp. apply in_map_iff in Hp. destruct Hp as (x & <- & Hx).
        exists tt. apply await_fulfilled. now apply H. }
  split; [|split; [|exact Hful]].
  - intros reasons R. destruct (thrown calls) as [e|] eqn:T.
    + injection R as <-. split; [discriminate|].
      intros e' [<-|[]]. apply emap_thrown_Some in T.
      destruct T as (x & Hx & Ho). exists x. auto.
    + apply Promise_all_rejected in R. destruct R as [Hne R].
      split; [exact Hne|]. intros e He. apply R in He.
      apply in_map_iff in He. destruct He as (x & Ha & Hx).
      exists x. split; [exact Hx|]. now apply await_rejected.
  - intros (x & e & Hx & Ho).
    destruct (match thrown calls with
              | Some e0 => AllRejected [e0]
              | None => Promise_all (List.map (fun c => promise_of c) calls)
              end) as [|reasons] eqn:R; [|now exists reasons].
    exfalso. destruct Hful as [Hful _]. specialize (Hful eq_refl x Hx).
    destruct Ho, Hful; congruence.
Qed.

End ExpiringMapCalls.
End ExpiringMapCalls.

Module ExpiringSetCalls.
Import ExpiringSet ExpiringSetFacts.
Section ExpiringSetCalls.
Variables T U Err : Type.
Variable T_eq_dec : forall x y : T, {x = y} + {x <> y}.

Abbreviation World := (ExpiringSet.World T U Err).
Abbreviation clearExpiry := (ExpiringSet.clearExpiry T_eq_dec).
Abbreviation setExpiry := (ExpiringSet.setExpiry T_eq_dec).
Abbreviation setMinimumExpiry := (ExpiringSet.setMinimumExpiry T_eq_dec).
Abbreviation clearExpiry_raw := (ExpiringSet.clearExpiry_raw T_eq_dec).
Abbreviation setExpiry_raw := (ExpiringSet.setExpiry_raw T_eq_dec).
Abbreviation setMinimumExpiry_raw := (ExpiringSet.setMinimumExpiry_raw T_eq_dec).
Abbreviation run := (ExpiringSet.run T_eq_dec).
Abbreviation run_raw := (ExpiringSet.run_raw T_eq_dec).

(** *** No synchronous method throws *)

Lemma eset_clearExpiry_raw_eq (key : T) (w : World) :
  clearExpiry_raw key w =
  (snd (clearExpiry key w), Returned (fst (clearExpiry key w))).
Proof.
  unfold ExpiringSet.clearExpiry_raw, ExpiringSet.clearExpiry.
  destruct (JsMap.has T_eq_dec key (map w)) eqn:H; [|reflexivity].
  apply JsMapFacts.has_true_get in H. destruct H as [e G]. now rewrite G.
Qed.

Lemma eset_setExpiry_raw_eq (key : T) (ms : Z) (w : World) :
  setExpiry_raw key ms w =
  (snd (setExpiry key ms w), Returned (fst (setExpiry key ms w))).
Proof.
  unfold ExpiringSet.setExpiry_raw, ExpiringSet.setExpiry.
  destruct (JsMap.has T_eq_dec key (map w)) eqn:H; [|reflexivity].
  apply JsMapFacts.has_true_get in H. destruct H as [e G]. now rewrite G.
Qed.

Lemma eset_setMinimumExpiry_raw_eq (key : T) (m : Z) (w : World) :
  setMinimumExpiry_raw key m w =
  (snd (setMinimumExpiry key m w), Returned (fst (setMinimumExpiry key m w))).
Proof.
  unfold ExpiringSet.setMinimumExpiry_raw, ExpiringSet.setMinimumExpiry.
  destruct (ExpiringSet.getExpiry T_eq_dec key w); [|reflexivity].
  cbv zeta. destruct (_ >? _); [|reflexivity].
  apply eset_setExpiry_raw_eq.
Qed.

Lemma eset_run_raw_normal (c : Call T U Err) (w : World) :
  may_call_back c = false ->
  run_raw c w = (fst (run c w), Returned Normal).
Proof.
  destruct c; simpl; try discriminate; intros _; try reflexivity.
  - now rewrite eset_clearExpiry_raw_eq.
  - now rewrite eset_setExpiry_raw_eq.
  - now rewrite eset_setMinimumExpiry_raw_eq.
Qed.

(** A call that may call back completes as [run] says. *)
Lemma eset_run_raw_callback (c : Call T U Err) (w : World) :
  may_call_back c = true ->
  run_raw c w = (fst (run c w), Returned (snd (run c w))).
Proof.
  destruct c; simpl; try discriminate; intros _.
  - now destruct (forEach callbackfn w).
  - now destruct (ExpiringSet.expire T_eq_dec value w) as [w1 [b|e]].
  - now destruct (ExpiringSet.expireAll T_eq_dec w).
Qed.

(** *** The calls of [forEach] *)

Abbreviation Calls := (list (ForEachCall T U Err)).

(** The promise that a call adds to [promises]. *)
Abbreviation promise_of c := (await (call_outcome c)).

Lemma eset_forEach_loop_calls (f : SetForEachCallback T U Err) (this : View T)
      (es : list (T * T)) (u : U) (acc : list (Settled Err unit)) :
  forEach_loop f this es u acc =
  (last (List.map (@call_after T U Err) (forEach_calls f this es u)) u,
   match thrown (forEach_calls f this es u) with
   | Some e =>
       inl (e, acc ++ List.map (fun c => promise_of c)
                               (removelast (forEach_calls f this es u)))
   | None => inr (acc ++ List.map (fun c => promise_of c) (forEach_calls f this es u))
   end).
Proof.
  revert u acc. induction es as [|[k v] es IH]; intros u acc.
  - simpl. now rewrite app_nil_r.
  - cbn [forEach_loop forEach_calls]. destruct (f v k this u) as [u' o].
    destruct o; cbn [thrown call_outcome];
      try (cbn [List.map call_after removelast]; now rewrite app_nil_r);
      rewrite IH; cbn [List.map call_after]; rewrite last_cons_default;
      (destruct (forEach_calls f this es u') as [|c cs] eqn:C;
       [cbn [thrown List.map]; now rewrite <- app_assoc|]);
      (destruct (thrown (c :: cs));
       [change (removelast (?x :: c :: cs)) with (x :: removelast (c :: cs))|];
       cbn [List.map call_outcome await]; now rewrite <- app_assoc).
Qed.

Lemma eset_forEach_calls_spec (f : SetForEachCallback T U Err) (this : View T)
      (es : list (T * T)) (u : U) (x : ForEachCall T U Err) :
  In x (forEach_calls f this es u) ->
  f (call_value1 x) (call_value2 x) (call_this x) (call_before x) =
    (call_after x, call_outcome x) /\
  call_this x = this /\ In (call_value2 x, call_value1 x) es.
Proof.
  revert u. induction es as [|[k v] es IH]; intros u; [intros []|].
  cbn [forEach_calls]. destruct (f v k this u) as [u' o] eqn:F.
  intros [<-|Hin].
  - simpl. repeat split; auto.
  - assert (H : In x (forEach_calls f this es u')) by (destruct o; auto; destruct Hin).
    destruct (IH _ H) as (H1 & H2 & H3). repeat split; auto. now right.
Qed.

Lemma eset_forEach_calls_prefix (f : SetForEachCallback T U Err) (this : View T)
      (es : list (T * T)) (u : U) :
  List.map (fun x => (call_value2 x, call_value1 x)) (forEach_calls f this es u) =
  firstn (length (forEach_calls f this es u)) es.
Proof.
  revert u. induction es as [|[k v] es IH]; intros u; [reflexivity|].
  cbn [forEach_calls]. destruct (f v k this u) as [u' o].
  destruct o; simpl; f_equal; auto.
Qed.

Lemma eset_thrown_None (calls : Calls) :
  thrown calls = None <->
  forall x e, In x calls -> call_outcome x <> Throws e.
Proof.
  induction calls as [|c calls IH]; simpl.
  - split; [intros _ x e [] | reflexivity].
  - destruct (call_outcome c) eqn:O.
    + rewrite IH. split.
      * intros H x e [<-|Hin]; [congruence | now apply H].
      * intros H x e Hin. apply H. now right.
    + split; [discriminate|]. intros H. exfalso. apply (H c e); auto.
    + rewrite IH. split.
      * intros H x e [<-|Hin]; [congruence | now apply H].
      * intros H x e Hin. apply H. now right.
    + rewrite IH. split.
      * intros H x e' [<-|Hin]; [congruence | now apply H].
      * intros H x e' Hin. apply H. now right.
Qed.

Lemma eset_thrown_Some (calls : Calls) (e : Err) :
  thrown calls = Some e -> exists x, In x calls /\ call_outcome x = Throws e.
Proof.
  induction calls as [|c calls IH]; simpl; [discriminate|].
  destruct (call_outcome c) eqn:O; intros H.
  - destruct (IH H) as (x & Hx & Ho). exists x. auto.
  - injection H as <-. exists c. auto.
  - destruct (IH H) as (x & Hx & Ho). exists x. auto.
  - destruct (IH H) as (x & Hx & Ho). exists x. auto.
Qed.

Lemma eset_forEach_calls_complete (f : SetForEachCallback T U Err) (this : View T)
      (es : list (T * T)) (u : U) :
  thrown (forEach_calls f this es u) = None ->
  length (forEach_calls f this es u) = length es.
Proof.
  revert u. induction es as [|[k v] es IH]; intros u; [reflexivity|].
  cbn [forEach_calls]. destruct (f v k this u) as [u' o].
  destruct o; simpl; intros H; try discriminate; f_equal; auto.
Qed.

Lemma eset_forEach_calls_throw_last (f : SetForEachCallback T U Err) (this : View T)
      (es : list (T * T)) (u : U) (pre post : Calls) (x : ForEachCall T U Err)
      (e : Err) :
  forEach_calls f this es u = pre ++ x :: post ->
  call_outcome x = Throws e -> post = [].
Proof.
  revert u pre. induction es as [|[k v] es IH]; intros u pre.
  - simpl. destruct pre; discriminate.
  - cbn [forEach_calls]. destruct (f v k this u) as [u' o].
    destruct pre as [|p pre]; simpl; intros E Ho.
    + injection E as <- E. simpl in Ho. subst o. now symmetry.
    + injection E as _ E.
      destruct o;
        [exact (IH _ _ E Ho) | destruct pre; discriminate
        |exact (IH _ _ E Ho) | exact (IH _ _ E Ho)].
Qed.

Lemma eset_forEach_calls_first (f : SetForEachCallback T U Err) (this : View T)
      (es : list (T * T)) (u : U) (post : Calls) (x : ForEachCall T U Err) :
  forEach_calls f this es u = x :: post -> call_before x = u.
Proof.
  destruct es as [|[k v] es]; [discriminate|].
  cbn [forEach_calls]. destruct (f v k this u) as [u' o].
  now intros [= <- _].
Qed.

Lemma eset_forEach_calls_chain (f : SetForEachCallback T U Err) (this : View T)
      (es : list (T * T)) (u : U) (pre post : Calls) (x y : ForEachCall T U Err) :
  forEach_calls f this es u = pre ++ x :: y :: post ->
  call_before y = call_after x.
Proof.
  revert u pre. induction es as [|[k v] es IH]; intros u pre.
  - simpl. destruct pre; discriminate.
  - cbn [forEach_calls]. destruct (f v k this u) as [u' o].
    destruct pre as [|p pre]; simpl; intros E.
    + injection E as <- E. simpl.
      destruct o; try discriminate;
        now apply eset_forEach_calls_first in E.
    + injection E as _ E.
      destruct o;
        [exact (IH _ _ E) | destruct pre; discriminate
        |exact (IH _ _ E) | exact (IH _ _ E)].
Qed.

(** [forEach] in terms of the calls it makes. *)
Lemma eset_forEach_by_calls (f : SetForEachCallback T U Err) (w : World) :
  let calls := forEach_calls f (values w) (entries w) (user (rt w)) in
  let u := last (List.map (@call_after T U Err) calls) (user (rt w)) in
  forEach f w =
  match thrown calls with
  | Some e =>
      (with_rt (with_unhandled
                  (unhandled (rt w) ++
                   rejections (List.map (fun c => promise_of c) (removelast calls)))
                  (with_user u (rt w))) w,
       AllRejected [e])
  | None =>
      (with_rt (with_user u (rt w)) w,
       Promise_all (List.map (fun c => promise_of c) calls))
  end.
Proof.
  intros calls u. unfold forEach. rewrite eset_forEach_loop_calls. fold calls.
  now destruct (thrown calls).
Qed.

Lemma eset_forEach_user (f : SetForEachCallback T U Err) (w : World) :
  user (rt (fst (forEach f w))) =
  last (List.map (@call_after T U Err)
                 (forEach_calls f (values w) (entries w) (user (rt w))))
       (user (rt w)).
Proof.
  rewrite eset_forEach_by_calls. cbv zeta. now destruct (thrown _).
Qed.

Lemma eset_forEach_unhandled (f : SetForEachCallback T U Err) (w : World) :
  let calls := forEach_calls f (values w) (entries w) (user (rt w)) in
  unhandled (rt (fst (forEach f w))) =
  unhandled (rt w) ++
  match thrown calls with
  | Some _ => rejections (List.map (fun c => promise_of c) (removelast calls))
  | None => []
  end.
Proof.
  intros calls. rewrite eset_forEach_by_calls. fold calls.
  destruct (thrown calls); cbn [fst]; [reflexivity|].
  now rewrite app_nil_r.
Qed.

Lemma eset_forEach_settles (f : SetForEachCallback T U Err) (w : World) :
  let calls := forEach_calls f (values w) (entries w) (user (rt w)) in
  (forall reasons,
      snd (forEach f w) = AllRejected reasons ->
      reasons <> [] /\
      forall e, In e reasons ->
        exists x, In x calls /\
                  (call_outcome x = Throws e \/ call_outcome x = Rejects e)) /\
  ((exists x e, In x calls /\
                (call_outcome x = Throws e \/ call_outcome x = Rejects e)) ->
   exists reasons, snd (forEach f w) = AllRejected reasons) /\
  (snd (forEach f w) = AllFulfilled <->
   forall x, In x calls -> call_outcome x = Returns \/ call_outcome x = Resolves).
Proof.
  intros calls.
  assert (Hsnd : snd (forEach f w) =
                 match thrown calls with
                 | Some e => AllRejected [e]
                 | None => Promise_all (List.map (fun c => promise_of c) calls)
                 end).
  { rewrite eset_forEach_by_calls. fold calls. now destruct (thrown calls). }
  rewrite Hsnd. clear Hsnd.
  assert (Hful : match thrown calls with
                 | Some e => AllRejected [e]
                 | None => Promise_all (List.map (fun c => promise_of c) calls)
                 end = AllFulfilled <->
                 forall x, In x calls ->
                           call_outcome x = Returns \/ call_outcome x = Resolves).
  { destruct (thrown calls) as [e|] eqn:Th.
    - split; [discriminate|]. intros H.
      apply eset_thrown_Some in Th. destruct Th as (x & Hx & Ho).
      destruct (H x Hx); congruence.
    - rewrite Promise_all_fulfilled. split.
      + intros H x Hx. apply await_fulfilled.
        destruct (H (promise_of x)) as [[] Ha]; [|exact Ha].
        apply in_map_iff. now exists x.
      + intros H p Hp. apply in_map_iff in Hp. destruct Hp as (x & <- & Hx).
        exists tt. apply await_fulfilled. now apply H. }
  split; [|split; [|exact Hful]].
  - intros reasons R. destruct (thrown calls) as [e|] eqn:Th.
    + injection R as <-. split; [discriminate|].
      intros e' [<-|[]]. apply eset_thrown_Some in Th.
      destruct Th as (x & Hx & Ho). exists x. auto.
    + apply Promise_all_rejected in R. destruct R as [Hne R].
      split; [exact Hne|]. intros e He. apply R in He.
      apply in_map_iff in He. destruct He as (x & Ha & Hx).
      exists x. split; [exact Hx|]. now apply await_rejected.
  - intros (x & e & Hx & Ho).
    destruct (match thrown calls with
              | Some e0 => AllRejected [e0]
              | None => Promise_all (List.map (fun c => promise_of c) calls)
              end) as [|reasons] eqn:R; [|now exists reasons].
    exfalso. destruct Hful as [Hful _]. specialize (Hful eq_refl x Hx).
    destruct Ho, Hful; congruence.
Qed.

End ExpiringSetCalls.
End ExpiringSetCalls.

(** * [Promise.all] in time *)
Section TimedFacts.
Variables Err A : Type.

Abbreviation Members := (list (Timed Err A)).

Lemma waiting_from_In (ps : Members) (i j : nat) :
  In j (waiting_from i ps) <->
  (i <= j)%nat /\ exists r, nth_error ps (j - i) = Some (Waits r).
Proof.
  revert i. induction ps as [|[r|r] ps IH]; intros i; simpl.
  - split; [intros [] | intros [_ [r H]]]. destruct (j - i)%nat; discriminate.
  - rewrite IH. split.
    + intros [L [r' H]]. split; [lia|]. exists r'.
      replace (j - i)%nat with (S (j - S i)) by lia. exact H.
    + intros [L [r' H]]. destruct (j - i)%nat as [|n] eqn:D; [discriminate|].
      split; [lia|]. exists r'. replace (j - S i)%nat with n by lia. exact H.
  - rewrite IH. split.
    + intros [<-|[L [r' H]]].
      * split; [lia|]. exists r. now rewrite Nat.sub_diag.
      * split; [lia|]. exists r'.
        replace (j - i)%nat with (S (j - S i)) by lia. exact H.
    + intros [L [r' H]]. destruct (j - i)%nat as [|n] eqn:D.
      * left. lia.
      * right. split; [lia|]. exists r'.
        replace (j - S i)%nat with n by lia. exact H.
Qed.

Lemma waiting_In (ps : Members) (i : nat) :
  In i (waiting ps) <-> exists r, nth_error ps i = Some (Waits r).
Proof.
  unfold waiting. rewrite waiting_from_In, Nat.sub_0_r.
  split; [now intros [_ H] | intros H; split; [lia | exact H]].
Qed.

Lemma first_thrown_Some (ps : Members) (e : Err) :
  first_thrown ps = Some e -> In (Done (Rejected e)) ps.
Proof.
  induction ps as [|[[a|e']|r] ps IH]; simpl; try discriminate; auto.
  intros [= ->]. now left.
Qed.

Lemma first_thrown_None (ps : Members) :
  first_thrown ps = None <-> forall e, ~ In (Done (Rejected e)) ps.
Proof.
  induction ps as [|[[a|e']|r] ps IH]; simpl.
  - split; [intros _ e [] | reflexivity].
  - rewrite IH. split.
    + intros H e [He|He]; [discriminate | now apply (H e)].
    + intros H e He. apply (H e). now right.
  - split; [discriminate|]. intros H. exfalso. apply (H e'). now left.
  - rewrite IH. split.
    + intros H e [He|He]; [discriminate | now apply (H e)].
    + intros H e He. apply (H e). now right.
Qed.

Lemma first_rejected_Some (ps : Members) (settled : list nat) (e : Err) :
  first_rejected ps settled = Some e ->
  exists i, In i settled /\ nth_error ps i = Some (Waits (Rejected e)).
Proof.
  induction settled as [|i settled IH]; simpl; [discriminate|].
  destruct (nth_error ps i) as [[r|[a|e']]|] eqn:N; intros H;
    try (destruct (IH H) as [j [Hj Hn]]; exists j; auto).
  injection H as <-. exists i. auto.
Qed.

Lemma first_rejected_None (ps : Members) (settled : list nat) :
  first_rejected ps settled = None <->
  forall i e, In i settled -> nth_error ps i <> Some (Waits (Rejected e)).
Proof.
  induction settled as [|i settled IH]; simpl.
  - split; [intros _ i e [] | reflexivity].
  - destruct (nth_error ps i) as [[r|[a|e']]|] eqn:N.
    + rewrite IH. split.
      * intros H j e [<-|Hj]; [congruence | now apply H].
      * intros H j e Hj. apply H. now right.
    + rewrite IH. split.
      * intros H j e [<-|Hj]; [congruence | now apply H].
      * intros H j e Hj. apply H. now right.
    + split; [discriminate|]. intros H. exfalso. apply (H i e'); auto.
    + rewrite IH. split.
      * intros H j e [<-|Hj]; [congruence | now apply H].
      * intros H j e Hj. apply H. now right.
Qed.


Lemma all_settled_spec (ps : Members) (settled : list nat) :
  forallb (fun i => existsb (Nat.eqb i) settled) (waiting ps) = true <->
  forall i, In i (waiting ps) -> In i settled.
Proof.
  rewrite forallb_forall. split; intros H i Hi.
  - apply H in Hi. apply existsb_exists in Hi. destruct Hi as (j & Hj & E).
    apply Nat.eqb_eq in E. now subst.
  - apply existsb_exists. exists i. split; [now apply H | apply Nat.eqb_refl].
Qed.

(** The promise of [Promise.all] is fulfilled exactly when every member
    is fulfilled in the end and every waiting member has settled. *)
Lemma Promise_all_by_fulfilled (ps : Members) (settled : list nat) :
  Promise_all_by ps settled = Some (Fulfilled tt) <->
  (forall p, In p ps -> exists a, eventually p = Fulfilled a) /\
  (forall i, In i (waiting ps) -> In i settled).
Proof.
  unfold Promise_all_by. split.
  - destruct (first_thrown ps) as [e|] eqn:T; [discriminate|].
    destruct (first_rejected ps settled) as [e|] eqn:R; [discriminate|].
    destruct (forallb _ _) eqn:F; [|discriminate]. intros _.
    pose proof (proj1 (all_settled_spec ps settled) F) as F'. clear F.
    rename F' into F. split; [|exact F].
    intros [[a|e]|[a|e]] Hp; simpl; eauto.
    + exfalso. apply (proj1 (first_thrown_None ps) T e Hp).
    + exfalso. apply In_nth_error in Hp. destruct Hp as [i Hi].
      assert (Hw : In i (waiting ps)) by (apply waiting_In; eauto).
      apply (proj1 (first_rejected_None ps settled) R i e (F i Hw) Hi).
  - intros [Hall Hset].
    assert (T : first_thrown ps = None).
    { apply first_thrown_None. intros e He.
      destruct (Hall _ He) as [a Ha]. discriminate. }
    assert (R : first_rejected ps settled = None).
    { apply first_rejected_None. intros i e Hi Hn.
      apply nth_error_In in Hn. destruct (Hall _ Hn) as [a Ha]. discriminate. }
    rewrite T, R. now rewrite (proj2 (all_settled_spec ps settled) Hset).
Qed.

(** It is rejected only with the error of a member: one that was
    rejected because its callback threw, or a waiting member that has
    settled. *)
Lemma Promise_all_by_rejected (ps : Members) (settled : list nat) (e : Err) :
  Promise_all_by ps settled = Some (Rejected e) ->
  In (Done (Rejected e)) ps \/
  exists i, In i settled /\ nth_error ps i = Some (Waits (Rejected e)).
Proof.
  unfold Promise_all_by.
  destruct (first_thrown ps) as [e'|] eqn:T.
  - intros [= <-]. left. now apply first_thrown_Some.
  - destruct (first_rejected ps settled) as [e'|] eqn:R.
    + intros [= <-]. right. now apply first_rejected_Some.
    + destruct (forallb _ _); discriminate.
Qed.




(** The promise in time against [Promise_all], which says how the
    promise settles in the end. *)
Lemma Promise_all_by_eventually (ps : Members) (settled : list nat) :
  (Promise_all_by ps settled = Some (Fulfilled tt) ->
   Promise_all (List.map (@eventually Err A) ps) = AllFulfilled) /\
  (forall e, Promise_all_by ps settled = Some (Rejected e) ->
             exists reasons,
               Promise_all (List.map (@eventually Err A) ps) = AllRejected reasons /\
               In e reasons).
Proof.
  split.
  - intros H. apply Promise_all_by_fulfilled in H. destruct H as [Hall _].
    apply Promise_all_fulfilled. intros p Hp.
    apply in_map_iff in Hp. destruct Hp as (x & <- & Hx). now apply Hall.
  - intros e H.
    assert (Hin : In (Rejected e) (List.map (@eventually Err A) ps)).
    { apply Promise_all_by_rejected in H. destruct H as [H|(i & _ & H)].
      - apply in_map_iff. now exists (Done (Rejected e)).
      - apply nth_error_In in H. apply in_map_iff. now exists (Waits (Rejected e)). }
    destruct (Promise_all (List.map (@eventually Err A) ps)) as [|reasons] eqn:P.
    + apply Promise_all_fulfilled with (p := Rejected e) in P; [|exact Hin].
      destruct P; discriminate.
    + exists reasons. split; [reflexivity|].
      apply Promise_all_rejected in P. destruct P as [_ P]. now apply P.
Qed.
End TimedFacts.

(** * ExpiringMap: [expire] and [expireAll] in time *)
Module ExpiringMapTimed.
Import ExpiringMap ExpiringMapFacts.
Section ExpiringMapTimed.
Variables K V U Err : Type.
Variable K_eq_dec : forall x y : K, {x = y} + {x <> y}.

Abbreviation World := (ExpiringMap.World K V U Err).
Abbreviation Entry := (ExpiringMap.Entry K V U Err).
Abbreviation expire := (ExpiringMap.expire K_eq_dec).
Abbreviation expireAll := (ExpiringMap.expireAll K_eq_dec).
Abbreviation expire_start := (ExpiringMap.expire_start K_eq_dec).
Abbreviation expireAll_start := (ExpiringMap.expireAll_start K_eq_dec).
Abbreviation expireAll_start_fuel := (ExpiringMap.expireAll_start_fuel K_eq_dec).
Abbreviation expireAll_by := (ExpiringMap.expireAll_by K_eq_dec).


Abbreviation start_turn :=
  (fun (s : World * list (Timed Err bool)) (key : K) =>
     let (w1, r) := expire_start key (fst s) in (w1, snd s ++ [r])).

Abbreviation expire_turn :=
  (fun (s : World * list (Settled Err bool)) (key : K) =>
     let (w1, r) := expire key (fst s) in (w1, snd s ++ [r])).








End ExpiringMapTimed.
End ExpiringMapTimed.

(** * ExpiringSet: [expire] and [expireAll] in time *)
Module ExpiringSetTimed.
Import ExpiringSet ExpiringSetFacts.
Section ExpiringSetTimed.
Variables T U Err : Type.
Variable T_eq_dec : forall x y : T, {x = y} + {x <> y}.

Abbreviation World := (ExpiringSet.World T U Err).
Abbreviation Entry := (ExpiringSet.Entry T U Err).
Abbreviation expire := (ExpiringSet.expire T_eq_dec).
Abbreviation expireAll := (ExpiringSet.expireAll T_eq_dec).
Abbreviation expire_start := (ExpiringSet.expire_start T_eq_dec).
Abbreviation expireAll_start := (ExpiringSet.expireAll_start T_eq_dec).
Abbreviation expireAll_start_fuel := (ExpiringSet.expireAll_start_fuel T_eq_dec).
Abbreviation expireAll_by := (ExpiringSet.expireAll_by T_eq_dec).


Abbreviation start_turn :=
  (fun (s : World * list (Timed Err bool)) (key : T) =>
     let (w1, r) := expire_start key (fst s) in (w1, snd s ++ [r])).

Abbreviation expire_turn :=
  (fun (s : World * list (Settled Err bool)) (key : T) =>
     let (w1, r) := expire key (fst s) in (w1, snd s ++ [r])).








End ExpiringSetTimed.
End ExpiringSetTimed.

(** * The claims

    Each claim is stated for the map and for the set, [w] being a state of
    an [ExpiringMap] and [s] a state of an [ExpiringSet].  Where a claim
    needs it, the state is assumed well-formed ([wf]): every state reached
    from a new container through calls, timers firing and time passing is
    ([emap_reachable_wf], [eset_reachable_wf]). *)

(** Splits the conjunctions of the goal, and nothing else. *)
Ltac split_and := repeat match goal with |- _ /\ _ => split end.

Section Claims.
Variables K V T U Err : Type.
Variable K_eq_dec : forall x y : K, {x = y} + {x <> y}.
Variable T_eq_dec : forall x y : T, {x = y} + {x <> y}.

Abbreviation MapWorld := (ExpiringMap.World K V U Err).
Abbreviation SetWorld := (ExpiringSet.World T U Err).

(** C1.  [setMinimumExpiry(key, m)] has a three-way outcome, in the map
    and in the set alike.  It returns [false], and changes nothing, when
    the key is absent or its entry has no expiry.  It returns [true], and
    changes nothing, when the expiry of the entry is at or after
    [now + m].  Otherwise it is [setExpiry(key, m)]: it returns [true]
    and the expiry of the entry becomes [now + m]. *)
Theorem C1_setMinimumExpiry_three_way
        (key : K) (value : T) (m : Z) (w : MapWorld) (s : SetWorld) :
  ((ExpiringMap.has K_eq_dec key w = false \/
    (exists e, JsMap.get K_eq_dec key (ExpiringMap.map w) = Some e /\
               ExpiringMap.expiry e = None) ->
    ExpiringMap.setMinimumExpiry K_eq_dec key m w = (false, w)) /\
   (forall old,
       ExpiringMap.getExpiry K_eq_dec key w = Some old ->
       now (ExpiringMap.rt w) + m <= old ->
       ExpiringMap.setMinimumExpiry K_eq_dec key m w = (true, w)) /\
   (forall old,
       ExpiringMap.getExpiry K_eq_dec key w = Some old ->
       old < now (ExpiringMap.rt w) + m ->
       ExpiringMap.setMinimumExpiry K_eq_dec key m w =
         ExpiringMap.setExpiry K_eq_dec key m w /\
       fst (ExpiringMap.setMinimumExpiry K_eq_dec key m w) = true /\
       ExpiringMap.getExpiry K_eq_dec key
         (snd (ExpiringMap.setMinimumExpiry K_eq_dec key m w)) =
         Some (now (ExpiringMap.rt w) + m)))
  /\
  ((ExpiringSet.has T_eq_dec value s = false \/
    (exists e, JsMap.get T_eq_dec value (ExpiringSet.map s) = Some e /\
               ExpiringSet.expiry e = None) ->
    ExpiringSet.setMinimumExpiry T_eq_dec value m s = (false, s)) /\
   (forall old,
       ExpiringSet.getExpiry T_eq_dec value s = Some old ->
       now (ExpiringSet.rt s) + m <= old ->
       ExpiringSet.setMinimumExpiry T_eq_dec value m s = (true, s)) /\
   (forall old,
       ExpiringSet.getExpiry T_eq_dec value s = Some old ->
       old < now (ExpiringSet.rt s) + m ->
       ExpiringSet.setMinimumExpiry T_eq_dec value m s =
         ExpiringSet.setExpiry T_eq_dec value m s /\
       fst (ExpiringSet.setMinimumExpiry T_eq_dec value m s) = true /\
       ExpiringSet.getExpiry T_eq_dec value
         (snd (ExpiringSet.setMinimumExpiry T_eq_dec value m s)) =
         Some (now (ExpiringSet.rt s) + m))).
Proof.
  split.
  - rewrite ExpiringMapFacts.emap_setMinimumExpiry_eq. split_and.
    + intros H. apply ExpiringMapFacts.emap_getExpiry_None in H. now rewrite H.
    + intros old -> Hle. apply Z.ltb_ge in Hle. now rewrite Hle.
    + intros old Hold Hlt. rewrite Hold.
      apply Z.ltb_lt in Hlt. rewrite Hlt.
      apply ExpiringMapFacts.emap_getExpiry_Some in Hold as [e [G _]].
      rewrite ExpiringMapFacts.emap_setExpiry_present with (e := e) by exact G.
      simpl. split_and; auto.
      now rewrite ExpiringMapFacts.emap_getExpiry_set.
  - rewrite ExpiringSetFacts.eset_setMinimumExpiry_eq. split_and.
    + intros H. apply ExpiringSetFacts.eset_getExpiry_None in H. now rewrite H.
    + intros old -> Hle. apply Z.ltb_ge in Hle. now rewrite Hle.
    + intros old Hold Hlt. rewrite Hold.
      apply Z.ltb_lt in Hlt. rewrite Hlt.
      apply ExpiringSetFacts.eset_getExpiry_Some in Hold as [e [G _]].
      rewrite ExpiringSetFacts.eset_setExpiry_present with (e := e) by exact G.
      simpl. split_and; auto.
      now rewrite ExpiringSetFacts.eset_getExpiry_add.
Qed.

(** C2 (amended).  Take a live entry that holds a timer, as [set] with a
    time to live leaves it ([emap_set_timed]).  When the timer fires, the
    entry is removed first: the container handed to the callback no longer
    has the key, and no timer is left for it.  The callback, if any, is
    called once with the key, the value and the container, and it is
    awaited: whether it throws or its promise rejects, the error goes to
    [expireErrorCallback] when there is one and is dropped otherwise.  An
    unhandled rejection arises only when [expireErrorCallback] itself
    throws. *)
Theorem C2_timer_fire
        (key : K) (e : ExpiringMap.Entry K V U Err) (id : TimerId)
        (w : MapWorld) :
  ExpiringMap.wf w ->
  JsMap.get K_eq_dec key (ExpiringMap.map w) = Some e ->
  ExpiringMap.timer e = Some id ->
  exists w',
    ExpiringMap.fire K_eq_dec id w = Some w' /\
    ExpiringMap.has K_eq_dec key w' = false /\
    ExpiringMap.map w' = ExpiringMap.map (snd (ExpiringMap.delete K_eq_dec key w)) /\
    (forall id' t, In (id', t) (timers (ExpiringMap.rt w')) ->
                   ExpiringMap.task_key (task t) <> key) /\
    let removed := snd (ExpiringMap.delete K_eq_dec key w) in
    match ExpiringMap.expiryCallback e with
    | None =>
        user (ExpiringMap.rt w') = user (ExpiringMap.rt w) /\
        unhandled (ExpiringMap.rt w') = unhandled (ExpiringMap.rt w)
    | Some cb =>
        ExpiringMap.has K_eq_dec key removed = false /\
        ~ In key (List.map fst (ExpiringMap.entries removed)) /\
        let (u, o) := cb key (ExpiringMap.value e) (ExpiringMap.entries removed)
                         (user (ExpiringMap.rt w)) in
        match await o with
        | Fulfilled _ =>
            user (ExpiringMap.rt w') = u /\
            unhandled (ExpiringMap.rt w') = unhandled (ExpiringMap.rt w)
        | Rejected error =>
            match ExpiringMap.option_of (@ExpiringMap.expireErrorCallback K V U Err) w with
            | None =>
                user (ExpiringMap.rt w') = u /\
                unhandled (ExpiringMap.rt w') = unhandled (ExpiringMap.rt w)
            | Some errorCallback =>
                let (u', thrown) := errorCallback error u in
                user (ExpiringMap.rt w') = u' /\
                unhandled (ExpiringMap.rt w') =
                  unhandled (ExpiringMap.rt w) ++
                  match thrown with Some e' => [e'] | None => [] end
            end
        end
    end.
Proof.
  intros W G Htimer.
  pose proof (ExpiringMapFacts.emap_fire_entry K_eq_dec key W G Htimer) as F.
  pose proof (ExpiringMapFacts.emap_has_delete K_eq_dec key W) as Hhas.
  pose proof (ExpiringMapFacts.emap_delete_no_timer K_eq_dec (key := key) W) as Hno.
  destruct (ExpiringMapFacts.emap_delete_frame K_eq_dec key w)
    as (_ & _ & Hu & Hh & _).
  cbv zeta in F. cbv zeta.
  set (removed := snd (ExpiringMap.delete K_eq_dec key w)) in *.
  assert (Hkeys : ~ In key (List.map fst (ExpiringMap.entries removed))).
  { rewrite ExpiringMapFacts.emap_keys_entries.
    rewrite <- ExpiringMapFacts.emap_has_keys with (K_eq_dec := K_eq_dec).
    now rewrite Hhas. }
  destruct (ExpiringMap.expiryCallback e) as [cb|].
  - destruct (cb key (ExpiringMap.value e) (ExpiringMap.entries removed)
                 (user (ExpiringMap.rt w))) as [u o].
    destruct (await o) as [[]|error].
    + eexists. split; [exact F|]. simpl. repeat split; auto.
    + destruct (ExpiringMap.option_of _ w) as [errorCallback|].
      * destruct (errorCallback error u) as [u' [e'|]].
        -- eexists. split; [exact F|]. simpl. repeat split; auto.
           now rewrite Hh.
        -- eexists. split; [exact F|]. simpl. repeat split; auto.
           now rewrite app_nil_r.
      * eexists. split; [exact F|]. simpl. repeat split; auto.
  - exists removed. repeat split; auto.
Qed.


(** C4 (amended).  A call of a method other than [forEach], [expire] and
    [expireAll] does not throw, whatever the state, and leaves the state
    that [run] says: these methods run no user code, and the one thing in
    them that could throw, a property taken of [get(key)!], is taken of a
    key that [has] has found.  [forEach] calls its callback on the
    entries in order, each call starting from the user state the one
    before left, up to the end or to the first call that throws
    ([forEach_calls]).  Its promise is rejected exactly when one of these
    calls threw or returned a promise that rejects, with the error of
    such a call, and it is fulfilled exactly when every one of these
    calls returned or resolved.  When a call throws, the promises that the
    calls before it returned are dropped with nobody waiting on them:
    those of them that reject are added to the unhandled rejections, and
    nothing else is. *)
Theorem C4_total_unless_callback
        (c : ExpiringMap.Call K V U Err) (c' : ExpiringSet.Call T U Err)
        (w : MapWorld) (s : SetWorld) :
  ((ExpiringMap.may_call_back c = false ->
    ExpiringMap.run_raw K_eq_dec c w =
      (fst (ExpiringMap.run K_eq_dec c w), Returned ExpiringMap.Normal)) /\
   (forall f,
       let calls := ExpiringMap.forEach_calls f (ExpiringMap.entries w)
                      (ExpiringMap.entries w) (user (ExpiringMap.rt w)) in
       (forall x, In x calls ->
           f (ExpiringMap.call_value x) (ExpiringMap.call_key x)
             (ExpiringMap.call_this x) (ExpiringMap.call_before x) =
             (ExpiringMap.call_after x, ExpiringMap.call_outcome x) /\
           ExpiringMap.call_this x = ExpiringMap.entries w) /\
       List.map (fun x => (ExpiringMap.call_key x, ExpiringMap.call_value x)) calls =
         firstn (length calls) (ExpiringMap.entries w) /\
       ((forall x e, In x calls -> ExpiringMap.call_outcome x <> Throws e) ->
        length calls = length (ExpiringMap.entries w)) /\
       (forall pre x post e,
           calls = pre ++ x :: post ->
           ExpiringMap.call_outcome x = Throws e -> post = []) /\
       (forall x post,
           calls = x :: post -> ExpiringMap.call_before x = user (ExpiringMap.rt w)) /\
       (forall pre x y post,
           calls = pre ++ x :: y :: post ->
           ExpiringMap.call_before y = ExpiringMap.call_after x) /\
       user (ExpiringMap.rt (fst (ExpiringMap.forEach f w))) =
         last (List.map (@ExpiringMap.call_after K V U Err) calls)
              (user (ExpiringMap.rt w)) /\
       unhandled (ExpiringMap.rt (fst (ExpiringMap.forEach f w))) =
         unhandled (ExpiringMap.rt w) ++
         match ExpiringMap.thrown calls with
         | Some _ =>
             rejections (List.map (fun x => await (ExpiringMap.call_outcome x))
                                  (removelast calls))
         | None => []
         end /\
       (forall reasons,
           snd (ExpiringMap.forEach f w) = AllRejected reasons ->
           reasons <> [] /\
           forall e, In e reasons ->
             exists x, In x calls /\
                       (ExpiringMap.call_outcome x = Throws e \/
                        ExpiringMap.call_outcome x = Rejects e)) /\
       ((exists x e, In x calls /\
                     (ExpiringMap.call_outcome x = Throws e \/
                      ExpiringMap.call_outcome x = Rejects e)) ->
        exists reasons, snd (ExpiringMap.forEach f w) = AllRejected reasons) /\
       (snd (ExpiringMap.forEach f w) = AllFulfilled <->
        forall x, In x calls ->
                  ExpiringMap.call_outcome x = Returns \/
                  ExpiringMap.call_outcome x = Resolves)))
  /\
  ((ExpiringSet.may_call_back c' = false ->
    ExpiringSet.run_raw T_eq_dec c' s =
      (fst (ExpiringSet.run T_eq_dec c' s), Returned ExpiringSet.Normal)) /\
   (forall f,
       let calls := ExpiringSet.forEach_calls f (ExpiringSet.values s)
                      (ExpiringSet.entries s) (user (ExpiringSet.rt s)) in
       (forall x, In x calls ->
           f (ExpiringSet.call_value1 x) (ExpiringSet.call_value2 x)
             (ExpiringSet.call_this x) (ExpiringSet.call_before x) =
             (ExpiringSet.call_after x, ExpiringSet.call_outcome x) /\
           ExpiringSet.call_this x = ExpiringSet.values s) /\
       List.map (fun x => (ExpiringSet.call_value2 x, ExpiringSet.call_value1 x)) calls =
         firstn (length calls) (ExpiringSet.entries s) /\
       ((forall x e, In x calls -> ExpiringSet.call_outcome x <> Throws e) ->
        length calls = length (ExpiringSet.entries s)) /\
       (forall pre x post e,
           calls = pre ++ x :: post ->
           ExpiringSet.call_outcome x = Throws e -> post = []) /\
       (forall x post,
           calls = x :: post -> ExpiringSet.call_before x = user (ExpiringSet.rt s)) /\
       (forall pre x y post,
           calls = pre ++ x :: y :: post ->
           ExpiringSet.call_before y = ExpiringSet.call_after x) /\
       user (ExpiringSet.rt (fst (ExpiringSet.forEach f s))) =
         last (List.map (@ExpiringSet.call_after T U Err) calls)
              (user (ExpiringSet.rt s)) /\
       unhandled (ExpiringSet.rt (fst (ExpiringSet.forEach f s))) =
         unhandled (ExpiringSet.rt s) ++
         match ExpiringSet.thrown calls with
         | Some _ =>
             rejections (List.map (fun x => await (ExpiringSet.call_outcome x))
                                  (removelast calls))
         | None => []
         end /\
       (forall reasons,
           snd (ExpiringSet.forEach f s) = AllRejected reasons ->
           reasons <> [] /\
           forall e, In e reasons ->
             exists x, In x calls /\
                       (ExpiringSet.call_outcome x = Throws e \/
                        ExpiringSet.call_outcome x = Rejects e)) /\
       ((exists x e, In x calls /\
                     (ExpiringSet.call_outcome x = Throws e \/
                      ExpiringSet.call_outcome x = Rejects e)) ->
        exists reasons, snd (ExpiringSet.forEach f s) = AllRejected reasons) /\
       (snd (ExpiringSet.forEach f s) = AllFulfilled <->
        forall x, In x calls ->
                  ExpiringSet.call_outcome x = Returns \/
                  ExpiringSet.call_outcome x = Resolves))).
Proof.
  split; (split; [|intros f calls]).
  - apply ExpiringMapCalls.emap_run_raw_normal.
  - destruct (ExpiringMapCalls.emap_forEach_settles f w) as (Hrej & Hconv & Hful).
    fold calls in Hrej, Hconv, Hful.
    split_and; auto.
    + intros x Hx.
      destruct (ExpiringMapCalls.emap_forEach_calls_spec _ _ _ _ _ Hx) as (H1 & H2 & _).
      now split.
    + apply ExpiringMapCalls.emap_forEach_calls_prefix.
    + intros H. apply ExpiringMapCalls.emap_forEach_calls_complete.
      now apply ExpiringMapCalls.emap_thrown_None.
    + intros pre x post e. apply ExpiringMapCalls.emap_forEach_calls_throw_last.
    + intros x post. apply ExpiringMapCalls.emap_forEach_calls_first.
    + intros pre x y post. apply ExpiringMapCalls.emap_forEach_calls_chain.
    + apply ExpiringMapCalls.emap_forEach_user.
    + apply ExpiringMapCalls.emap_forEach_unhandled.
  - apply ExpiringSetCalls.eset_run_raw_normal.
  - destruct (ExpiringSetCalls.eset_forEach_settles f s) as (Hrej & Hconv & Hful).
    fold calls in Hrej, Hconv, Hful.
    split_and; auto.
    + intros x Hx.
      destruct (ExpiringSetCalls.eset_forEach_calls_spec _ _ _ _ _ Hx) as (H1 & H2 & _).
      now split.
    + apply ExpiringSetCalls.eset_forEach_calls_prefix.
    + intros H. apply ExpiringSetCalls.eset_forEach_calls_complete.
      now apply ExpiringSetCalls.eset_thrown_None.
    + intros pre x post e. apply ExpiringSetCalls.eset_forEach_calls_throw_last.
    + intros x post. apply ExpiringSetCalls.eset_forEach_calls_first.
    + intros pre x y post. apply ExpiringSetCalls.eset_forEach_calls_chain.
    + apply ExpiringSetCalls.eset_forEach_user.
    + apply ExpiringSetCalls.eset_forEach_unhandled.
Qed.

(** C5.  Iteration follows insertion order.  [set] (and [add]) of a key
    removes the key from where it stands, if present, and puts it last;
    so after any sequence of insertions the keys come in the order of
    their last insertion.  [entries], [keys], [values], the default
    iteration and [forEach] all follow that one order. *)
Theorem C5_iteration_order (w : MapWorld) (s : SetWorld) :
  (ExpiringMap.wf w ->
   (forall key value expiryMs expiryCallback,
       ExpiringMap.keys (ExpiringMap.set K_eq_dec key value expiryMs expiryCallback w) =
       JsMap.remove_key K_eq_dec key (ExpiringMap.keys w) ++ [key]) /\
   (forall contents,
       ExpiringMap.keys (ExpiringMap.set_each K_eq_dec contents w) =
       ExpiringMap.insertion_order K_eq_dec
         (List.map (@ExpiringMap.key_of K V U Err) contents) (ExpiringMap.keys w)) /\
   (forall key,
       ExpiringMap.keys (snd (ExpiringMap.delete K_eq_dec key w)) =
       JsMap.remove_key K_eq_dec key (ExpiringMap.keys w)) /\
   List.map fst (ExpiringMap.entries w) = ExpiringMap.keys w /\
   ExpiringMap.values w = List.map snd (ExpiringMap.entries w) /\
   ExpiringMap.iterator w = ExpiringMap.entries w /\
   (forall f,
       (forall v k u e, snd (f v k (ExpiringMap.entries w) u) <> Throws e) ->
       user (ExpiringMap.rt (fst (ExpiringMap.forEach f w))) =
       fold_left (fun u p => fst (f (snd p) (fst p) (ExpiringMap.entries w) u))
                 (ExpiringMap.entries w) (user (ExpiringMap.rt w))))
  /\
  (ExpiringSet.wf s ->
   (forall value expiryMs expiryCallback,
       ExpiringSet.values (ExpiringSet.add T_eq_dec value expiryMs expiryCallback s) =
       JsMap.remove_key T_eq_dec value (ExpiringSet.values s) ++ [value]) /\
   (forall contents,
       ExpiringSet.values (ExpiringSet.add_each T_eq_dec contents s) =
       ExpiringSet.insertion_order T_eq_dec
         (List.map (@ExpiringSet.value_of T U Err) contents) (ExpiringSet.values s)) /\
   (forall value,
       ExpiringSet.values (snd (ExpiringSet.delete T_eq_dec value s)) =
       JsMap.remove_key T_eq_dec value (ExpiringSet.values s)) /\
   ExpiringSet.entries s =
     List.map (fun value => (value, value)) (ExpiringSet.values s) /\
   ExpiringSet.keys s = ExpiringSet.values s /\
   ExpiringSet.iterator s = ExpiringSet.values s /\
   (forall f,
       (forall v k u e, snd (f v k (ExpiringSet.values s) u) <> Throws e) ->
       user (ExpiringSet.rt (fst (ExpiringSet.forEach f s))) =
       fold_left (fun u p => fst (f (snd p) (fst p) (ExpiringSet.values s) u))
                 (ExpiringSet.entries s) (user (ExpiringSet.rt s)))).
Proof.
  split; intros W; split_and; try reflexivity.
  - intros. now apply ExpiringMapFacts.emap_keys_set.
  - intros. now apply ExpiringMapFacts.emap_keys_set_each.
  - intros. apply ExpiringMapFacts.emap_keys_delete.
  - apply ExpiringMapFacts.emap_keys_entries.
  - intros. now apply ExpiringMapFacts.emap_forEach_order.
  - intros. now apply ExpiringSetFacts.eset_keys_add.
  - intros. now apply ExpiringSetFacts.eset_keys_add_each.
  - intros. apply ExpiringSetFacts.eset_keys_delete.
  - intros. now apply ExpiringSetFacts.eset_forEach_order.
Qed.

(** C6.  [delete(key)] returns whether the key was present, leaves the
    key absent, cancels the timer of the entry (no pending timer is left
    for the key, the other timers stay), leaves the other entries as
    they were and calls no callback: the user state is untouched.
    [clear()] is [delete] applied to every key in turn; it leaves the
    container empty, with no pending timer, and calls no callback. *)
Theorem C6_delete_clear (key : K) (value : T) (w : MapWorld) (s : SetWorld) :
  (ExpiringMap.wf w ->
   (fst (ExpiringMap.delete K_eq_dec key w) = ExpiringMap.has K_eq_dec key w /\
    ExpiringMap.has K_eq_dec key (snd (ExpiringMap.delete K_eq_dec key w)) = false /\
    (forall id t,
        In (id, t) (timers (ExpiringMap.rt (snd (ExpiringMap.delete K_eq_dec key w)))) <->
        In (id, t) (timers (ExpiringMap.rt w)) /\
        ExpiringMap.task_key (task t) <> key) /\
    (forall k, k <> key ->
        JsMap.get K_eq_dec k (ExpiringMap.map (snd (ExpiringMap.delete K_eq_dec key w))) =
        JsMap.get K_eq_dec k (ExpiringMap.map w)) /\
    user (ExpiringMap.rt (snd (ExpiringMap.delete K_eq_dec key w))) =
      user (ExpiringMap.rt w) /\
    unhandled (ExpiringMap.rt (snd (ExpiringMap.delete K_eq_dec key w))) =
      unhandled (ExpiringMap.rt w)) /\
   (ExpiringMap.clear K_eq_dec w =
      fold_left (fun w k => snd (ExpiringMap.delete K_eq_dec k w))
                (ExpiringMap.keys w) w /\
    ExpiringMap.size (ExpiringMap.clear K_eq_dec w) = O /\
    (forall k, ExpiringMap.has K_eq_dec k (ExpiringMap.clear K_eq_dec w) = false) /\
    timers (ExpiringMap.rt (ExpiringMap.clear K_eq_dec w)) = [] /\
    user (ExpiringMap.rt (ExpiringMap.clear K_eq_dec w)) = user (ExpiringMap.rt w) /\
    unhandled (ExpiringMap.rt (ExpiringMap.clear K_eq_dec w)) =
      unhandled (ExpiringMap.rt w) /\
    (forall fuel, (length (ExpiringMap.map w) <= fuel)%nat ->
        ExpiringMap.clear_fuel K_eq_dec fuel w = ExpiringMap.clear K_eq_dec w)))
  /\
  (ExpiringSet.wf s ->
   (fst (ExpiringSet.delete T_eq_dec value s) = ExpiringSet.has T_eq_dec value s /\
    ExpiringSet.has T_eq_dec value (snd (ExpiringSet.delete T_eq_dec value s)) = false /\
    (forall id t,
        In (id, t) (timers (ExpiringSet.rt (snd (ExpiringSet.delete T_eq_dec value s)))) <->
        In (id, t) (timers (ExpiringSet.rt s)) /\
        ExpiringSet.task_value (task t) <> value) /\
    (forall k, k <> value ->
        JsMap.get T_eq_dec k (ExpiringSet.map (snd (ExpiringSet.delete T_eq_dec value s))) =
        JsMap.get T_eq_dec k (ExpiringSet.map s)) /\
    user (ExpiringSet.rt (snd (ExpiringSet.delete T_eq_dec value s))) =
      user (ExpiringSet.rt s) /\
    unhandled (ExpiringSet.rt (snd (ExpiringSet.delete T_eq_dec value s))) =
      unhandled (ExpiringSet.rt s)) /\
   (ExpiringSet.clear T_eq_dec s =
      fold_left (fun s k => snd (ExpiringSet.delete T_eq_dec k s))
                (ExpiringSet.values s) s /\
    ExpiringSet.size (ExpiringSet.clear T_eq_dec s) = O /\
    (forall k, ExpiringSet.has T_eq_dec k (ExpiringSet.clear T_eq_dec s) = false) /\
    timers (ExpiringSet.rt (ExpiringSet.clear T_eq_dec s)) = [] /\
    user (ExpiringSet.rt (ExpiringSet.clear T_eq_dec s)) = user (ExpiringSet.rt s) /\
    unhandled (ExpiringSet.rt (ExpiringSet.clear T_eq_dec s)) =
      unhandled (ExpiringSet.rt s) /\
    (forall fuel, (length (ExpiringSet.map s) <= fuel)%nat ->
        ExpiringSet.clear_fuel T_eq_dec fuel s = ExpiringSet.clear T_eq_dec s))).
Proof.
  split; intros W.
  - destruct (ExpiringMapFacts.emap_delete_frame K_eq_dec key w)
      as (_ & _ & Hu & Hh & _).
    destruct (ExpiringMapFacts.emap_clear_frame K_eq_dec w)
      as (_ & _ & Cu & Ch & _).
    destruct (ExpiringMapFacts.emap_clear_empty K_eq_dec w)
      as (Cs & _ & _ & Chas).
    split_and; auto.
    + now rewrite ExpiringMapFacts.emap_delete_eq.
    + now apply ExpiringMapFacts.emap_has_delete.
    + intros id t. now apply ExpiringMapFacts.emap_delete_timers.
    + intros k Hk. rewrite ExpiringMapFacts.emap_delete_eq. simpl.
      now apply JsMapFacts.get_delete_other.
    + apply ExpiringMapFacts.emap_clear_eq.
    + now apply ExpiringMapFacts.emap_clear_timers.
    + intros fuel. apply ExpiringMapFacts.emap_clear_fuel_enough.
  - destruct (ExpiringSetFacts.eset_delete_frame T_eq_dec value s)
      as (_ & _ & Hu & Hh & _).
    destruct (ExpiringSetFacts.eset_clear_frame T_eq_dec s)
      as (_ & _ & Cu & Ch & _).
    destruct (ExpiringSetFacts.eset_clear_empty T_eq_dec s)
      as (Cs & _ & _ & Chas).
    split_and; auto.
    + now rewrite ExpiringSetFacts.eset_delete_eq.
    + now apply ExpiringSetFacts.eset_has_delete.
    + intros id t. now apply ExpiringSetFacts.eset_delete_timers.
    + intros k Hk. rewrite ExpiringSetFacts.eset_delete_eq. simpl.
      now apply JsMapFacts.get_delete_other.
    + apply ExpiringSetFacts.eset_clear_eq.
    + now apply ExpiringSetFacts.eset_clear_timers.
    + intros fuel. apply ExpiringSetFacts.eset_clear_fuel_enough.
Qed.


(** C8.  On a present key, [setExpiry(key, msFromNow)] returns [true]
    and leaves the container exactly as [set] does when it is given the
    key, the stored value, the expiry [msFromNow] and the stored
    callback; the entry then holds the same value and the same callback
    as before and expires at [now + msFromNow].  On an absent key it
    returns [false] and changes nothing. *)
Theorem C8_setExpiry_is_reinsertion
        (key : K) (value : T) (msFromNow : Z) (w : MapWorld) (s : SetWorld) :
  ((forall e,
       JsMap.get K_eq_dec key (ExpiringMap.map w) = Some e ->
       ExpiringMap.setExpiry K_eq_dec key msFromNow w =
         (true, ExpiringMap.set K_eq_dec key (ExpiringMap.value e)
                  (Some msFromNow) (ExpiringMap.expiryCallback e) w) /\
       ExpiringMap.get K_eq_dec key (snd (ExpiringMap.setExpiry K_eq_dec key msFromNow w)) =
         Some (ExpiringMap.value e) /\
       ExpiringMap.getExpiry K_eq_dec key (snd (ExpiringMap.setExpiry K_eq_dec key msFromNow w)) =
         Some (now (ExpiringMap.rt w) + msFromNow) /\
       (ExpiringMap.wf w ->
        exists e',
          JsMap.get K_eq_dec key
            (ExpiringMap.map (snd (ExpiringMap.setExpiry K_eq_dec key msFromNow w))) = Some e' /\
          ExpiringMap.value e' = ExpiringMap.value e /\
          ExpiringMap.expiryCallback e' = ExpiringMap.expiryCallback e)) /\
   (ExpiringMap.has K_eq_dec key w = false ->
    ExpiringMap.setExpiry K_eq_dec key msFromNow w = (false, w)))
  /\
  ((forall e,
       JsMap.get T_eq_dec value (ExpiringSet.map s) = Some e ->
       ExpiringSet.setExpiry T_eq_dec value msFromNow s =
         (true, ExpiringSet.add T_eq_dec value (Some msFromNow)
                  (ExpiringSet.expiryCallback e) s) /\
       ExpiringSet.has T_eq_dec value (snd (ExpiringSet.setExpiry T_eq_dec value msFromNow s)) =
         true /\
       ExpiringSet.getExpiry T_eq_dec value (snd (ExpiringSet.setExpiry T_eq_dec value msFromNow s)) =
         Some (now (ExpiringSet.rt s) + msFromNow) /\
       (ExpiringSet.wf s ->
        exists e',
          JsMap.get T_eq_dec value
            (ExpiringSet.map (snd (ExpiringSet.setExpiry T_eq_dec value msFromNow s))) = Some e' /\
          ExpiringSet.expiryCallback e' = ExpiringSet.expiryCallback e)) /\
   (ExpiringSet.has T_eq_dec value s = false ->
    ExpiringSet.setExpiry T_eq_dec value msFromNow s = (false, s))).
Proof.
  split; (split; [intros e G | ]).
  - rewrite ExpiringMapFacts.emap_setExpiry_present with (e := e) by exact G.
    simpl. split_and; auto.
    + apply ExpiringMapFacts.emap_get_set.
    + now rewrite ExpiringMapFacts.emap_getExpiry_set.
    + intros [_ Wd].
      destruct (ExpiringMapFacts.emap_entry_set K_eq_dec key (ExpiringMap.value e)
                  (Some msFromNow) (ExpiringMap.expiryCallback e) w)
        as (e' & G' & Hv & Hc).
      exists e'. split_and; auto. rewrite Hc.
      destruct (ExpiringMap.expiryCallback e) eqn:C; auto. simpl.
      apply (Wd key e); auto. now apply JsMapFacts.get_In in G.
  - apply ExpiringMapFacts.emap_setExpiry_absent.
  - rewrite ExpiringSetFacts.eset_setExpiry_present with (e := e) by exact G.
    simpl. split_and; auto.
    + apply ExpiringSetFacts.eset_has_add.
    + now rewrite ExpiringSetFacts.eset_getExpiry_add.
    + intros [_ Wd].
      destruct (ExpiringSetFacts.eset_entry_add T_eq_dec value
                  (Some msFromNow) (ExpiringSet.expiryCallback e) s)
        as (e' & G' & Hc).
      exists e'. split_and; auto. rewrite Hc.
      destruct (ExpiringSet.expiryCallback e) eqn:C; auto. simpl.
      apply (Wd value e); auto. now apply JsMapFacts.get_In in G.
  - apply ExpiringSetFacts.eset_setExpiry_absent.
Qed.

(** C9.  On a present key [clearExpiry(key)] returns [true] whether or
    not the entry has an expiry.  The key, its value, its callback and
    its place in the iteration order stay as they were, as do the other
    entries; the entry ends up without expiry and without timer, and no
    timer is left pending for the key.  When the entry had no expiry the
    call changes nothing at all.  On an absent key [clearExpiry] returns
    [false] and changes nothing. *)
Theorem C9_clearExpiry (key : K) (value : T) (w : MapWorld) (s : SetWorld) :
  (ExpiringMap.wf w ->
   (forall e,
       JsMap.get K_eq_dec key (ExpiringMap.map w) = Some e ->
       let w' := snd (ExpiringMap.clearExpiry K_eq_dec key w) in
       fst (ExpiringMap.clearExpiry K_eq_dec key w) = true /\
       ExpiringMap.keys w' = ExpiringMap.keys w /\
       ExpiringMap.entries w' = ExpiringMap.entries w /\
       JsMap.get K_eq_dec key (ExpiringMap.map w') =
         Some {| ExpiringMap.expiry := None; ExpiringMap.timer := None;
                 ExpiringMap.expiryCallback := ExpiringMap.expiryCallback e;
                 ExpiringMap.value := ExpiringMap.value e |} /\
       (forall k, k <> key ->
           JsMap.get K_eq_dec k (ExpiringMap.map w') =
           JsMap.get K_eq_dec k (ExpiringMap.map w)) /\
       ExpiringMap.getExpiry K_eq_dec key w' = None /\
       (forall id t, In (id, t) (timers (ExpiringMap.rt w')) ->
                     ExpiringMap.task_key (task t) <> key) /\
       user (ExpiringMap.rt w') = user (ExpiringMap.rt w) /\
       (ExpiringMap.getExpiry K_eq_dec key w = None -> w' = w)) /\
   (ExpiringMap.has K_eq_dec key w = false ->
    ExpiringMap.clearExpiry K_eq_dec key w = (false, w)))
  /\
  (ExpiringSet.wf s ->
   (forall e,
       JsMap.get T_eq_dec value (ExpiringSet.map s) = Some e ->
       let s' := snd (ExpiringSet.clearExpiry T_eq_dec value s) in
       fst (ExpiringSet.clearExpiry T_eq_dec value s) = true /\
       ExpiringSet.values s' = ExpiringSet.values s /\
       ExpiringSet.entries s' = ExpiringSet.entries s /\
       JsMap.get T_eq_dec value (ExpiringSet.map s') =
         Some {| ExpiringSet.expiry := None; ExpiringSet.timer := None;
                 ExpiringSet.expiryCallback := ExpiringSet.expiryCallback e |} /\
       (forall k, k <> value ->
           JsMap.get T_eq_dec k (ExpiringSet.map s') =
           JsMap.get T_eq_dec k (ExpiringSet.map s)) /\
       ExpiringSet.getExpiry T_eq_dec value s' = None /\
       (forall id t, In (id, t) (timers (ExpiringSet.rt s')) ->
                     ExpiringSet.task_value (task t) <> value) /\
       user (ExpiringSet.rt s') = user (ExpiringSet.rt s) /\
       (ExpiringSet.getExpiry T_eq_dec value s = None -> s' = s)) /\
   (ExpiringSet.has T_eq_dec value s = false ->
    ExpiringSet.clearExpiry T_eq_dec value s = (false, s)))
  .
Proof.
  split; intros W; (split; [intros e G; cbv zeta | ]).
  - pose proof (ExpiringMapFacts.emap_clearExpiry_no_timer K_eq_dec (key := key) W
                  (JsMapFacts.get_has _ _ _ G)) as Hno.
    assert (Hnop : ExpiringMap.getExpiry K_eq_dec key w = None ->
                   snd (ExpiringMap.clearExpiry K_eq_dec key w) = w).
    { unfold ExpiringMap.getExpiry. rewrite G. intros Ee.
      now rewrite (ExpiringMapFacts.emap_clearExpiry_untimed K_eq_dec key W G Ee). }
    rewrite ExpiringMapFacts.emap_clearExpiry_present with (e := e) in * by exact G.
    simpl. split_and; auto.
    + unfold ExpiringMap.keys. simpl. apply JsMapFacts.keys_set_present.
      eapply JsMapFacts.get_has; eauto.
    + now apply ExpiringMapFacts.emap_entries_overwrite with (K_eq_dec := K_eq_dec) (e := e).
    + apply JsMapFacts.get_set.
    + intros k Hk. now apply JsMapFacts.get_set_other.
    + unfold ExpiringMap.getExpiry. simpl. now rewrite JsMapFacts.get_set.
    + apply user_clearTimeout.
  - apply ExpiringMapFacts.emap_clearExpiry_absent.
  - pose proof (ExpiringSetFacts.eset_clearExpiry_no_timer T_eq_dec (key := value) W
                  (JsMapFacts.get_has _ _ _ G)) as Hno.
    assert (Hnop : ExpiringSet.getExpiry T_eq_dec value s = None ->
                   snd (ExpiringSet.clearExpiry T_eq_dec value s) = s).
    { unfold ExpiringSet.getExpiry. rewrite G. intros Ee.
      now rewrite (ExpiringSetFacts.eset_clearExpiry_untimed T_eq_dec value W G Ee). }
    rewrite ExpiringSetFacts.eset_clearExpiry_present with (e := e) in * by exact G.
    simpl. split_and; auto.
    + unfold ExpiringSet.values. simpl. apply JsMapFacts.keys_set_present.
      eapply JsMapFacts.get_has; eauto.
    + unfold ExpiringSet.entries. simpl. f_equal.
      apply JsMapFacts.keys_set_present. eapply JsMapFacts.get_has; eauto.
    + apply JsMapFacts.get_set.
    + intros k Hk. now apply JsMapFacts.get_set_other.
    + unfold ExpiringSet.getExpiry. simpl. now rewrite JsMapFacts.get_set.
    + apply user_clearTimeout.
  - apply ExpiringSetFacts.eset_clearExpiry_absent.
Qed.

(** C10.  [setMinimumExpiry] touches the iteration order on one branch
    only.  When it extends the expiry it goes through [setExpiry], hence
    through [set], and the key moves to the end of the order; when the
    expiry is already late enough the order stays as it was. *)
Theorem C10_setMinimumExpiry_order
        (key : K) (value : T) (m old : Z) (w : MapWorld) (s : SetWorld) :
  (ExpiringMap.wf w ->
   ExpiringMap.getExpiry K_eq_dec key w = Some old ->
   (old < now (ExpiringMap.rt w) + m ->
    ExpiringMap.keys (snd (ExpiringMap.setMinimumExpiry K_eq_dec key m w)) =
    JsMap.remove_key K_eq_dec key (ExpiringMap.keys w) ++ [key]) /\
   (now (ExpiringMap.rt w) + m <= old ->
    ExpiringMap.keys (snd (ExpiringMap.setMinimumExpiry K_eq_dec key m w)) =
    ExpiringMap.keys w))
  /\
  (ExpiringSet.wf s ->
   ExpiringSet.getExpiry T_eq_dec value s = Some old ->
   (old < now (ExpiringSet.rt s) + m ->
    ExpiringSet.values (snd (ExpiringSet.setMinimumExpiry T_eq_dec value m s)) =
    JsMap.remove_key T_eq_dec value (ExpiringSet.values s) ++ [value]) /\
   (now (ExpiringSet.rt s) + m <= old ->
    ExpiringSet.values (snd (ExpiringSet.setMinimumExpiry T_eq_dec value m s)) =
    ExpiringSet.values s)).
Proof.
  split; intros W Hold.
  - rewrite ExpiringMapFacts.emap_setMinimumExpiry_eq, Hold. split; intros Hm.
    + apply Z.ltb_lt in Hm. rewrite Hm.
      apply ExpiringMapFacts.emap_getExpiry_Some in Hold as [e [G _]].
      rewrite ExpiringMapFacts.emap_setExpiry_present with (e := e) by exact G.
      simpl. now apply ExpiringMapFacts.emap_keys_set.
    + apply Z.ltb_ge in Hm. now rewrite Hm.
  - rewrite ExpiringSetFacts.eset_setMinimumExpiry_eq, Hold. split; intros Hm.
    + apply Z.ltb_lt in Hm. rewrite Hm.
      apply ExpiringSetFacts.eset_getExpiry_Some in Hold as [e [G _]].
      rewrite ExpiringSetFacts.eset_setExpiry_present with (e := e) by exact G.
      simpl. now apply ExpiringSetFacts.eset_keys_add.
    + apply Z.ltb_ge in Hm. now rewrite Hm.
Qed.

End Claims.

(** * The claims on the containers of the test suites *)

Lemma three_map_wf : ExpiringMap.wf Examples.three_map.
Proof.
  unfold Examples.three_map, Examples.new_map.
  repeat apply ExpiringMapFacts.emap_wf_set.
  apply ExpiringMapFacts.emap_wf_constructor.
Qed.

Lemma three_set_wf : ExpiringSet.wf Examples.three_set.
Proof.
  unfold Examples.three_set, Examples.new_set.
  repeat apply ExpiringSetFacts.eset_wf_add.
  apply ExpiringSetFacts.eset_wf_constructor.
Qed.

Lemma new_map_wf : ExpiringMap.wf Examples.new_map.
Proof. apply ExpiringMapFacts.emap_wf_constructor. Qed.

Lemma new_set_wf : ExpiringSet.wf Examples.new_set.
Proof. apply ExpiringSetFacts.eset_wf_constructor. Qed.

Lemma rethrowing_map_reachable :
  ExpiringMap.reachable Z.eq_dec (ExpiringMap.tick 50 Examples.rethrowing_map).
Proof.
  eapply ExpiringMap.reachable_step; [|apply ExpiringMap.step_tick].
  unfold Examples.rethrowing_map.
  eapply ExpiringMap.reachable_step;
    [apply ExpiringMap.reachable_new
    |apply (ExpiringMap.step_call Z.eq_dec
              (ExpiringMap.CallSet 32 5 (Some 50) (Some Examples.throw_seven)))].
Qed.

(** The test "setMinExpiry": key 32 expires at 1500; a minimum of 700 ms
    from 1000 extends the expiry to 1700. *)
Lemma C1_witness :
  ExpiringMap.getExpiry Z.eq_dec 32 Examples.timed_map = Some 1500 /\
  1500 < now (ExpiringMap.rt Examples.timed_map) + 700 /\
  ExpiringMap.getExpiry Z.eq_dec 32
    (snd (ExpiringMap.setMinimumExpiry Z.eq_dec 32 700 Examples.timed_map)) =
  Some 1700.
Proof.
  split; [reflexivity|]. split; [reflexivity|].
  destruct (C1_setMinimumExpiry_three_way Z.eq_dec Z.eq_dec 32 32 700
              Examples.timed_map Examples.timed_set) as [(_ & _ & H) _].
  destruct (H 1500 eq_refl eq_refl) as (_ & _ & H'). exact H'.
Defined.

(** The timer of key 4 of [three_map] fires once 7000 ms have passed: the
    key is gone, its callback has recorded it, nothing is unhandled. *)
Lemma C2_witness :
  exists w',
    ExpiringMap.fire Z.eq_dec 1%nat (ExpiringMap.tick 7000 Examples.three_map) = Some w' /\
    ExpiringMap.has Z.eq_dec 4 w' = false /\
    user (ExpiringMap.rt w') = [4] /\
    unhandled (ExpiringMap.rt w') = [].
Proof.
  destruct (C2_timer_fire Z.eq_dec 4
              (e := {| ExpiringMap.expiry := Some 8000;
                       ExpiringMap.timer := Some 1%nat;
                       ExpiringMap.expiryCallback := Some Examples.record_key;
                       ExpiringMap.value := 32 |})
              (ExpiringMapFacts.emap_wf_tick 7000 three_map_wf)
              eq_refl eq_refl)
    as (w' & F & Hhas & _ & _ & H).
  simpl in H. destruct H as (_ & _ & Hu & Hh).
  exists w'. repeat split; assumption.
Defined.

(** A map whose error callback throws: when the callback of key 32 throws
    as its timer fires, the error callback is handed the error, throws in
    turn, and the rejection is left unhandled.  So it is not the case that
    the firing of a timer never leaves an unhandled rejection. *)
Lemma C2_counterexample :
  ~ (forall (w w' : Examples.MapWorld) (id : TimerId),
        ExpiringMap.reachable Z.eq_dec w ->
        ExpiringMap.is_due id w = true ->
        ExpiringMap.fire Z.eq_dec id w = Some w' ->
        unhandled (ExpiringMap.rt w') = unhandled (ExpiringMap.rt w)).
Proof.
  intros H.
  specialize (H (ExpiringMap.tick 50 Examples.rethrowing_map) _ 0%nat
                rethrowing_map_reachable eq_refl eq_refl).
  discriminate H.
Qed.



(** [clearExpiry] of key 2 of [three_map], which [has] finds, does not
    throw.  A [forEach] whose callback records the keys and returns calls
    it on the keys 1, 2 and 4 and is fulfilled; one whose callback throws
    at key 2 stops there, is rejected, and with nothing but what that call
    threw.  When the call at key 1 had returned a promise that rejects
    with 3, that rejection is left unhandled. *)
Lemma C4_witness :
  snd (ExpiringMap.run_raw Z.eq_dec (ExpiringMap.CallClearExpiry 2) Examples.three_map) =
    Returned ExpiringMap.Normal /\
  (snd (ExpiringMap.forEach Examples.forEach_record Examples.three_map) = AllFulfilled /\
   user (ExpiringMap.rt (fst (ExpiringMap.forEach Examples.forEach_record
                                Examples.three_map))) = [1; 2; 4]) /\
  (user (ExpiringMap.rt (fst (ExpiringMap.forEach Examples.forEach_throw_at_2
                               Examples.three_map))) = [1; 2] /\
   exists reasons,
     snd (ExpiringMap.forEach Examples.forEach_throw_at_2 Examples.three_map) =
       AllRejected reasons /\
     forall e, In e reasons -> e = 7%nat) /\
  unhandled (ExpiringMap.rt (fst (ExpiringMap.forEach Examples.forEach_reject_then_throw
                                    Examples.three_map))) = [3%nat].
Proof.
  destruct (C4_total_unless_callback Z.eq_dec Z.eq_dec
              (ExpiringMap.CallClearExpiry 2) ExpiringSet.CallClear
              Examples.three_map Examples.three_set) as [[Hsync Hfor] _].
  split; [now rewrite (Hsync eq_refl)|].
  split; [|split].
  - destruct (Hfor Examples.forEach_record)
      as (_ & _ & _ & _ & _ & _ & Huser & _ & _ & _ & Hful).
    split; [|exact Huser].
    apply Hful. intros x [<-|[<-|[<-|[]]]]; left; reflexivity.
  - destruct (Hfor Examples.forEach_throw_at_2)
      as (_ & _ & _ & _ & _ & _ & Huser & _ & Hrej & Hconv & _).
    split; [exact Huser|].
    destruct Hconv as [reasons R].
    { eexists _, 7%nat. split; [right; left; reflexivity | left; reflexivity]. }
    exists reasons. split; [exact R|].
    intros e He. destruct (Hrej reasons R) as [_ Hfrom].
    destruct (Hfrom e He) as (x & [<-|[<-|[]]] & [Ho|Ho]);
      simpl in Ho; congruence.
  - destruct (Hfor Examples.forEach_reject_then_throw)
      as (_ & _ & _ & _ & _ & _ & _ & Hun & _).
    rewrite Hun. reflexivity.
Defined.

(** [forEach] is neither [expire] nor [expireAll], and its promise is
    rejected when its callback throws. *)
Lemma C4_counterexample :
  ~ (forall (c : ExpiringMap.Call Z Z Examples.Log Examples.Error)
            (w : Examples.MapWorld),
        (forall key, c <> ExpiringMap.CallExpire key) ->
        c <> ExpiringMap.CallExpireAll ->
        snd (ExpiringMap.run Z.eq_dec c w) = ExpiringMap.Normal).
Proof.
  intros H.
  specialize (H (ExpiringMap.CallForEach Examples.forEach_throw) Examples.three_map).
  simpl in H.
  assert (Hf : ExpiringMap.Failure [7%nat] = ExpiringMap.Normal).
  { apply H; [intros key|]; discriminate. }
  discriminate Hf.
Qed.

(** The test "entries and iterator functionality": keys inserted in the
    order 10, 20, 30 are yielded in that order. *)
Lemma C5_witness :
  ExpiringMap.keys (ExpiringMap.set_each Z.eq_dec Examples.contents Examples.new_map) =
    [10; 20; 30] /\
  ExpiringSet.values (ExpiringSet.add_each Z.eq_dec Examples.set_contents Examples.new_set) =
    [10; 20; 30].
Proof.
  destruct (C5_iteration_order Z.eq_dec Z.eq_dec Examples.new_map Examples.new_set)
    as [Hm Hs].
  destruct (Hm new_map_wf) as (_ & Hm' & _).
  destruct (Hs new_set_wf) as (_ & Hs' & _).
  split.
  - rewrite Hm'. reflexivity.
  - rewrite Hs'. reflexivity.
Defined.

(** The test "clear removes items and stops callbacks". *)
Lemma C6_witness :
  ExpiringMap.size (ExpiringMap.clear Z.eq_dec Examples.three_map) = O /\
  timers (ExpiringMap.rt (ExpiringMap.clear Z.eq_dec Examples.three_map)) = [] /\
  user (ExpiringMap.rt (ExpiringMap.clear Z.eq_dec Examples.three_map)) = [].
Proof.
  destruct (C6_delete_clear Z.eq_dec Z.eq_dec 2 2 Examples.three_map Examples.three_set)
    as [H _].
  destruct (H three_map_wf) as (_ & _ & Hsize & _ & Htimers & Huser & _).
  repeat split; assumption.
Defined.




(** The test "setExpiry updates expiry without changing the value". *)
Lemma C8_witness :
  ExpiringMap.get Z.eq_dec 1
    (snd (ExpiringMap.setExpiry Z.eq_dec 1 20 Examples.three_map)) = Some 1 /\
  ExpiringMap.getExpiry Z.eq_dec 1
    (snd (ExpiringMap.setExpiry Z.eq_dec 1 20 Examples.three_map)) = Some 1020.
Proof.
  destruct (C8_setExpiry_is_reinsertion Z.eq_dec Z.eq_dec 1 1 20
              Examples.three_map Examples.three_set) as [[H _] _].
  destruct (H {| ExpiringMap.expiry := None; ExpiringMap.timer := None;
                 ExpiringMap.expiryCallback := None; ExpiringMap.value := 1 |}
              eq_refl) as (_ & Hget & Hexp & _).
  split; assumption.
Defined.

(** Key 1 of [three_map] has no expiry: [clearExpiry] returns [true] and
    changes nothing. *)
Lemma C9_witness :
  ExpiringMap.clearExpiry Z.eq_dec 1 Examples.three_map = (true, Examples.three_map).
Proof.
  destruct (C9_clearExpiry Z.eq_dec Z.eq_dec 1 1 Examples.three_map Examples.three_set)
    as [H _].
  destruct (H three_map_wf) as [Hpresent _].
  destruct (Hpresent {| ExpiringMap.expiry := None; ExpiringMap.timer := None;
                        ExpiringMap.expiryCallback := None; ExpiringMap.value := 1 |}
                     eq_refl) as (Htrue & _ & _ & _ & _ & _ & _ & _ & Hnop).
  rewrite (surjective_pairing (ExpiringMap.clearExpiry Z.eq_dec 1 Examples.three_map)).
  rewrite Htrue, (Hnop eq_refl). reflexivity.
Defined.

(** Key 2 of [three_map] expires at 1900 and stands second of three.  A
    minimum of 5000 ms moves it to the end; a minimum of 100 ms leaves it
    where it is. *)
Lemma C10_witness :
  ExpiringMap.keys Examples.three_map = [1; 2; 4] /\
  ExpiringMap.keys (snd (ExpiringMap.setMinimumExpiry Z.eq_dec 2 5000 Examples.three_map)) =
    [1; 4; 2] /\
  ExpiringMap.keys (snd (ExpiringMap.setMinimumExpiry Z.eq_dec 2 100 Examples.three_map)) =
    [1; 2; 4].
Proof.
  split; [reflexivity|].
  destruct (C10_setMinimumExpiry_order Z.eq_dec Z.eq_dec 2 2 5000 1900
              Examples.three_map Examples.three_set) as [Hfar _].
  destruct (C10_setMinimumExpiry_order Z.eq_dec Z.eq_dec 2 2 100 1900
              Examples.three_map Examples.three_set) as [Hnear _].
  destruct (Hfar three_map_wf eq_refl) as [Hmove _].
  destruct (Hnear three_map_wf eq_refl) as [_ Hstay].
  split.
  - rewrite Hmove; reflexivity.
  - rewrite Hstay; [reflexivity | simpl; lia].
Defined.


(** * Scenarios of the test suites, run on the model *)

(** "set items with expiry and callbacks works": the entry is there at
    once; its timer is not due before 50 ms have passed; once it fires the
    entry is gone and the callback has run. *)
Example expiry_after_70ms :
  ExpiringMap.size Examples.one_map = 1%nat /\
  ExpiringMap.has Z.eq_dec 32 Examples.one_map = true /\
  ExpiringMap.get Z.eq_dec 32 Examples.one_map = Some 5 /\
  user (ExpiringMap.rt Examples.one_map) = [] /\
  ExpiringMap.is_due 0%nat (ExpiringMap.tick 49 Examples.one_map) = false /\
  ExpiringMap.is_due 0%nat (ExpiringMap.tick 70 Examples.one_map) = true /\
  option_map (fun w => (ExpiringMap.size w, ExpiringMap.has Z.eq_dec 32 w,
                        ExpiringMap.get Z.eq_dec 32 w, user (ExpiringMap.rt w)))
             (ExpiringMap.fire Z.eq_dec 0%nat (ExpiringMap.tick 70 Examples.one_map)) =
    Some (0%nat, false, None, [32]).
Proof. repeat split. Qed.

(** "delete removes items and stops callbacks": after [delete] the timer
    of the entry is no longer pending, so it cannot fire. *)
Example delete_stops_callback :
  ExpiringMap.delete Z.eq_dec 32 (ExpiringMap.tick 5 Examples.one_map) =
    (true, snd (ExpiringMap.delete Z.eq_dec 32 (ExpiringMap.tick 5 Examples.one_map))) /\
  ExpiringMap.size (snd (ExpiringMap.delete Z.eq_dec 32 (ExpiringMap.tick 5 Examples.one_map))) = O /\
  ExpiringMap.fire Z.eq_dec 0%nat
    (ExpiringMap.tick 70 (snd (ExpiringMap.delete Z.eq_dec 32
                                 (ExpiringMap.tick 5 Examples.one_map)))) = None.
Proof. repeat split. Qed.

(** "toSync invokes a given errorCallback": the rejection of an [async]
    expiry callback reaches the error callback and is not left unhandled. *)
Example rejection_reaches_errorCallback :
  option_map (fun w => (ExpiringMap.size w, user (ExpiringMap.rt w),
                        unhandled (ExpiringMap.rt w)))
             (ExpiringMap.fire Z.eq_dec 0%nat (ExpiringMap.tick 50 Examples.noting_map)) =
    Some (0%nat, [-1], []).
Proof. reflexivity. Qed.

(** "expire": the keys 2, 1 and 4 expire one after the other; the callback
    of key 4 runs; a key that is not there yields [false]. *)
Example expire_one_by_one :
  let w2 := fst (ExpiringMap.expire Z.eq_dec 2 Examples.three_map) in
  let w1 := fst (ExpiringMap.expire Z.eq_dec 1 w2) in
  let w4 := fst (ExpiringMap.expire Z.eq_dec 4 w1) in
  snd (ExpiringMap.expire Z.eq_dec 2 Examples.three_map) = Fulfilled true /\
  ExpiringMap.size w2 = 2%nat /\
  snd (ExpiringMap.expire Z.eq_dec 1 w2) = Fulfilled true /\
  ExpiringMap.size w1 = 1%nat /\
  snd (ExpiringMap.expire Z.eq_dec 4 w1) = Fulfilled true /\
  ExpiringMap.size w4 = O /\
  user (ExpiringMap.rt w4) = [4] /\
  snd (ExpiringMap.expire Z.eq_dec 678 w4) = Fulfilled false.
Proof. repeat split. Qed.

(** The set counterpart of the rejected [forEach]. *)
Example set_forEach_rejects :
  snd (ExpiringSet.forEach Examples.set_forEach_throw Examples.three_set) =
  AllRejected [7%nat].
Proof. reflexivity. Qed.

(** * More facts about the built-in [Map] and the timers *)
Module JsMapMore.
Section JsMapMore.
Variables K E : Type.
Variable K_eq_dec : forall x y : K, {x = y} + {x <> y}.

Lemma size_delete (key : K) (d : JsMap.MapData K E) :
  JsMap.size (snd (JsMap.delete K_eq_dec key d)) =
  (JsMap.size d - (if JsMap.has K_eq_dec key d then 1 else 0))%nat.
Proof.
  unfold JsMap.size.
  induction d as [|[[k e]|] d IH]; simpl.
  - reflexivity.
  - destruct (K_eq_dec k key) as [->|Hne]; simpl.
    + lia.
    + destruct (JsMap.delete K_eq_dec key d) as [b d'] eqn:Hd. simpl in *.
      rewrite IH. destruct (JsMap.has K_eq_dec key d) eqn:Hh; [|lia].
      apply JsMapFacts.has_true_get in Hh. destruct Hh as [e0 He0].
      apply JsMapFacts.get_In in He0.
      destruct (JsMap.entries d); [destruct He0 | simpl; lia].
  - destruct (JsMap.delete K_eq_dec key d) as [b d'] eqn:Hd. simpl in *. exact IH.
Qed.

Lemma size_set_absent (key : K) (e : E) (d : JsMap.MapData K E) :
  JsMap.has K_eq_dec key d = false ->
  JsMap.size (JsMap.set K_eq_dec key e d) = S (JsMap.size d).
Proof.
  intros H. unfold JsMap.size.
  rewrite (JsMapFacts.entries_set_absent K_eq_dec key e d H), length_app. simpl. lia.
Qed.

Lemma size_has (key : K) (d : JsMap.MapData K E) :
  JsMap.has K_eq_dec key d = true -> (1 <= JsMap.size d)%nat.
Proof.
  intros H. apply JsMapFacts.has_true_get in H. destruct H as [e He].
  apply JsMapFacts.get_In in He. unfold JsMap.size.
  destruct (JsMap.entries d); [destruct He | simpl; lia].
Qed.

Lemma entries_delete_set_absent (key : K) (e : E) (d : JsMap.MapData K E) :
  JsMap.has K_eq_dec key d = false ->
  JsMap.entries (snd (JsMap.delete K_eq_dec key (JsMap.set K_eq_dec key e d))) =
  JsMap.entries d.
Proof.
  induction d as [|[[k e0]|] d IH]; simpl; intros H.
  - destruct (K_eq_dec key key); [reflexivity | congruence].
  - destruct (K_eq_dec k key) as [->|Hne]; [discriminate|]. simpl.
    destruct (K_eq_dec k key); [congruence|].
    destruct (JsMap.delete K_eq_dec key (JsMap.set K_eq_dec key e d)) as [b d'] eqn:Hd.
    simpl in *. f_equal. apply IH, H.
  - destruct (JsMap.delete K_eq_dec key (JsMap.set K_eq_dec key e d)) as [b d'] eqn:Hd.
    simpl in *. apply IH, H.
Qed.
Lemma remove_key_last (key : K) (l : list K) :
  ~ In key l -> JsMap.remove_key K_eq_dec key (l ++ [key]) = l.
Proof.
  intros Hni. induction l as [|x l IH]; simpl.
  - destruct (K_eq_dec key key); [reflexivity|congruence].
  - destruct (K_eq_dec x key) as [->|Hne]; [destruct Hni; now left|].
    f_equal. apply IH. intros Hin. apply Hni. now right.
Qed.

End JsMapMore.
End JsMapMore.

Section RuntimeMore.
Variables Task U Err : Type.

Lemma pending_None (id : TimerId) (r : Runtime Task U Err) :
  (forall t, ~ In (id, t) (timers r)) -> pending id r = None.
Proof.
  intros H. unfold pending.
  destruct (find (is_timer id) (timers r)) as [[id' t]|] eqn:F; [|reflexivity].
  apply find_some in F. destruct F as [Hin Hid].
  unfold is_timer in Hid. simpl in Hid. apply Nat.eqb_eq in Hid. subst id'.
  destruct (H t Hin).
Qed.

End RuntimeMore.

(** * ExpiringMap: lookups, sizes and timers after each method *)
Module ExpiringMapMore.
Import ExpiringMap ExpiringMapFacts.
Section ExpiringMapMore.
Variables K V U Err : Type.
Variable K_eq_dec : forall x y : K, {x = y} + {x <> y}.

Abbreviation World := (ExpiringMap.World K V U Err).
Abbreviation Entry := (ExpiringMap.Entry K V U Err).
Abbreviation delete := (ExpiringMap.delete K_eq_dec).
Abbreviation set := (ExpiringMap.set K_eq_dec).
Abbreviation get := (ExpiringMap.get K_eq_dec).
Abbreviation has := (ExpiringMap.has K_eq_dec).
Abbreviation getExpiry := (ExpiringMap.getExpiry K_eq_dec).
Abbreviation clearExpiry := (ExpiringMap.clearExpiry K_eq_dec).
Abbreviation setExpiry := (ExpiringMap.setExpiry K_eq_dec).
Abbreviation setMinimumExpiry := (ExpiringMap.setMinimumExpiry K_eq_dec).
Abbreviation expire := (ExpiringMap.expire K_eq_dec).
Abbreviation fire := (ExpiringMap.fire K_eq_dec).
Abbreviation wf := (@ExpiringMap.wf K V U Err).

(** *** Sizes *)

Lemma emap_size_delete (key : K) (w : World) :
  size (snd (delete key w)) = (size w - (if has key w then 1 else 0))%nat.
Proof.
  rewrite emap_delete_eq. unfold size, ExpiringMap.has. simpl.
  apply JsMapMore.size_delete.
Qed.

Lemma emap_size_set (key : K) (value : V) (expiryMs : option Z)
      (expiryCallback : option (MapExpiryCallback K V U Err)) (w : World) :
  wf w ->
  size (set key value expiryMs expiryCallback w) =
  if has key w then size w else S (size w).
Proof.
  intros W.
  pose proof (emap_has_delete K_eq_dec key W) as Hhas. unfold ExpiringMap.has in Hhas.
  pose proof (emap_size_delete key w) as Hs. unfold size in Hs.
  assert (Hgoal : forall e,
             JsMap.size (JsMap.set K_eq_dec key e (map (snd (delete key w)))) =
             if has key w then size w else S (size w)).
  { intros e. rewrite (JsMapMore.size_set_absent K_eq_dec key e _ Hhas), Hs.
    destruct (has key w) eqn:Hk; [|unfold size; lia].
    pose proof (JsMapMore.size_has K_eq_dec key (map w) Hk). unfold size. lia. }
  rewrite emap_set_eq. cbv zeta.
  destruct (nullish expiryMs _); unfold size; simpl; apply Hgoal.
Qed.

(** *** The timers after [set] *)

Lemma emap_timers_set (key : K) (value : V) (expiryMs : option Z)
      (expiryCallback : option (MapExpiryCallback K V U Err)) (w : World) :
  timers (rt (set key value expiryMs expiryCallback w)) =
  timers (rt (snd (delete key w))) ++
  match nullish expiryMs (option_of (@defaultExpiryMs K V U Err) w) with
  | Some ms =>
      [(next_timer (rt w),
        {| due := now (rt w) + timer_delay ms;
           task := {| task_key := key; task_value := value;
                      task_callback :=
                        nullish expiryCallback
                                (option_of (@defaultExpiryCallback K V U Err) w);
                      task_errorCallback :=
                        option_of (@expireErrorCallback K V U Err) w |} |})]
  | None => []
  end.
Proof.
  destruct (emap_delete_frame K_eq_dec key w) as (Ho & Hn & _ & _ & Hnt).
  rewrite emap_set_eq. cbv zeta.
  destruct (nullish expiryMs _); simpl.
  - now rewrite Hnt, Hn.
  - now rewrite app_nil_r.
Qed.

(** The timer of a live entry closes over the key of the entry. *)
Lemma emap_timer_key (key : K) (e : Entry) (id : TimerId)
      (t : Timeout (TimerTask K V U Err)) (w : World) :
  wf w -> JsMap.get K_eq_dec key (map w) = Some e -> timer e = Some id ->
  In (id, t) (timers (rt w)) -> task_key (task t) = key.
Proof.
  intros W G Ht Hin.
  destruct (emap_wf_entry_timer K_eq_dec key W G Ht) as (d & _ & at_ & P).
  apply pending_In in P.
  assert (Heq : t = {| due := at_; task := closure_of (options w) key e |}).
  { destruct W as [[_ Hi _ _ _] _]. eapply timer_unique; eauto. }
  now subst t.
Qed.

(** Two pending timers never belong to the same key. *)
Lemma emap_one_timer_per_key (id id' : TimerId)
      (t t' : Timeout (TimerTask K V U Err)) (w : World) :
  wf w -> In (id, t) (timers (rt w)) -> In (id', t') (timers (rt w)) ->
  task_key (task t) = task_key (task t') -> id = id' /\ t = t'.
Proof.
  intros W Hin Hin' Hk.
  destruct (emap_wf_timer_entry K_eq_dec id t W Hin) as (e & G & Ht & _).
  destruct (emap_wf_timer_entry K_eq_dec id' t' W Hin') as (e' & G' & Ht' & _).
  rewrite <- Hk, G in G'. injection G' as <-.
  rewrite Ht in Ht'. injection Ht' as <-.
  split; [reflexivity|].
  destruct W as [[_ Hi _ _ _] _]. eapply timer_unique; eauto.
Qed.

Lemma emap_set_timer_of_key (key : K) (value : V) (expiryMs : option Z)
      (expiryCallback : option (MapExpiryCallback K V U Err)) (w : World) :
  wf w ->
  forall id t,
    In (id, t) (timers (rt (set key value expiryMs expiryCallback w))) ->
    task_key (task t) = key ->
    id = next_timer (rt w) /\
    exists ms,
      nullish expiryMs (option_of (@defaultExpiryMs K V U Err) w) = Some ms /\
      due t = now (rt w) + timer_delay ms /\ task_value (task t) = value.
Proof.
  intros W id t Hin Hk. rewrite emap_timers_set in Hin.
  apply in_app_or in Hin. destruct Hin as [Hin|Hin].
  - pose proof (emap_delete_no_timer K_eq_dec W _ _ Hin). contradiction.
  - destruct (nullish expiryMs _) as [ms|]; [|destruct Hin].
    destruct Hin as [Heq|[]]. injection Heq as <- <-.
    split; [reflexivity|]. exists ms. simpl. auto.
Qed.

Lemma emap_set_timers_other (key : K) (value : V) (expiryMs : option Z)
      (expiryCallback : option (MapExpiryCallback K V U Err)) (w : World) :
  wf w ->
  forall id t,
    task_key (task t) <> key ->
    (In (id, t) (timers (rt (set key value expiryMs expiryCallback w))) <->
     In (id, t) (timers (rt w))).
Proof.
  intros W id t Hk. rewrite emap_timers_set. split.
  - intros Hin. apply in_app_or in Hin. destruct Hin as [Hin|Hin].
    + now apply (emap_delete_timers K_eq_dec key W) in Hin.
    + destruct (nullish expiryMs _) as [ms|]; [|destruct Hin].
      destruct Hin as [Heq|[]]. injection Heq as <- <-. simpl in Hk. congruence.
  - intros Hin. apply in_or_app. left.
    apply (emap_delete_timers K_eq_dec key W). auto.
Qed.

(** *** A timer that is no longer pending cannot fire *)

Lemma emap_fire_not_pending (id : TimerId) (w : World) :
  (forall t, ~ In (id, t) (timers (rt w))) -> fire id w = None.
Proof.
  intros H. unfold ExpiringMap.fire. now rewrite (pending_None id (rt w) H).
Qed.

Lemma emap_timers_expire (key : K) (w : World) :
  timers (rt (fst (expire key w))) = timers (rt (snd (delete key w))).
Proof.
  destruct (JsMap.get K_eq_dec key (map w)) as [e|] eqn:G.
  - rewrite (emap_expire_present K_eq_dec key w G). cbv zeta.
    destruct (expiryCallback e) as [cb|]; [|reflexivity].
    destruct (cb key (value e) _ _) as [u o]. reflexivity.
  - assert (H : has key w = false).
    { unfold ExpiringMap.has. rewrite JsMapFacts.has_get, G. reflexivity. }
    now rewrite (emap_expire_absent K_eq_dec key w H), (emap_delete_absent K_eq_dec key w H).
Qed.

Lemma emap_fire_shape (key : K) (e : Entry) (id : TimerId) (w : World) :
  wf w -> JsMap.get K_eq_dec key (map w) = Some e -> timer e = Some id ->
  exists w',
    fire id w = Some w' /\
    map w' = map (snd (delete key w)) /\
    timers (rt w') = timers (rt (snd (delete key w))) /\
    next_timer (rt w') = next_timer (rt w) /\
    now (rt w') = now (rt w) /\
    options w' = options w.
Proof.
  intros W G Ht.
  destruct (emap_delete_frame K_eq_dec key w) as (Ho & Hn & _ & _ & Hnt).
  rewrite (emap_fire_entry K_eq_dec key W G Ht). cbv zeta.
  eexists. split; [reflexivity|].
  destruct (expiryCallback e) as [cb|]; [|auto 6].
  destruct (cb key (value e) _ _) as [u o].
  destruct (await o) as [[]|error]; [simpl; auto 6|].
  destruct (option_of _ w) as [errorCallback|]; [|simpl; auto 6].
  destruct (errorCallback error u) as [u' [e'|]]; simpl; auto 6.
Qed.

Lemma emap_old_timer_gone (key : K) (e : Entry) (id : TimerId) (w : World) :
  wf w -> JsMap.get K_eq_dec key (map w) = Some e -> timer e = Some id ->
  forall t, ~ In (id, t) (timers (rt (snd (delete key w)))).
Proof.
  intros W G Ht t Hin.
  apply (emap_delete_timers K_eq_dec key W) in Hin. destruct Hin as [Hin Hne].
  apply Hne. eapply emap_timer_key; eauto.
Qed.

Lemma emap_fresh_timer (id : TimerId) (t : Timeout (TimerTask K V U Err)) (w : World) :
  wf w -> In (id, t) (timers (rt w)) -> (id < next_timer (rt w))%nat.
Proof. intros [[_ _ Hf _ _] _] Hin. eapply Hf; eauto. Qed.

Lemma emap_entry_fresh_timer (key : K) (e : Entry) (id : TimerId) (w : World) :
  wf w -> JsMap.get K_eq_dec key (map w) = Some e -> timer e = Some id ->
  (id < next_timer (rt w))%nat.
Proof.
  intros W G Ht.
  destruct (emap_wf_entry_timer K_eq_dec key W G Ht) as (d & _ & at_ & P).
  apply pending_In in P. eapply emap_fresh_timer; eauto.
Qed.

Lemma emap_old_timer_cannot_fire (key : K) (e : Entry) (id : TimerId) (w : World) :
  wf w -> JsMap.get K_eq_dec key (map w) = Some e -> timer e = Some id ->
  fire id (snd (delete key w)) = None /\
  fire id (snd (clearExpiry key w)) = None /\
  fire id (fst (expire key w)) = None /\
  (forall value expiryMs expiryCallback,
      fire id (set key value expiryMs expiryCallback w) = None) /\
  (forall msFromNow, fire id (snd (setExpiry key msFromNow w)) = None) /\
  (forall w', fire id w = Some w' -> fire id w' = None).
Proof.
  intros W G Ht.
  pose proof (@emap_old_timer_gone key e id w W G Ht) as Hgone.
  pose proof (@emap_entry_fresh_timer key e id w W G Ht) as Hfresh.
  assert (Hset : forall value expiryMs expiryCallback,
             fire id (set key value expiryMs expiryCallback w) = None).
  { intros value expiryMs expiryCallback. apply emap_fire_not_pending.
    intros t Hin. rewrite emap_timers_set in Hin.
    apply in_app_or in Hin. destruct Hin as [Hin|Hin]; [eapply Hgone; eauto|].
    destruct (nullish expiryMs _); [|destruct Hin].
    destruct Hin as [Heq|[]]. injection Heq as Heq _. lia. }
  split; [|split; [|split; [|split; [|split]]]].
  - apply emap_fire_not_pending, Hgone.
  - apply emap_fire_not_pending. intros t Hin.
    rewrite (emap_clearExpiry_present K_eq_dec key w G) in Hin. simpl in Hin.
    rewrite timers_clearTimeout, Ht in Hin. apply In_cancel in Hin.
    destruct Hin as [_ Hne]. congruence.
  - apply emap_fire_not_pending. intros t Hin.
    rewrite emap_timers_expire in Hin. eapply Hgone; eauto.
  - exact Hset.
  - intros ms. rewrite (emap_setExpiry_present K_eq_dec key ms w G). simpl. apply Hset.
  - intros w' F.
    destruct (@emap_fire_shape key e id w W G Ht) as (w1 & F1 & _ & Htm & _).
    rewrite F in F1. injection F1 as <-.
    apply emap_fire_not_pending. intros t Hin. rewrite Htm in Hin.
    eapply Hgone; eauto.
Qed.

(** *** What the invariant says of timers and expiries *)

Lemma emap_expiry_iff_timer (key : K) (w : World) :
  wf w ->
  (getExpiry key w <> None <->
   exists id t, In (id, t) (timers (rt w)) /\ task_key (task t) = key).
Proof.
  intros W. split.
  - intros H. destruct (getExpiry key w) as [d|] eqn:G; [|congruence].
    apply emap_getExpiry_Some in G. destruct G as (e & G & He).
    destruct (timer e) as [id|] eqn:Ht.
    + destruct (emap_wf_entry_timer K_eq_dec key W G Ht) as (d' & _ & at_ & P).
      apply pending_In in P. eexists _, _. split; [exact P|reflexivity].
    + apply (emap_wf_timed K_eq_dec key W G) in Ht. congruence.
  - intros (id & t & Hin & Hk) G.
    destruct (emap_wf_timer_entry K_eq_dec id t W Hin) as (e & Ge & Ht & [d He] & _).
    rewrite Hk in Ge. unfold ExpiringMap.getExpiry in G. rewrite Ge in G. congruence.
Qed.

Lemma emap_timer_value (id : TimerId) (t : Timeout (TimerTask K V U Err)) (w : World) :
  wf w -> In (id, t) (timers (rt w)) ->
  get (task_key (task t)) w = Some (task_value (task t)).
Proof.
  intros W Hin.
  destruct (emap_wf_timer_entry K_eq_dec id t W Hin) as (e & Ge & _ & _ & Hc).
  unfold ExpiringMap.get. rewrite Ge. simpl. rewrite Hc. reflexivity.
Qed.

Lemma emap_timer_keys_NoDup (w : World) :
  wf w ->
  NoDup (List.map (fun p => task_key (task (snd p))) (timers (rt w))).
Proof.
  intros W.
  assert (Hids : NoDup (List.map fst (timers (rt w)))) by now destruct W as [[_ Hi _ _ _] _].
  assert (Hone : forall id t id' t',
             In (id, t) (timers (rt w)) -> In (id', t') (timers (rt w)) ->
             task_key (task t) = task_key (task t') -> id = id').
  { intros id t id' t' H1 H2 Hk.
    now destruct (@emap_one_timer_per_key id id' t t' w W H1 H2 Hk). }
  induction (timers (rt w)) as [|[id t] ts IH]; simpl; [constructor|].
  inversion Hids as [|? ? Hni Hnd]; subst.
  constructor.
  - intros Hin. apply in_map_iff in Hin. destruct Hin as ([id' t'] & Hk & Hin').
    simpl in Hk.
    assert (id' = id).
    { eapply (Hone id' t' id t); [right; exact Hin' | left; reflexivity | exact Hk]. }
    subst id'. apply Hni. apply in_map_iff. exists (id, t'). auto.
  - apply IH; [exact Hnd|].
    intros i1 t1 i2 t2 H1 H2. apply Hone; right; assumption.
Qed.

Lemma emap_timers_le_size (w : World) :
  wf w -> (length (timers (rt w)) <= size w)%nat.
Proof.
  intros W.
  rewrite <- (length_map (fun p => task_key (task (snd p))) (timers (rt w))).
  unfold size, JsMap.size. rewrite <- (length_map fst (JsMap.entries (map w))).
  apply NoDup_incl_length; [now apply emap_timer_keys_NoDup|].
  intros k Hin. apply in_map_iff in Hin. destruct Hin as ([id t] & Hk & Hin).
  simpl in Hk. subst k.
  destruct (emap_wf_timer_entry K_eq_dec id t W Hin) as (e & Ge & _).
  apply JsMapFacts.get_In in Ge. apply in_map_iff. exists (task_key (task t), e). auto.
Qed.

(** *** [setMinimumExpiry] *)

Lemma emap_setMinimumExpiry_max (key : K) (m old : Z) (w : World) :
  getExpiry key w = Some old ->
  fst (setMinimumExpiry key m w) = true /\
  getExpiry key (snd (setMinimumExpiry key m w)) = Some (Z.max old (now (rt w) + m)) /\
  get key (snd (setMinimumExpiry key m w)) = get key w /\
  now (rt (snd (setMinimumExpiry key m w))) = now (rt w).
Proof.
  intros G. rewrite emap_setMinimumExpiry_eq, G.
  destruct (old <? now (rt w) + m) eqn:L.
  - apply Z.ltb_lt in L.
    pose proof G as G'. apply emap_getExpiry_Some in G'. destruct G' as (e & Ge & He).
    rewrite (emap_setExpiry_present K_eq_dec key m w Ge). simpl.
    rewrite emap_getExpiry_set, emap_get_set. simpl.
    destruct (emap_set_frame K_eq_dec key (value e) (Some m) (expiryCallback e) w)
      as (_ & Hn & _).
    repeat split.
    + f_equal. lia.
    + unfold ExpiringMap.get. now rewrite Ge.
    + exact Hn.
  - apply Z.ltb_ge in L. simpl. repeat split; auto. rewrite G. f_equal. lia.
Qed.

(** The timer that [setMinimumExpiry] arms when it extends the expiry: it
    is the one timer of the key, due after the delay that [setTimeout]
    takes [m] for. *)
Lemma emap_setMinimumExpiry_timer (key : K) (m old : Z) (w : World) :
  wf w -> getExpiry key w = Some old -> old < now (rt w) + m ->
  (exists t,
      pending (next_timer (rt w)) (rt (snd (setMinimumExpiry key m w))) = Some t /\
      task_key (task t) = key) /\
  (forall id t,
      In (id, t) (timers (rt (snd (setMinimumExpiry key m w)))) ->
      task_key (task t) = key ->
      id = next_timer (rt w) /\ due t = now (rt w) + timer_delay m).
Proof.
  intros W G L. rewrite emap_setMinimumExpiry_eq, G.
  apply Z.ltb_lt in L. rewrite L.
  apply emap_getExpiry_Some in G. destruct G as (e & Ge & He).
  rewrite (emap_setExpiry_present K_eq_dec key m w Ge). cbn [snd].
  split.
  - eexists. split.
    + apply In_pending.
      * pose proof (emap_wf_set K_eq_dec key (value e) (Some m) (expiryCallback e) W)
          as [[_ Hi _ _ _] _].
        exact Hi.
      * rewrite emap_timers_set. simpl. apply in_app_iff. right. left. reflexivity.
    + reflexivity.
  - intros id t Hin Hk.
    destruct (@emap_set_timer_of_key key (value e) (Some m) (expiryCallback e) w
                W id t Hin Hk) as (Hid & ms & Hms & Hd & _).
    simpl in Hms. injection Hms as <-. auto.
Qed.

(** *** [expire] leaves the other entries and their timers alone *)


(** *** A timer that fires does what [expire] does *)

Lemma emap_fire_is_expire (key : K) (e : Entry) (id : TimerId) (w : World) :
  wf w -> JsMap.get K_eq_dec key (map w) = Some e -> timer e = Some id ->
  exists w',
    fire id w = Some w' /\
    map w' = map (fst (expire key w)) /\
    timers (rt w') = timers (rt (fst (expire key w))) /\
    (option_of (@expireErrorCallback K V U Err) w = None ->
     w' = fst (expire key w)) /\
    (forall b, snd (expire key w) = Fulfilled b -> w' = fst (expire key w)).
Proof.
  intros W G Ht.
  rewrite (emap_fire_entry K_eq_dec key W G Ht).
  rewrite (emap_expire_present K_eq_dec key w G). cbv zeta.
  eexists. split; [reflexivity|].
  destruct (expiryCallback e) as [cb|]; [|simpl; auto].
  destruct (cb key (value e) _ _) as [u o].
  destruct o; simpl.
  - auto.
  - destruct (option_of _ w) as [errorCallback|].
    + destruct (errorCallback e0 u) as [u' [e'|]]; simpl;
        (split; [reflexivity|split; [reflexivity|split; [discriminate|]]]);
        intros b Hb; discriminate.
    + repeat split; auto.
  - auto.
  - destruct (option_of _ w) as [errorCallback|].
    + destruct (errorCallback e0 u) as [u' [e'|]]; simpl;
        (split; [reflexivity|split; [reflexivity|split; [discriminate|]]]);
        intros b Hb; discriminate.
    + repeat split; auto.
Qed.

(** *** [forEach]: a callback that throws ends the loop *)






(** *** Lookups agree with iteration *)

Lemma emap_lookup_iteration (w : World) :
  size w = length (keys w) /\
  size w = length (entries w) /\
  size w = length (values w) /\
  (forall key, has key w = true <-> In key (keys w)) /\
  (forall key, has key w = true <-> exists v, get key w = Some v) /\
  (forall key, has key w = false -> get key w = None /\ getExpiry key w = None) /\
  (wf w -> forall key v, get key w = Some v <-> In (key, v) (entries w)).
Proof.
  split; [|split; [|split; [|split; [|split; [|split]]]]].
  - unfold size, keys, JsMap.size, JsMap.keys. now rewrite length_map.
  - now rewrite emap_entries_length.
  - unfold values. now rewrite length_map, emap_entries_length.
  - intros key. apply emap_has_keys.
  - intros key. unfold ExpiringMap.has, ExpiringMap.get.
    rewrite JsMapFacts.has_get.
    destruct (JsMap.get K_eq_dec key (map w)) as [e|]; simpl; split.
    + intros _. now exists (value e).
    + reflexivity.
    + discriminate.
    + intros [v Hv]. discriminate.
  - intros key H. unfold ExpiringMap.has in H.
    apply JsMapFacts.has_false_get in H.
    unfold ExpiringMap.get, ExpiringMap.getExpiry. now rewrite H.
  - intros W key v. now apply emap_get_entries.
Qed.

(** *** Round trips *)

Lemma emap_entries_set (key : K) (value : V) (expiryMs : option Z)
      (expiryCallback : option (MapExpiryCallback K V U Err)) (w : World) :
  wf w ->
  entries (set key value expiryMs expiryCallback w) =
  entries (snd (delete key w)) ++ [(key, value)].
Proof.
  intros W.
  pose proof (emap_has_delete K_eq_dec key W) as Hhas. unfold ExpiringMap.has in Hhas.
  rewrite emap_set_eq. cbv zeta. unfold entries.
  destruct (nullish expiryMs _); simpl;
    rewrite (JsMapFacts.entries_set_absent K_eq_dec key _ _ Hhas), map_app; reflexivity.
Qed.

Lemma emap_entries_delete_set (key : K) (value : V) (expiryMs : option Z)
      (expiryCallback : option (MapExpiryCallback K V U Err)) (w : World) :
  wf w ->
  entries (snd (delete key (set key value expiryMs expiryCallback w))) =
  entries (snd (delete key w)).
Proof.
  intros W.
  pose proof (emap_has_delete K_eq_dec key W) as Hhas. unfold ExpiringMap.has in Hhas.
  rewrite (emap_delete_eq K_eq_dec key (set key value expiryMs expiryCallback w)).
  unfold entries at 1. simpl.
  rewrite emap_set_eq. cbv zeta.
  destruct (nullish expiryMs _); simpl;
    rewrite (JsMapMore.entries_delete_set_absent K_eq_dec key _ _ Hhas); reflexivity.
Qed.

Lemma emap_timers_delete_set (key : K) (value : V) (expiryMs : option Z)
      (expiryCallback : option (MapExpiryCallback K V U Err)) (w : World) :
  wf w ->
  timers (rt (snd (delete key (set key value expiryMs expiryCallback w)))) =
  timers (rt (snd (delete key w))).
Proof.
  intros W.
  pose proof (emap_wf_delete K_eq_dec key W) as W1.
  destruct (emap_delete_frame K_eq_dec key w) as (Ho & Hn & _ & _ & Hnt).
  rewrite (emap_delete_eq K_eq_dec key (set key value expiryMs expiryCallback w)).
  simpl. rewrite timers_clearTimeout, emap_timers_set.
  rewrite emap_set_eq. cbv zeta.
  destruct (nullish expiryMs _) as [ms|]; simpl; rewrite JsMapFacts.get_set; simpl.
  - unfold cancel. rewrite filter_app. simpl.
    unfold is_timer at 2. simpl. rewrite Nat.eqb_refl. simpl. rewrite app_nil_r.
    apply (cancel_absent (next_timer (rt w))).
    intros t Hin. pose proof (@emap_fresh_timer _ _ _ W1 Hin) as Hlt. rewrite Hnt in Hlt. lia.
  - now rewrite app_nil_r.
Qed.

Lemma emap_option_of_set (A : Type) (field : ExpiringMapOptions K V U Err -> option A)
      (key : K) (value : V) (expiryMs : option Z)
      (expiryCallback : option (MapExpiryCallback K V U Err)) (w : World) :
  option_of field (set key value expiryMs expiryCallback w) = option_of field w.
Proof.
  destruct (emap_set_frame K_eq_dec key value expiryMs expiryCallback w) as (Ho & _).
  unfold option_of. now rewrite Ho.
Qed.

Lemma emap_getExpiry_other (key k : K) (value : V) (expiryMs : option Z)
      (expiryCallback : option (MapExpiryCallback K V U Err)) (w : World) :
  k <> key ->
  getExpiry k (set key value expiryMs expiryCallback w) = getExpiry k w.
Proof.
  intros Hne. unfold ExpiringMap.getExpiry.
  now rewrite (emap_map_set_other K_eq_dec value expiryMs expiryCallback w Hne).
Qed.

Lemma emap_last_set_wins (key : K) (v1 v2 : V) (ms1 ms2 : option Z)
      (cb1 cb2 : option (MapExpiryCallback K V U Err)) (w : World) :
  wf w ->
  entries (set key v2 ms2 cb2 (set key v1 ms1 cb1 w)) = entries (set key v2 ms2 cb2 w) /\
  (forall k, getExpiry k (set key v2 ms2 cb2 (set key v1 ms1 cb1 w)) =
             getExpiry k (set key v2 ms2 cb2 w)) /\
  (forall id t, task_key (task t) <> key ->
      (In (id, t) (timers (rt (set key v2 ms2 cb2 (set key v1 ms1 cb1 w)))) <->
       In (id, t) (timers (rt (set key v2 ms2 cb2 w))))).
Proof.
  intros W.
  pose proof (emap_wf_set K_eq_dec key v1 ms1 cb1 W) as W1.
  split; [|split].
  - rewrite (emap_entries_set key v2 ms2 cb2 W1), (emap_entries_set key v2 ms2 cb2 W).
    now rewrite (emap_entries_delete_set key v1 ms1 cb1 W).
  - intros k. destruct (K_eq_dec k key) as [->|Hne].
    + rewrite !emap_getExpiry_set, emap_option_of_set.
      now destruct (emap_set_frame K_eq_dec key v1 ms1 cb1 w) as (_ & -> & _).
    + now rewrite !(emap_getExpiry_other _ _ _ _ Hne).
  - intros id t Hne.
    rewrite (@emap_set_timers_other key v2 ms2 cb2 _ W1 id t Hne).
    rewrite (@emap_set_timers_other key v1 ms1 cb1 _ W id t Hne).
    now rewrite (@emap_set_timers_other key v2 ms2 cb2 _ W id t Hne).
Qed.

Lemma emap_delete_undoes_set (key : K) (value : V) (expiryMs : option Z)
      (expiryCallback : option (MapExpiryCallback K V U Err)) (w : World) :
  wf w ->
  let w' := snd (delete key (set key value expiryMs expiryCallback w)) in
  entries w' = entries (snd (delete key w)) /\
  timers (rt w') = timers (rt (snd (delete key w))) /\
  user (rt w') = user (rt w) /\
  (has key w = false -> entries w' = entries w /\ timers (rt w') = timers (rt w)).
Proof.
  intros W w'. unfold w'.
  pose proof (emap_entries_delete_set key value expiryMs expiryCallback W) as He.
  pose proof (emap_timers_delete_set key value expiryMs expiryCallback W) as Ht.
  split; [exact He|]. split; [exact Ht|]. split.
  - destruct (emap_delete_frame K_eq_dec key
                (set key value expiryMs expiryCallback w)) as (_ & _ & -> & _).
    now destruct (emap_set_frame K_eq_dec key value expiryMs expiryCallback w)
      as (_ & _ & -> & _).
  - intros Habs. rewrite He, Ht.
    now rewrite (emap_delete_absent K_eq_dec key w Habs).
Qed.

(** *** Which calls add or remove a key, and which run user code *)










Lemma emap_run_user (c : Call K V U Err) (w : World) :
  may_call_back c = false ->
  user (rt (fst (ExpiringMap.run K_eq_dec c w))) = user (rt w) /\
  unhandled (rt (fst (ExpiringMap.run K_eq_dec c w))) = unhandled (rt w) /\
  now (rt (fst (ExpiringMap.run K_eq_dec c w))) = now (rt w) /\
  options (fst (ExpiringMap.run K_eq_dec c w)) = options w.
Proof.
  assert (Hset : forall k v ms cb,
             user (rt (set k v ms cb w)) = user (rt w) /\
             unhandled (rt (set k v ms cb w)) = unhandled (rt w) /\
             now (rt (set k v ms cb w)) = now (rt w) /\
             options (set k v ms cb w) = options w).
  { intros k v ms cb.
    destruct (emap_set_frame K_eq_dec k v ms cb w) as (Ho & Hn & Hu & Hh). auto. }
  assert (Hse : forall k ms,
             user (rt (snd (setExpiry k ms w))) = user (rt w) /\
             unhandled (rt (snd (setExpiry k ms w))) = unhandled (rt w) /\
             now (rt (snd (setExpiry k ms w))) = now (rt w) /\
             options (snd (setExpiry k ms w)) = options w).
  { intros k ms. destruct (JsMap.get K_eq_dec k (map w)) as [e|] eqn:G.
    - rewrite (emap_setExpiry_present K_eq_dec k ms w G). apply Hset.
    - rewrite emap_setExpiry_absent; [auto|].
      unfold ExpiringMap.has. now rewrite JsMapFacts.has_get, G. }
  destruct c as [k v ms cb|k|k|k| |k|k|k ms|k m| | | | | |f|k| ]; simpl;
    intros Hc; try discriminate; auto.
  - destruct (emap_delete_frame K_eq_dec k w) as (Ho & Hn & Hu & Hh & _). auto.
  - destruct (emap_clear_frame K_eq_dec w) as (Ho & Hn & Hu & Hh & _). auto.
  - destruct (JsMap.get K_eq_dec k (map w)) as [e|] eqn:G.
    + rewrite (emap_clearExpiry_present K_eq_dec k w G). simpl.
      rewrite user_clearTimeout, unhandled_clearTimeout, now_clearTimeout. auto.
    + rewrite emap_clearExpiry_absent; [auto|].
      unfold ExpiringMap.has. now rewrite JsMapFacts.has_get, G.
  - rewrite emap_setMinimumExpiry_eq.
    destruct (getExpiry k w) as [old|]; [|auto].
    destruct (old <? now (rt w) + m); [apply Hse|auto].
Qed.

(** *** [expire] is [delete] and the callback *)




(** *** Lookups after a sequence of insertions *)

Lemma emap_set_each_app
      (l : list (K * V * option Z * option (MapExpiryCallback K V U Err)))
      (c : K * V * option Z * option (MapExpiryCallback K V U Err)) (w : World) :
  set_each K_eq_dec (l ++ [c]) w =
  set (fst (fst (fst c))) (snd (fst (fst c))) (snd (fst c)) (snd c)
      (set_each K_eq_dec l w).
Proof.
  unfold set_each. rewrite fold_left_app. simpl.
  destruct c as [[[k v] ms] cb]. reflexivity.
Qed.

Lemma emap_get_set_each (key : K)
      (contents : list (K * V * option Z * option (MapExpiryCallback K V U Err)))
      (w : World) :
  get key (set_each K_eq_dec contents w) =
  match find (fun c => if K_eq_dec (key_of c) key then true else false)
             (rev contents) with
  | Some c => Some (snd (fst (fst c)))
  | None => get key w
  end.
Proof.
  induction contents as [|c l IH] using rev_ind; [reflexivity|].
  rewrite emap_set_each_app, rev_app_distr. simpl.
  unfold key_of at 1.
  destruct (K_eq_dec (fst (fst (fst c))) key) as [<-|Hne].
  - apply emap_get_set.
  - rewrite <- IH. unfold ExpiringMap.get.
    rewrite emap_map_set_other; [reflexivity|congruence].
Qed.

End ExpiringMapMore.
End ExpiringMapMore.

(** * ExpiringSet: membership, sizes and timers after each method *)
Module ExpiringSetMore.
Import ExpiringSet ExpiringSetFacts.
Section ExpiringSetMore.
Variables T U Err : Type.
Variable T_eq_dec : forall x y : T, {x = y} + {x <> y}.

Abbreviation World := (ExpiringSet.World T U Err).
Abbreviation Entry := (ExpiringSet.Entry T U Err).
Abbreviation delete := (ExpiringSet.delete T_eq_dec).
Abbreviation add := (ExpiringSet.add T_eq_dec).
Abbreviation has := (ExpiringSet.has T_eq_dec).
Abbreviation getExpiry := (ExpiringSet.getExpiry T_eq_dec).
Abbreviation clearExpiry := (ExpiringSet.clearExpiry T_eq_dec).
Abbreviation setExpiry := (ExpiringSet.setExpiry T_eq_dec).
Abbreviation setMinimumExpiry := (ExpiringSet.setMinimumExpiry T_eq_dec).
Abbreviation expire := (ExpiringSet.expire T_eq_dec).
Abbreviation fire := (ExpiringSet.fire T_eq_dec).
Abbreviation wf := (@ExpiringSet.wf T U Err).

(** *** Sizes *)

Lemma eset_size_delete (key : T) (w : World) :
  size (snd (delete key w)) = (size w - (if has key w then 1 else 0))%nat.
Proof.
  rewrite eset_delete_eq. unfold size, ExpiringSet.has. simpl.
  apply JsMapMore.size_delete.
Qed.

Lemma eset_size_add (key : T) (expiryMs : option Z)
      (expiryCallback : option (SetExpiryCallback T U Err)) (w : World) :
  wf w ->
  size (add key expiryMs expiryCallback w) =
  if has key w then size w else S (size w).
Proof.
  intros W.
  pose proof (eset_has_delete T_eq_dec key W) as Hhas. unfold ExpiringSet.has in Hhas.
  pose proof (eset_size_delete key w) as Hs. unfold size in Hs.
  assert (Hgoal : forall e,
             JsMap.size (JsMap.set T_eq_dec key e (map (snd (delete key w)))) =
             if has key w then size w else S (size w)).
  { intros e. rewrite (JsMapMore.size_set_absent T_eq_dec key e _ Hhas), Hs.
    destruct (has key w) eqn:Hk; [|unfold size; lia].
    pose proof (JsMapMore.size_has T_eq_dec key (map w) Hk). unfold size. lia. }
  rewrite eset_add_eq. cbv zeta.
  destruct (nullish expiryMs _); unfold size; simpl; apply Hgoal.
Qed.

(** *** The timers after [add] *)

Lemma eset_timers_add (key : T) (expiryMs : option Z)
      (expiryCallback : option (SetExpiryCallback T U Err)) (w : World) :
  timers (rt (add key expiryMs expiryCallback w)) =
  timers (rt (snd (delete key w))) ++
  match nullish expiryMs (option_of (@defaultExpiryMs T U Err) w) with
  | Some ms =>
      [(next_timer (rt w),
        {| due := now (rt w) + timer_delay ms;
           task := {| task_value := key;
                      task_callback :=
                        nullish expiryCallback
                                (option_of (@defaultExpiryCallback T U Err) w);
                      task_errorCallback :=
                        option_of (@expireErrorCallback T U Err) w |} |})]
  | None => []
  end.
Proof.
  destruct (eset_delete_frame T_eq_dec key w) as (Ho & Hn & _ & _ & Hnt).
  rewrite eset_add_eq. cbv zeta.
  destruct (nullish expiryMs _); simpl.
  - now rewrite Hnt, Hn.
  - now rewrite app_nil_r.
Qed.

(** The timer of a live entry closes over the value of the entry. *)
Lemma eset_timer_key (key : T) (e : Entry) (id : TimerId)
      (t : Timeout (TimerTask T U Err)) (w : World) :
  wf w -> JsMap.get T_eq_dec key (map w) = Some e -> timer e = Some id ->
  In (id, t) (timers (rt w)) -> task_value (task t) = key.
Proof.
  intros W G Ht Hin.
  destruct (eset_wf_entry_timer T_eq_dec key W G Ht) as (d & _ & at_ & P).
  apply pending_In in P.
  assert (Heq : t = {| due := at_; task := closure_of (options w) key e |}).
  { destruct W as [[_ Hi _ _ _] _]. eapply timer_unique; eauto. }
  now subst t.
Qed.

(** Two pending timers never belong to the same value. *)
Lemma eset_one_timer_per_key (id id' : TimerId)
      (t t' : Timeout (TimerTask T U Err)) (w : World) :
  wf w -> In (id, t) (timers (rt w)) -> In (id', t') (timers (rt w)) ->
  task_value (task t) = task_value (task t') -> id = id' /\ t = t'.
Proof.
  intros W Hin Hin' Hk.
  destruct (eset_wf_timer_entry T_eq_dec id t W Hin) as (e & G & Ht & _).
  destruct (eset_wf_timer_entry T_eq_dec id' t' W Hin') as (e' & G' & Ht' & _).
  rewrite <- Hk, G in G'. injection G' as <-.
  rewrite Ht in Ht'. injection Ht' as <-.
  split; [reflexivity|].
  destruct W as [[_ Hi _ _ _] _]. eapply timer_unique; eauto.
Qed.

Lemma eset_add_timer_of_key (key : T) (expiryMs : option Z)
      (expiryCallback : option (SetExpiryCallback T U Err)) (w : World) :
  wf w ->
  forall id t,
    In (id, t) (timers (rt (add key expiryMs expiryCallback w))) ->
    task_value (task t) = key ->
    id = next_timer (rt w) /\
    exists ms,
      nullish expiryMs (option_of (@defaultExpiryMs T U Err) w) = Some ms /\
      due t = now (rt w) + timer_delay ms.
Proof.
  intros W id t Hin Hk. rewrite eset_timers_add in Hin.
  apply in_app_or in Hin. destruct Hin as [Hin|Hin].
  - pose proof (eset_delete_no_timer T_eq_dec W _ _ Hin). contradiction.
  - destruct (nullish expiryMs _) as [ms|]; [|destruct Hin].
    destruct Hin as [Heq|[]]. injection Heq as <- <-.
    split; [reflexivity|]. exists ms. simpl. auto.
Qed.

Lemma eset_add_timers_other (key : T) (expiryMs : option Z)
      (expiryCallback : option (SetExpiryCallback T U Err)) (w : World) :
  wf w ->
  forall id t,
    task_value (task t) <> key ->
    (In (id, t) (timers (rt (add key expiryMs expiryCallback w))) <->
     In (id, t) (timers (rt w))).
Proof.
  intros W id t Hk. rewrite eset_timers_add. split.
  - intros Hin. apply in_app_or in Hin. destruct Hin as [Hin|Hin].
    + now apply (eset_delete_timers T_eq_dec key W) in Hin.
    + destruct (nullish expiryMs _) as [ms|]; [|destruct Hin].
      destruct Hin as [Heq|[]]. injection Heq as <- <-. simpl in Hk. congruence.
  - intros Hin. apply in_or_app. left.
    apply (eset_delete_timers T_eq_dec key W). auto.
Qed.

(** *** A timer that is no longer pending cannot fire *)

Lemma eset_fire_not_pending (id : TimerId) (w : World) :
  (forall t, ~ In (id, t) (timers (rt w))) -> fire id w = None.
Proof.
  intros H. unfold ExpiringSet.fire. now rewrite (pending_None id (rt w) H).
Qed.

Lemma eset_timers_expire (key : T) (w : World) :
  timers (rt (fst (expire key w))) = timers (rt (snd (delete key w))).
Proof.
  destruct (JsMap.get T_eq_dec key (map w)) as [e|] eqn:G.
  - rewrite (eset_expire_present T_eq_dec key w G). cbv zeta.
    destruct (expiryCallback e) as [cb|]; [|reflexivity].
    destruct (cb key _ _) as [u o]. reflexivity.
  - assert (H : has key w = false).
    { unfold ExpiringSet.has. rewrite JsMapFacts.has_get, G. reflexivity. }
    now rewrite (eset_expire_absent T_eq_dec key w H), (eset_delete_absent T_eq_dec key w H).
Qed.

Lemma eset_fire_shape (key : T) (e : Entry) (id : TimerId) (w : World) :
  wf w -> JsMap.get T_eq_dec key (map w) = Some e -> timer e = Some id ->
  exists w',
    fire id w = Some w' /\
    map w' = map (snd (delete key w)) /\
    timers (rt w') = timers (rt (snd (delete key w))) /\
    next_timer (rt w') = next_timer (rt w) /\
    now (rt w') = now (rt w) /\
    options w' = options w.
Proof.
  intros W G Ht.
  destruct (eset_delete_frame T_eq_dec key w) as (Ho & Hn & _ & _ & Hnt).
  rewrite (eset_fire_entry T_eq_dec key W G Ht). cbv zeta.
  eexists. split; [reflexivity|].
  destruct (expiryCallback e) as [cb|]; [|auto 6].
  destruct (cb key _ _) as [u o].
  destruct (await o) as [[]|error]; [simpl; auto 6|].
  destruct (option_of _ w) as [errorCallback|]; [|simpl; auto 6].
  destruct (errorCallback error u) as [u' [e'|]]; simpl; auto 6.
Qed.

Lemma eset_old_timer_gone (key : T) (e : Entry) (id : TimerId) (w : World) :
  wf w -> JsMap.get T_eq_dec key (map w) = Some e -> timer e = Some id ->
  forall t, ~ In (id, t) (timers (rt (snd (delete key w)))).
Proof.
  intros W G Ht t Hin.
  apply (eset_delete_timers T_eq_dec key W) in Hin. destruct Hin as [Hin Hne].
  apply Hne. eapply eset_timer_key; eauto.
Qed.

Lemma eset_fresh_timer (id : TimerId) (t : Timeout (TimerTask T U Err)) (w : World) :
  wf w -> In (id, t) (timers (rt w)) -> (id < next_timer (rt w))%nat.
Proof. intros [[_ _ Hf _ _] _] Hin. eapply Hf; eauto. Qed.

Lemma eset_entry_fresh_timer (key : T) (e : Entry) (id : TimerId) (w : World) :
  wf w -> JsMap.get T_eq_dec key (map w) = Some e -> timer e = Some id ->
  (id < next_timer (rt w))%nat.
Proof.
  intros W G Ht.
  destruct (eset_wf_entry_timer T_eq_dec key W G Ht) as (d & _ & at_ & P).
  apply pending_In in P. eapply eset_fresh_timer; eauto.
Qed.

Lemma eset_old_timer_cannot_fire (key : T) (e : Entry) (id : TimerId) (w : World) :
  wf w -> JsMap.get T_eq_dec key (map w) = Some e -> timer e = Some id ->
  fire id (snd (delete key w)) = None /\
  fire id (snd (clearExpiry key w)) = None /\
  fire id (fst (expire key w)) = None /\
  (forall expiryMs expiryCallback,
      fire id (add key expiryMs expiryCallback w) = None) /\
  (forall msFromNow, fire id (snd (setExpiry key msFromNow w)) = None) /\
  (forall w', fire id w = Some w' -> fire id w' = None).
Proof.
  intros W G Ht.
  pose proof (@eset_old_timer_gone key e id w W G Ht) as Hgone.
  pose proof (@eset_entry_fresh_timer key e id w W G Ht) as Hfresh.
  assert (Hset : forall expiryMs expiryCallback,
             fire id (add key expiryMs expiryCallback w) = None).
  { intros expiryMs expiryCallback. apply eset_fire_not_pending.
    intros t Hin. rewrite eset_timers_add in Hin.
    apply in_app_or in Hin. destruct Hin as [Hin|Hin]; [eapply Hgone; eauto|].
    destruct (nullish expiryMs _); [|destruct Hin].
    destruct Hin as [Heq|[]]. injection Heq as Heq _. lia. }
  split; [|split; [|split; [|split; [|split]]]].
  - apply eset_fire_not_pending, Hgone.
  - apply eset_fire_not_pending. intros t Hin.
    rewrite (eset_clearExpiry_present T_eq_dec key w G) in Hin. simpl in Hin.
    rewrite timers_clearTimeout, Ht in Hin. apply In_cancel in Hin.
    destruct Hin as [_ Hne]. congruence.
  - apply eset_fire_not_pending. intros t Hin.
    rewrite eset_timers_expire in Hin. eapply Hgone; eauto.
  - exact Hset.
  - intros ms. rewrite (eset_setExpiry_present T_eq_dec key ms w G). simpl. apply Hset.
  - intros w' F.
    destruct (@eset_fire_shape key e id w W G Ht) as (w1 & F1 & _ & Htm & _).
    rewrite F in F1. injection F1 as <-.
    apply eset_fire_not_pending. intros t Hin. rewrite Htm in Hin.
    eapply Hgone; eauto.
Qed.

(** *** What the invariant says of timers and expiries *)

Lemma eset_expiry_iff_timer (key : T) (w : World) :
  wf w ->
  (getExpiry key w <> None <->
   exists id t, In (id, t) (timers (rt w)) /\ task_value (task t) = key).
Proof.
  intros W. split.
  - intros H. destruct (getExpiry key w) as [d|] eqn:G; [|congruence].
    apply eset_getExpiry_Some in G. destruct G as (e & G & He).
    destruct (timer e) as [id|] eqn:Ht.
    + destruct (eset_wf_entry_timer T_eq_dec key W G Ht) as (d' & _ & at_ & P).
      apply pending_In in P. eexists _, _. split; [exact P|reflexivity].
    + apply (eset_wf_timed T_eq_dec key W G) in Ht. congruence.
  - intros (id & t & Hin & Hk) G.
    destruct (eset_wf_timer_entry T_eq_dec id t W Hin) as (e & Ge & Ht & [d He] & _).
    rewrite Hk in Ge. unfold ExpiringSet.getExpiry in G. rewrite Ge in G. congruence.
Qed.

Lemma eset_timer_value (id : TimerId) (t : Timeout (TimerTask T U Err)) (w : World) :
  wf w -> In (id, t) (timers (rt w)) ->
  has (task_value (task t)) w = true.
Proof.
  intros W Hin.
  destruct (eset_wf_timer_entry T_eq_dec id t W Hin) as (e & Ge & _).
  unfold ExpiringSet.has. eapply JsMapFacts.get_has; eauto.
Qed.

Lemma eset_timer_keys_NoDup (w : World) :
  wf w ->
  NoDup (List.map (fun p => task_value (task (snd p))) (timers (rt w))).
Proof.
  intros W.
  assert (Hids : NoDup (List.map fst (timers (rt w)))) by now destruct W as [[_ Hi _ _ _] _].
  assert (Hone : forall id t id' t',
             In (id, t) (timers (rt w)) -> In (id', t') (timers (rt w)) ->
             task_value (task t) = task_value (task t') -> id = id').
  { intros id t id' t' H1 H2 Hk.
    now destruct (@eset_one_timer_per_key id id' t t' w W H1 H2 Hk). }
  induction (timers (rt w)) as [|[id t] ts IH]; simpl; [constructor|].
  inversion Hids as [|? ? Hni Hnd]; subst.
  constructor.
  - intros Hin. apply in_map_iff in Hin. destruct Hin as ([id' t'] & Hk & Hin').
    simpl in Hk.
    assert (id' = id).
    { eapply (Hone id' t' id t); [right; exact Hin' | left; reflexivity | exact Hk]. }
    subst id'. apply Hni. apply in_map_iff. exists (id, t'). auto.
  - apply IH; [exact Hnd|].
    intros i1 t1 i2 t2 H1 H2. apply Hone; right; assumption.
Qed.

Lemma eset_timers_le_size (w : World) :
  wf w -> (length (timers (rt w)) <= size w)%nat.
Proof.
  intros W.
  rewrite <- (length_map (fun p => task_value (task (snd p))) (timers (rt w))).
  unfold size, JsMap.size. rewrite <- (length_map fst (JsMap.entries (map w))).
  apply NoDup_incl_length; [now apply eset_timer_keys_NoDup|].
  intros k Hin. apply in_map_iff in Hin. destruct Hin as ([id t] & Hk & Hin).
  simpl in Hk. subst k.
  destruct (eset_wf_timer_entry T_eq_dec id t W Hin) as (e & Ge & _).
  apply JsMapFacts.get_In in Ge. apply in_map_iff. exists (task_value (task t), e). auto.
Qed.

(** *** [setMinimumExpiry] *)

Lemma eset_setMinimumExpiry_max (key : T) (m old : Z) (w : World) :
  getExpiry key w = Some old ->
  fst (setMinimumExpiry key m w) = true /\
  getExpiry key (snd (setMinimumExpiry key m w)) = Some (Z.max old (now (rt w) + m)) /\
  has key (snd (setMinimumExpiry key m w)) = true /\
  now (rt (snd (setMinimumExpiry key m w))) = now (rt w).
Proof.
  intros G. rewrite eset_setMinimumExpiry_eq, G.
  pose proof G as G'. apply eset_getExpiry_Some in G'. destruct G' as (e & Ge & He).
  destruct (old <? now (rt w) + m) eqn:L.
  - apply Z.ltb_lt in L.
    rewrite (eset_setExpiry_present T_eq_dec key m w Ge). simpl.
    rewrite eset_getExpiry_add, eset_has_add. simpl.
    destruct (eset_add_frame T_eq_dec key (Some m) (expiryCallback e) w)
      as (_ & Hn & _).
    repeat split.
    + f_equal. lia.
    + exact Hn.
  - apply Z.ltb_ge in L. simpl. repeat split; auto.
    + rewrite G. f_equal. lia.
    + unfold ExpiringSet.has. eapply JsMapFacts.get_has; eauto.
Qed.

(** The timer that [setMinimumExpiry] arms when it extends the expiry. *)
Lemma eset_setMinimumExpiry_timer (key : T) (m old : Z) (w : World) :
  wf w -> getExpiry key w = Some old -> old < now (rt w) + m ->
  (exists t,
      pending (next_timer (rt w)) (rt (snd (setMinimumExpiry key m w))) = Some t /\
      task_value (task t) = key) /\
  (forall id t,
      In (id, t) (timers (rt (snd (setMinimumExpiry key m w)))) ->
      task_value (task t) = key ->
      id = next_timer (rt w) /\ due t = now (rt w) + timer_delay m).
Proof.
  intros W G L. rewrite eset_setMinimumExpiry_eq, G.
  apply Z.ltb_lt in L. rewrite L.
  apply eset_getExpiry_Some in G. destruct G as (e & Ge & He).
  rewrite (eset_setExpiry_present T_eq_dec key m w Ge). cbn [snd].
  split.
  - eexists. split.
    + apply In_pending.
      * pose proof (eset_wf_add T_eq_dec key (Some m) (expiryCallback e) W)
          as [[_ Hi _ _ _] _].
        exact Hi.
      * rewrite eset_timers_add. simpl. apply in_app_iff. right. left. reflexivity.
    + reflexivity.
  - intros id t Hin Hk.
    destruct (@eset_add_timer_of_key key (Some m) (expiryCallback e) w
                W id t Hin Hk) as (Hid & ms & Hms & Hd).
    simpl in Hms. injection Hms as <-. auto.
Qed.

(** *** [expire] leaves the other entries and their timers alone *)


(** *** A timer that fires does what [expire] does *)

Lemma eset_fire_is_expire (key : T) (e : Entry) (id : TimerId) (w : World) :
  wf w -> JsMap.get T_eq_dec key (map w) = Some e -> timer e = Some id ->
  exists w',
    fire id w = Some w' /\
    map w' = map (fst (expire key w)) /\
    timers (rt w') = timers (rt (fst (expire key w))) /\
    (option_of (@expireErrorCallback T U Err) w = None ->
     w' = fst (expire key w)) /\
    (forall b, snd (expire key w) = Fulfilled b -> w' = fst (expire key w)).
Proof.
  intros W G Ht.
  rewrite (eset_fire_entry T_eq_dec key W G Ht).
  rewrite (eset_expire_present T_eq_dec key w G). cbv zeta.
  eexists. split; [reflexivity|].
  destruct (expiryCallback e) as [cb|]; [|simpl; auto].
  destruct (cb key _ _) as [u o].
  destruct o; simpl.
  - auto.
  - destruct (option_of _ w) as [errorCallback|].
    + destruct (errorCallback e0 u) as [u' [e'|]]; simpl;
        (split; [reflexivity|split; [reflexivity|split; [discriminate|]]]);
        intros b Hb; discriminate.
    + repeat split; auto.
  - auto.
  - destruct (option_of _ w) as [errorCallback|].
    + destruct (errorCallback e0 u) as [u' [e'|]]; simpl;
        (split; [reflexivity|split; [reflexivity|split; [discriminate|]]]);
        intros b Hb; discriminate.
    + repeat split; auto.
Qed.

(** *** [forEach]: a callback that throws ends the loop *)






(** *** Lookups agree with iteration *)

Lemma eset_lookup_iteration (w : World) :
  size w = length (values w) /\
  size w = length (entries w) /\
  keys w = values w /\
  (forall key, has key w = true <-> In key (values w)) /\
  (forall key, has key w = true <-> In (key, key) (entries w)) /\
  (forall key, has key w = false -> getExpiry key w = None).
Proof.
  split; [|split; [|split; [|split; [|split]]]].
  - unfold size, values, JsMap.size, JsMap.keys. now rewrite length_map.
  - now rewrite eset_entries_length.
  - reflexivity.
  - intros key. apply eset_has_keys.
  - intros key. rewrite eset_has_keys. unfold entries, keys, values.
    rewrite in_map_iff. split.
    + intros H. exists key. auto.
    + intros (k & Hk & Hin). now injection Hk as -> _.
  - intros key H. unfold ExpiringSet.has in H.
    apply JsMapFacts.has_false_get in H.
    unfold ExpiringSet.getExpiry. now rewrite H.
Qed.

(** *** Round trips *)

Lemma eset_values_delete_add (key : T) (expiryMs : option Z)
      (expiryCallback : option (SetExpiryCallback T U Err)) (w : World) :
  wf w ->
  values (snd (delete key (add key expiryMs expiryCallback w))) =
  values (snd (delete key w)).
Proof.
  intros W.
  pose proof (eset_has_delete T_eq_dec key W) as Hhas. unfold ExpiringSet.has in Hhas.
  rewrite (eset_delete_eq T_eq_dec key (add key expiryMs expiryCallback w)).
  unfold values at 1, JsMap.keys. simpl.
  rewrite eset_add_eq. cbv zeta.
  destruct (nullish expiryMs _); simpl;
    rewrite (JsMapMore.entries_delete_set_absent T_eq_dec key _ _ Hhas); reflexivity.
Qed.

Lemma eset_timers_delete_add (key : T) (expiryMs : option Z)
      (expiryCallback : option (SetExpiryCallback T U Err)) (w : World) :
  wf w ->
  timers (rt (snd (delete key (add key expiryMs expiryCallback w)))) =
  timers (rt (snd (delete key w))).
Proof.
  intros W.
  pose proof (eset_wf_delete T_eq_dec key W) as W1.
  destruct (eset_delete_frame T_eq_dec key w) as (Ho & Hn & _ & _ & Hnt).
  rewrite (eset_delete_eq T_eq_dec key (add key expiryMs expiryCallback w)).
  simpl. rewrite timers_clearTimeout, eset_timers_add.
  rewrite eset_add_eq. cbv zeta.
  destruct (nullish expiryMs _) as [ms|]; simpl; rewrite JsMapFacts.get_set; simpl.
  - unfold cancel. rewrite filter_app. simpl.
    unfold is_timer at 2. simpl. rewrite Nat.eqb_refl. simpl. rewrite app_nil_r.
    apply (cancel_absent (next_timer (rt w))).
    intros t Hin. pose proof (@eset_fresh_timer _ _ _ W1 Hin) as Hlt. rewrite Hnt in Hlt. lia.
  - now rewrite app_nil_r.
Qed.

Lemma eset_option_of_add (A : Type) (field : ExpiringSetOptions T U Err -> option A)
      (key : T) (expiryMs : option Z)
      (expiryCallback : option (SetExpiryCallback T U Err)) (w : World) :
  option_of field (add key expiryMs expiryCallback w) = option_of field w.
Proof.
  destruct (eset_add_frame T_eq_dec key expiryMs expiryCallback w) as (Ho & _).
  unfold option_of. now rewrite Ho.
Qed.

Lemma eset_getExpiry_other (key k : T) (expiryMs : option Z)
      (expiryCallback : option (SetExpiryCallback T U Err)) (w : World) :
  k <> key ->
  getExpiry k (add key expiryMs expiryCallback w) = getExpiry k w.
Proof.
  intros Hne. unfold ExpiringSet.getExpiry.
  now rewrite (eset_map_add_other T_eq_dec expiryMs expiryCallback w Hne).
Qed.

Lemma eset_last_add_wins (key : T) (ms1 ms2 : option Z)
      (cb1 cb2 : option (SetExpiryCallback T U Err)) (w : World) :
  wf w ->
  values (add key ms2 cb2 (add key ms1 cb1 w)) = values (add key ms2 cb2 w) /\
  (forall k, getExpiry k (add key ms2 cb2 (add key ms1 cb1 w)) =
             getExpiry k (add key ms2 cb2 w)) /\
  (forall id t, task_value (task t) <> key ->
      (In (id, t) (timers (rt (add key ms2 cb2 (add key ms1 cb1 w)))) <->
       In (id, t) (timers (rt (add key ms2 cb2 w))))).
Proof.
  intros W.
  pose proof (eset_wf_add T_eq_dec key ms1 cb1 W) as W1.
  split; [|split].
  - pose proof (eset_keys_add T_eq_dec key ms2 cb2 W1) as H1.
    pose proof (eset_keys_add T_eq_dec key ms2 cb2 W) as H2.
    pose proof (eset_keys_add T_eq_dec key ms1 cb1 W) as H3.
    unfold keys in *. rewrite H1, H2, H3.
    f_equal. apply JsMapMore.remove_key_last.
    apply JsMapFacts.remove_key_not_In. now destruct W as [[Hk _ _ _ _] _].
  - intros k. destruct (T_eq_dec k key) as [->|Hne].
    + rewrite !eset_getExpiry_add, eset_option_of_add.
      now destruct (eset_add_frame T_eq_dec key ms1 cb1 w) as (_ & -> & _).
    + now rewrite !(eset_getExpiry_other _ _ _ Hne).
  - intros id t Hne.
    rewrite (@eset_add_timers_other key ms2 cb2 _ W1 id t Hne).
    rewrite (@eset_add_timers_other key ms1 cb1 _ W id t Hne).
    now rewrite (@eset_add_timers_other key ms2 cb2 _ W id t Hne).
Qed.

Lemma eset_delete_undoes_add (key : T) (expiryMs : option Z)
      (expiryCallback : option (SetExpiryCallback T U Err)) (w : World) :
  wf w ->
  let w' := snd (delete key (add key expiryMs expiryCallback w)) in
  values w' = values (snd (delete key w)) /\
  timers (rt w') = timers (rt (snd (delete key w))) /\
  user (rt w') = user (rt w) /\
  (has key w = false -> values w' = values w /\ timers (rt w') = timers (rt w)).
Proof.
  intros W w'. unfold w'.
  pose proof (eset_values_delete_add key expiryMs expiryCallback W) as He.
  pose proof (eset_timers_delete_add key expiryMs expiryCallback W) as Ht.
  split; [exact He|]. split; [exact Ht|]. split.
  - destruct (eset_delete_frame T_eq_dec key
                (add key expiryMs expiryCallback w)) as (_ & _ & -> & _).
    now destruct (eset_add_frame T_eq_dec key expiryMs expiryCallback w)
      as (_ & _ & -> & _).
  - intros Habs. rewrite He, Ht.
    now rewrite (eset_delete_absent T_eq_dec key w Habs).
Qed.

(** *** Which calls add or remove a key, and which run user code *)

Lemma eset_has_map (key : T) (w w' : World) :
  JsMap.get T_eq_dec key (map w') = JsMap.get T_eq_dec key (map w) ->
  has key w' = has key w.
Proof.
  intros H. unfold ExpiringSet.has. now rewrite !JsMapFacts.has_get, H.
Qed.

Lemma eset_has_add_other (key k : T) (expiryMs : option Z)
      (expiryCallback : option (SetExpiryCallback T U Err)) (w : World) :
  k <> key -> has k (add key expiryMs expiryCallback w) = has k w.
Proof.
  intros Hne. apply eset_has_map.
  now apply eset_map_add_other.
Qed.








Lemma eset_run_user (c : Call T U Err) (w : World) :
  may_call_back c = false ->
  user (rt (fst (ExpiringSet.run T_eq_dec c w))) = user (rt w) /\
  unhandled (rt (fst (ExpiringSet.run T_eq_dec c w))) = unhandled (rt w) /\
  now (rt (fst (ExpiringSet.run T_eq_dec c w))) = now (rt w) /\
  options (fst (ExpiringSet.run T_eq_dec c w)) = options w.
Proof.
  assert (Hset : forall k ms cb,
             user (rt (add k ms cb w)) = user (rt w) /\
             unhandled (rt (add k ms cb w)) = unhandled (rt w) /\
             now (rt (add k ms cb w)) = now (rt w) /\
             options (add k ms cb w) = options w).
  { intros k ms cb.
    destruct (eset_add_frame T_eq_dec k ms cb w) as (Ho & Hn & Hu & Hh). auto. }
  assert (Hse : forall k ms,
             user (rt (snd (setExpiry k ms w))) = user (rt w) /\
             unhandled (rt (snd (setExpiry k ms w))) = unhandled (rt w) /\
             now (rt (snd (setExpiry k ms w))) = now (rt w) /\
             options (snd (setExpiry k ms w)) = options w).
  { intros k ms. destruct (JsMap.get T_eq_dec k (map w)) as [e|] eqn:G.
    - rewrite (eset_setExpiry_present T_eq_dec k ms w G). apply Hset.
    - rewrite eset_setExpiry_absent; [auto|].
      unfold ExpiringSet.has. now rewrite JsMapFacts.has_get, G. }
  destruct c as [k ms cb|k|k| |k|k|k ms|k m| | | | | |f|k| ]; simpl;
    intros Hc; try discriminate; auto.
  - destruct (eset_delete_frame T_eq_dec k w) as (Ho & Hn & Hu & Hh & _). auto.
  - destruct (eset_clear_frame T_eq_dec w) as (Ho & Hn & Hu & Hh & _). auto.
  - destruct (JsMap.get T_eq_dec k (map w)) as [e|] eqn:G.
    + rewrite (eset_clearExpiry_present T_eq_dec k w G). simpl.
      rewrite user_clearTimeout, unhandled_clearTimeout, now_clearTimeout. auto.
    + rewrite eset_clearExpiry_absent; [auto|].
      unfold ExpiringSet.has. now rewrite JsMapFacts.has_get, G.
  - rewrite eset_setMinimumExpiry_eq.
    destruct (getExpiry k w) as [old|]; [|auto].
    destruct (old <? now (rt w) + m); [apply Hse|auto].
Qed.

(** *** [expire] is [delete] and the callback *)




(** *** Membership after a sequence of insertions *)

Lemma eset_add_each_app
      (l : list (T * option Z * option (SetExpiryCallback T U Err)))
      (c : T * option Z * option (SetExpiryCallback T U Err)) (w : World) :
  add_each T_eq_dec (l ++ [c]) w =
  add (fst (fst c)) (snd (fst c)) (snd c) (add_each T_eq_dec l w).
Proof.
  unfold add_each. rewrite fold_left_app. simpl.
  destruct c as [[k ms] cb]. reflexivity.
Qed.

Lemma eset_has_add_each (key : T)
      (contents : list (T * option Z * option (SetExpiryCallback T U Err)))
      (w : World) :
  has key (add_each T_eq_dec contents w) =
  existsb (fun c => if T_eq_dec (value_of c) key then true else false) contents
  || has key w.
Proof.
  induction contents as [|c l IH] using rev_ind; [reflexivity|].
  rewrite eset_add_each_app, existsb_app. unfold value_of in *. simpl.
  destruct (T_eq_dec (fst (fst c)) key) as [Heq|Hne].
  - rewrite Heq, eset_has_add.
    destruct (existsb _ l); destruct (has key w); reflexivity.
  - rewrite eset_has_add_other; [|congruence]. rewrite IH.
    destruct (existsb _ l); destruct (has key w); reflexivity.
Qed.

End ExpiringSetMore.
End ExpiringSetMore.

(** * Further properties of the containers

    As for the claims, [w] is a state of an [ExpiringMap] and [s] a state
    of an [ExpiringSet], and a property that needs the invariant assumes
    the state well-formed or reached from a new container. *)

Section ContainerProperties.
Variables K V T U Err : Type.
Variable K_eq_dec : forall x y : K, {x = y} + {x <> y}.
Variable T_eq_dec : forall x y : T, {x = y} + {x <> y}.

Abbreviation MapWorld := (ExpiringMap.World K V U Err).
Abbreviation SetWorld := (ExpiringSet.World T U Err).

(** X1.  What [set] puts in is what [get] hands back: after
    [set(key, value, ...)] the key is present and [get(key)] is [value],
    whatever the key held before; lookups of the other keys answer as
    before; the size grows by one when the key is new and stays the same
    when it is overwritten; and no callback runs.  Likewise for [add] and
    [has] in the set. *)
Theorem X1_set_then_get
        (key : K) (value : V) (member : T) (expiryMs : option Z)
        (mapCallback : option (ExpiringMap.MapExpiryCallback K V U Err))
        (setCallback : option (ExpiringSet.SetExpiryCallback T U Err))
        (w : MapWorld) (s : SetWorld) :
  (let w' := ExpiringMap.set K_eq_dec key value expiryMs mapCallback w in
   ExpiringMap.get K_eq_dec key w' = Some value /\
   ExpiringMap.has K_eq_dec key w' = true /\
   (forall k, k <> key ->
       ExpiringMap.get K_eq_dec k w' = ExpiringMap.get K_eq_dec k w /\
       ExpiringMap.has K_eq_dec k w' = ExpiringMap.has K_eq_dec k w /\
       ExpiringMap.getExpiry K_eq_dec k w' = ExpiringMap.getExpiry K_eq_dec k w) /\
   (ExpiringMap.wf w ->
    ExpiringMap.size w' =
    if ExpiringMap.has K_eq_dec key w then ExpiringMap.size w
    else S (ExpiringMap.size w)) /\
   user (ExpiringMap.rt w') = user (ExpiringMap.rt w))
  /\
  (let s' := ExpiringSet.add T_eq_dec member expiryMs setCallback s in
   ExpiringSet.has T_eq_dec member s' = true /\
   (forall k, k <> member ->
       ExpiringSet.has T_eq_dec k s' = ExpiringSet.has T_eq_dec k s /\
       ExpiringSet.getExpiry T_eq_dec k s' = ExpiringSet.getExpiry T_eq_dec k s) /\
   (ExpiringSet.wf s ->
    ExpiringSet.size s' =
    if ExpiringSet.has T_eq_dec member s then ExpiringSet.size s
    else S (ExpiringSet.size s)) /\
   user (ExpiringSet.rt s') = user (ExpiringSet.rt s)).
Proof.
  split; cbv zeta.
  - split; [apply ExpiringMapFacts.emap_get_set|].
    split; [apply ExpiringMapFacts.emap_has_set|].
    split; [|split].
    + intros k Hne.
      pose proof (ExpiringMapFacts.emap_map_set_other K_eq_dec value expiryMs
                    mapCallback w Hne) as H.
      unfold ExpiringMap.get, ExpiringMap.has, ExpiringMap.getExpiry.
      rewrite !JsMapFacts.has_get, H. auto.
    + apply ExpiringMapMore.emap_size_set.
    + now destruct (ExpiringMapFacts.emap_set_frame K_eq_dec key value expiryMs
                      mapCallback w) as (_ & _ & Hu & _).
  - split; [apply ExpiringSetFacts.eset_has_add|].
    split; [|split].
    + intros k Hne.
      pose proof (ExpiringSetFacts.eset_map_add_other T_eq_dec expiryMs
                    setCallback s Hne) as H.
      unfold ExpiringSet.has, ExpiringSet.getExpiry.
      rewrite !JsMapFacts.has_get, H. auto.
    + apply ExpiringSetMore.eset_size_add.
    + now destruct (ExpiringSetFacts.eset_add_frame T_eq_dec member expiryMs
                      setCallback s) as (_ & _ & Hu & _).
Qed.

(** X2.  The time to live of [set] is the one given in the call, else
    the default of the container, else none; a time to live of 0 given
    in the call counts as given.  The stored callback is resolved the
    same way.  The entry has an expiry exactly when a timer is pending
    for its key; that timer is the one armed by this call and it closes
    over the new value, a timer the key held before is gone, and the
    timers of the other keys are untouched.  Likewise for [add]. *)
Theorem X2_set_expiry_and_timer
        (key : K) (value : V) (member : T) (expiryMs : option Z)
        (mapCallback : option (ExpiringMap.MapExpiryCallback K V U Err))
        (setCallback : option (ExpiringSet.SetExpiryCallback T U Err))
        (w : MapWorld) (s : SetWorld) :
  (let w' := ExpiringMap.set K_eq_dec key value expiryMs mapCallback w in
   ExpiringMap.getExpiry K_eq_dec key w' =
     match expiryMs with
     | Some ms => Some (now (ExpiringMap.rt w) + ms)
     | None =>
         match ExpiringMap.option_of (@ExpiringMap.defaultExpiryMs K V U Err) w with
         | Some ms => Some (now (ExpiringMap.rt w) + ms)
         | None => None
         end
     end /\
   (exists e,
       JsMap.get K_eq_dec key (ExpiringMap.map w') = Some e /\
       ExpiringMap.expiryCallback e =
         match mapCallback with
         | Some cb => Some cb
         | None => ExpiringMap.option_of (@ExpiringMap.defaultExpiryCallback K V U Err) w
         end) /\
   (ExpiringMap.wf w ->
    (ExpiringMap.getExpiry K_eq_dec key w' <> None <->
     exists id t, In (id, t) (timers (ExpiringMap.rt w')) /\
                  ExpiringMap.task_key (task t) = key) /\
    (forall id t,
        In (id, t) (timers (ExpiringMap.rt w')) ->
        ExpiringMap.task_key (task t) = key ->
        id = next_timer (ExpiringMap.rt w) /\
        ExpiringMap.task_value (task t) = value /\
        forall t0, ~ In (id, t0) (timers (ExpiringMap.rt w))) /\
    (forall id t,
        ExpiringMap.task_key (task t) <> key ->
        (In (id, t) (timers (ExpiringMap.rt w')) <->
         In (id, t) (timers (ExpiringMap.rt w))))))
  /\
  (let s' := ExpiringSet.add T_eq_dec member expiryMs setCallback s in
   ExpiringSet.getExpiry T_eq_dec member s' =
     match expiryMs with
     | Some ms => Some (now (ExpiringSet.rt s) + ms)
     | None =>
         match ExpiringSet.option_of (@ExpiringSet.defaultExpiryMs T U Err) s with
         | Some ms => Some (now (ExpiringSet.rt s) + ms)
         | None => None
         end
     end /\
   (exists e,
       JsMap.get T_eq_dec member (ExpiringSet.map s') = Some e /\
       ExpiringSet.expiryCallback e =
         match setCallback with
         | Some cb => Some cb
         | None => ExpiringSet.option_of (@ExpiringSet.defaultExpiryCallback T U Err) s
         end) /\
   (ExpiringSet.wf s ->
    (ExpiringSet.getExpiry T_eq_dec member s' <> None <->
     exists id t, In (id, t) (timers (ExpiringSet.rt s')) /\
                  ExpiringSet.task_value (task t) = member) /\
    (forall id t,
        In (id, t) (timers (ExpiringSet.rt s')) ->
        ExpiringSet.task_value (task t) = member ->
        id = next_timer (ExpiringSet.rt s) /\
        forall t0, ~ In (id, t0) (timers (ExpiringSet.rt s))) /\
    (forall id t,
        ExpiringSet.task_value (task t) <> member ->
        (In (id, t) (timers (ExpiringSet.rt s')) <->
         In (id, t) (timers (ExpiringSet.rt s)))))).
Proof.
  split; cbv zeta.
  - split; [|split].
    + rewrite ExpiringMapFacts.emap_getExpiry_set.
      destruct expiryMs; [reflexivity|]. simpl.
      destruct (ExpiringMap.option_of _ w); reflexivity.
    + destruct (ExpiringMapFacts.emap_entry_set K_eq_dec key value expiryMs
                  mapCallback w) as (e & G & _ & Hc).
      exists e. split; [exact G|]. rewrite Hc. destruct mapCallback; reflexivity.
    + intros W.
      pose proof (ExpiringMapFacts.emap_wf_set K_eq_dec key value expiryMs
                    mapCallback W) as W'.
      split; [apply ExpiringMapMore.emap_expiry_iff_timer, W'|]. split.
      * intros id t Hin Hk.
        destruct (@ExpiringMapMore.emap_set_timer_of_key _ _ _ _ K_eq_dec key value
                    expiryMs mapCallback w W id t Hin Hk) as (-> & ms & _ & _ & Hv).
        split; [reflexivity|]. split; [exact Hv|].
        intros t0 Hin0.
        pose proof (@ExpiringMapMore.emap_fresh_timer _ _ _ _ _ _ _ W Hin0). lia.
      * intros id t. apply ExpiringMapMore.emap_set_timers_other, W.
  - split; [|split].
    + rewrite ExpiringSetFacts.eset_getExpiry_add.
      destruct expiryMs; [reflexivity|]. simpl.
      destruct (ExpiringSet.option_of _ s); reflexivity.
    + destruct (ExpiringSetFacts.eset_entry_add T_eq_dec member expiryMs
                  setCallback s) as (e & G & Hc).
      exists e. split; [exact G|]. rewrite Hc. destruct setCallback; reflexivity.
    + intros W.
      pose proof (ExpiringSetFacts.eset_wf_add T_eq_dec member expiryMs
                    setCallback W) as W'.
      split; [apply ExpiringSetMore.eset_expiry_iff_timer, W'|]. split.
      * intros id t Hin Hk.
        destruct (@ExpiringSetMore.eset_add_timer_of_key _ _ _ T_eq_dec member
                    expiryMs setCallback s W id t Hin Hk) as (-> & ms & _ & _).
        split; [reflexivity|].
        intros t0 Hin0.
        pose proof (@ExpiringSetMore.eset_fresh_timer _ _ _ _ _ _ W Hin0). lia.
      * intros id t. apply ExpiringSetMore.eset_add_timers_other, W.
Qed.

(** X3.  In every state that a container reaches from [new] through
    calls of its methods, timers firing and time passing: a key is stored
    once; an entry has an expiry exactly when a timer is pending for its
    key; no two pending timers belong to the same key; and every pending
    timer belongs to a key that is present and closes over the value the
    key holds now.  So no timer outlives its entry, and there are never
    more pending timers than entries. *)
Theorem X3_reachable_invariant (w : MapWorld) (s : SetWorld) :
  (ExpiringMap.reachable K_eq_dec w ->
   NoDup (ExpiringMap.keys w) /\
   (forall key,
       ExpiringMap.getExpiry K_eq_dec key w <> None <->
       exists id t, In (id, t) (timers (ExpiringMap.rt w)) /\
                    ExpiringMap.task_key (task t) = key) /\
   (forall id t id' t',
       In (id, t) (timers (ExpiringMap.rt w)) ->
       In (id', t') (timers (ExpiringMap.rt w)) ->
       ExpiringMap.task_key (task t) = ExpiringMap.task_key (task t') ->
       id = id' /\ t = t') /\
   (forall id t,
       In (id, t) (timers (ExpiringMap.rt w)) ->
       ExpiringMap.get K_eq_dec (ExpiringMap.task_key (task t)) w =
       Some (ExpiringMap.task_value (task t))) /\
   (length (timers (ExpiringMap.rt w)) <= ExpiringMap.size w)%nat)
  /\
  (ExpiringSet.reachable T_eq_dec s ->
   NoDup (ExpiringSet.values s) /\
   (forall value,
       ExpiringSet.getExpiry T_eq_dec value s <> None <->
       exists id t, In (id, t) (timers (ExpiringSet.rt s)) /\
                    ExpiringSet.task_value (task t) = value) /\
   (forall id t id' t',
       In (id, t) (timers (ExpiringSet.rt s)) ->
       In (id', t') (timers (ExpiringSet.rt s)) ->
       ExpiringSet.task_value (task t) = ExpiringSet.task_value (task t') ->
       id = id' /\ t = t') /\
   (forall id t,
       In (id, t) (timers (ExpiringSet.rt s)) ->
       ExpiringSet.has T_eq_dec (ExpiringSet.task_value (task t)) s = true) /\
   (length (timers (ExpiringSet.rt s)) <= ExpiringSet.size s)%nat).
Proof.
  split; intros R.
  - apply ExpiringMapFacts.emap_reachable_wf in R.
    split; [now destruct R as [[Hk _ _ _ _] _]|].
    split; [intros key; now apply ExpiringMapMore.emap_expiry_iff_timer|].
    split; [intros id t id' t'; now apply ExpiringMapMore.emap_one_timer_per_key|].
    split; [intros id t; now apply ExpiringMapMore.emap_timer_value|].
    now apply ExpiringMapMore.emap_timers_le_size.
  - apply ExpiringSetFacts.eset_reachable_wf in R.
    split; [now destruct R as [[Hk _ _ _ _] _]|].
    split; [intros key; now apply ExpiringSetMore.eset_expiry_iff_timer|].
    split; [intros id t id' t'; now apply ExpiringSetMore.eset_one_timer_per_key|].
    split; [intros id t; now apply ExpiringSetMore.eset_timer_value|].
    now apply ExpiringSetMore.eset_timers_le_size.
Qed.

(** X4.  A timer runs at most once, and never for an entry that is no
    longer the one it was armed for.  Take a live entry that holds the
    timer [id].  Once the key has been deleted, had its expiry cleared,
    been expired by hand, been set again or been given a new expiry, the
    timer [id] is not pending any more and cannot fire; and when the timer
    does fire, it cannot fire a second time. *)
Theorem X4_stale_timer_cannot_fire
        (key : K) (value : T) (w : MapWorld) (s : SetWorld) :
  (ExpiringMap.wf w ->
   forall e id,
     JsMap.get K_eq_dec key (ExpiringMap.map w) = Some e ->
     ExpiringMap.timer e = Some id ->
     ExpiringMap.fire K_eq_dec id (snd (ExpiringMap.delete K_eq_dec key w)) = None /\
     ExpiringMap.fire K_eq_dec id (snd (ExpiringMap.clearExpiry K_eq_dec key w)) = None /\
     ExpiringMap.fire K_eq_dec id (fst (ExpiringMap.expire K_eq_dec key w)) = None /\
     (forall v expiryMs expiryCallback,
         ExpiringMap.fire K_eq_dec id
           (ExpiringMap.set K_eq_dec key v expiryMs expiryCallback w) = None) /\
     (forall msFromNow,
         ExpiringMap.fire K_eq_dec id
           (snd (ExpiringMap.setExpiry K_eq_dec key msFromNow w)) = None) /\
     (forall w', ExpiringMap.fire K_eq_dec id w = Some w' ->
                 ExpiringMap.fire K_eq_dec id w' = None))
  /\
  (ExpiringSet.wf s ->
   forall e id,
     JsMap.get T_eq_dec value (ExpiringSet.map s) = Some e ->
     ExpiringSet.timer e = Some id ->
     ExpiringSet.fire T_eq_dec id (snd (ExpiringSet.delete T_eq_dec value s)) = None /\
     ExpiringSet.fire T_eq_dec id (snd (ExpiringSet.clearExpiry T_eq_dec value s)) = None /\
     ExpiringSet.fire T_eq_dec id (fst (ExpiringSet.expire T_eq_dec value s)) = None /\
     (forall expiryMs expiryCallback,
         ExpiringSet.fire T_eq_dec id
           (ExpiringSet.add T_eq_dec value expiryMs expiryCallback s) = None) /\
     (forall msFromNow,
         ExpiringSet.fire T_eq_dec id
           (snd (ExpiringSet.setExpiry T_eq_dec value msFromNow s)) = None) /\
     (forall s', ExpiringSet.fire T_eq_dec id s = Some s' ->
                 ExpiringSet.fire T_eq_dec id s' = None)).
Proof.
  split.
  - intros W e id G Ht.
    exact (@ExpiringMapMore.emap_old_timer_cannot_fire _ _ _ _ K_eq_dec key e id w W G Ht).
  - intros W e id G Ht.
    exact (@ExpiringSetMore.eset_old_timer_cannot_fire _ _ _ T_eq_dec value e id s W G Ht).
Qed.

(** X5.  [setMinimumExpiry(key, m)] on an entry that has an expiry
    returns [true] and leaves, as the expiry that is recorded for the
    entry and that [getExpiry] returns, the later of the two times: the
    expiry the entry had and [now + m]; the value is kept.  Two calls in
    a row, at one reading of the clock, leave the latest of the three
    times, in whichever order they are made.  The timer is another
    matter.  When the recorded expiry is late enough the call changes
    nothing.  When the call extends it, the entry gets a fresh timer, the
    only one of the key, due after the delay that [setTimeout] takes [m]
    for: at the recorded expiry when [1 <= m <= TIMEOUT_MAX], and one
    millisecond from now when [m] is above [TIMEOUT_MAX], however late
    the recorded expiry then is. *)
Theorem X5_setMinimumExpiry_keeps_latest
        (key : K) (value : T) (m m' : Z) (w : MapWorld) (s : SetWorld) :
  (forall old,
      ExpiringMap.getExpiry K_eq_dec key w = Some old ->
      let w1 := snd (ExpiringMap.setMinimumExpiry K_eq_dec key m w) in
      fst (ExpiringMap.setMinimumExpiry K_eq_dec key m w) = true /\
      ExpiringMap.getExpiry K_eq_dec key w1 =
        Some (Z.max old (now (ExpiringMap.rt w) + m)) /\
      ExpiringMap.get K_eq_dec key w1 = ExpiringMap.get K_eq_dec key w /\
      ExpiringMap.getExpiry K_eq_dec key
        (snd (ExpiringMap.setMinimumExpiry K_eq_dec key m' w1)) =
        Some (Z.max old (now (ExpiringMap.rt w) + Z.max m m')) /\
      ExpiringMap.getExpiry K_eq_dec key
        (snd (ExpiringMap.setMinimumExpiry K_eq_dec key m' w1)) =
      ExpiringMap.getExpiry K_eq_dec key
        (snd (ExpiringMap.setMinimumExpiry K_eq_dec key m
                (snd (ExpiringMap.setMinimumExpiry K_eq_dec key m' w)))) /\
      (now (ExpiringMap.rt w) + m <= old -> w1 = w) /\
      (ExpiringMap.wf w -> old < now (ExpiringMap.rt w) + m ->
       (exists t,
           pending (next_timer (ExpiringMap.rt w)) (ExpiringMap.rt w1) = Some t /\
           ExpiringMap.task_key (task t) = key) /\
       (forall id t,
           In (id, t) (timers (ExpiringMap.rt w1)) ->
           ExpiringMap.task_key (task t) = key ->
           id = next_timer (ExpiringMap.rt w) /\
           due t = now (ExpiringMap.rt w) + timer_delay m /\
           (1 <= m <= TIMEOUT_MAX ->
            ExpiringMap.getExpiry K_eq_dec key w1 = Some (due t)) /\
           (TIMEOUT_MAX < m ->
            due t = now (ExpiringMap.rt w) + 1 /\
            exists d, ExpiringMap.getExpiry K_eq_dec key w1 = Some d /\
                      due t < d))))
  /\
  (forall old,
      ExpiringSet.getExpiry T_eq_dec value s = Some old ->
      let s1 := snd (ExpiringSet.setMinimumExpiry T_eq_dec value m s) in
      fst (ExpiringSet.setMinimumExpiry T_eq_dec value m s) = true /\
      ExpiringSet.getExpiry T_eq_dec value s1 =
        Some (Z.max old (now (ExpiringSet.rt s) + m)) /\
      ExpiringSet.has T_eq_dec value s1 = true /\
      ExpiringSet.getExpiry T_eq_dec value
        (snd (ExpiringSet.setMinimumExpiry T_eq_dec value m' s1)) =
        Some (Z.max old (now (ExpiringSet.rt s) + Z.max m m')) /\
      ExpiringSet.getExpiry T_eq_dec value
        (snd (ExpiringSet.setMinimumExpiry T_eq_dec value m' s1)) =
      ExpiringSet.getExpiry T_eq_dec value
        (snd (ExpiringSet.setMinimumExpiry T_eq_dec value m
                (snd (ExpiringSet.setMinimumExpiry T_eq_dec value m' s)))) /\
      (now (ExpiringSet.rt s) + m <= old -> s1 = s) /\
      (ExpiringSet.wf s -> old < now (ExpiringSet.rt s) + m ->
       (exists t,
           pending (next_timer (ExpiringSet.rt s)) (ExpiringSet.rt s1) = Some t /\
           ExpiringSet.task_value (task t) = value) /\
       (forall id t,
           In (id, t) (timers (ExpiringSet.rt s1)) ->
           ExpiringSet.task_value (task t) = value ->
           id = next_timer (ExpiringSet.rt s) /\
           due t = now (ExpiringSet.rt s) + timer_delay m /\
           (1 <= m <= TIMEOUT_MAX ->
            ExpiringSet.getExpiry T_eq_dec value s1 = Some (due t)) /\
           (TIMEOUT_MAX < m ->
            due t = now (ExpiringSet.rt s) + 1 /\
            exists d, ExpiringSet.getExpiry T_eq_dec value s1 = Some d /\
                      due t < d)))).
Proof.
  split; intros old G; cbv zeta.
  - destruct (ExpiringMapMore.emap_setMinimumExpiry_max K_eq_dec key m w G)
      as (Ht & G1 & Hv & Hn).
    destruct (ExpiringMapMore.emap_setMinimumExpiry_max K_eq_dec key m' _ G1)
      as (_ & G2 & _ & _).
    destruct (ExpiringMapMore.emap_setMinimumExpiry_max K_eq_dec key m' w G)
      as (_ & G1' & _ & Hn').
    destruct (ExpiringMapMore.emap_setMinimumExpiry_max K_eq_dec key m _ G1')
      as (_ & G2' & _ & _).
    rewrite Hn in G2. rewrite Hn' in G2'.
    split; [exact Ht|]. split; [exact G1|]. split; [exact Hv|].
    split; [rewrite G2; f_equal; lia|].
    split; [rewrite G2, G2'; f_equal; lia|].
    split.
    + intros L. rewrite ExpiringMapFacts.emap_setMinimumExpiry_eq, G.
      apply Z.ltb_ge in L. now rewrite L.
    + intros W L.
      destruct (ExpiringMapMore.emap_setMinimumExpiry_timer K_eq_dec key m W G L)
        as [Hex Hall].
      split; [exact Hex|].
      intros id t Hin Hk. destruct (Hall id t Hin Hk) as [Hid Hd].
      split; [exact Hid|]. split; [exact Hd|]. split.
      * intros Hm. rewrite G1, Hd, (timer_delay_kept Hm). f_equal. lia.
      * intros Hm. rewrite Hd, (timer_delay_above Hm). split; [reflexivity|].
        eexists. split; [exact G1|]. unfold TIMEOUT_MAX in Hm. lia.
  - destruct (ExpiringSetMore.eset_setMinimumExpiry_max T_eq_dec value m s G)
      as (Ht & G1 & Hv & Hn).
    destruct (ExpiringSetMore.eset_setMinimumExpiry_max T_eq_dec value m' _ G1)
      as (_ & G2 & _ & _).
    destruct (ExpiringSetMore.eset_setMinimumExpiry_max T_eq_dec value m' s G)
      as (_ & G1' & _ & Hn').
    destruct (ExpiringSetMore.eset_setMinimumExpiry_max T_eq_dec value m _ G1')
      as (_ & G2' & _ & _).
    rewrite Hn in G2. rewrite Hn' in G2'.
    split; [exact Ht|]. split; [exact G1|]. split; [exact Hv|].
    split; [rewrite G2; f_equal; lia|].
    split; [rewrite G2, G2'; f_equal; lia|].
    split.
    + intros L. rewrite ExpiringSetFacts.eset_setMinimumExpiry_eq, G.
      apply Z.ltb_ge in L. now rewrite L.
    + intros W L.
      destruct (ExpiringSetMore.eset_setMinimumExpiry_timer T_eq_dec value m W G L)
        as [Hex Hall].
      split; [exact Hex|].
      intros id t Hin Hk. destruct (Hall id t Hin Hk) as [Hid Hd].
      split; [exact Hid|]. split; [exact Hd|]. split.
      * intros Hm. rewrite G1, Hd, (timer_delay_kept Hm). f_equal. lia.
      * intros Hm. rewrite Hd, (timer_delay_above Hm). split; [reflexivity|].
        eexists. split; [exact G1|]. unfold TIMEOUT_MAX in Hm. lia.
Qed.


(** X7.  A timer that fires does what [expire] does.  For a live entry
    that holds the timer [id], the firing of [id] leaves the same entries
    and the same pending timers as [expire(key)]; and it leaves the very
    same state when the callback does not fail or when the container has
    no [expireErrorCallback].  The two differ only in where a failure of
    the callback goes: to the caller of [expire], to the error callback
    of the timer. *)
Theorem X7_timer_fire_is_expire
        (key : K) (value : T) (w : MapWorld) (s : SetWorld) :
  (ExpiringMap.wf w ->
   forall e id,
     JsMap.get K_eq_dec key (ExpiringMap.map w) = Some e ->
     ExpiringMap.timer e = Some id ->
     exists w',
       ExpiringMap.fire K_eq_dec id w = Some w' /\
       ExpiringMap.map w' = ExpiringMap.map (fst (ExpiringMap.expire K_eq_dec key w)) /\
       timers (ExpiringMap.rt w') =
         timers (ExpiringMap.rt (fst (ExpiringMap.expire K_eq_dec key w))) /\
       (ExpiringMap.option_of (@ExpiringMap.expireErrorCallback K V U Err) w = None ->
        w' = fst (ExpiringMap.expire K_eq_dec key w)) /\
       (forall b, snd (ExpiringMap.expire K_eq_dec key w) = Fulfilled b ->
                  w' = fst (ExpiringMap.expire K_eq_dec key w)))
  /\
  (ExpiringSet.wf s ->
   forall e id,
     JsMap.get T_eq_dec value (ExpiringSet.map s) = Some e ->
     ExpiringSet.timer e = Some id ->
     exists s',
       ExpiringSet.fire T_eq_dec id s = Some s' /\
       ExpiringSet.map s' = ExpiringSet.map (fst (ExpiringSet.expire T_eq_dec value s)) /\
       timers (ExpiringSet.rt s') =
         timers (ExpiringSet.rt (fst (ExpiringSet.expire T_eq_dec value s))) /\
       (ExpiringSet.option_of (@ExpiringSet.expireErrorCallback T U Err) s = None ->
        s' = fst (ExpiringSet.expire T_eq_dec value s)) /\
       (forall b, snd (ExpiringSet.expire T_eq_dec value s) = Fulfilled b ->
                  s' = fst (ExpiringSet.expire T_eq_dec value s))).
Proof.
  split; intros W e id G Ht.
  - exact (@ExpiringMapMore.emap_fire_is_expire _ _ _ _ K_eq_dec key e id w W G Ht).
  - exact (@ExpiringSetMore.eset_fire_is_expire _ _ _ T_eq_dec value e id s W G Ht).
Qed.

(** X8.  Lookups agree with iteration.  [size] is the number of keys,
    of entries and of values that the iterators yield; [has(key)] holds
    exactly when the key is among the keys yielded, and exactly when
    [get(key)] yields a value; an absent key has no value and no expiry;
    and in a well-formed map [get(key)] is [value] exactly when
    [entries] yields the pair.  In the set, [keys] is [values] and
    [entries] pairs each value with itself. *)
Theorem X8_lookup_agrees_with_iteration (w : MapWorld) (s : SetWorld) :
  (ExpiringMap.size w = length (ExpiringMap.keys w) /\
   ExpiringMap.size w = length (ExpiringMap.entries w) /\
   ExpiringMap.size w = length (ExpiringMap.values w) /\
   (forall key, ExpiringMap.has K_eq_dec key w = true <-> In key (ExpiringMap.keys w)) /\
   (forall key, ExpiringMap.has K_eq_dec key w = true <->
                exists v, ExpiringMap.get K_eq_dec key w = Some v) /\
   (forall key, ExpiringMap.has K_eq_dec key w = false ->
                ExpiringMap.get K_eq_dec key w = None /\
                ExpiringMap.getExpiry K_eq_dec key w = None) /\
   (ExpiringMap.wf w ->
    forall key v, ExpiringMap.get K_eq_dec key w = Some v <->
                  In (key, v) (ExpiringMap.entries w)))
  /\
  (ExpiringSet.size s = length (ExpiringSet.values s) /\
   ExpiringSet.size s = length (ExpiringSet.entries s) /\
   ExpiringSet.keys s = ExpiringSet.values s /\
   (forall value, ExpiringSet.has T_eq_dec value s = true <->
                  In value (ExpiringSet.values s)) /\
   (forall value, ExpiringSet.has T_eq_dec value s = true <->
                  In (value, value) (ExpiringSet.entries s)) /\
   (forall value, ExpiringSet.has T_eq_dec value s = false ->
                  ExpiringSet.getExpiry T_eq_dec value s = None)).
Proof.
  split.
  - apply ExpiringMapMore.emap_lookup_iteration.
  - apply ExpiringSetMore.eset_lookup_iteration.
Qed.


(** X10.  Insertion and removal compose as a user expects.  Deleting a
    key right after setting it leaves the entries and the pending timers
    that deleting it in the first place leaves, hence those of the
    container itself when the key was new, and calls no callback.
    Setting a key twice, at one reading of the clock, is setting it once
    with the second arguments: the entries, the expiry of every key and
    the timers of the other keys are the same.  Likewise for [add]. *)
Theorem X10_set_delete_round_trip
        (key : K) (v1 v2 : V) (value : T) (ms1 ms2 : option Z)
        (cb1 cb2 : option (ExpiringMap.MapExpiryCallback K V U Err))
        (sb1 sb2 : option (ExpiringSet.SetExpiryCallback T U Err))
        (w : MapWorld) (s : SetWorld) :
  (ExpiringMap.wf w ->
   (let w' := snd (ExpiringMap.delete K_eq_dec key
                     (ExpiringMap.set K_eq_dec key v1 ms1 cb1 w)) in
    ExpiringMap.entries w' =
      ExpiringMap.entries (snd (ExpiringMap.delete K_eq_dec key w)) /\
    timers (ExpiringMap.rt w') =
      timers (ExpiringMap.rt (snd (ExpiringMap.delete K_eq_dec key w))) /\
    user (ExpiringMap.rt w') = user (ExpiringMap.rt w) /\
    (ExpiringMap.has K_eq_dec key w = false ->
     ExpiringMap.entries w' = ExpiringMap.entries w /\
     timers (ExpiringMap.rt w') = timers (ExpiringMap.rt w))) /\
   (let w2 := ExpiringMap.set K_eq_dec key v2 ms2 cb2
                (ExpiringMap.set K_eq_dec key v1 ms1 cb1 w) in
    let w1 := ExpiringMap.set K_eq_dec key v2 ms2 cb2 w in
    ExpiringMap.entries w2 = ExpiringMap.entries w1 /\
    (forall k, ExpiringMap.getExpiry K_eq_dec k w2 = ExpiringMap.getExpiry K_eq_dec k w1) /\
    (forall id t, ExpiringMap.task_key (task t) <> key ->
        (In (id, t) (timers (ExpiringMap.rt w2)) <->
         In (id, t) (timers (ExpiringMap.rt w1))))))
  /\
  (ExpiringSet.wf s ->
   (let s' := snd (ExpiringSet.delete T_eq_dec value
                     (ExpiringSet.add T_eq_dec value ms1 sb1 s)) in
    ExpiringSet.values s' =
      ExpiringSet.values (snd (ExpiringSet.delete T_eq_dec value s)) /\
    timers (ExpiringSet.rt s') =
      timers (ExpiringSet.rt (snd (ExpiringSet.delete T_eq_dec value s))) /\
    user (ExpiringSet.rt s') = user (ExpiringSet.rt s) /\
    (ExpiringSet.has T_eq_dec value s = false ->
     ExpiringSet.values s' = ExpiringSet.values s /\
     timers (ExpiringSet.rt s') = timers (ExpiringSet.rt s))) /\
   (let s2 := ExpiringSet.add T_eq_dec value ms2 sb2
                (ExpiringSet.add T_eq_dec value ms1 sb1 s) in
    let s1 := ExpiringSet.add T_eq_dec value ms2 sb2 s in
    ExpiringSet.values s2 = ExpiringSet.values s1 /\
    (forall k, ExpiringSet.getExpiry T_eq_dec k s2 = ExpiringSet.getExpiry T_eq_dec k s1) /\
    (forall id t, ExpiringSet.task_value (task t) <> value ->
        (In (id, t) (timers (ExpiringSet.rt s2)) <->
         In (id, t) (timers (ExpiringSet.rt s1)))))).
Proof.
  split; intros W; split.
  - exact (@ExpiringMapMore.emap_delete_undoes_set _ _ _ _ K_eq_dec key v1 ms1 cb1 w W).
  - exact (@ExpiringMapMore.emap_last_set_wins _ _ _ _ K_eq_dec key v1 v2 ms1 ms2
             cb1 cb2 w W).
  - exact (@ExpiringSetMore.eset_delete_undoes_add _ _ _ T_eq_dec value ms1 sb1 s W).
  - exact (@ExpiringSetMore.eset_last_add_wins _ _ _ T_eq_dec value ms1 ms2 sb1 sb2 s W).
Qed.


(** X20.  User code runs only in [forEach], [expire], [expireAll] and
    in timers.  Every other call of a method leaves the user state, the
    unhandled rejections, the clock and the options of the container as
    they were: in particular [set] over a key that has a callback,
    [delete], [clear], [clearExpiry] and [setExpiry] call no callback. *)
Theorem X20_calls_without_callback
        (w : MapWorld) (s : SetWorld)
        (mc : ExpiringMap.Call K V U Err) (sc : ExpiringSet.Call T U Err) :
  (ExpiringMap.may_call_back mc = false ->
   user (ExpiringMap.rt (fst (ExpiringMap.run K_eq_dec mc w))) = user (ExpiringMap.rt w) /\
   unhandled (ExpiringMap.rt (fst (ExpiringMap.run K_eq_dec mc w))) =
     unhandled (ExpiringMap.rt w) /\
   now (ExpiringMap.rt (fst (ExpiringMap.run K_eq_dec mc w))) = now (ExpiringMap.rt w) /\
   ExpiringMap.options (fst (ExpiringMap.run K_eq_dec mc w)) = ExpiringMap.options w)
  /\
  (ExpiringSet.may_call_back sc = false ->
   user (ExpiringSet.rt (fst (ExpiringSet.run T_eq_dec sc s))) = user (ExpiringSet.rt s) /\
   unhandled (ExpiringSet.rt (fst (ExpiringSet.run T_eq_dec sc s))) =
     unhandled (ExpiringSet.rt s) /\
   now (ExpiringSet.rt (fst (ExpiringSet.run T_eq_dec sc s))) = now (ExpiringSet.rt s) /\
   ExpiringSet.options (fst (ExpiringSet.run T_eq_dec sc s)) = ExpiringSet.options s).
Proof.
  split.
  - apply ExpiringMapMore.emap_run_user.
  - apply ExpiringSetMore.eset_run_user.
Qed.


(** X23.  After a sequence of insertions a key holds what its last
    insertion gave it.  When the pairs of [contents] are [set] one after
    the other, [get(key)] is the value of the last pair of [contents]
    with that key, and what the map held before when there is none.  In
    the set, a value is present after a sequence of [add] exactly when
    it was added or was present before. *)
Theorem X23_lookup_after_insertions
        (key : K) (value : T)
        (contents : list (K * V * option Z *
                          option (ExpiringMap.MapExpiryCallback K V U Err)))
        (members : list (T * option Z *
                         option (ExpiringSet.SetExpiryCallback T U Err)))
        (w : MapWorld) (s : SetWorld) :
  ExpiringMap.get K_eq_dec key (ExpiringMap.set_each K_eq_dec contents w) =
    match find (fun c => if K_eq_dec (ExpiringMap.key_of c) key then true else false)
               (rev contents) with
    | Some c => Some (snd (fst (fst c)))
    | None => ExpiringMap.get K_eq_dec key w
    end
  /\
  ExpiringSet.has T_eq_dec value (ExpiringSet.add_each T_eq_dec members s) =
    existsb (fun c => if T_eq_dec (ExpiringSet.value_of c) value then true else false)
            members
    || ExpiringSet.has T_eq_dec value s.
Proof.
  split.
  - apply ExpiringMapMore.emap_get_set_each.
  - apply ExpiringSetMore.eset_has_add_each.
Qed.

End ContainerProperties.

(** * [delayUntil]: how the loop ends *)
Module AsyncFacts.
Import Async.
Section AsyncFacts.
Variables U Err : Type.
Variable others : nat -> World U -> World U.
Variable condition : Condition U Err.

Abbreviation loop := (delayUntil_loop others condition).

Lemma timer_ms_pos (ms : Z) : 1 <= timer_ms ms.
Proof.
  unfold timer_ms, timer_delay, TIMEOUT_MAX.
  destruct (ms <? 1) eqn:L; simpl; [lia|].
  destruct (2147483647 <? ms); [lia|]. apply Z.ltb_ge in L. lia.
Qed.

Lemma delay_elapsed (n : nat) (ms : Z) (w : World U) :
  now w + timer_ms ms <= now (delay others n ms w).
Proof. unfold delay. simpl. lia. Qed.

(** One turn of the loop, by the way the check ends. *)
Lemma loop_step (timeoutTime : Num) (c : Z) (sw : bool) (fuel n : nat) (w : World U) :
  loop timeoutTime c sw (S fuel) n w =
  let w1 := fst (condition w) in
  let again :=
    if num_leb (now (delay others n c w1)) timeoutTime
    then loop timeoutTime c sw fuel (S n) (delay others n c w1)
    else Some (delay others n c w1, Rejected TimeoutError) in
  match snd (condition w) with
  | Fulfilled true => Some (w1, Fulfilled tt)
  | Fulfilled false => again
  | Rejected error =>
      if sw then again else Some (w1, Rejected (ConditionError error))
  end.
Proof.
  simpl. destruct (condition w) as [w1 r]. simpl.
  destruct r as [[|]|error]; try reflexivity.
Qed.



(** With a finite deadline the loop ends: every turn that goes on has
    moved the clock by the check interval at least. *)
Lemma loop_terminates (d c : Z) (sw : bool) :
  (forall w, now w <= now (fst (condition w))) ->
  forall (fuel n : nat) (w : World U),
    (Z.to_nat ((d - now w) / timer_ms c) + 1 <= fuel)%nat ->
    exists r, loop (Finite d) c sw fuel n w = Some r.
Proof.
  intros Hc. pose proof (timer_ms_pos c) as Hpos.
  induction fuel as [|fuel IH]; intros n w Hfuel; [lia|].
  rewrite loop_step. cbv zeta.
  assert (Hagain :
            exists r,
              (if num_leb (now (delay others n c (fst (condition w)))) (Finite d)
               then loop (Finite d) c sw fuel (S n) (delay others n c (fst (condition w)))
               else Some (delay others n c (fst (condition w)), Rejected TimeoutError))
              = Some r).
  { destruct (num_leb _ (Finite d)) eqn:L; [|eauto].
    unfold num_leb in L. apply Z.leb_le in L.
    apply IH.
    pose proof (delay_elapsed n c (fst (condition w))) as He.
    pose proof (Hc w) as Hw.
    set (w2 := delay others n c (fst (condition w))) in *.
    assert (H1 : (d - now w2) / timer_ms c <= (d - now w) / timer_ms c - 1).
    { replace ((d - now w) / timer_ms c - 1)
        with ((d - now w + (-1) * timer_ms c) / timer_ms c)
        by (rewrite Z.div_add; lia).
      apply Z.div_le_mono; lia. }
    assert (H2 : 0 <= (d - now w2) / timer_ms c) by (apply Z.div_pos; lia).
    lia. }
  destruct (snd (condition w)) as [[|]|error]; eauto.
  destruct sw; eauto.
Qed.

(** *** The call as a whole *)



Lemma delayUntil_short_timeout (o : DelayUntilOptions) (fuel : nat)
      (w w1 : World U) (T : Z) :
  timeoutMs o = Some (Finite T) ->
  T < timer_ms (or_default (checkIntervalMs o) 200) ->
  now w <= now w1 ->
  condition w = (w1, Fulfilled false) \/
  (exists e, condition w = (w1, Rejected e) /\ swallowExceptions o = Some true) ->
  delayUntil others condition o (S fuel) w =
  Some (delay others 0 (or_default (checkIntervalMs o) 200) w1, Rejected TimeoutError).
Proof.
  unfold delayUntil. intros HT Hlt Hclock Hc.
  rewrite loop_step. cbv zeta.
  pose proof (delay_elapsed 0 (or_default (checkIntervalMs o) 200) w1) as He.
  assert (Hl : num_leb (now (delay others 0 (or_default (checkIntervalMs o) 200) w1))
                       (num_add (now w) (or_default (timeoutMs o) Infinity)) = false).
  { rewrite HT. simpl or_default. unfold num_add, num_leb. apply Z.leb_gt. lia. }
  destruct Hc as [C|(e & C & Hs)]; rewrite C; simpl fst; simpl snd.
  - rewrite Hl. reflexivity.
  - rewrite Hs. simpl or_default. cbv iota. rewrite Hl. reflexivity.
Qed.

Lemma delayUntil_terminates (o : DelayUntilOptions) (T : Z) (fuel : nat)
      (w : World U) :
  timeoutMs o = Some (Finite T) ->
  (forall w0, now w0 <= now (fst (condition w0))) ->
  (Z.to_nat (T / timer_ms (or_default (checkIntervalMs o) 200%Z)) + 1 <= fuel)%nat ->
  exists w' r, delayUntil others condition o fuel w = Some (w', r).
Proof.
  intros HT Hc Hfuel. unfold delayUntil. rewrite HT. simpl or_default at 1.
  unfold num_add.
  destruct (@loop_terminates (now w + T) (or_default (checkIntervalMs o) 200)
              (or_default (swallowExceptions o) false) Hc fuel O w)
    as [[w' r] H].
  - replace (now w + T - now w) with T by lia. exact Hfuel.
  - exists w', r. exact H.
Qed.

(** *** The call ends at the first check that yields [true] *)

Lemma loop_first_true (timeoutTime : Num) (c : Z) (sw : bool) (k : nat) (w : World U) :
  (forall j, (j < k)%nat ->
      snd (condition (check_state others condition c j w)) = Fulfilled false \/
      (exists e, snd (condition (check_state others condition c j w)) = Rejected e /\
                 sw = true)) ->
  (forall j, (1 <= j <= k)%nat ->
      num_leb (now (check_state others condition c j w)) timeoutTime = true) ->
  snd (condition (check_state others condition c k w)) = Fulfilled true ->
  forall m n, (n + m = k)%nat ->
    loop timeoutTime c sw (S m) n (check_state others condition c n w) =
    Some (fst (condition (check_state others condition c k w)), Fulfilled tt).
Proof.
  intros Hbefore Hclock Htrue.
  induction m as [|m IH]; intros n Hn; rewrite loop_step; cbv zeta.
  - replace n with k by lia. rewrite Htrue. reflexivity.
  - assert (Hlt : (n < k)%nat) by lia.
    assert (Hl : num_leb (now (check_state others condition c (S n) w)) timeoutTime = true)
      by (apply Hclock; lia).
    simpl check_state in Hl.
    assert (Hnext : loop timeoutTime c sw (S m) (S n)
                         (delay others n c (fst (condition (check_state others condition c n w)))) =
                    Some (fst (condition (check_state others condition c k w)), Fulfilled tt)).
    { apply (IH (S n)). lia. }
    destruct (Hbefore n Hlt) as [Hf|(e & He & Hs)].
    + rewrite Hf, Hl. exact Hnext.
    + rewrite He, Hl. rewrite Hs in *. exact Hnext.
Qed.

Lemma delayUntil_first_true (o : DelayUntilOptions) (k : nat) (w : World U) :
  let c := or_default (checkIntervalMs o) 200 in
  (forall j, (j < k)%nat ->
      snd (condition (check_state others condition c j w)) = Fulfilled false \/
      (exists e, snd (condition (check_state others condition c j w)) = Rejected e /\
                 swallowExceptions o = Some true)) ->
  (forall j, (1 <= j <= k)%nat ->
      match timeoutMs o with
      | Some (Finite T) => now (check_state others condition c j w) <= now w + T
      | _ => True
      end) ->
  snd (condition (check_state others condition c k w)) = Fulfilled true ->
  delayUntil others condition o (S k) w =
  Some (fst (condition (check_state others condition c k w)), Fulfilled tt).
Proof.
  intros c Hbefore Hclock Htrue. unfold delayUntil. fold c.
  apply (@loop_first_true _ c _ k w) with (m := k) (n := O); auto.
  - intros j Hj. destruct (Hbefore j Hj) as [Hf|(e & He & Hs)]; [auto|].
    right. exists e. split; [exact He|]. now rewrite Hs.
  - intros j Hj. specialize (Hclock j Hj).
    destruct (timeoutMs o) as [[T|]|]; simpl; auto. now apply Z.leb_le.
Qed.

End AsyncFacts.
End AsyncFacts.

(** * Properties of [delayUntil]

    [others] is what the rest of the program does during the waits of the
    call and [condition] the function that is polled; both are
    arbitrary. *)
Section DelayUntilProperties.
Variables U Err : Type.
Variable others : nat -> Async.World U -> Async.World U.
Variable condition : Async.Condition U Err.


(** X12.  [delayUntil] checks before it looks at the clock.  When the
    first check yields [true] the promise is fulfilled at once, without
    any wait, whatever [timeoutMs] is, zero and negative included.  When
    the first check fails and [swallowExceptions] is not set, the promise
    is rejected at once with that error.  And when [timeoutMs] is
    shorter than the check interval, a first check that does not succeed
    is the only one: the call waits one interval and times out, whatever
    happens in the meantime. *)
Theorem X12_delayUntil_first_check
        (o : Async.DelayUntilOptions) (fuel : nat) (w w1 : Async.World U) :
  (condition w = (w1, Fulfilled true) ->
   Async.delayUntil others condition o (S fuel) w = Some (w1, Fulfilled tt)) /\
  (forall e,
      condition w = (w1, Rejected e) ->
      Async.swallowExceptions o <> Some true ->
      Async.delayUntil others condition o (S fuel) w =
      Some (w1, Rejected (Async.ConditionError e))) /\
  (forall T,
      Async.timeoutMs o = Some (Async.Finite T) ->
      T < Async.timer_ms (Async.or_default (Async.checkIntervalMs o) 200) ->
      Async.now w <= Async.now w1 ->
      condition w = (w1, Fulfilled false) \/
      (exists e, condition w = (w1, Rejected e) /\
                 Async.swallowExceptions o = Some true) ->
      Async.delayUntil others condition o (S fuel) w =
      Some (Async.delay others 0 (Async.or_default (Async.checkIntervalMs o) 200) w1,
            Rejected Async.TimeoutError)).
Proof.
  unfold Async.delayUntil. split; [|split].
  - intros C. rewrite AsyncFacts.loop_step, C. reflexivity.
  - intros e C Hs. rewrite AsyncFacts.loop_step, C. simpl.
    destruct (Async.swallowExceptions o) as [[|]|]; simpl; congruence.
  - intros T HT Hlt Hclock Hc. fold (Async.delayUntil others condition o (S fuel) w).
    now apply AsyncFacts.delayUntil_short_timeout with (T := T).
Qed.

(** X13.  With a finite [timeoutMs] a call of [delayUntil] settles, and
    it polls [condition] at most [timeoutMs / checkIntervalMs + 1] times
    (the quotient rounded down, the interval as the timer takes it),
    provided the clock is not set back while [condition] runs: that many
    turns are enough for the promise to be fulfilled or rejected. *)
Theorem X13_delayUntil_terminates
        (o : Async.DelayUntilOptions) (T : Z) (fuel : nat) (w : Async.World U) :
  Async.timeoutMs o = Some (Async.Finite T) ->
  (forall w0, Async.now w0 <= Async.now (fst (condition w0))) ->
  (Z.to_nat (T / Async.timer_ms (Async.or_default (Async.checkIntervalMs o) 200%Z)) + 1
   <= fuel)%nat ->
  exists w' r, Async.delayUntil others condition o fuel w = Some (w', r).
Proof.
  intros HT Hc Hfuel. now apply AsyncFacts.delayUntil_terminates with (T := T).
Qed.

(** X22.  [delayUntil] ends at the first check that yields [true].
    Suppose that the checks number 0 to [k - 1] yield [false], or fail
    while [swallowExceptions] is set, that the waits after them end
    before the deadline, if there is one, and that the check number [k]
    yields [true]: then the promise is fulfilled right after that check,
    after [k] waits and [k + 1] calls of [condition]. *)
Theorem X22_delayUntil_first_true
        (o : Async.DelayUntilOptions) (k : nat) (w : Async.World U) :
  let c := Async.or_default (Async.checkIntervalMs o) 200 in
  (forall j, (j < k)%nat ->
      snd (condition (Async.check_state others condition c j w)) = Fulfilled false \/
      (exists e,
          snd (condition (Async.check_state others condition c j w)) = Rejected e /\
          Async.swallowExceptions o = Some true)) ->
  (forall j, (1 <= j <= k)%nat ->
      match Async.timeoutMs o with
      | Some (Async.Finite T) =>
          Async.now (Async.check_state others condition c j w) <= Async.now w + T
      | _ => True
      end) ->
  snd (condition (Async.check_state others condition c k w)) = Fulfilled true ->
  Async.delayUntil others condition o (S k) w =
  Some (fst (condition (Async.check_state others condition c k w)), Fulfilled tt).
Proof.
  intros c Hbefore Hclock Htrue.
  now apply AsyncFacts.delayUntil_first_true.
Qed.

End DelayUntilProperties.

(** * Mutex: the wait of [acquire] *)
Module MutexFacts.
Import Mutex.
Section MutexFacts.
Variable O : Type.
Variable others : nat -> World O -> World O.

Lemma is_free_clock (w : World O) : Async.now w <= Async.now (fst (is_free w)).
Proof. simpl. lia. Qed.

Lemma release_after_acquire (w : World O) :
  is_owned w = false -> release (with_owned true w) = (w, None).
Proof.
  destruct w as [n [b r]]. unfold is_owned, release. simpl. now intros ->.
Qed.


End MutexFacts.
End MutexFacts.

(** * Properties of the mutex

    [others] is what the rest of the program does while [acquire]
    waits. *)
Section MutexProperties.
Variable O : Type.
Variable others : nat -> Mutex.World O -> Mutex.World O.

(** X14.  A new mutex is free.  [acquire] on a free mutex takes it
    inside the call, without any wait and whatever [timeoutMs] is, and
    its promise is fulfilled with [true]; a [release] then gives back the
    state before the [acquire].  [release] on a free mutex throws
    "Unbalanced release" and changes nothing, so of two calls of
    [release] in a row the second one always throws. *)
Theorem X14_mutex_acquire_release
        (timeoutMs : option Async.Num) (fuel : nat) (now0 : Z) (o : O)
        (w : Mutex.World O) :
  Mutex.is_owned (Mutex.constructor now0 o) = false /\
  (Mutex.is_owned w = false ->
   Mutex.acquire others timeoutMs fuel w = Some (Mutex.with_owned true w, true) /\
   Mutex.release (Mutex.with_owned true w) = (w, None) /\
   Mutex.release w = (w, Some Mutex.UnbalancedRelease)) /\
  (Mutex.is_owned w = true ->
   Mutex.release w = (Mutex.with_owned false w, None) /\
   Mutex.is_owned (fst (Mutex.release w)) = false) /\
  snd (Mutex.release (fst (Mutex.release w))) = Some Mutex.UnbalancedRelease.
Proof.
  split; [reflexivity|]. split; [|split].
  - intros Hf. unfold Mutex.acquire. rewrite Hf.
    split; [reflexivity|]. split; [now apply MutexFacts.release_after_acquire|].
    unfold Mutex.release. rewrite Hf. reflexivity.
  - intros Ho. unfold Mutex.release. rewrite Ho. simpl. auto.
  - unfold Mutex.release. destruct (Mutex.is_owned w) eqn:Ho; simpl.
    + reflexivity.
    + rewrite Ho. reflexivity.
Qed.


(** X16.  [acquire] on a held mutex.  With a [timeoutMs] below the poll
    interval of 200 ms it always fails: the mutex is found held by the
    first check, the wait of 200 ms outlasts the deadline, and the
    promise is fulfilled with [false] without a second check, even when
    the holder has released the mutex meanwhile.  With any finite
    [timeoutMs] the promise settles within [timeoutMs / 200 + 1] checks.
    And when the mutex is free at the end of the first wait and the
    deadline has not passed, [acquire] takes it. *)
Theorem X16_mutex_acquire_held
        (timeoutMs : option Async.Num) (T : Z) (fuel : nat) (w : Mutex.World O) :
  Mutex.is_owned w = true ->
  (T < 200 ->
   Mutex.acquire others (Some (Async.Finite T)) (S fuel) w =
   Some (Async.delay others 0 200 w, false)) /\
  ((Z.to_nat (T / 200) + 1 <= fuel)%nat ->
   exists w' b, Mutex.acquire others (Some (Async.Finite T)) fuel w = Some (w', b)) /\
  (Mutex.is_owned (Async.delay others 0 200 w) = false ->
   match timeoutMs with
   | Some (Async.Finite T') =>
       Async.now (Async.delay others 0 200 w) <= Async.now w + T'
   | _ => True
   end ->
   Mutex.acquire others timeoutMs (S (S fuel)) w =
   Some (Mutex.with_owned true (Async.delay others 0 200 w), true)).
Proof.
  intros Ho. unfold Mutex.acquire. rewrite Ho. split; [|split].
  - intros Hlt.
    simpl Async.or_default.
    rewrite (@AsyncFacts.delayUntil_short_timeout _ _ others (@Mutex.is_free O)
               {| Async.timeoutMs := Some (Async.Finite T);
                  Async.checkIntervalMs := None;
                  Async.swallowExceptions := None |} fuel w w T eq_refl);
      [reflexivity | exact Hlt | lia |].
    left. unfold Mutex.is_free. now rewrite Ho.
  - intros Hfuel.
    destruct (@AsyncFacts.delayUntil_terminates _ _ others (@Mutex.is_free O)
                {| Async.timeoutMs := Some (Async.Finite T);
                   Async.checkIntervalMs := None;
                   Async.swallowExceptions := None |} T fuel w eq_refl
                (MutexFacts.is_free_clock (O := O)) Hfuel) as (w' & r & H).
    simpl Async.or_default. rewrite H.
    destruct r as [[]|e]; eauto.
  - intros Hfree Hdead. unfold Async.delayUntil. simpl Async.or_default.
    rewrite AsyncFacts.loop_step. cbv zeta. simpl fst. simpl snd.
    rewrite Ho. simpl negb. cbv iota.
    assert (Hl : Async.num_leb (Async.now (Async.delay others 0 200 w))
                   (Async.num_add (Async.now w)
                      (Async.or_default timeoutMs Async.Infinity)) = true).
    { destruct timeoutMs as [[T'|]|]; simpl; auto. now apply Z.leb_le. }
    rewrite Hl, AsyncFacts.loop_step. cbv zeta. simpl fst. simpl snd.
    rewrite Hfree. reflexivity.
Qed.

End MutexProperties.

(** * [setdefault] and [setdefault2] *)
Module MapUtilFacts.
Import MapUtil.
Section SetdefaultFacts.
Variables K V U Err : Type.
Variable K_eq_dec : forall x y : K, {x = y} + {x <> y}.

Lemma setdefault_present (m : JsMap.MapData K V) (key : K) (v : V)
      (gen : Generator V U Err) (u : U) :
  JsMap.get K_eq_dec key m = Some v ->
  setdefault K_eq_dec m key gen u = (u, m, Value (Some v)).
Proof.
  intros G. unfold setdefault.
  rewrite (JsMapFacts.get_has K_eq_dec key m G). simpl. now rewrite G.
Qed.

Lemma setdefault_absent (m : JsMap.MapData K V) (key : K)
      (gen : Generator V U Err) (u : U) :
  JsMap.has K_eq_dec key m = false ->
  setdefault K_eq_dec m key gen u =
  match gen u with
  | (u1, inr v) => (u1, JsMap.set K_eq_dec key v m, Value (Some v))
  | (u1, inl e) => (u1, m, Thrown e)
  end.
Proof.
  intros H. unfold setdefault. rewrite H. simpl.
  destruct (gen u) as [u1 [e|v]]; [reflexivity|].
  now rewrite JsMapFacts.get_set.
Qed.

Lemma setdefault_defined (m : JsMap.MapData K V) (key : K)
      (gen : Generator V U Err) (u : U) :
  (exists v, snd (setdefault K_eq_dec m key gen u) = Value (Some v)) \/
  (exists e, snd (setdefault K_eq_dec m key gen u) = Thrown e /\
             JsMap.has K_eq_dec key m = false /\ snd (gen u) = inl e).
Proof.
  destruct (JsMap.has K_eq_dec key m) eqn:H.
  - apply JsMapFacts.has_true_get in H. destruct H as [v G].
    rewrite (@setdefault_present m key v gen u G). left. now exists v.
  - rewrite (@setdefault_absent m key gen u H).
    destruct (gen u) as [u1 [e|v]]; simpl.
    + right. now exists e.
    + left. now exists v.
Qed.
End SetdefaultFacts.

Section SetdefaultMore.
Variables K V U Err : Type.
Variable K_eq_dec : forall x y : K, {x = y} + {x <> y}.

(** The value that [setdefault] returns is the one the map then holds
    under the key. *)
Lemma setdefault_value (m m' : JsMap.MapData K V) (key : K)
      (gen : Generator V U Err) (u u' : U) (v : V) :
  setdefault K_eq_dec m key gen u = (u', m', Value (Some v)) ->
  JsMap.get K_eq_dec key m' = Some v.
Proof.
  unfold setdefault.
  destruct (JsMap.has K_eq_dec key m); simpl.
  - intros [= _ <- <-]. reflexivity.
  - destruct (gen u) as [u1 [e|v']]; intros E; [discriminate|].
    injection E as _ <- E. exact E.
Qed.
End SetdefaultMore.

Section Setdefault2Facts.
Variables K1 K2 V U Err : Type.
Variable K1_eq_dec : forall x y : K1, {x = y} + {x <> y}.
Variable K2_eq_dec : forall x y : K2, {x = y} + {x <> y}.

Abbreviation Heap := (MapUtil.Heap K2 V).

Lemma length_assign (r : Ref) (d : JsMap.MapData K2 V) (h : Heap) :
  length (assign r d h) = length h.
Proof.
  revert r. induction h as [|x h IH]; intros [|r]; simpl; auto.
Qed.

Lemma deref_assign_same (r : Ref) (d : JsMap.MapData K2 V) (h : Heap) :
  (r < length h)%nat -> deref r (assign r d h) = d.
Proof.
  unfold deref. revert r. induction h as [|x h IH]; intros [|r]; simpl; intros L;
    try lia; auto.
  apply IH. lia.
Qed.

Lemma deref_assign_other (r r' : Ref) (d : JsMap.MapData K2 V) (h : Heap) :
  r' <> r -> deref r' (assign r d h) = deref r' h.
Proof.
  unfold deref. revert r r'.
  induction h as [|x h IH]; intros [|r] [|r'] Hne; simpl; auto; try congruence.
Qed.

Lemma assign_deref (r : Ref) (h : Heap) : assign r (deref r h) h = h.
Proof.
  unfold deref. revert r. induction h as [|x h IH]; intros [|r]; simpl; auto.
  now rewrite IH.
Qed.

Lemma assign_assign (r : Ref) (d d' : JsMap.MapData K2 V) (h : Heap) :
  assign r d (assign r d' h) = assign r d h.
Proof.
  revert r. induction h as [|x h IH]; intros [|r]; simpl; auto.
  now rewrite IH.
Qed.

Lemma deref_app_old (r : Ref) (h h' : Heap) :
  (r < length h)%nat -> deref r (h ++ h') = deref r h.
Proof. intros L. unfold deref. now apply app_nth1. Qed.

Lemma deref_app_new (d : JsMap.MapData K2 V) (h : Heap) :
  deref (length h) (h ++ [d]) = d.
Proof. unfold deref. rewrite app_nth2, Nat.sub_diag; auto. Qed.

Lemma assign_app_new (d d' : JsMap.MapData K2 V) (h : Heap) :
  assign (length h) d' (h ++ [d]) = h ++ [d'].
Proof. induction h as [|x h IH]; simpl; auto. now rewrite IH. Qed.

(** [setdefault2] is the inner [setdefault] on the map found under
    [firstKey], mutated where it stands in the heap, or on a new empty
    map that the outer map is given under [firstKey]. *)
Lemma setdefault2_eq (m : JsMap.MapData K1 Ref)
      (firstKey : K1) (secondKey : K2) (gen : Generator V U Err) (h : Heap) (u : U) :
  setdefault2 (Err:=Err) K1_eq_dec K2_eq_dec m firstKey secondKey gen h u =
  match JsMap.get K1_eq_dec firstKey m with
  | Some r =>
      match setdefault K2_eq_dec (deref r h) secondKey gen u with
      | (u2, inner', res) => (u2, assign r inner' h, m, res)
      end
  | None =>
      match setdefault K2_eq_dec [] secondKey gen u with
      | (u2, inner', res) =>
          (u2, h ++ [inner'], JsMap.set K1_eq_dec firstKey (length h) m, res)
      end
  end.
Proof.
  unfold setdefault2.
  destruct (JsMap.get K1_eq_dec firstKey m) as [r|] eqn:G.
  - rewrite (@setdefault_present _ _ _ _ K1_eq_dec m firstKey r _ h G). now rewrite G.
  - assert (H : JsMap.has K1_eq_dec firstKey m = false).
    { rewrite JsMapFacts.has_get, G. reflexivity. }
    rewrite (@setdefault_absent _ _ _ _ K1_eq_dec m firstKey _ h H).
    unfold new_Map. rewrite JsMapFacts.get_set, deref_app_new.
    destruct (setdefault K2_eq_dec [] secondKey gen u) as [[u2 inner'] res].
    now rewrite assign_app_new.
Qed.

Lemma get2_assign_same (m : JsMap.MapData K1 Ref) (h : Heap) (k : K1) (k2 : K2)
      (r : Ref) (d : JsMap.MapData K2 V) :
  JsMap.get K1_eq_dec k m = Some r -> (r < length h)%nat ->
  get2 K1_eq_dec K2_eq_dec m (assign r d h) k k2 = JsMap.get K2_eq_dec k2 d.
Proof.
  intros G L. unfold get2. rewrite G. now rewrite deref_assign_same.
Qed.

Lemma get2_assign_other (m : JsMap.MapData K1 Ref) (h : Heap) (k : K1) (k2 : K2)
      (r r' : Ref) (d : JsMap.MapData K2 V) :
  JsMap.get K1_eq_dec k m = Some r' -> r' <> r ->
  get2 K1_eq_dec K2_eq_dec m (assign r d h) k k2 = get2 K1_eq_dec K2_eq_dec m h k k2.
Proof.
  intros G Hne. unfold get2. rewrite G. now rewrite deref_assign_other.
Qed.

Lemma refs_in_assign (m : JsMap.MapData K1 Ref) (h : Heap) (r : Ref)
      (d : JsMap.MapData K2 V) :
  refs_in K1_eq_dec m h -> refs_in K1_eq_dec m (assign r d h).
Proof. intros W k r' G. rewrite length_assign. eauto. Qed.

Lemma refs_in_new (m : JsMap.MapData K1 Ref) (h : Heap) (k : K1)
      (d : JsMap.MapData K2 V) :
  refs_in K1_eq_dec m h ->
  refs_in K1_eq_dec (JsMap.set K1_eq_dec k (length h) m) (h ++ [d]).
Proof.
  intros W k' r G. rewrite length_app. simpl.
  destruct (K1_eq_dec k' k) as [->|Hne].
  - rewrite JsMapFacts.get_set in G. injection G as <-. lia.
  - rewrite JsMapFacts.get_set_other in G by auto. apply W in G. lia.
Qed.
End Setdefault2Facts.
End MapUtilFacts.

(** * Properties of [setdefault] and [setdefault2] *)
Section SetdefaultProperties.
Variables K K2 V U Err : Type.
Variable K_eq_dec : forall x y : K, {x = y} + {x <> y}.
Variable K2_eq_dec : forall x y : K2, {x = y} + {x <> y}.

(** X17.  [setdefault] never hands back the [undefined] of a missing
    key: it returns the value the key holds, or throws what the generator
    threw.  On a
    present key it returns the stored value, leaves the map as it is and
    does not call the generator.  On an absent key it calls the generator
    once; the value generated is stored under the key, last in iteration
    order, the other keys are untouched, and from then on every
    [setdefault] of the key returns that value without calling its
    generator.  When the generator throws, the map is unchanged. *)
Theorem X17_setdefault
        (m : JsMap.MapData K V) (key : K) (gen : MapUtil.Generator V U Err) (u : U) :
  ((exists v, snd (MapUtil.setdefault K_eq_dec m key gen u) = MapUtil.Value (Some v)) \/
   (exists e, snd (MapUtil.setdefault K_eq_dec m key gen u) = MapUtil.Thrown e /\
              JsMap.has K_eq_dec key m = false /\ snd (gen u) = inl e)) /\
  (forall v,
      JsMap.get K_eq_dec key m = Some v ->
      MapUtil.setdefault K_eq_dec m key gen u = (u, m, MapUtil.Value (Some v))) /\
  (JsMap.has K_eq_dec key m = false ->
   (forall u1 v,
       gen u = (u1, inr v) ->
       let m' := JsMap.set K_eq_dec key v m in
       MapUtil.setdefault K_eq_dec m key gen u = (u1, m', MapUtil.Value (Some v)) /\
       JsMap.keys m' = JsMap.keys m ++ [key] /\
       (forall k, k <> key -> JsMap.get K_eq_dec k m' = JsMap.get K_eq_dec k m) /\
       (forall (gen' : MapUtil.Generator V U Err) u',
           MapUtil.setdefault K_eq_dec m' key gen' u' =
           (u', m', MapUtil.Value (Some v)))) /\
   (forall u1 e,
       gen u = (u1, inl e) ->
       MapUtil.setdefault K_eq_dec m key gen u = (u1, m, MapUtil.Thrown e))).
Proof.
  split; [apply MapUtilFacts.setdefault_defined|].
  split; [intros v G; now apply MapUtilFacts.setdefault_present|].
  intros H. split.
  - intros u1 v Hg m'.
    split; [rewrite (@MapUtilFacts.setdefault_absent _ _ _ _ K_eq_dec m key gen u H), Hg;
            reflexivity|].
    split; [now apply JsMapFacts.keys_set_absent|].
    split; [intros k Hne; now apply JsMapFacts.get_set_other|].
    intros gen' u'. apply MapUtilFacts.setdefault_present.
    apply JsMapFacts.get_set.
  - intros u1 e Hg.
    now rewrite (@MapUtilFacts.setdefault_absent _ _ _ _ K_eq_dec m key gen u H), Hg.
Qed.

(** X18.  [setdefault2] on a map of maps whose inner maps are objects
    that the outer map refers to.  When both keys are present it returns
    the stored value, changes nothing and does not call the generator.
    When [firstKey] holds an inner map that lacks [secondKey], it calls
    the generator once and the outer map stays as it is; when the
    generator returns, the value is put last into that inner map where it
    stands, so that every first key that holds this one inner map yields
    the value under [secondKey], while the inner maps that are other
    objects, and the other second keys, are untouched; when the
    generator throws, nothing changes.  When [firstKey] is absent, the
    outer map is given a new empty inner map under [firstKey], last in
    order; the generated value is stored in it and the other first keys
    yield what they did; when the generator throws, the error goes to the
    caller and [firstKey] is left behind with its empty map.  The call
    never returns the [undefined] of a missing key and never fails on a
    missing inner map; it keeps every reference of the outer map inside
    the heap; and once it has returned a value, every later call for the
    two keys returns that value, changes nothing and does not call its
    generator. *)
Theorem X18_setdefault2
        (m : JsMap.MapData K MapUtil.Ref) (h : MapUtil.Heap K2 V)
        (firstKey : K) (secondKey : K2)
        (gen : MapUtil.Generator V U Err) (u : U) :
  (forall v,
      MapUtil.get2 K_eq_dec K2_eq_dec m h firstKey secondKey = Some v ->
      MapUtil.setdefault2 K_eq_dec K2_eq_dec m firstKey secondKey gen h u =
      (u, h, m, MapUtil.Value (Some v))) /\
  (forall r,
      JsMap.get K_eq_dec firstKey m = Some r ->
      (r < length h)%nat ->
      JsMap.has K2_eq_dec secondKey (MapUtil.deref r h) = false ->
      (forall u1 v,
          gen u = (u1, inr v) ->
          let h' := MapUtil.assign r (JsMap.set K2_eq_dec secondKey v (MapUtil.deref r h)) h in
          MapUtil.setdefault2 K_eq_dec K2_eq_dec m firstKey secondKey gen h u =
            (u1, h', m, MapUtil.Value (Some v)) /\
          JsMap.keys (MapUtil.deref r h') =
            JsMap.keys (MapUtil.deref r h) ++ [secondKey] /\
          (forall k,
              JsMap.get K_eq_dec k m = Some r ->
              MapUtil.get2 K_eq_dec K2_eq_dec m h' k secondKey = Some v) /\
          (forall k r' k2,
              JsMap.get K_eq_dec k m = Some r' -> r' <> r ->
              MapUtil.get2 K_eq_dec K2_eq_dec m h' k k2 =
              MapUtil.get2 K_eq_dec K2_eq_dec m h k k2) /\
          (forall k k2, k2 <> secondKey ->
              MapUtil.get2 K_eq_dec K2_eq_dec m h' k k2 =
              MapUtil.get2 K_eq_dec K2_eq_dec m h k k2)) /\
      (forall u1 e,
          gen u = (u1, inl e) ->
          MapUtil.setdefault2 K_eq_dec K2_eq_dec m firstKey secondKey gen h u =
            (u1, h, m, MapUtil.Thrown e))) /\
  (JsMap.has K_eq_dec firstKey m = false ->
   let m' := JsMap.set K_eq_dec firstKey (length h) m in
   JsMap.keys m' = JsMap.keys m ++ [firstKey] /\
   (forall u1 v,
       gen u = (u1, inr v) ->
       let h' := h ++ [[Some (secondKey, v)]] in
       MapUtil.setdefault2 K_eq_dec K2_eq_dec m firstKey secondKey gen h u =
         (u1, h', m', MapUtil.Value (Some v)) /\
       MapUtil.get2 K_eq_dec K2_eq_dec m' h' firstKey secondKey = Some v /\
       (MapUtil.refs_in K_eq_dec m h ->
        forall k k2, k <> firstKey ->
          MapUtil.get2 K_eq_dec K2_eq_dec m' h' k k2 =
          MapUtil.get2 K_eq_dec K2_eq_dec m h k k2)) /\
   (forall u1 e,
       gen u = (u1, inl e) ->
       MapUtil.setdefault2 K_eq_dec K2_eq_dec m firstKey secondKey gen h u =
         (u1, h ++ [[]], m', MapUtil.Thrown e) /\
       JsMap.get K_eq_dec firstKey m' = Some (length h) /\
       MapUtil.deref (length h) (h ++ [[]]) = [])) /\
  snd (MapUtil.setdefault2 K_eq_dec K2_eq_dec m firstKey secondKey gen h u)
    <> MapUtil.TypeError /\
  snd (MapUtil.setdefault2 K_eq_dec K2_eq_dec m firstKey secondKey gen h u)
    <> MapUtil.Value None /\
  (MapUtil.refs_in K_eq_dec m h ->
   forall u' h' m' res,
     MapUtil.setdefault2 K_eq_dec K2_eq_dec m firstKey secondKey gen h u =
       (u', h', m', res) ->
     MapUtil.refs_in K_eq_dec m' h' /\
     forall v, res = MapUtil.Value (Some v) ->
       forall (gen' : MapUtil.Generator V U Err) u'',
         MapUtil.setdefault2 K_eq_dec K2_eq_dec m' firstKey secondKey gen' h' u'' =
         (u'', h', m', MapUtil.Value (Some v))).
Proof.
  rewrite MapUtilFacts.setdefault2_eq. unfold MapUtil.Ref in *.
  split; [|split; [|split; [|split; [|split]]]].
  - intros v G2. unfold MapUtil.get2, MapUtil.Ref in G2.
    destruct (JsMap.get K_eq_dec firstKey m) as [r|]; [|discriminate].
    rewrite (@MapUtilFacts.setdefault_present _ _ _ _ K2_eq_dec _ secondKey v gen u G2).
    now rewrite MapUtilFacts.assign_deref.
  - intros r G L Habs. rewrite G.
    rewrite (@MapUtilFacts.setdefault_absent _ _ _ _ K2_eq_dec _ secondKey gen u Habs).
    split.
    + intros u1 v Hg. cbv zeta. rewrite Hg.
      split; [reflexivity|].
      split; [rewrite MapUtilFacts.deref_assign_same by exact L;
              now apply JsMapFacts.keys_set_absent|].
      split; [|split].
      * intros k Gk.
        rewrite (MapUtilFacts.get2_assign_same K_eq_dec K2_eq_dec m h k secondKey _ Gk L).
        apply JsMapFacts.get_set.
      * intros k r' k2 Gk Hne.
        now apply MapUtilFacts.get2_assign_other with (r' := r').
      * intros k k2 Hne.
        destruct (JsMap.get K_eq_dec k m) as [r'|] eqn:Gk.
        -- destruct (Nat.eq_dec r' r) as [->|Hr].
           ++ rewrite (MapUtilFacts.get2_assign_same K_eq_dec K2_eq_dec m h k k2 _ Gk L).
              unfold MapUtil.get2, MapUtil.Ref. rewrite Gk.
              now apply JsMapFacts.get_set_other.
           ++ now apply MapUtilFacts.get2_assign_other with (r' := r').
        -- unfold MapUtil.get2, MapUtil.Ref. now rewrite Gk.
    + intros u1 e Hg. rewrite Hg. now rewrite MapUtilFacts.assign_deref.
  - intros Habs. cbv zeta.
    rewrite (JsMapFacts.has_false_get K_eq_dec _ _ Habs).
    rewrite (@MapUtilFacts.setdefault_absent _ _ _ _ K2_eq_dec [] secondKey gen u eq_refl).
    split; [now apply JsMapFacts.keys_set_absent|].
    split.
    + intros u1 v Hg. cbv zeta. rewrite Hg. split; [reflexivity|].
      split.
      * unfold MapUtil.get2, MapUtil.Ref. rewrite JsMapFacts.get_set.
        rewrite MapUtilFacts.deref_app_new. simpl.
        destruct (K2_eq_dec secondKey secondKey); congruence.
      * intros W k k2 Hne. unfold MapUtil.get2, MapUtil.Ref.
        rewrite JsMapFacts.get_set_other by auto.
        destruct (JsMap.get K_eq_dec k m) as [r'|] eqn:Gk; rewrite ?Gk; [|reflexivity].
        rewrite MapUtilFacts.deref_app_old; [reflexivity|]. eapply W; eauto.
    + intros u1 e Hg. rewrite Hg. split; [reflexivity|].
      split; [apply JsMapFacts.get_set | apply MapUtilFacts.deref_app_new].
  - destruct (JsMap.get K_eq_dec firstKey m) as [r|].
    + destruct (@MapUtilFacts.setdefault_defined _ _ _ _ K2_eq_dec
                  (MapUtil.deref r h) secondKey gen u) as [[v Hv]|(e & He & _)];
        destruct (MapUtil.setdefault K2_eq_dec _ secondKey gen u) as [[u2 inner'] res];
        simpl in *; congruence.
    + destruct (@MapUtilFacts.setdefault_defined _ _ _ _ K2_eq_dec
                  [] secondKey gen u) as [[v Hv]|(e & He & _)];
        destruct (MapUtil.setdefault K2_eq_dec _ secondKey gen u) as [[u2 inner'] res];
        simpl in *; congruence.
  - destruct (JsMap.get K_eq_dec firstKey m) as [r|].
    + destruct (@MapUtilFacts.setdefault_defined _ _ _ _ K2_eq_dec
                  (MapUtil.deref r h) secondKey gen u) as [[v Hv]|(e & He & _)];
        destruct (MapUtil.setdefault K2_eq_dec _ secondKey gen u) as [[u2 inner'] res];
        simpl in *; congruence.
    + destruct (@MapUtilFacts.setdefault_defined _ _ _ _ K2_eq_dec
                  [] secondKey gen u) as [[v Hv]|(e & He & _)];
        destruct (MapUtil.setdefault K2_eq_dec _ secondKey gen u) as [[u2 inner'] res];
        simpl in *; congruence.
  - intros W u' h' m' res E.
    destruct (JsMap.get K_eq_dec firstKey m) as [r|] eqn:G.
    + pose proof (W _ _ G) as L.
      destruct (MapUtil.setdefault K2_eq_dec (MapUtil.deref r h) secondKey gen u)
        as [[u2 inner'] res'] eqn:S.
      injection E as <- <- <- <-.
      split; [now apply MapUtilFacts.refs_in_assign|].
      intros v Hres gen' u''. rewrite MapUtilFacts.setdefault2_eq. unfold MapUtil.Ref. rewrite G.
      rewrite MapUtilFacts.deref_assign_same by exact L.
      assert (Gi : JsMap.get K2_eq_dec secondKey inner' = Some v).
      { subst res'. now apply MapUtilFacts.setdefault_value in S. }
      rewrite (@MapUtilFacts.setdefault_present _ _ _ _ K2_eq_dec inner' secondKey v gen' u'' Gi).
      now rewrite MapUtilFacts.assign_assign.
    + destruct (MapUtil.setdefault K2_eq_dec [] secondKey gen u)
        as [[u2 inner'] res'] eqn:S.
      injection E as <- <- <- <-.
      split; [now apply MapUtilFacts.refs_in_new|].
      intros v Hres gen' u''. rewrite MapUtilFacts.setdefault2_eq. unfold MapUtil.Ref. rewrite JsMapFacts.get_set.
      rewrite MapUtilFacts.deref_app_new.
      assert (Gi : JsMap.get K2_eq_dec secondKey inner' = Some v).
      { subst res'. now apply MapUtilFacts.setdefault_value in S. }
      rewrite (@MapUtilFacts.setdefault_present _ _ _ _ K2_eq_dec inner' secondKey v gen' u'' Gi).
      now rewrite MapUtilFacts.assign_app_new.
Qed.
End SetdefaultProperties.

(** * The further properties on the containers of the test suites *)

Lemma three_map_reachable : ExpiringMap.reachable Z.eq_dec Examples.three_map.
Proof.
  unfold Examples.three_map.
  eapply ExpiringMap.reachable_step;
    [|apply (ExpiringMap.step_call Z.eq_dec
               (ExpiringMap.CallSet 4 32 (Some 7000) (Some Examples.record_key)))].
  eapply ExpiringMap.reachable_step;
    [|apply (ExpiringMap.step_call Z.eq_dec
               (ExpiringMap.CallSet 2 90 (Some 900) None))].
  eapply ExpiringMap.reachable_step;
    [apply ExpiringMap.reachable_new
    |apply (ExpiringMap.step_call Z.eq_dec
              (ExpiringMap.CallSet 1 1 None None))].
Qed.

Lemma three_set_reachable : ExpiringSet.reachable Z.eq_dec Examples.three_set.
Proof.
  unfold Examples.three_set.
  eapply ExpiringSet.reachable_step;
    [|apply (ExpiringSet.step_call Z.eq_dec
               (ExpiringSet.CallAdd 4 (Some 7000) (Some Examples.record_value)))].
  eapply ExpiringSet.reachable_step;
    [|apply (ExpiringSet.step_call Z.eq_dec
               (ExpiringSet.CallAdd 2 (Some 900) None))].
  eapply ExpiringSet.reachable_step;
    [apply ExpiringSet.reachable_new
    |apply (ExpiringSet.step_call Z.eq_dec
              (ExpiringSet.CallAdd 1 None None))].
Qed.

(** A fourth key makes [three_map] four entries large; adding a value
    that [three_set] holds leaves its size at three. *)
Lemma X1_witness :
  ExpiringMap.get Z.eq_dec 7
    (ExpiringMap.set Z.eq_dec 7 70 None None Examples.three_map) = Some 70 /\
  ExpiringMap.size (ExpiringMap.set Z.eq_dec 7 70 None None Examples.three_map) = 4%nat /\
  ExpiringSet.size (ExpiringSet.add Z.eq_dec 2 None None Examples.three_set) = 3%nat.
Proof.
  destruct (@X1_set_then_get _ _ _ _ _ Z.eq_dec Z.eq_dec 7 70 2 None None None
              Examples.three_map Examples.three_set)
    as [(Hg & _ & _ & Hs & _) (_ & _ & Hs' & _)].
  split; [exact Hg|].
  split; [exact (Hs three_map_wf) | exact (Hs' three_set_wf)].
Defined.

(** Key 2 of [three_map] set again with a time to live of 0: the expiry
    is the time of the call, and the only timer left for the key is the
    new one, number 2. *)
Lemma X2_witness :
  ExpiringMap.getExpiry Z.eq_dec 2
    (ExpiringMap.set Z.eq_dec 2 91 (Some 0) None Examples.three_map) = Some 1000 /\
  (forall id t,
      In (id, t) (timers (ExpiringMap.rt
                        (ExpiringMap.set Z.eq_dec 2 91 (Some 0) None Examples.three_map))) ->
      ExpiringMap.task_key (task t) = 2 ->
      id = 2%nat /\ ExpiringMap.task_value (task t) = 91) /\
  ExpiringSet.getExpiry Z.eq_dec 2
    (ExpiringSet.add Z.eq_dec 2 (Some 0) None Examples.three_set) = Some 1000.
Proof.
  destruct (@X2_set_expiry_and_timer _ _ _ _ _ Z.eq_dec Z.eq_dec 2 91 2 (Some 0) None None
              Examples.three_map Examples.three_set)
    as [(He & _ & Hw) (He' & _)].
  split; [exact He|]. split; [|exact He'].
  destruct (Hw three_map_wf) as (_ & Ht & _).
  intros id t Hin Hk. destruct (Ht id t Hin Hk) as (Hid & Hv & _).
  split; assumption.
Defined.

(** [three_map] and [three_set] are reached by three insertions: two
    timers are pending for three entries. *)
Lemma X3_witness :
  NoDup (ExpiringMap.keys Examples.three_map) /\
  (length (timers (ExpiringMap.rt Examples.three_map)) <=
   ExpiringMap.size Examples.three_map)%nat /\
  NoDup (ExpiringSet.values Examples.three_set).
Proof.
  destruct (@X3_reachable_invariant _ _ _ _ _ Z.eq_dec Z.eq_dec
              Examples.three_map Examples.three_set) as [Hm Hs].
  destruct (Hm three_map_reachable) as (Hk & _ & _ & _ & Hl).
  destruct (Hs three_set_reachable) as (Hk' & _).
  split; [exact Hk|]. split; [exact Hl | exact Hk'].
Defined.

(** Key 4 of [three_map] holds timer 1: once the key is deleted, or set
    again, timer 1 cannot fire. *)
Lemma X4_witness :
  ExpiringMap.fire Z.eq_dec 1%nat
    (snd (ExpiringMap.delete Z.eq_dec 4 Examples.three_map)) = None /\
  ExpiringMap.fire Z.eq_dec 1%nat
    (ExpiringMap.set Z.eq_dec 4 33 (Some 10) None Examples.three_map) = None /\
  ExpiringSet.fire Z.eq_dec 1%nat
    (snd (ExpiringSet.delete Z.eq_dec 4 Examples.three_set)) = None.
Proof.
  destruct (@X4_stale_timer_cannot_fire _ _ _ _ _ Z.eq_dec Z.eq_dec 4 4
              Examples.three_map Examples.three_set) as [Hm Hs].
  destruct (Hm three_map_wf
              {| ExpiringMap.expiry := Some 8000;
                 ExpiringMap.timer := Some 1%nat;
                 ExpiringMap.expiryCallback := Some Examples.record_key;
                 ExpiringMap.value := 32 |} 1%nat eq_refl eq_refl)
    as (Hd & _ & _ & Hset & _).
  destruct (Hs three_set_wf
              {| ExpiringSet.expiry := Some 8000;
                 ExpiringSet.timer := Some 1%nat;
                 ExpiringSet.expiryCallback := Some Examples.record_value |}
              1%nat eq_refl eq_refl)
    as (Hd' & _).
  split; [exact Hd|]. split; [exact (Hset 33 (Some 10) None) | exact Hd'].
Defined.

Lemma timed_map_wf : ExpiringMap.wf Examples.timed_map.
Proof.
  unfold Examples.timed_map.
  apply ExpiringMapFacts.emap_wf_setExpiry, ExpiringMapFacts.emap_wf_set, new_map_wf.
Qed.

(** The test "setMinExpiry": key 32 expires at 1500 and the clock reads
    1000; minimums of 700 ms and of 100 ms, in either order, leave 1700.
    A minimum of 3000000000 ms records the expiry 3000001000 and arms a
    timer that is due at 1001. *)
Lemma X5_witness :
  ExpiringMap.getExpiry Z.eq_dec 32
    (snd (ExpiringMap.setMinimumExpiry Z.eq_dec 32 100
            (snd (ExpiringMap.setMinimumExpiry Z.eq_dec 32 700 Examples.timed_map)))) =
  Some 1700 /\
  ExpiringSet.getExpiry Z.eq_dec 32
    (snd (ExpiringSet.setMinimumExpiry Z.eq_dec 32 100
            (snd (ExpiringSet.setMinimumExpiry Z.eq_dec 32 700 Examples.timed_set)))) =
  Some 1700 /\
  ExpiringMap.getExpiry Z.eq_dec 32
    (snd (ExpiringMap.setMinimumExpiry Z.eq_dec 32 3000000000 Examples.timed_map)) =
  Some 3000001000 /\
  exists t,
    pending 1%nat
      (ExpiringMap.rt
         (snd (ExpiringMap.setMinimumExpiry Z.eq_dec 32 3000000000 Examples.timed_map))) =
    Some t /\
    due t = 1001.
Proof.
  destruct (@X5_setMinimumExpiry_keeps_latest _ _ _ _ _ Z.eq_dec Z.eq_dec 32 32 700 100
              Examples.timed_map Examples.timed_set) as [Hm Hs].
  destruct (Hm 1500 eq_refl) as (_ & _ & _ & H & _).
  destruct (Hs 1500 eq_refl) as (_ & _ & _ & H' & _).
  split; [exact H|]. split; [exact H'|].
  destruct (@X5_setMinimumExpiry_keeps_latest _ _ _ _ _ Z.eq_dec Z.eq_dec 32 32
              3000000000 100 Examples.timed_map Examples.timed_set) as [Hbig _].
  destruct (Hbig 1500 eq_refl) as (_ & Hrec & _ & _ & _ & _ & Htimer).
  split; [exact Hrec|].
  destruct (Htimer timed_map_wf eq_refl) as [[t [P Hk]] Hall].
  exists t. split; [exact P|].
  destruct (Hall 1%nat t (pending_In _ _ P) Hk) as (_ & _ & _ & Habove).
  destruct (Habove eq_refl) as [Hd _]. exact Hd.
Defined.


(** Timer 1 of [three_map] belongs to key 4, whose callback records the
    key: its firing leaves the state that [expire(4)] leaves. *)
Lemma X7_witness :
  ExpiringMap.fire Z.eq_dec 1%nat Examples.three_map =
    Some (fst (ExpiringMap.expire Z.eq_dec 4 Examples.three_map)) /\
  ExpiringSet.fire Z.eq_dec 1%nat Examples.three_set =
    Some (fst (ExpiringSet.expire Z.eq_dec 4 Examples.three_set)).
Proof.
  destruct (@X7_timer_fire_is_expire _ _ _ _ _ Z.eq_dec Z.eq_dec 4 4
              Examples.three_map Examples.three_set) as [Hm Hs].
  destruct (Hm three_map_wf
              {| ExpiringMap.expiry := Some 8000;
                 ExpiringMap.timer := Some 1%nat;
                 ExpiringMap.expiryCallback := Some Examples.record_key;
                 ExpiringMap.value := 32 |} 1%nat eq_refl eq_refl)
    as (w' & F & _ & _ & Hno & _).
  destruct (Hs three_set_wf
              {| ExpiringSet.expiry := Some 8000;
                 ExpiringSet.timer := Some 1%nat;
                 ExpiringSet.expiryCallback := Some Examples.record_value |}
              1%nat eq_refl eq_refl)
    as (s' & F' & _ & _ & Hno' & _).
  split.
  - rewrite F. f_equal. exact (Hno eq_refl).
  - rewrite F'. f_equal. exact (Hno' eq_refl).
Defined.

(** In [three_map], [get(2)] is 90 and [entries] yields the pair. *)
Lemma X8_witness :
  In (2, 90) (ExpiringMap.entries Examples.three_map) /\
  ExpiringMap.size Examples.three_map = length (ExpiringMap.keys Examples.three_map).
Proof.
  destruct (@X8_lookup_agrees_with_iteration _ _ _ _ _ Z.eq_dec Z.eq_dec
              Examples.three_map Examples.three_set)
    as [(Hs & _ & _ & _ & _ & _ & Hg) _].
  split; [|exact Hs].
  apply (Hg three_map_wf 2 90). reflexivity.
Defined.


(** Key 7 is new to [three_map]: once set and deleted, the entries are
    those of [three_map]. *)
Lemma X10_witness :
  ExpiringMap.entries
    (snd (ExpiringMap.delete Z.eq_dec 7
            (ExpiringMap.set Z.eq_dec 7 70 (Some 5) None Examples.three_map))) =
  [(1, 1); (2, 90); (4, 32)] /\
  ExpiringSet.values
    (snd (ExpiringSet.delete Z.eq_dec 7
            (ExpiringSet.add Z.eq_dec 7 (Some 5) None Examples.three_set))) =
  [1; 2; 4].
Proof.
  destruct (@X10_set_delete_round_trip _ _ _ _ _ Z.eq_dec Z.eq_dec 7 70 71 7
              (Some 5) None None None None None
              Examples.three_map Examples.three_set) as [Hm Hs].
  destruct (Hm three_map_wf) as [(_ & _ & _ & Hnew) _].
  destruct (Hs three_set_wf) as [(_ & _ & _ & Hnew') _].
  split.
  - destruct (Hnew eq_refl) as [He _]. rewrite He. reflexivity.
  - destruct (Hnew' eq_refl) as [He _]. rewrite He. reflexivity.
Defined.


(** The test "delayUntil timeoutMs works": with a timeout of 10 ms and a
    signal that stays down, the first check is the only one. *)
Lemma X12_witness :
  Async.delayUntil UtilExamples.idle UtilExamples.signal UtilExamples.ten_ms 1
                   UtilExamples.start =
  Some ({| Async.now := 1200; Async.user := false |}, Rejected Async.TimeoutError).
Proof.
  destruct (@X12_delayUntil_first_check _ _ UtilExamples.idle UtilExamples.signal
              UtilExamples.ten_ms 0 UtilExamples.start UtilExamples.start)
    as (_ & _ & H).
  rewrite (H 10 eq_refl); [reflexivity | reflexivity | simpl; lia |].
  left. reflexivity.
Defined.

(** With a timeout of 10 ms and the default interval, one check settles
    the promise. *)
Lemma X13_witness :
  exists w' r,
    Async.delayUntil UtilExamples.raise_signal UtilExamples.signal
                     UtilExamples.ten_ms 1 UtilExamples.start = Some (w', r).
Proof.
  apply (@X13_delayUntil_terminates _ _ UtilExamples.raise_signal UtilExamples.signal
           UtilExamples.ten_ms 10 1 UtilExamples.start eq_refl).
  - intros w0. simpl. lia.
  - simpl. lia.
Defined.

(** The test "mutex functionality": [release] on the new mutex throws;
    [acquire] takes it. *)
Lemma X14_witness :
  Mutex.release UtilExamples.free_mutex =
    (UtilExamples.free_mutex, Some Mutex.UnbalancedRelease) /\
  Mutex.acquire UtilExamples.holder_keeps None 0 UtilExamples.free_mutex =
    Some (UtilExamples.held_mutex, true).
Proof.
  destruct (@X14_mutex_acquire_release _ UtilExamples.holder_keeps None 0 1000 tt
              UtilExamples.free_mutex) as (_ & Hfree & _).
  destruct (Hfree eq_refl) as (Ha & _ & Hr).
  split; [exact Hr | exact Ha].
Defined.


(** The test "mutex functionality": the holder releases the mutex during
    the first wait and the second check of [acquire()] takes it. *)
Lemma X16_witness :
  Mutex.acquire UtilExamples.holder_releases None 2 UtilExamples.held_mutex =
  Some (Mutex.with_owned true
          (Async.delay UtilExamples.holder_releases 0 200 UtilExamples.held_mutex),
        true).
Proof.
  destruct (@X16_mutex_acquire_held _ UtilExamples.holder_releases None 0 0
              UtilExamples.held_mutex eq_refl) as (_ & _ & H).
  exact (H eq_refl I).
Defined.

(** The test "setdefault": key 1 holds 10, so the generator of 7000 is
    not called; key 0 is new and gets 97. *)
Lemma X17_witness :
  MapUtil.setdefault Z.eq_dec UtilExamples.one_key 1 (UtilExamples.counting 7000) O =
    (O, UtilExamples.one_key, MapUtil.Value (Some 10)) /\
  MapUtil.setdefault Z.eq_dec UtilExamples.one_key 0 (UtilExamples.counting 97) O =
    (1%nat, [Some (1, 10); Some (0, 97)], MapUtil.Value (Some 97)).
Proof.
  destruct (@X17_setdefault _ _ _ _ Z.eq_dec UtilExamples.one_key 1
              (UtilExamples.counting 7000) O) as (_ & Hp & _).
  destruct (@X17_setdefault _ _ _ _ Z.eq_dec UtilExamples.one_key 0
              (UtilExamples.counting 97) O) as (_ & _ & Ha).
  split; [exact (Hp 10 eq_refl)|].
  destruct (Ha eq_refl) as [Hr _]. destruct (Hr 1%nat 97 eq_refl) as [H _]. exact H.
Defined.

(** One inner map under the first keys 1 and 8: a value generated for
    the keys 1 and 3 is read under 8 and 3 as well.  A generator that
    throws under a first key that is new: the error goes to the caller
    and the first key is left with an empty map. *)
Lemma X18_witness :
  MapUtil.setdefault2 Z.eq_dec Z.eq_dec UtilExamples.two_level 1 2
                      (UtilExamples.counting 7000) UtilExamples.inner_maps O =
    (O, UtilExamples.inner_maps, UtilExamples.two_level, MapUtil.Value (Some 20)) /\
  (MapUtil.setdefault2 Z.eq_dec Z.eq_dec UtilExamples.shared_inner 1 3
                       (UtilExamples.counting 30) UtilExamples.inner_maps O =
     (1%nat, [[Some (2, 20); Some (3, 30)]], UtilExamples.shared_inner,
      MapUtil.Value (Some 30)) /\
   MapUtil.get2 Z.eq_dec Z.eq_dec UtilExamples.shared_inner
                UtilExamples.inner_maps 8 3 = None /\
   MapUtil.get2 Z.eq_dec Z.eq_dec UtilExamples.shared_inner
                [[Some (2, 20); Some (3, 30)]] 8 3 = Some 30) /\
  MapUtil.setdefault2 Z.eq_dec Z.eq_dec UtilExamples.two_level 5 2
                      UtilExamples.throwing UtilExamples.inner_maps O =
    (1%nat, [[Some (2, 20)]; []], [Some (1, O); Some (5, 1%nat)],
     MapUtil.Thrown 7%nat).
Proof.
  destruct (@X18_setdefault2 _ _ _ _ _ Z.eq_dec Z.eq_dec UtilExamples.two_level
              UtilExamples.inner_maps 1 2 (UtilExamples.counting 7000) O)
    as (Hp & _).
  destruct (@X18_setdefault2 _ _ _ _ _ Z.eq_dec Z.eq_dec UtilExamples.shared_inner
              UtilExamples.inner_maps 1 3 (UtilExamples.counting 30) O)
    as (_ & Hs & _).
  destruct (@X18_setdefault2 _ _ _ _ _ Z.eq_dec Z.eq_dec UtilExamples.two_level
              UtilExamples.inner_maps 5 2 UtilExamples.throwing O)
    as (_ & _ & Ha & _).
  split; [exact (Hp 20 eq_refl)|].
  split.
  - assert (L : (0 < length UtilExamples.inner_maps)%nat) by (simpl; lia).
    destruct (Hs O eq_refl L eq_refl) as [Hv _].
    destruct (Hv 1%nat 30 eq_refl) as (Hr & _ & Halias & _).
    split; [exact Hr|]. split; [reflexivity|].
    exact (Halias 8 eq_refl).
  - destruct (Ha eq_refl) as (_ & _ & Ht).
    destruct (Ht 1%nat 7%nat eq_refl) as [Hr _]. exact Hr.
Defined.


(** Setting key 4 of [three_map] again does not run the callback the key
    holds: the log of the callbacks stays empty. *)
Lemma X20_witness :
  user (ExpiringMap.rt
          (fst (ExpiringMap.run Z.eq_dec (ExpiringMap.CallSet 4 33 None None)
                  Examples.three_map))) = [] /\
  user (ExpiringSet.rt
          (fst (ExpiringSet.run Z.eq_dec (ExpiringSet.CallDelete 4)
                  Examples.three_set))) = [].
Proof.
  destruct (@X20_calls_without_callback _ _ _ _ _ Z.eq_dec Z.eq_dec
              Examples.three_map Examples.three_set
              (ExpiringMap.CallSet 4 33 None None) (ExpiringSet.CallDelete 4))
    as [Hm Hs].
  destruct (Hm eq_refl) as (Hu & _). destruct (Hs eq_refl) as (Hu' & _).
  split; [rewrite Hu | rewrite Hu']; reflexivity.
Defined.


(** The test "delayUntil waits for the signal": the check number 0 finds
    the signal down, the check number 1 finds it up. *)
Lemma X22_witness :
  Async.delayUntil UtilExamples.raise_signal UtilExamples.signal Async.no_options 2
                   UtilExamples.start =
  Some ({| Async.now := 1200; Async.user := true |}, Fulfilled tt).
Proof.
  rewrite (@X22_delayUntil_first_true _ _ UtilExamples.raise_signal UtilExamples.signal
             Async.no_options 1 UtilExamples.start).
  - reflexivity.
  - intros j Hj. assert (j = O) by lia. subst j. left. reflexivity.
  - intros j Hj. exact I.
  - reflexivity.
Defined.
